(** * FreeImageRe codec engine: a shallow embedding and its properties

    The development follows the sources of the repository:

    - [Source/FreeImage/GetType.cpp]   format detection (module [Registry]);
    - [Source/Plugins/PluginPCX.cpp]   the PCX signature probe (module [PCX]);
    - [Source/Plugins/PluginGIF.cpp]   the LZW string table, the GIF probe and
                                        the page loader (modules [LZW], [GIF]);
    - [Source/Plugins/PluginBMP.cpp]   the RLE4 / RLE8 decoders, the RLE8 line
                                        encoder and the OS/2 2.x palette loader
                                        (module [BMP]).

    Bytes are integers in [0, 256); C [int]s are integers whose wrap-around is
    written out where a value can leave the 32-bit range. *)

From stdpp Require Import base option list gmap.
From Stdlib Require Import ZArith Lia Bool.

Open Scope Z_scope.

(** ** The stream interface ([FreeImageIO] and [fi_handle])

    Plugins reach a stream only through [read_proc], [seek_proc] and
    [tell_proc].  The stream itself is an external collaborator; it is taken
    here with the contract of C's [fread] / [fseek] / [ftell], which is what
    the default and the memory I/O bind: a read copies as many bytes as are
    left (up to [size * count]), advances the position by that much and
    returns the number of complete items. *)
Module IO.

(** A handle that is open for reading: the bytes of the stream and the read
    position. *)
Record fi_handle : Type := Handle {
  content : list Z;
  position : nat
}.

Inductive whence : Type := SEEK_SET | SEEK_CUR | SEEK_END.

(** What one call of a stream procedure looks like from outside. *)
Inductive io_event : Type :=
| EvRead (size count : Z)
| EvSeek (offset : Z) (origin : whence)
| EvTell
| EvLoadFrame (page : Z).

(** A procedure that receives [(io, handle)]: a tree of stream calls.  The
    continuation of [ReadProc] receives the bytes stored into the caller's
    buffer and the returned item count.  [LoadFrame] stands for one run of the
    GIF single-frame decoder on a page (see [GIF.Load]); its continuation
    receives whether a bitmap came back. *)
Inductive io_prog (A : Type) : Type :=
| Ret (a : A)
| ReadProc (size count : Z) (k : list Z * Z -> io_prog A)
| SeekProc (offset : Z) (origin : whence) (k : Z -> io_prog A)
| TellProc (k : Z -> io_prog A)
| LoadFrame (page : Z) (k : bool -> io_prog A).

Arguments Ret {A} a.
Arguments ReadProc {A} size count k.
Arguments SeekProc {A} offset origin k.
Arguments TellProc {A} k.
Arguments LoadFrame {A} page k.

Fixpoint bind {A B : Type} (m : io_prog A) (f : A -> io_prog B) : io_prog B :=
  match m with
  | Ret a => f a
  | ReadProc size count k => ReadProc size count (fun r => bind (k r) f)
  | SeekProc off o k => SeekProc off o (fun r => bind (k r) f)
  | TellProc k => TellProc (fun r => bind (k r) f)
  | LoadFrame p k => LoadFrame p (fun r => bind (k r) f)
  end.

#[global] Instance io_ret : MRet io_prog := @Ret.
#[global] Instance io_bind : MBind io_prog := fun A B f m => bind m f.

Definition read_proc (size count : Z) : io_prog (list Z * Z) :=
  ReadProc size count Ret.
Definition seek_proc (offset : Z) (origin : whence) : io_prog Z :=
  SeekProc offset origin Ret.
Definition tell_proc : io_prog Z := TellProc Ret.

(** [fread]: the bytes delivered and the number of complete items. *)
Definition do_read (size count : Z) (h : fi_handle) : (list Z * Z) * fi_handle :=
  let want := Z.to_nat (size * count) in
  let got := take want (drop (position h) (content h)) in
  let items := if size <=? 0 then 0 else Z.of_nat (length got) / size in
  ((got, items), Handle (content h) (position h + length got)).

(** [fseek]: a target before the start of the stream is refused. *)
Definition do_seek (offset : Z) (origin : whence) (h : fi_handle) : Z * fi_handle :=
  let base := match origin with
              | SEEK_SET => 0
              | SEEK_CUR => Z.of_nat (position h)
              | SEEK_END => Z.of_nat (length (content h))
              end in
  let target := base + offset in
  if target <? 0 then (-1, h) else (0, Handle (content h) (Z.to_nat target)).

(** Running a procedure on a handle.  [frames] answers for the GIF frame
    decoder; the result carries the final handle and the calls made, oldest
    first. *)
Fixpoint run {A : Type} (frames : Z -> bool) (m : io_prog A) (h : fi_handle)
  : A * fi_handle * list io_event :=
  match m with
  | Ret a => (a, h, [])
  | ReadProc size count k =>
      let '(r, h1) := do_read size count h in
      let '(a, h2, tr) := run frames (k r) h1 in
      (a, h2, EvRead size count :: tr)
  | SeekProc off o k =>
      let '(r, h1) := do_seek off o h in
      let '(a, h2, tr) := run frames (k r) h1 in
      (a, h2, EvSeek off o :: tr)
  | TellProc k =>
      let '(a, h2, tr) := run frames (k (Z.of_nat (position h))) h in
      (a, h2, EvTell :: tr)
  | LoadFrame p k =>
      let '(a, h2, tr) := run frames (k (frames p)) h in
      (a, h2, EvLoadFrame p :: tr)
  end.

Definition result {A} (r : A * fi_handle * list io_event) : A := r.1.1.
Definition handle_after {A} (r : A * fi_handle * list io_event) : fi_handle := r.1.2.
Definition calls {A} (r : A * fi_handle * list io_event) : list io_event := r.2.

(** Storing [got] over the start of a buffer that held [old] (a short read
    leaves the tail of the buffer as it was). *)
Definition store (old got : list Z) : list Z :=
  got ++ drop (length got) old.

(** The byte at an offset of a stream, and the little-endian 16-bit value
    there. *)
Definition byte_at (bytes : list Z) (off : Z) : Z := nth (Z.to_nat off) bytes 0.
Definition u16_at (bytes : list Z) (off : Z) : Z :=
  byte_at bytes off + 256 * byte_at bytes (off + 1).

(** [memcmp(a, b, n) == 0] on two buffers of the same length. *)
Definition bytes_eqb (a b : list Z) : bool :=
  bool_decide (a = b).

End IO.

Import IO.

(** *** Facts about running stream procedures *)
Module IOFacts.

Lemma run_ReadProc {A} frames size count (k : list Z * Z -> io_prog A) h :
  run frames (ReadProc size count k) h =
    let r := run frames (k (do_read size count h).1) (do_read size count h).2 in
    (result r, handle_after r, EvRead size count :: calls r).
Proof.
  cbn [run]. destruct (do_read size count h) as [r h1]. cbn [fst snd].
  destruct (run frames (k r) h1) as [[a h2] tr]. reflexivity.
Qed.

Lemma run_SeekProc {A} frames off o (k : Z -> io_prog A) h :
  run frames (SeekProc off o k) h =
    let r := run frames (k (do_seek off o h).1) (do_seek off o h).2 in
    (result r, handle_after r, EvSeek off o :: calls r).
Proof.
  cbn [run]. destruct (do_seek off o h) as [r h1]. cbn [fst snd].
  destruct (run frames (k r) h1) as [[a h2] tr]. reflexivity.
Qed.

Lemma run_TellProc {A} frames (k : Z -> io_prog A) h :
  run frames (TellProc k) h =
    let r := run frames (k (Z.of_nat (position h))) h in
    (result r, handle_after r, EvTell :: calls r).
Proof.
  cbn [run]. destruct (run frames (k _) h) as [[a h2] tr]. reflexivity.
Qed.

Lemma run_LoadFrame {A} frames p (k : bool -> io_prog A) h :
  run frames (LoadFrame p k) h =
    let r := run frames (k (frames p)) h in
    (result r, handle_after r, EvLoadFrame p :: calls r).
Proof.
  cbn [run]. destruct (run frames (k _) h) as [[a h2] tr]. reflexivity.
Qed.

Lemma run_bind {A B} frames (m : io_prog A) (f : A -> io_prog B) h :
  run frames (m ≫= f) h =
    let r1 := run frames m h in
    let r2 := run frames (f (result r1)) (handle_after r1) in
    (result r2, handle_after r2, calls r1 ++ calls r2).
Proof.
  change (m ≫= f) with (bind m f).
  revert h. induction m as [a|size count k IH|off o k IH|k IH|p k IH]; intros h.
  - cbn. destruct (run frames (f a) h) as [[b h2] tr]. reflexivity.
  - cbn [bind]. rewrite !run_ReadProc. cbn zeta. rewrite IH. reflexivity.
  - cbn [bind]. rewrite !run_SeekProc. cbn zeta. rewrite IH. reflexivity.
  - cbn [bind]. rewrite !run_TellProc. cbn zeta. rewrite IH. reflexivity.
  - cbn [bind]. rewrite !run_LoadFrame. cbn zeta. rewrite IH. reflexivity.
Qed.


Lemma result_bind {A B} frames (m : io_prog A) (f : A -> io_prog B) h :
  result (run frames (m ≫= f) h) =
    result (run frames (f (result (run frames m h)))
              (handle_after (run frames m h))).
Proof. rewrite run_bind. reflexivity. Qed.

Lemma handle_after_bind {A B} frames (m : io_prog A) (f : A -> io_prog B) h :
  handle_after (run frames (m ≫= f) h) =
    handle_after (run frames (f (result (run frames m h)))
                    (handle_after (run frames m h))).
Proof. rewrite run_bind. reflexivity. Qed.

Lemma calls_bind {A B} frames (m : io_prog A) (f : A -> io_prog B) h :
  calls (run frames (m ≫= f) h) =
    calls (run frames m h) ++
    calls (run frames (f (result (run frames m h)))
             (handle_after (run frames m h))).
Proof. rewrite run_bind. reflexivity. Qed.

Lemma run_Ret {A} frames (a : A) h : run frames (Ret a) h = (a, h, []).
Proof. reflexivity. Qed.

Lemma run_read_proc frames size count h :
  run frames (read_proc size count) h =
    ((do_read size count h).1, (do_read size count h).2, [EvRead size count]).
Proof. unfold read_proc. rewrite run_ReadProc. reflexivity. Qed.

Lemma run_seek_proc frames off o h :
  run frames (seek_proc off o) h =
    ((do_seek off o h).1, (do_seek off o h).2, [EvSeek off o]).
Proof. unfold seek_proc. rewrite run_SeekProc. reflexivity. Qed.

Lemma run_tell_proc frames h :
  run frames tell_proc h = (Z.of_nat (position h), h, [EvTell]).
Proof. unfold tell_proc. rewrite run_TellProc. reflexivity. Qed.

Lemma result_pair {A} (a : A) h tr : result (a, h, tr) = a.
Proof. reflexivity. Qed.

Lemma handle_after_pair {A} (a : A) h tr : handle_after (a, h, tr) = h.
Proof. reflexivity. Qed.

Lemma calls_pair {A} (a : A) h tr : calls (a, h, tr) = tr.
Proof. reflexivity. Qed.

Create Rewrite HintDb io_run.
#[global] Hint Rewrite @result_bind @handle_after_bind @calls_bind @run_Ret
  run_read_proc run_seek_proc run_tell_proc
  @result_pair @handle_after_pair @calls_pair : io_run.

Lemma drop_nth_cons {A} (l : list A) (n : nat) (d : A) :
  (n < length l)%nat -> drop n l = nth n l d :: drop (S n) l.
Proof.
  revert n. induction l as [|x l IH]; intros [|n] H; cbn in *; try lia.
  - reflexivity.
  - apply IH. lia.
Qed.

Lemma content_do_read size count h : content (do_read size count h).2 = content h.
Proof. reflexivity. Qed.

Lemma content_do_seek off o h : content (do_seek off o h).2 = content h.
Proof. unfold do_seek. case_match; reflexivity. Qed.

(** No stream procedure changes the bytes of the stream. *)
Lemma content_run {A} frames (m : io_prog A) h :
  content (handle_after (run frames m h)) = content h.
Proof.
  revert h. induction m as [a|size count k IH|off o k IH|k IH|p k IH]; intros h.
  - reflexivity.
  - rewrite run_ReadProc. cbn. rewrite IH. reflexivity.
  - rewrite run_SeekProc. cbn. rewrite IH. apply content_do_seek.
  - rewrite run_TellProc. cbn. apply IH.
  - rewrite run_LoadFrame. cbn. apply IH.
Qed.

End IOFacts.

(** ** PluginPCX.cpp *)
Module PCX.

(** [pcx_validate]: four bytes are asked for; fewer is a rejection. *)
Definition pcx_validate : io_prog bool :=
  let pcx_signature := 0x0A in
  let signature0 := [0; 0; 0; 0] in
  '(got, n) ← read_proc 1 4;
  if negb (n =? 4) then Ret false
  else
    let signature := store signature0 got in
    Ret (match signature with
         | [s0; s1; s2; s3] =>
             if s0 =? pcx_signature then
               if s1 <=? 5 then
                 if (s2 =? 0) || (s2 =? 1) then
                   if (s3 =? 1) || (s3 =? 8) then true else false
                 else false
               else false
             else false
         | _ => false
         end).

Definition Validate : io_prog bool := pcx_validate.

End PCX.

(** *** Properties of the PCX probe *)
Module PCXFacts.

(** The bytes a probe finds at the read position. *)
Definition ahead (h : fi_handle) : list Z :=
  drop (position h) (content h).

(** What [pcx_validate] accepts, said on the four leading bytes. *)
Definition pcx_header_ok (b0 b1 b2 b3 : Z) : Prop :=
  b0 = 0x0A /\ b1 <= 5 /\ (b2 = 0 \/ b2 = 1) /\ (b3 = 1 \/ b3 = 8).

Lemma run_pcx_validate frames h :
  result (run frames PCX.pcx_validate h) =
    match take 4 (ahead h) with
    | [b0; b1; b2; b3] =>
        (b0 =? 0x0A) && (b1 <=? 5) && ((b2 =? 0) || (b2 =? 1))
        && ((b3 =? 1) || (b3 =? 8))
    | _ => false
    end.
Proof.
  unfold PCX.pcx_validate, read_proc.
  change (ReadProc 1 4 Ret ≫= ?f) with (ReadProc 1 4 (fun r => bind (Ret r) f)).
  rewrite IOFacts.run_ReadProc. cbn [bind]. unfold do_read, ahead.
  change (Z.to_nat (1 * 4)) with 4%nat. cbn [fst snd position content].
  destruct (drop (position h) (content h)) as [|b0 [|b1 [|b2 [|b3 rest]]]];
    try reflexivity.
  cbn [take length app drop]. rewrite take_0.
  change (Z.of_nat 4 / 1) with 4. cbn.
  unfold result. cbn [run fst].
  destruct (b0 =? 10), (b1 <=? 5), ((b2 =? 0) || (b2 =? 1)),
    ((b3 =? 1) || (b3 =? 8)); reflexivity.
Qed.

Lemma pcx_header_ok_iff b0 b1 b2 b3 :
  (b0 =? 0x0A) && (b1 <=? 5) && ((b2 =? 0) || (b2 =? 1))
  && ((b3 =? 1) || (b3 =? 8)) = true <-> pcx_header_ok b0 b1 b2 b3.
Proof.
  unfold pcx_header_ok.
  rewrite !andb_true_iff, !orb_true_iff, !Z.eqb_eq, Z.leb_le. tauto.
Qed.

(** C10.  The PCX probe answers [true] exactly when four bytes can be read at
    the read position and they are: the magic number 0x0A, a version of at
    most 5, an encoding of 0 or 1, and 1 or 8 bits per pixel per plane.  A
    stream with fewer than four bytes left is answered with [false] (the probe
    has no other outcome than a boolean), so the magic number alone does not
    make a PCX. *)
Theorem pcx_validate_spec (frames : Z -> bool) (h : fi_handle) :
  (result (run frames PCX.Validate h) = true <->
     exists b0 b1 b2 b3 rest,
       ahead h = b0 :: b1 :: b2 :: b3 :: rest /\ pcx_header_ok b0 b1 b2 b3)
  /\ ((length (ahead h) < 4)%nat -> result (run frames PCX.Validate h) = false)
  /\ (forall b1 b2 b3 rest,
        ahead h = 0x0A :: b1 :: b2 :: b3 :: rest ->
        ~ (b1 <= 5 /\ (b2 = 0 \/ b2 = 1) /\ (b3 = 1 \/ b3 = 8)) ->
        result (run frames PCX.Validate h) = false).
Proof.
  unfold PCX.Validate. rewrite run_pcx_validate.
  split; [|split].
  - split.
    + destruct (ahead h) as [|b0 [|b1 [|b2 [|b3 rest]]]]; cbn [take];
        try discriminate.
      rewrite take_0, pcx_header_ok_iff. intros H.
      exists b0, b1, b2, b3, rest. split; [reflexivity|exact H].
    + intros (b0 & b1 & b2 & b3 & rest & -> & H). cbn [take].
      rewrite take_0. apply pcx_header_ok_iff, H.
  - destruct (ahead h) as [|b0 [|b1 [|b2 [|b3 rest]]]]; cbn; try reflexivity.
    lia.
  - intros b1 b2 b3 rest -> H. cbn [take]. rewrite take_0.
    apply not_true_is_false. rewrite pcx_header_ok_iff.
    unfold pcx_header_ok. tauto.
Qed.

(** The theorem at work: a stream of three bytes, and a stream that starts
    with the magic number but carries version 6. *)
Lemma pcx_validate_spec_witness :
  result (run (fun _ => true) PCX.Validate (Handle [0x0A; 5; 1] 0)) = false
  /\ result (run (fun _ => true) PCX.Validate (Handle [0x0A; 6; 1; 8; 0] 0)) = false.
Proof.
  split.
  - apply (proj1 (proj2 (pcx_validate_spec (fun _ => true) (Handle [0x0A; 5; 1] 0)))).
    cbn. lia.
  - apply (proj2 (proj2 (pcx_validate_spec (fun _ => true) (Handle [0x0A; 6; 1; 8; 0] 0)))
             6 1 8 [0]).
    + reflexivity.
    + lia.
Defined.

End PCXFacts.

(** ** PluginPCX.cpp: reading the scan lines *)
Module PCXLoad.

Definition PCX_IO_BUF_SIZE : Z := 2048.

(** [buf[i]] for an array of [length buf] bytes; [None] is an index outside
    the array. *)
Definition peek (buf : list Z) (i : Z) : option Z :=
  if i <? 0 then None else buf !! Z.to_nat i.

(** The start of [readLine]'s [if (count == 0)]: when fewer than two bytes
    are left in [ReadBuf] it is filled up from the stream, keeping the last
    byte if there is one.  The result is [ReadBuf] and [ReadPos]; a short
    read leaves the rest of [ReadBuf] as it was. *)
Definition fill_ReadBuf (ReadBuf : list Z) (ReadPos : Z)
  : io_prog (option (list Z * Z)) :=
  if PCX_IO_BUF_SIZE - 1 <=? ReadPos then
    if ReadPos =? PCX_IO_BUF_SIZE - 1 then
      (* we still have one uint8_t, copy it to the start pos *)
      match peek ReadBuf (PCX_IO_BUF_SIZE - 1) with
      | Some last =>
          '(got, _) ← read_proc 1 (PCX_IO_BUF_SIZE - 1);
          Ret (Some (last :: store (drop 1 ReadBuf) got, 0))
      | None => Ret None
      end
    else
      (* read the complete buffer *)
      '(got, _) ← read_proc 1 PCX_IO_BUF_SIZE;
      Ret (Some (store ReadBuf got, 0))
  else Ret (Some (ReadBuf, ReadPos)).

(** [value = ReadBuf[ReadPos++]; if ((value & 0xC0) == 0xC0) { count = value
    & 0x3F; value = ReadBuf[ReadPos++]; } else count = 1;]: the result is
    [count], [value] and [ReadPos]. *)
Definition next_value (ReadBuf : list Z) (ReadPos : Z) : option (Z * Z * Z) :=
  value ← peek ReadBuf ReadPos;
  if Z.land value 0xC0 =? 0xC0 then
    value' ← peek ReadBuf (ReadPos + 1);
    Some (Z.land value 0x3F, value', ReadPos + 2)
  else Some (1, value, ReadPos + 1).

(** [while (length--) { ... }] of the run-length encoded read, [n] being what
    is left of [length] and [out] the bytes [buffer[0 .. written)].  [count]
    is a [uint8_t]: [count--] wraps. *)
Fixpoint rle_loop (n : nat) (count value : Z) (out ReadBuf : list Z) (ReadPos : Z)
  : io_prog (option (list Z * list Z * Z)) :=
  match n with
  | O => Ret (Some (out, ReadBuf, ReadPos))
  | S n =>
      if count =? 0 then
        filled ← fill_ReadBuf ReadBuf ReadPos;
        match filled with
        | Some (ReadBuf, ReadPos) =>
            match next_value ReadBuf ReadPos with
            | Some (count, value, ReadPos) =>
                rle_loop n ((count - 1) mod 256) value (out ++ [value])
                         ReadBuf ReadPos
            | None => Ret None
            end
        | None => Ret None
        end
      else
        rle_loop n ((count - 1) mod 256) value (out ++ [value]) ReadBuf ReadPos
  end.

(** [readLine(io, handle, buffer, length, bIsRLE, ReadBuf, ReadPos)]: the
    returned [written], then [buffer], [ReadBuf] and [ReadPos] as the call
    leaves them; [None] when an index leaves [ReadBuf].  Without run-length
    encoding [written] is what [read_proc] returns for one item of [length]
    bytes. *)
Definition readLine (buffer : list Z) (length : Z) (bIsRLE : bool)
    (ReadBuf : list Z) (ReadPos : Z)
  : io_prog (option (Z * list Z * list Z * Z)) :=
  if bIsRLE then
    r ← rle_loop (Z.to_nat length) 0 0 [] ReadBuf ReadPos;
    match r with
    | Some (out, ReadBuf, ReadPos) =>
        Ret (Some (Z.of_nat (List.length out), store buffer out, ReadBuf, ReadPos))
    | None => Ret None
    end
  else
    '(got, written) ← read_proc length 1;
    Ret (Some (written, store buffer got, ReadBuf, ReadPos)).

(** "skip trailing garbage at the end of the scanline":
    [for (count = written; count < lineLength; count++)
       if (ReadPos < PCX_IO_BUF_SIZE) ReadPos++;
       else io->read_proc(&skip, sizeof(uint8_t), 1, handle);]
    with [n] iterations to go. *)
Fixpoint skip_garbage (n : nat) (ReadPos : Z) : io_prog Z :=
  match n with
  | O => Ret ReadPos
  | S n =>
      if ReadPos <? PCX_IO_BUF_SIZE then skip_garbage n (ReadPos + 1)
      else _ ← read_proc 1 1; skip_garbage n ReadPos
  end.

Definition MIN (a b : Z) : Z := if a <? b then a else b.

(** The loop of [Load] over the rows of an image of one plane (1 or 8 bits
    per pixel), with [n] rows to go from row [y]: what is copied to the dib,
    as pairs of a scan line number and the bytes that [memcpy] stores at its
    start.  [line] is the line buffer, which is allocated once. *)
Fixpoint load_rows (n : nat) (height y lineLength pitch : Z) (bIsRLE : bool)
    (line ReadBuf : list Z) (ReadPos : Z)
  : io_prog (option (list (Z * list Z))) :=
  match n with
  | O => Ret (Some [])
  | S n =>
      r ← readLine line lineLength bIsRLE ReadBuf ReadPos;
      match r with
      | Some (written, line, ReadBuf, ReadPos) =>
          let copied := take (Z.to_nat (MIN pitch lineLength)) line in
          ReadPos ← skip_garbage (Z.to_nat (lineLength - written)) ReadPos;
          rest ← load_rows n height (y + 1) lineLength pitch bIsRLE
                   line ReadBuf ReadPos;
          Ret (rows ← rest; Some ((height - 1 - y, copied) :: rows))
      | None => Ret None
      end
  end.

(** [Load] for one plane, from "load image data" on: [line] and [ReadBuf] are
    allocated with zeros, [ReadPos] starts at the end of [ReadBuf]. *)
Definition Load_one_plane (height lineLength pitch : Z) (bIsRLE : bool)
  : io_prog (option (list (Z * list Z))) :=
  let line := replicate (Z.to_nat lineLength) 0 in
  let ReadBuf := replicate (Z.to_nat PCX_IO_BUF_SIZE) 0 in
  let ReadPos := PCX_IO_BUF_SIZE in
  load_rows (Z.to_nat height) height 0 lineLength pitch bIsRLE line ReadBuf ReadPos.

(** The inner loop of "build a nibble using the 4 planes", for one [plane]
    and with [n] pixels to go from pixel [x]:
    [index = (x / 8) + plane * header.bytes_per_line;
     mask = 0x80 >> (x & 0x07);
     buffer[x] |= (line[index] & mask) ? bit : 0;] *)
Fixpoint plane_loop (n : nat) (x plane bytes_per_line : Z) (line buffer : list Z)
  : option (list Z) :=
  match n with
  | O => Some buffer
  | S n =>
      let bit := Z.shiftl 1 plane mod 256 in
      let index := x / 8 + plane * bytes_per_line in
      let mask := Z.shiftr 0x80 (Z.land x 0x07) mod 256 in
      v ← peek line index;
      old ← peek buffer x;
      plane_loop n (x + 1) plane bytes_per_line line
        (<[Z.to_nat x := Z.lor old (if Z.land v mask =? 0 then 0 else bit)]> buffer)
  end.

(** The row of an image of four planes of one bit: [buffer] is cleared, the
    four planes are merged into it, "then write the dib row":
    [for (x = 0; x < width / 2; x++) bits[x] = (buffer[2*x] << 4) | buffer[2*x+1];]
    The result is the bytes stored from the start of the scan line on. *)
Definition four_plane_row (width bytes_per_line : Z) (line : list Z)
  : option (list Z) :=
  let buffer := replicate (Z.to_nat width) 0 in
  buffer ← plane_loop (Z.to_nat width) 0 0 bytes_per_line line buffer;
  buffer ← plane_loop (Z.to_nat width) 0 1 bytes_per_line line buffer;
  buffer ← plane_loop (Z.to_nat width) 0 2 bytes_per_line line buffer;
  buffer ← plane_loop (Z.to_nat width) 0 3 bytes_per_line line buffer;
  mapM (fun x : nat =>
          hi ← peek buffer (2 * Z.of_nat x);
          lo ← peek buffer (2 * Z.of_nat x + 1);
          Some (Z.lor (Z.shiftl hi 4) lo mod 256))
       (seq 0 (Z.to_nat (width / 2))).

(** The row of an image of three planes of eight bits: the three loops over
    [x < width], each reading [pLine[x]] with [pLine] moved on by
    [bytes_per_line], give the red, green and blue bytes of the pixels;
    [None] when a read leaves the [lineLength = 3 * bytes_per_line] bytes of
    [line]. *)
Definition three_plane_row (width bytes_per_line : Z) (line : list Z)
  : option (list Z * list Z * list Z) :=
  let plane (p : Z) :=
    mapM (fun x => peek line (Z.of_nat x + p * bytes_per_line))
         (seq 0 (Z.to_nat width)) in
  red ← plane 0; green ← plane 1; blue ← plane 2;
  Some (red, green, blue).

(** *** The header *)

(** [PCXHEADER], 128 bytes that are packed without padding. *)
Record PCXHEADER : Type := {
  manufacturer : Z;
  version : Z;
  encoding : Z;
  bpp : Z;
  window : list Z;
  hdpi : Z;
  vdpi : Z;
  color_map : list Z;
  reserved : Z;
  planes : Z;
  bytes_per_line : Z;
  palette_info : Z;
  h_screen_size : Z;
  v_screen_size : Z;
  filler : list Z
}.

Definition sizeof_PCXHEADER : Z := 128.

(** The header that [read_proc(&header, sizeof(PCXHEADER), 1, handle)] stores
    when it has read [bytes] (little-endian target). *)
Definition header_of (bytes : list Z) : PCXHEADER :=
  {| manufacturer := byte_at bytes 0;
     version := byte_at bytes 1;
     encoding := byte_at bytes 2;
     bpp := byte_at bytes 3;
     window := [u16_at bytes 4; u16_at bytes 6; u16_at bytes 8; u16_at bytes 10];
     hdpi := u16_at bytes 12;
     vdpi := u16_at bytes 14;
     color_map := take 48 (drop 16 bytes);
     reserved := byte_at bytes 64;
     planes := byte_at bytes 65;
     bytes_per_line := u16_at bytes 66;
     palette_info := u16_at bytes 68;
     h_screen_size := u16_at bytes 70;
     v_screen_size := u16_at bytes 72;
     filler := take 54 (drop 74 bytes) |}.

Inductive message : Type :=
| FI_MSG_ERROR_MAGIC_NUMBER
| FI_MSG_ERROR_PARSING
| FI_MSG_ERROR_DIB_MEMORY
| FI_MSG_ERROR_UNSUPPORTED_FORMAT.

(** How the first part of [Load] ends: with [nullptr] for a null handle,
    with a message that is thrown (and [nullptr]), or with a dib of the given
    width, height and bit count allocated. *)
Inductive allocation : Type :=
| Null
| Thrown (text : message)
| Allocated (header : PCXHEADER) (width height bitcount : Z).

(** [Load] from its start to "if the dib couldn't be allocated, throw an
    error".  [handle] says whether the handle is non-null, [header_only] is
    [(flags & FIF_LOAD_NOPIXELS) == FIF_LOAD_NOPIXELS], and
    [FreeImage_AllocateHeader] answers whether the dib could be allocated. *)
Definition Load_allocate (FreeImage_AllocateHeader : bool -> Z -> Z -> Z -> bool)
    (handle header_only : bool) : io_prog allocation :=
  if negb handle then Ret Null
  else
    (* check PCX identifier *)
    start_pos ← tell_proc;
    bValidated ← PCX.pcx_validate;
    _ ← seek_proc start_pos SEEK_SET;
    if negb bValidated then Ret (Thrown FI_MSG_ERROR_MAGIC_NUMBER)
    else
      (* process the header *)
      '(got, count) ← read_proc sizeof_PCXHEADER 1;
      if negb (count =? 1) then Ret (Thrown FI_MSG_ERROR_PARSING)
      else
        let header := header_of got in
        (* process the window *)
        let left := nth 0 (window header) 0 in
        let top := nth 1 (window header) 0 in
        let right := nth 2 (window header) 0 in
        let bottom := nth 3 (window header) 0 in
        (* check image size *)
        if (right <=? left) || (bottom <=? top)
        then Ret (Thrown FI_MSG_ERROR_PARSING)
        else
          let width := right - left + 1 in
          let height := bottom - top + 1 in
          let bitcount := bpp header * planes header in
          (* allocate a new dib *)
          if (bitcount =? 1) || (bitcount =? 4) || (bitcount =? 8) || (bitcount =? 24)
          then
            if FreeImage_AllocateHeader header_only width height bitcount
            then Ret (Allocated header width height bitcount)
            else Ret (Thrown FI_MSG_ERROR_DIB_MEMORY)
          else Ret (Thrown FI_MSG_ERROR_DIB_MEMORY).

(** The three layouts of the pixels that [Load] reads. *)
Inductive layout : Type := OnePlane | FourPlanes | ThreePlanes.

(** The choice between the three loops over the rows, and
    [throw FI_MSG_ERROR_UNSUPPORTED_FORMAT] for everything else. *)
Definition Load_layout (header : PCXHEADER) : message + layout :=
  if (planes header =? 1) && ((bpp header =? 1) || (bpp header =? 8))
  then inr OnePlane
  else if (planes header =? 4) && (bpp header =? 1) then inr FourPlanes
  else if (planes header =? 3) && (bpp header =? 8) then inr ThreePlanes
  else inl FI_MSG_ERROR_UNSUPPORTED_FORMAT.

End PCXLoad.

(** *** Properties of the scan line reader *)
Module PCXLoadFacts.
Import PCXLoad IOFacts.

Lemma peek_Some (buf : list Z) (i : Z) :
  0 <= i < Z.of_nat (length buf) -> exists v, peek buf i = Some v.
Proof.
  intros H. unfold peek. destruct (Z.ltb_spec i 0); [lia|].
  destruct (lookup_lt_is_Some_2 buf (Z.to_nat i)) as [v Hv]; [lia|].
  exists v. exact Hv.
Qed.

Lemma length_store (old got : list Z) :
  (length got <= length old)%nat -> length (store old got) = length old.
Proof. intros H. unfold store. rewrite length_app, length_drop. lia. Qed.

Lemma length_got size count h :
  (length (do_read size count h).1.1 <= Z.to_nat (size * count))%nat.
Proof. unfold do_read. cbn. rewrite length_take. lia. Qed.

(** After the refill two bytes can be read. *)
Lemma fill_ReadBuf_ready frames ReadBuf ReadPos h :
  length ReadBuf = Z.to_nat PCX_IO_BUF_SIZE -> 0 <= ReadPos <= PCX_IO_BUF_SIZE ->
  exists ReadBuf' ReadPos',
    result (run frames (fill_ReadBuf ReadBuf ReadPos) h) = Some (ReadBuf', ReadPos')
    /\ length ReadBuf' = Z.to_nat PCX_IO_BUF_SIZE
    /\ 0 <= ReadPos' < PCX_IO_BUF_SIZE - 1.
Proof.
  unfold PCX_IO_BUF_SIZE. intros Hlen Hpos. unfold fill_ReadBuf, PCX_IO_BUF_SIZE.
  destruct (Z.leb_spec (2048 - 1) ReadPos) as [Hge|Hlt].
  - destruct (Z.eqb_spec ReadPos (2048 - 1)) as [->|Hne].
    + destruct (peek_Some ReadBuf (2048 - 1)) as [last ->]; [lia|].
      rewrite result_bind, run_read_proc.
      rewrite result_pair, handle_after_pair.
      pose proof (length_got 1 (2048 - 1) h) as Hgot.
      destruct (do_read 1 (2048 - 1) h) as [[got items] h']. cbn [fst snd] in *.
      eexists _, _. split; [reflexivity|]. split; [|lia].
      cbn [length]. rewrite length_store; rewrite length_drop; lia.
    + rewrite result_bind, run_read_proc.
      rewrite result_pair, handle_after_pair.
      pose proof (length_got 1 2048 h) as Hgot.
      destruct (do_read 1 2048 h) as [[got items] h']. cbn [fst snd] in *.
      eexists _, _. split; [reflexivity|]. split; [|lia].
      rewrite length_store; lia.
  - eexists _, _. split; [reflexivity|]. split; [exact Hlen|lia].
Qed.

Lemma next_value_ready ReadBuf ReadPos :
  length ReadBuf = Z.to_nat PCX_IO_BUF_SIZE -> 0 <= ReadPos < PCX_IO_BUF_SIZE - 1 ->
  exists count value ReadPos',
    next_value ReadBuf ReadPos = Some (count, value, ReadPos')
    /\ 0 <= ReadPos' <= PCX_IO_BUF_SIZE.
Proof.
  unfold PCX_IO_BUF_SIZE. intros Hlen Hpos. unfold next_value.
  destruct (peek_Some ReadBuf ReadPos) as [v ->]; [lia|]. cbn.
  destruct (Z.land v 192 =? 192).
  - destruct (peek_Some ReadBuf (ReadPos + 1)) as [v' ->]; [lia|]. cbn.
    eexists _, _, _. split; [reflexivity|lia].
  - eexists _, _, _. split; [reflexivity|lia].
Qed.

Lemma rle_loop_fills frames n count value out ReadBuf ReadPos h :
  length ReadBuf = Z.to_nat PCX_IO_BUF_SIZE -> 0 <= ReadPos <= PCX_IO_BUF_SIZE ->
  exists out' ReadBuf' ReadPos',
    result (run frames (rle_loop n count value out ReadBuf ReadPos) h)
      = Some (out ++ out', ReadBuf', ReadPos')
    /\ length out' = n
    /\ length ReadBuf' = Z.to_nat PCX_IO_BUF_SIZE
    /\ 0 <= ReadPos' <= PCX_IO_BUF_SIZE.
Proof.
  revert count value out ReadBuf ReadPos h.
  induction n as [|n IH]; intros count value out ReadBuf ReadPos h Hlen Hpos;
    cbn [rle_loop].
  - exists [], ReadBuf, ReadPos. rewrite app_nil_r. auto.
  - destruct (count =? 0).
    + rewrite result_bind.
      destruct (fill_ReadBuf_ready frames ReadBuf ReadPos h Hlen Hpos)
        as (ReadBuf1 & ReadPos1 & -> & Hlen1 & Hpos1).
      destruct (next_value_ready ReadBuf1 ReadPos1 Hlen1 Hpos1)
        as (count2 & value2 & ReadPos2 & -> & Hpos2).
      destruct (IH ((count2 - 1) mod 256) value2 (out ++ [value2]) ReadBuf1 ReadPos2
                  (handle_after (run frames (fill_ReadBuf ReadBuf ReadPos) h))
                  Hlen1 Hpos2)
        as (out' & ReadBuf' & ReadPos' & -> & Hn & Hlen' & Hpos').
      exists (value2 :: out'), ReadBuf', ReadPos'.
      rewrite <- app_assoc. cbn. auto.
    + destruct (IH ((count - 1) mod 256) value (out ++ [value]) ReadBuf ReadPos h
                  Hlen Hpos)
        as (out' & ReadBuf' & ReadPos' & -> & Hn & Hlen' & Hpos').
      exists (value :: out'), ReadBuf', ReadPos'.
      rewrite <- app_assoc. cbn. auto.
Qed.

(** A run-length encoded read always delivers the whole line, whatever the
    stream holds and even when the stream has ended (the bytes then come from
    what [ReadBuf] held before), and it never leaves [ReadBuf]: every index
    it reads is below [PCX_IO_BUF_SIZE], and [ReadPos] is at most
    [PCX_IO_BUF_SIZE] afterwards.  The returned [written] is [length], so the
    loop of [Load] that skips [lineLength - written] bytes of "trailing
    garbage" does nothing for a run-length encoded file. *)
Theorem readLine_rle_fills (frames : Z -> bool) (buffer : list Z) (len : Z)
    (ReadBuf : list Z) (ReadPos : Z) (h : fi_handle) :
  length ReadBuf = Z.to_nat PCX_IO_BUF_SIZE -> 0 <= ReadPos <= PCX_IO_BUF_SIZE ->
  0 <= len ->
  exists out ReadBuf' ReadPos',
    result (run frames (readLine buffer len true ReadBuf ReadPos) h)
      = Some (len, store buffer out, ReadBuf', ReadPos')
    /\ Z.of_nat (length out) = len
    /\ length ReadBuf' = Z.to_nat PCX_IO_BUF_SIZE
    /\ 0 <= ReadPos' <= PCX_IO_BUF_SIZE.
Proof.
  intros Hlen Hpos Hl. unfold readLine. rewrite result_bind.
  destruct (rle_loop_fills frames (Z.to_nat len) 0 0 [] ReadBuf ReadPos h Hlen Hpos)
    as (out & ReadBuf' & ReadPos' & -> & Hn & Hlen' & Hpos').
  exists out, ReadBuf', ReadPos'. cbn [app]. rewrite run_Ret, result_pair.
  rewrite Hn, Z2Nat.id by lia. auto.
Qed.

Lemma readLine_rle_fills_witness :
  exists out ReadBuf' ReadPos',
    result (run (fun _ => true)
              (readLine [0; 0; 0] 3 true (replicate 2048 0) 2048)
              (Handle [0xC2; 7] 0))
      = Some (3, store [0; 0; 0] out, ReadBuf', ReadPos')
    /\ Z.of_nat (length out) = 3
    /\ length ReadBuf' = Z.to_nat PCX_IO_BUF_SIZE
    /\ 0 <= ReadPos' <= PCX_IO_BUF_SIZE.
Proof.
  apply (readLine_rle_fills (fun _ => true) [0; 0; 0] 3 (replicate 2048 0) 2048
           (Handle [0xC2; 7] 0)).
  - reflexivity.
  - unfold PCX_IO_BUF_SIZE. lia.
  - lia.
Defined.

Lemma rle_loop_run (m : nat) (count value : Z) (out ReadBuf : list Z) (ReadPos : Z) :
  Z.of_nat m <= count <= 255 ->
  rle_loop m count value out ReadBuf ReadPos
  = Ret (Some (out ++ replicate m value, ReadBuf, ReadPos)).
Proof.
  revert count out. induction m as [|m IH]; intros count out Hc; cbn [rle_loop replicate].
  - rewrite app_nil_r. reflexivity.
  - destruct (Z.eqb_spec count 0); [lia|].
    rewrite Z.mod_small by lia. rewrite IH by lia.
    rewrite <- app_assoc. reflexivity.
Qed.

(** The length of the run that a count byte announces: the low six bits, and
    256 when they are zero, because the [uint8_t] count is decremented before
    it is tested again. *)
Definition run_length (b : Z) : Z :=
  if Z.land b 0x3F =? 0 then 256 else Z.land b 0x3F.

(** A run is cut at the end of the line.  When [ReadBuf] holds a count byte
    (top two bits set) and a value at [ReadPos], a read of [len] bytes with
    [len] at most the length of the run stores [len] times the value,
    consumes both bytes and does not touch the stream.  What is left of the
    run is dropped: [count] is local to the call, so the next line starts
    with the byte after the value.  A count byte 0xC0 stands for a run of
    256. *)
Theorem readLine_run_cut (frames : Z -> bool) (buffer : list Z) (len : Z)
    (ReadBuf : list Z) (ReadPos b v : Z) (h : fi_handle) :
  0 <= ReadPos < PCX_IO_BUF_SIZE - 1 ->
  peek ReadBuf ReadPos = Some b -> Z.land b 0xC0 = 0xC0 ->
  peek ReadBuf (ReadPos + 1) = Some v ->
  1 <= len <= run_length b ->
  run frames (readLine buffer len true ReadBuf ReadPos) h
  = (Some (len, store buffer (replicate (Z.to_nat len) v), ReadBuf, ReadPos + 2),
     h, []).
Proof.
  unfold PCX_IO_BUF_SIZE, run_length. intros Hpos Hb Hrun Hv Hlen.
  assert (Hn : 0 <= Z.land b 63 < 64).
  { change 63 with (Z.ones 6). rewrite Z.land_ones by lia.
    apply Z.mod_pos_bound. lia. }
  unfold readLine.
  destruct (Z.to_nat len) as [|m] eqn:Hm; [lia|].
  cbn [rle_loop]. change (0 =? 0) with true. cbv iota.
  unfold fill_ReadBuf, PCX_IO_BUF_SIZE.
  destruct (Z.leb_spec (2048 - 1) ReadPos); [lia|].
  change (Ret ?a ≫= ?f) with (f a). cbv beta iota.
  unfold next_value. rewrite Hb. cbn [mbind option_bind].
  rewrite Hrun. change (192 =? 192) with true. cbv iota.
  rewrite Hv. cbn [mbind option_bind].
  rewrite rle_loop_run.
  - change (Ret ?a ≫= ?f) with (f a). cbv beta iota. cbn [run app].
    rewrite length_cons, length_replicate.
    replace (Z.of_nat (S m)) with len by lia. reflexivity.
  - destruct (Z.eqb_spec (Z.land b 63) 0) as [E|E].
    + rewrite E. change ((0 - 1) mod 256) with 255. lia.
    + rewrite Z.mod_small by lia. lia.
Qed.

(** The theorem at work: a run of 5 read into a line of 3, and the count
    byte 0xC0 read into a line of 256. *)
Lemma readLine_run_cut_witness :
  run (fun _ => true) (readLine [0; 0; 0] 3 true [0xC5; 9; 1; 2] 0) (Handle [] 0)
  = (Some (3, store [0; 0; 0] (replicate 3 9), [0xC5; 9; 1; 2], 2), Handle [] 0, [])
  /\ run (fun _ => true) (readLine [] 256 true [0xC0; 9] 0) (Handle [] 0)
     = (Some (256, store [] (replicate 256 9), [0xC0; 9], 2), Handle [] 0, []).
Proof.
  split.
  - apply (readLine_run_cut (fun _ => true) [0; 0; 0] 3 [0xC5; 9; 1; 2] 0 0xC5 9);
      try reflexivity; unfold PCX_IO_BUF_SIZE; try lia.
    vm_compute. split; discriminate.
  - apply (readLine_run_cut (fun _ => true) [] 256 [0xC0; 9] 0 0xC0 9);
      try reflexivity; unfold PCX_IO_BUF_SIZE; try lia.
    vm_compute. split; discriminate.
Defined.


(** **** Files without run-length encoding *)

Lemma do_read_available size count h :
  0 < size -> 0 <= count ->
  Z.of_nat (position h) + size * count <= Z.of_nat (length (content h)) ->
  do_read size count h
  = ((take (Z.to_nat (size * count)) (drop (position h) (content h)), count),
     Handle (content h) (position h + Z.to_nat (size * count))).
Proof.
  intros Hs Hc Hav. unfold do_read. cbv zeta.
  assert (Hlen : length (take (Z.to_nat (size * count))
                           (drop (position h) (content h)))
                 = Z.to_nat (size * count)).
  { rewrite length_take, length_drop. nia. }
  rewrite Hlen. destruct (Z.leb_spec size 0); [lia|].
  rewrite Z2Nat.id by nia. rewrite Z.mul_comm, Z.div_mul by lia. reflexivity.
Qed.

(** With [ReadPos] at the end of [ReadBuf], the loop that skips "trailing
    garbage" reads the bytes it skips from the stream. *)
Lemma skip_garbage_stream frames (n : nat) h :
  (position h + n <= length (content h))%nat ->
  result (run frames (skip_garbage n PCX_IO_BUF_SIZE) h) = PCX_IO_BUF_SIZE
  /\ handle_after (run frames (skip_garbage n PCX_IO_BUF_SIZE) h)
     = Handle (content h) (position h + n).
Proof.
  revert h. induction n as [|n IH]; intros h Hav; cbn [skip_garbage].
  - rewrite run_Ret, result_pair, handle_after_pair, Nat.add_0_r.
    destruct h. auto.
  - change (PCX_IO_BUF_SIZE <? PCX_IO_BUF_SIZE) with false. cbv iota.
    rewrite result_bind, handle_after_bind, run_read_proc.
    rewrite ?result_pair, ?handle_after_pair.
    rewrite do_read_available by lia. cbn [fst snd].
    change (Z.to_nat (1 * 1)) with 1%nat.
    destruct (IH (Handle (content h) (position h + 1))) as [Hr Hh];
      [cbn; lia|].
    rewrite Hr, Hh. cbn [content position].
    split; [reflexivity|]. f_equal. lia.
Qed.

Lemma MIN_le_r a b : MIN a b <= b.
Proof. unfold MIN. destruct (Z.ltb_spec a b); lia. Qed.

Lemma load_rows_uncompressed frames (n : nat) height y lineLength pitch
    line ReadBuf h :
  1 <= lineLength -> length line = Z.to_nat lineLength ->
  Z.of_nat (position h) + Z.of_nat n * (2 * lineLength - 1)
    <= Z.of_nat (length (content h)) ->
  result (run frames (load_rows n height y lineLength pitch false
                        line ReadBuf PCX_IO_BUF_SIZE) h)
  = Some (map (fun k : nat =>
                 (height - 1 - (y + Z.of_nat k),
                  take (Z.to_nat (MIN pitch lineLength))
                       (drop (position h + k * Z.to_nat (2 * lineLength - 1))
                             (content h))))
              (seq 0 n)).
Proof.
  intros HL. revert y line h.
  induction n as [|n IH]; intros y line h Hline Hav; cbn [load_rows seq map].
  - reflexivity.
  - unfold readLine. rewrite result_bind.
    rewrite result_bind, handle_after_bind, run_read_proc.
    rewrite !result_pair, !handle_after_pair.
    rewrite do_read_available by nia. cbn [fst snd].
    rewrite run_Ret, result_pair, handle_after_pair.
    rewrite Z.mul_1_r.
    set (got := take (Z.to_nat lineLength) (drop (position h) (content h))).
    assert (Hgot : length got = Z.to_nat lineLength).
    { unfold got. rewrite length_take, length_drop. nia. }
    assert (Hstore : store line got = got).
    { unfold store. rewrite drop_ge by lia. apply app_nil_r. }
    rewrite Hstore.
    rewrite result_bind.
    set (h1 := Handle (content h) (position h + Z.to_nat lineLength)).
    destruct (skip_garbage_stream frames (Z.to_nat (lineLength - 1)) h1) as [Hr Hh];
      [unfold h1; cbn; nia|].
    rewrite Hr, Hh. clear Hr Hh.
    rewrite result_bind.
    rewrite IH by (try exact Hgot; unfold h1; cbn [position content]; nia).
    rewrite run_Ret, result_pair. cbn [mbind option_bind].
    f_equal. f_equal.
    + f_equal.
      * f_equal. lia.
      * unfold got. rewrite take_take. rewrite Nat.add_0_r.
        f_equal. pose proof (MIN_le_r pitch lineLength). lia.
    + rewrite <- seq_shift, map_map. apply map_ext. intros k.
      unfold h1. cbn [position content]. f_equal; [lia|].
      f_equal. f_equal. nia.
Qed.

(** A file without run-length encoding is not read row after row.  In that
    mode [readLine] returns the number of items that [read_proc] has read,
    which is 1 for a whole line, and [Load] takes it for the number of bytes:
    it skips the other [lineLength - 1] as "trailing garbage".  So the row
    [k] of an image of one plane comes from offset [k * (2 * lineLength - 1)]
    of the image data, not from [k * lineLength]. *)
Theorem Load_uncompressed_rows (frames : Z -> bool)
    (height lineLength pitch : Z) (h : fi_handle) :
  0 <= height -> 1 <= lineLength ->
  Z.of_nat (position h) + height * (2 * lineLength - 1)
    <= Z.of_nat (length (content h)) ->
  result (run frames (Load_one_plane height lineLength pitch false) h)
  = Some (map (fun k : nat =>
                 (height - 1 - Z.of_nat k,
                  take (Z.to_nat (MIN pitch lineLength))
                       (drop (position h + k * Z.to_nat (2 * lineLength - 1))
                             (content h))))
              (seq 0 (Z.to_nat height))).
Proof.
  intros Hh HL Hav. unfold Load_one_plane.
  rewrite load_rows_uncompressed.
  - reflexivity.
  - exact HL.
  - apply length_replicate.
  - rewrite Z2Nat.id by lia. exact Hav.
Qed.

(** The theorem at work: two rows of three bytes; the second row starts at
    the sixth byte of the data. *)
Lemma Load_uncompressed_rows_witness :
  result (run (fun _ => true) (Load_one_plane 2 3 4 false)
            (Handle [1; 2; 3; 4; 5; 6; 7; 8; 9; 10] 0))
  = Some [(1, [1; 2; 3]); (0, [6; 7; 8])].
Proof.
  rewrite (Load_uncompressed_rows (fun _ => true) 2 3 4
             (Handle [1; 2; 3; 4; 5; 6; 7; 8; 9; 10] 0)).
  - reflexivity.
  - lia.
  - lia.
  - cbn. lia.
Defined.


(** **** The rows of an image of three planes *)

Lemma peek_lookup (buf : list Z) (i : nat) : peek buf (Z.of_nat i) = buf !! i.
Proof.
  unfold peek. destruct (Z.ltb_spec (Z.of_nat i) 0); [lia|].
  rewrite Nat2Z.id. reflexivity.
Qed.

Lemma mapM_peek (line : list Z) (off : Z) (n s : nat) :
  0 <= off -> (s + Z.to_nat off + n <= length line)%nat ->
  mapM (fun x : nat => peek line (Z.of_nat x + off)) (seq s n)
  = Some (take n (drop (s + Z.to_nat off) line)).
Proof.
  intros Hoff. revert s. induction n as [|n IH]; intros s Hlen; cbn [seq mapM].
  - reflexivity.
  - replace (Z.of_nat s + off) with (Z.of_nat (s + Z.to_nat off)) by lia.
    rewrite peek_lookup.
    destruct (lookup_lt_is_Some_2 line (s + Z.to_nat off)) as [v Hv]; [lia|].
    rewrite Hv. cbn [mbind option_bind].
    rewrite IH by lia. cbn [mbind option_bind mret option_ret].
    rewrite (drop_S _ _ _ Hv). reflexivity.
Qed.

(** The red, green and blue bytes of a row are the first [width] bytes of the
    three planes of the line, provided that [bytes_per_line] is at least
    [width].  [Load] does not check that: with a header whose
    [bytes_per_line] is smaller than the width of the window, the loop over
    the last plane reads past the [3 * bytes_per_line] bytes of [line]. *)
Theorem three_plane_row_spec (width bytes_per_line : Z) (line : list Z) :
  0 <= width -> 0 <= bytes_per_line ->
  length line = Z.to_nat (3 * bytes_per_line) ->
  (width <= bytes_per_line ->
     three_plane_row width bytes_per_line line
     = Some (take (Z.to_nat width) line,
             take (Z.to_nat width) (drop (Z.to_nat bytes_per_line) line),
             take (Z.to_nat width) (drop (Z.to_nat (2 * bytes_per_line)) line)))
  /\ (bytes_per_line < width ->
        three_plane_row width bytes_per_line line = None).
Proof.
  intros Hw Hb Hlen. unfold three_plane_row. split.
  - intros Hle.
    assert (Hplane : forall p : Z, 0 <= p <= 2 ->
              mapM (fun x : nat => peek line (Z.of_nat x + p * bytes_per_line))
                   (seq 0 (Z.to_nat width))
              = Some (take (Z.to_nat width)
                        (drop (Z.to_nat (p * bytes_per_line)) line))).
    { intros p Hp. rewrite mapM_peek by nia. reflexivity. }
    rewrite (Hplane 0), (Hplane 1), (Hplane 2) by lia.
    cbn [mbind option_bind]. rewrite Z.mul_0_l, Z.mul_1_l. reflexivity.
  - intros Hlt.
    assert (Hblue : mapM (fun x : nat => peek line (Z.of_nat x + 2 * bytes_per_line))
                         (seq 0 (Z.to_nat width)) = None).
    { apply eq_None_not_Some. rewrite mapM_is_Some, Forall_forall.
      intros Hsome. specialize (Hsome (Z.to_nat bytes_per_line)).
      destruct Hsome as [v Hv].
      { apply list_elem_of_In, in_seq. lia. }
      cbn in Hv.
      replace (Z.of_nat (Z.to_nat bytes_per_line) + 2 * bytes_per_line)
        with (Z.of_nat (Z.to_nat (3 * bytes_per_line))) in Hv by lia.
      rewrite peek_lookup in Hv.
      apply lookup_lt_Some in Hv. lia. }
    rewrite Hblue.
    destruct (mapM (fun x : nat => peek line (Z.of_nat x + 0 * bytes_per_line)) _)
      as [red|]; [|reflexivity].
    cbn [mbind option_bind].
    destruct (mapM (fun x : nat => peek line (Z.of_nat x + 1 * bytes_per_line)) _)
      as [green|]; reflexivity.
Qed.

(** The theorem at work: two pixels in planes of two bytes, and the same
    line under a width of three. *)
Lemma three_plane_row_spec_witness :
  three_plane_row 2 2 [1; 2; 3; 4; 5; 6] = Some ([1; 2], [3; 4], [5; 6])
  /\ three_plane_row 3 2 [1; 2; 3; 4; 5; 6] = None.
Proof.
  split.
  - apply (proj1 (three_plane_row_spec 2 2 [1; 2; 3; 4; 5; 6]
                    ltac:(lia) ltac:(lia) eq_refl)). lia.
  - apply (proj2 (three_plane_row_spec 3 2 [1; 2; 3; 4; 5; 6]
                    ltac:(lia) ltac:(lia) eq_refl)). lia.
Defined.


(** **** The rows of an image of four planes *)

(** Bit [plane] of the pixel [x], as the line holds it: the bit [7 - x mod 8]
    of the byte [x / 8] of the plane. *)
Definition plane_bit (bytes_per_line : Z) (line : list Z) (plane x : Z) : bool :=
  Z.testbit (nth (Z.to_nat (x / 8 + plane * bytes_per_line)) line 0) (7 - x mod 8).

(** The pixel [x] of the line, a number below 16. *)
Definition pixel (bytes_per_line : Z) (line : list Z) (x : Z) : Z :=
  Z.b2z (plane_bit bytes_per_line line 0 x)
  + 2 * Z.b2z (plane_bit bytes_per_line line 1 x)
  + 4 * Z.b2z (plane_bit bytes_per_line line 2 x)
  + 8 * Z.b2z (plane_bit bytes_per_line line 3 x).

(** The list [f 0, ..., f (w - 1)]. *)
Definition tab (f : nat -> Z) (w : nat) : list Z := map f (seq 0 w).

Lemma lookup_tab f w i : (i < w)%nat -> tab f w !! i = Some (f i).
Proof.
  intros H. unfold tab. rewrite list_lookup_fmap, lookup_seq_lt by lia.
  reflexivity.
Qed.

Lemma insert_tab f w x v :
  <[x := v]> (tab f w) = tab (fun i => if decide (i = x) then v else f i) w.
Proof.
  apply list_eq. intros i.
  destruct (decide (i < w)%nat) as [Hi|Hi].
  - rewrite (lookup_tab _ _ _ Hi).
    destruct (decide (i = x)) as [->|Hne].
    + rewrite list_lookup_insert_eq; [reflexivity|].
      unfold tab. rewrite length_map, length_seq. exact Hi.
    + rewrite list_lookup_insert_ne by congruence. apply lookup_tab, Hi.
  - rewrite !lookup_ge_None_2; [reflexivity| |];
      rewrite ?length_insert; unfold tab; rewrite length_map, length_seq; lia.
Qed.

Lemma tab_ext f g w : (forall i, (i < w)%nat -> f i = g i) -> tab f w = tab g w.
Proof.
  intros H. unfold tab. apply map_ext_in. intros i Hi. apply in_seq in Hi.
  apply H. lia.
Qed.

Lemma peek_nth (buf : list Z) (i : Z) :
  0 <= i < Z.of_nat (length buf) -> peek buf i = Some (nth (Z.to_nat i) buf 0).
Proof.
  intros H. unfold peek. destruct (Z.ltb_spec i 0); [lia|].
  destruct (lookup_lt_is_Some_2 buf (Z.to_nat i)) as [v Hv]; [lia|].
  rewrite Hv, (nth_lookup_Some _ _ 0 _ Hv). reflexivity.
Qed.

Lemma mask_bit (v x : Z) :
  (Z.land v (Z.shiftr 0x80 (Z.land x 0x07) mod 256) =? 0)
  = negb (Z.testbit v (7 - x mod 8)).
Proof.
  change 7 with (Z.ones 3) at 1. rewrite Z.land_ones by lia. change (2 ^ 3) with 8.
  pose proof (Z.mod_pos_bound x 8 ltac:(lia)) as Hk.
  set (k := x mod 8) in *.
  assert (Hmask : Z.shiftr 128 k mod 256 = 2 ^ (7 - k)).
  { assert (Hc : k = 0 \/ k = 1 \/ k = 2 \/ k = 3 \/ k = 4 \/ k = 5 \/ k = 6 \/ k = 7)
      by lia.
    destruct Hc as [-> | [-> | [-> | [-> | [-> | [-> | [-> | ->]]]]]]]; reflexivity. }
  rewrite Hmask.
  assert (Hland : Z.land v (2 ^ (7 - k))
                  = if Z.testbit v (7 - k) then 2 ^ (7 - k) else 0).
  { apply Z.bits_inj'. intros i Hi. rewrite Z.land_spec.
    rewrite Z.pow2_bits_eqb by lia.
    destruct (Z.eqb_spec (7 - k) i) as [<-|Hne].
    - destruct (Z.testbit v (7 - k)) eqn:E.
      + rewrite Z.pow2_bits_true by lia. reflexivity.
      + rewrite Z.bits_0. reflexivity.
    - rewrite andb_false_r.
      destruct (Z.testbit v (7 - k)).
      + rewrite Z.pow2_bits_false by lia. reflexivity.
      + rewrite Z.bits_0. reflexivity. }
  rewrite Hland. destruct (Z.testbit v (7 - k)); cbn [negb].
  - apply Z.eqb_neq. pose proof (Z.pow_pos_nonneg 2 (7 - k) ltac:(lia) ltac:(lia)). lia.
  - reflexivity.
Qed.

(** One plane merged into the buffer. *)
Lemma plane_loop_tab (w : nat) (plane bytes_per_line : Z) (line : list Z)
    (n : nat) (x : nat) (f : nat -> Z) :
  0 <= plane <= 3 -> 0 <= bytes_per_line ->
  (Z.of_nat w - 1) / 8 < bytes_per_line \/ w = 0%nat ->
  length line = Z.to_nat (4 * bytes_per_line) ->
  (x + n = w)%nat ->
  plane_loop n (Z.of_nat x) plane bytes_per_line line (tab f w)
  = Some (tab (fun i => if decide (x <= i)%nat
                        then Z.lor (f i)
                               (if plane_bit bytes_per_line line plane (Z.of_nat i)
                                then Z.shiftl 1 plane mod 256 else 0)
                        else f i) w).
Proof.
  intros Hp Hb Hw Hlen. revert x f.
  induction n as [|n IH]; intros x f Hx; cbn [plane_loop]; cbv zeta.
  - f_equal. apply tab_ext. intros i Hi. destruct (decide (x <= i)%nat); [lia|].
    reflexivity.
  - assert (Hidx : 0 <= Z.of_nat x / 8 + plane * bytes_per_line
                   < Z.of_nat (length line)).
    { destruct Hw as [Hw|Hw]; [|lia].
      assert (Z.of_nat x / 8 <= (Z.of_nat w - 1) / 8)
        by (apply Z.div_le_mono; lia).
      pose proof (Z.div_pos (Z.of_nat x) 8 ltac:(lia) ltac:(lia)).
      rewrite Hlen. nia. }
    rewrite (peek_nth line) by exact Hidx. cbn [mbind option_bind].
    rewrite peek_lookup, lookup_tab by lia. cbn [mbind option_bind].
    rewrite Nat2Z.id, insert_tab.
    replace (Z.of_nat x + 1) with (Z.of_nat (S x)) by lia.
    rewrite IH by lia. f_equal. apply tab_ext. intros i Hi.
    destruct (decide (S x <= i)%nat), (decide (x <= i)%nat),
      (decide (i = x)); try lia; try reflexivity.
    subst i. f_equal. unfold plane_bit.
    rewrite mask_bit. destruct (Z.testbit _ _); reflexivity.
Qed.

(** The row of an image of four planes, as [Load] stores it: the byte [k]
    holds the pixel [2 k] in its high and the pixel [2 k + 1] in its low four
    bits, the bit [p] of a pixel being taken from the plane [p] of the line.
    The row has [width / 2] bytes.  For an odd [width] the last pixel is
    therefore not stored: the loop that writes the row stops before the byte
    that would hold it. *)
Theorem four_plane_row_spec (width bytes_per_line : Z) (line : list Z) :
  0 <= width -> 0 <= bytes_per_line ->
  (width - 1) / 8 < bytes_per_line ->
  length line = Z.to_nat (4 * bytes_per_line) ->
  four_plane_row width bytes_per_line line
  = Some (map (fun k : nat =>
                 16 * pixel bytes_per_line line (2 * Z.of_nat k)
                 + pixel bytes_per_line line (2 * Z.of_nat k + 1))
              (seq 0 (Z.to_nat (width / 2)))).
Proof.
  intros Hw Hb Hbound Hlen. unfold four_plane_row.
  set (w := Z.to_nat width).
  assert (Hwb : (Z.of_nat w - 1) / 8 < bytes_per_line \/ w = 0%nat).
  { left. unfold w. rewrite Z2Nat.id by lia. exact Hbound. }
  assert (Hzero : replicate w 0 = tab (fun _ => 0) w).
  { unfold tab. clear. induction w as [|w IH]; [reflexivity|].
    cbn [replicate]. rewrite IH. cbn [seq map].
    rewrite <- seq_shift, map_map. reflexivity. }
  rewrite Hzero.
  rewrite (plane_loop_tab w 0 bytes_per_line line w 0) by (try exact Hwb; lia).
  cbn [mbind option_bind].
  rewrite (plane_loop_tab w 1 bytes_per_line line w 0) by (try exact Hwb; lia).
  cbn [mbind option_bind].
  rewrite (plane_loop_tab w 2 bytes_per_line line w 0) by (try exact Hwb; lia).
  cbn [mbind option_bind].
  rewrite (plane_loop_tab w 3 bytes_per_line line w 0) by (try exact Hwb; lia).
  cbn [mbind option_bind].
  match goal with
  | |- context [peek (tab ?g w)] => set (f := g)
  end.
  assert (Hf : forall i : nat, f i = pixel bytes_per_line line (Z.of_nat i)).
  { intros i. unfold f, pixel. cbn [decide].
    destruct (decide (0 <= i)%nat); [|lia].
    destruct (plane_bit bytes_per_line line 0 (Z.of_nat i)),
      (plane_bit bytes_per_line line 1 (Z.of_nat i)),
      (plane_bit bytes_per_line line 2 (Z.of_nat i)),
      (plane_bit bytes_per_line line 3 (Z.of_nat i)); reflexivity. }
  assert (Hhalf : 2 * (width / 2) <= width).
  { apply Z.mul_div_le. lia. }
  assert (Hmap : forall (l : list nat),
            Forall (fun k => (2 * k + 1 < w)%nat) l ->
            mapM (fun x : nat =>
                    hi ← peek (tab f w) (2 * Z.of_nat x);
                    lo ← peek (tab f w) (2 * Z.of_nat x + 1);
                    Some (Z.lor (Z.shiftl hi 4) lo mod 256)) l
            = Some (map (fun k : nat =>
                           16 * pixel bytes_per_line line (2 * Z.of_nat k)
                           + pixel bytes_per_line line (2 * Z.of_nat k + 1)) l)).
  { intros l Hl. induction Hl as [|k l Hk Hl IH]; [reflexivity|].
    cbn [mapM map].
    replace (2 * Z.of_nat k) with (Z.of_nat (2 * k)) by lia.
    replace (Z.of_nat (2 * k) + 1) with (Z.of_nat (2 * k + 1)) by lia.
    rewrite !peek_lookup, !lookup_tab by lia. cbn [mbind option_bind].
    rewrite IH. cbn [mbind option_bind mret option_ret]. f_equal. f_equal.
    rewrite !Hf. unfold pixel.
    destruct (plane_bit bytes_per_line line 0 (Z.of_nat (2 * k))),
      (plane_bit bytes_per_line line 1 (Z.of_nat (2 * k))),
      (plane_bit bytes_per_line line 2 (Z.of_nat (2 * k))),
      (plane_bit bytes_per_line line 3 (Z.of_nat (2 * k))),
      (plane_bit bytes_per_line line 0 (Z.of_nat (2 * k + 1))),
      (plane_bit bytes_per_line line 1 (Z.of_nat (2 * k + 1))),
      (plane_bit bytes_per_line line 2 (Z.of_nat (2 * k + 1))),
      (plane_bit bytes_per_line line 3 (Z.of_nat (2 * k + 1))); reflexivity. }
  apply Hmap. apply Forall_forall. intros k Hk.
  apply list_elem_of_In, in_seq in Hk. unfold w. lia.
Qed.

(** The theorem at work: three pixels in planes of one byte; the row has one
    byte, which holds the pixels 0 and 1, and the pixel 2 is in none. *)
Lemma four_plane_row_spec_witness :
  four_plane_row 3 1 [0xA0; 0x40; 0x20; 0x80]
  = Some (map (fun k : nat =>
                 16 * pixel 1 [0xA0; 0x40; 0x20; 0x80] (2 * Z.of_nat k)
                 + pixel 1 [0xA0; 0x40; 0x20; 0x80] (2 * Z.of_nat k + 1))
              (seq 0 (Z.to_nat (3 / 2)))).
Proof.
  apply (four_plane_row_spec 3 1 [0xA0; 0x40; 0x20; 0x80]).
  - lia.
  - lia.
  - reflexivity.
  - reflexivity.
Defined.


(** **** The header checks of [Load] *)

Lemma do_read_item size h :
  0 < size ->
  do_read size 1 h
  = ((take (Z.to_nat size) (PCXFacts.ahead h),
      if size <=? Z.of_nat (length (PCXFacts.ahead h)) then 1 else 0),
     Handle (content h)
       (position h + length (take (Z.to_nat size) (PCXFacts.ahead h)))).
Proof.
  intros Hs. unfold do_read, PCXFacts.ahead. cbv zeta. rewrite Z.mul_1_r.
  destruct (Z.leb_spec size 0); [lia|].
  f_equal. f_equal. rewrite length_take.
  destruct (Z.leb_spec size (Z.of_nat (length (drop (position h) (content h))))).
  - replace (Z.of_nat (Z.to_nat size `min` _)) with size by lia.
    apply Z.div_same. lia.
  - apply Z.div_small. lia.
Qed.

(** The probe at the start of [Load] leaves the stream where it was. *)
Lemma run_validate_and_return frames h :
  handle_after
    (run frames (seek_proc (Z.of_nat (position h)) SEEK_SET)
       (handle_after (run frames PCX.pcx_validate h))) = h.
Proof.
  rewrite run_seek_proc, handle_after_pair. unfold do_seek.
  destruct (Z.ltb_spec (0 + Z.of_nat (position h)) 0); [lia|].
  cbn [snd]. rewrite content_run, Z.add_0_l, Nat2Z.id. destruct h. reflexivity.
Qed.

(** What the four leading bytes of the header must be. *)
Definition header_ok (header : PCXHEADER) : Prop :=
  manufacturer header = 0x0A /\ version header <= 5
  /\ (encoding header = 0 \/ encoding header = 1)
  /\ (bpp header = 1 \/ bpp header = 8).

(** [Load] gets as far as a dib exactly when the stream holds the 128 bytes
    of a header whose leading bytes pass the probe, whose window has its
    right edge after its left and its bottom edge after its top, and whose
    bit count [bpp * planes] is 1, 4, 8 or 24, and when the allocation
    succeeds.  The dib is [right - left + 1] wide and [bottom - top + 1]
    high; an image of one column or of one row ([left = right] or
    [top = bottom]) is refused. *)
Theorem Load_allocate_spec (frames : Z -> bool)
    (FreeImage_AllocateHeader : bool -> Z -> Z -> Z -> bool)
    (header_only : bool) (h : fi_handle)
    (header : PCXHEADER) (width height bitcount : Z) :
  result (run frames (Load_allocate FreeImage_AllocateHeader true header_only) h)
  = Allocated header width height bitcount
  <-> (sizeof_PCXHEADER <= Z.of_nat (length (PCXFacts.ahead h))
       /\ header = header_of (take 128 (PCXFacts.ahead h))
       /\ header_ok header
       /\ nth 0 (window header) 0 < nth 2 (window header) 0
       /\ nth 1 (window header) 0 < nth 3 (window header) 0
       /\ width = nth 2 (window header) 0 - nth 0 (window header) 0 + 1
       /\ height = nth 3 (window header) 0 - nth 1 (window header) 0 + 1
       /\ bitcount = bpp header * planes header
       /\ (bitcount = 1 \/ bitcount = 4 \/ bitcount = 8 \/ bitcount = 24)
       /\ FreeImage_AllocateHeader header_only width height bitcount = true).
Proof.
  unfold Load_allocate. cbn [negb].
  rewrite result_bind, run_tell_proc, result_pair, handle_after_pair.
  rewrite result_bind. rewrite result_bind.
  rewrite run_validate_and_return.
  rewrite PCXFacts.run_pcx_validate.
  unfold sizeof_PCXHEADER, header_ok.
  set (data := PCXFacts.ahead h).
  assert (Hlead : forall b0 b1 b2 b3 rest, data = b0 :: b1 :: b2 :: b3 :: rest ->
            byte_at (take 128 data) 0 = b0 /\ byte_at (take 128 data) 1 = b1
            /\ byte_at (take 128 data) 2 = b2 /\ byte_at (take 128 data) 3 = b3).
  { intros b0 b1 b2 b3 rest ->. repeat split; reflexivity. }
  destruct (take 4 data) as [|b0 [|b1 [|b2 [|b3 [|b4 t]]]]] eqn:Hsig.
  1-4: cbn [negb]; rewrite run_Ret, result_pair; split; [discriminate|];
       intros (Hlen & _);
       apply (f_equal length) in Hsig; rewrite length_take in Hsig;
       cbn [length] in Hsig; lia.
  2:{ apply (f_equal length) in Hsig. rewrite length_take in Hsig.
      cbn [length] in Hsig. lia. }
  assert (Hdata : exists rest, data = b0 :: b1 :: b2 :: b3 :: rest).
  { destruct data as [|c0 [|c1 [|c2 [|c3 rest]]]]; try discriminate.
    cbn in Hsig. rewrite take_0 in Hsig. injection Hsig as -> -> -> ->.
    eexists. reflexivity. }
  destruct Hdata as [rest Hdata].
  destruct (Hlead _ _ _ _ _ Hdata) as (L0 & L1 & L2 & L3).
  destruct ((b0 =? 10) && (b1 <=? 5) && ((b2 =? 0) || (b2 =? 1))
            && ((b3 =? 1) || (b3 =? 8))) eqn:Hok; cbn [negb].
  2:{ rewrite run_Ret, result_pair. split; [discriminate|].
      intros (_ & -> & (H0 & H1 & H2 & H3) & _).
      cbn [manufacturer version encoding bpp header_of] in *.
      rewrite L0 in H0. rewrite L1 in H1. rewrite L2 in H2. rewrite L3 in H3.
      apply not_true_iff_false in Hok. exfalso. apply Hok.
      apply PCXFacts.pcx_header_ok_iff. repeat split; assumption. }
  apply PCXFacts.pcx_header_ok_iff in Hok. destruct Hok as (H0 & H1 & H2 & H3).
  rewrite result_bind, run_read_proc, result_pair, handle_after_pair.
  rewrite do_read_item by lia. cbn [fst snd]. fold data.
  change (Z.to_nat 128) with 128%nat.
  destruct (Z.leb_spec 128 (Z.of_nat (length data))) as [Hlen|Hlen].
  2:{ change (negb (0 =? 1)) with true. cbv iota. rewrite run_Ret, result_pair.
      split; [discriminate|]. intros (Hl & _). lia. }
  change (negb (1 =? 1)) with false. cbv iota zeta.
  set (hd := header_of (take 128 data)).
  set (left := nth 0 (window hd) 0). set (top := nth 1 (window hd) 0).
  set (right := nth 2 (window hd) 0). set (bottom := nth 3 (window hd) 0).
  assert (Hhd : manufacturer hd = 10 /\ version hd <= 5 /\
                (encoding hd = 0 \/ encoding hd = 1) /\ (bpp hd = 1 \/ bpp hd = 8)).
  { unfold hd. cbn [manufacturer version encoding bpp header_of].
    rewrite L0, L1, L2, L3. repeat split; assumption. }
  destruct (Z.leb_spec right left) as [Hw|Hw]; cbn [orb].
  { rewrite run_Ret, result_pair. split; [discriminate|].
    intros (_ & -> & _ & Hlt & _). fold hd left right in Hlt. lia. }
  destruct (Z.leb_spec bottom top) as [Hh|Hh]; cbn [orb].
  { rewrite run_Ret, result_pair. split; [discriminate|].
    intros (_ & -> & _ & _ & Hlt & _). fold hd top bottom in Hlt. lia. }
  destruct ((bpp hd * planes hd =? 1) || (bpp hd * planes hd =? 4)
            || (bpp hd * planes hd =? 8) || (bpp hd * planes hd =? 24)) eqn:Hbc.
  2:{ rewrite run_Ret, result_pair. split; [discriminate|].
      intros (_ & -> & _ & _ & _ & _ & _ & -> & Hb & _). fold hd in Hb.
      apply not_true_iff_false in Hbc. exfalso. apply Hbc.
      rewrite !orb_true_iff, !Z.eqb_eq. tauto. }
  rewrite !orb_true_iff, !Z.eqb_eq in Hbc.
  destruct (FreeImage_AllocateHeader header_only (right - left + 1)
              (bottom - top + 1) (bpp hd * planes hd)) eqn:Halloc;
    rewrite run_Ret, result_pair.
  - split.
    + intros [= <- <- <- <-]. fold hd left top right bottom.
      repeat split; try assumption; try reflexivity; try lia; tauto.
    + intros (_ & -> & _ & _ & _ & -> & -> & -> & _). reflexivity.
  - split; [discriminate|].
    intros (_ & -> & _ & _ & _ & -> & -> & -> & _ & Ha).
    fold hd left top right bottom in Ha. congruence.
Qed.


(** A stream that holds a header of version 5 for a run-length encoded image
    of 2 x 2 pixels of eight bits. *)
Definition small_header : list Z :=
  [0x0A; 5; 1; 8; 0; 0; 0; 0; 1; 0; 1; 0] ++ replicate 53 0 ++ [1; 2; 0]
  ++ replicate 60 0.

(** The theorem at work. *)
Lemma Load_allocate_spec_witness :
  result (run (fun _ => true)
            (Load_allocate (fun _ _ _ _ => true) true false)
            (Handle small_header 0))
  = Allocated (header_of small_header) 2 2 8.
Proof.
  apply (proj2 (Load_allocate_spec (fun _ => true) (fun _ _ _ _ => true) false
                  (Handle small_header 0) (header_of small_header) 2 2 8)).
  vm_compute. repeat split; try reflexivity; try discriminate; auto.
Defined.

(** Not every file for which a dib is allocated is read.  The probe admits 1
    and 8 bits per pixel and plane, the allocation the bit counts 1, 4, 8 and
    24; of the six layouts that pass both, [Load] reads four, and it throws
    [FI_MSG_ERROR_UNSUPPORTED_FORMAT] for 8 and for 24 planes of one bit,
    after the dib has been allocated. *)
Theorem Load_layout_spec (header : PCXHEADER) :
  header_ok header ->
  (bpp header * planes header = 1 \/ bpp header * planes header = 4 \/
   bpp header * planes header = 8 \/ bpp header * planes header = 24) ->
  (Load_layout header = inl FI_MSG_ERROR_UNSUPPORTED_FORMAT
   <-> bpp header = 1 /\ (planes header = 8 \/ planes header = 24))
  /\ (Load_layout header = inr OnePlane
      <-> planes header = 1)
  /\ (Load_layout header = inr FourPlanes
      <-> bpp header = 1 /\ planes header = 4)
  /\ (Load_layout header = inr ThreePlanes
      <-> bpp header = 8 /\ planes header = 3).
Proof.
  intros (_ & _ & _ & Hb) Hbc. unfold Load_layout.
  assert (Hcases : (bpp header = 1 /\ planes header = 1) \/
                   (bpp header = 1 /\ planes header = 4) \/
                   (bpp header = 1 /\ planes header = 8) \/
                   (bpp header = 1 /\ planes header = 24) \/
                   (bpp header = 8 /\ planes header = 1) \/
                   (bpp header = 8 /\ planes header = 3)) by lia.
  destruct Hcases as [[-> ->] | [[-> ->] | [[-> ->] | [[-> ->] | [[-> ->] | [-> ->]]]]]];
    cbn; repeat split; intros; try discriminate; try lia; try reflexivity;
    intuition (try discriminate; lia).
Qed.

Lemma Load_layout_spec_witness :
  Load_layout (header_of small_header) = inr OnePlane.
Proof.
  apply (proj1 (proj2 (Load_layout_spec (header_of small_header)
           ltac:(vm_compute; repeat split; try discriminate; auto)
           ltac:(right; right; left; reflexivity)))).
  reflexivity.
Defined.


End PCXLoadFacts.

(** ** PluginGIF.cpp: the LZW string table *)
Module LZW.

(** GIF defines a max of 12 bits per code. *)
Definition MAX_LZW_CODE : Z := 4096.

(** The value of a C [int] expression whose mathematical value is [x]. *)
Definition as_int (x : Z) : Z := (x + 2^31) mod 2^32 - 2^31.

(** [a << n] on [int]s.  [a >> n] is [Z.shiftr], [a | b] is [Z.lor] and
    [a & b] is [Z.land]: none of them leaves the 32-bit range. *)
Definition shl (a n : Z) : Z := as_int (Z.shiftl a n).

(** [class StringTable].  [m_strings] is an array of 4096 strings, kept as a
    finite map from the index in which an absent entry is the empty string;
    [m_strmap] is an array of 2^20 [int]s, kept as a finite map in which an
    absent entry is -1 (all bits set, which is what [memset] stores).  A byte
    of a string or of a buffer is an integer in [0, 256).  [m_buffer] is
    [None] for the null pointer. *)
Record StringTable : Type := {
  m_done : bool;
  m_minCodeSize : Z;
  m_clearCode : Z;
  m_endCode : Z;
  m_nextCode : Z;
  m_bpp : Z;  (* Compressor information *)
  m_slack : Z;
  m_prefix : Z;  (* Compressor state variable *)
  m_codeSize : Z;  (* Compressor/Decompressor state variables *)
  m_codeMask : Z;
  m_oldCode : Z;  (* Decompressor state variable *)
  m_partial : Z;  (* Compressor/Decompressor bit buffer *)
  m_partialSize : Z;
  firstPixelPassed : Z;  (* set once the first pixel of the whole image has been read *)
  m_strings : gmap Z (list Z);  (* the string table of the Decompressor *)
  m_strmap : gmap Z Z;  (* the table map of the Compressor *)
  m_buffer : option (list Z);  (* input buffer *)
  m_bufferSize : Z;
  m_bufferRealSize : Z;
  m_bufferPos : Z;
  m_bufferShift : Z
}.

(** Assignments to the members. *)
Definition set_m_done (v : bool) (st : StringTable) : StringTable :=
  {| m_done := v; m_minCodeSize := m_minCodeSize st;
     m_clearCode := m_clearCode st; m_endCode := m_endCode st;
     m_nextCode := m_nextCode st; m_bpp := m_bpp st; m_slack := m_slack st;
     m_prefix := m_prefix st; m_codeSize := m_codeSize st;
     m_codeMask := m_codeMask st; m_oldCode := m_oldCode st;
     m_partial := m_partial st; m_partialSize := m_partialSize st;
     firstPixelPassed := firstPixelPassed st; m_strings := m_strings st;
     m_strmap := m_strmap st; m_buffer := m_buffer st;
     m_bufferSize := m_bufferSize st;
     m_bufferRealSize := m_bufferRealSize st; m_bufferPos := m_bufferPos st;
     m_bufferShift := m_bufferShift st |}.
Definition set_m_minCodeSize (v : Z) (st : StringTable) : StringTable :=
  {| m_done := m_done st; m_minCodeSize := v; m_clearCode := m_clearCode st;
     m_endCode := m_endCode st; m_nextCode := m_nextCode st;
     m_bpp := m_bpp st; m_slack := m_slack st; m_prefix := m_prefix st;
     m_codeSize := m_codeSize st; m_codeMask := m_codeMask st;
     m_oldCode := m_oldCode st; m_partial := m_partial st;
     m_partialSize := m_partialSize st;
     firstPixelPassed := firstPixelPassed st; m_strings := m_strings st;
     m_strmap := m_strmap st; m_buffer := m_buffer st;
     m_bufferSize := m_bufferSize st;
     m_bufferRealSize := m_bufferRealSize st; m_bufferPos := m_bufferPos st;
     m_bufferShift := m_bufferShift st |}.
Definition set_m_clearCode (v : Z) (st : StringTable) : StringTable :=
  {| m_done := m_done st; m_minCodeSize := m_minCodeSize st;
     m_clearCode := v; m_endCode := m_endCode st;
     m_nextCode := m_nextCode st; m_bpp := m_bpp st; m_slack := m_slack st;
     m_prefix := m_prefix st; m_codeSize := m_codeSize st;
     m_codeMask := m_codeMask st; m_oldCode := m_oldCode st;
     m_partial := m_partial st; m_partialSize := m_partialSize st;
     firstPixelPassed := firstPixelPassed st; m_strings := m_strings st;
     m_strmap := m_strmap st; m_buffer := m_buffer st;
     m_bufferSize := m_bufferSize st;
     m_bufferRealSize := m_bufferRealSize st; m_bufferPos := m_bufferPos st;
     m_bufferShift := m_bufferShift st |}.
Definition set_m_endCode (v : Z) (st : StringTable) : StringTable :=
  {| m_done := m_done st; m_minCodeSize := m_minCodeSize st;
     m_clearCode := m_clearCode st; m_endCode := v;
     m_nextCode := m_nextCode st; m_bpp := m_bpp st; m_slack := m_slack st;
     m_prefix := m_prefix st; m_codeSize := m_codeSize st;
     m_codeMask := m_codeMask st; m_oldCode := m_oldCode st;
     m_partial := m_partial st; m_partialSize := m_partialSize st;
     firstPixelPassed := firstPixelPassed st; m_strings := m_strings st;
     m_strmap := m_strmap st; m_buffer := m_buffer st;
     m_bufferSize := m_bufferSize st;
     m_bufferRealSize := m_bufferRealSize st; m_bufferPos := m_bufferPos st;
     m_bufferShift := m_bufferShift st |}.
Definition set_m_nextCode (v : Z) (st : StringTable) : StringTable :=
  {| m_done := m_done st; m_minCodeSize := m_minCodeSize st;
     m_clearCode := m_clearCode st; m_endCode := m_endCode st;
     m_nextCode := v; m_bpp := m_bpp st; m_slack := m_slack st;
     m_prefix := m_prefix st; m_codeSize := m_codeSize st;
     m_codeMask := m_codeMask st; m_oldCode := m_oldCode st;
     m_partial := m_partial st; m_partialSize := m_partialSize st;
     firstPixelPassed := firstPixelPassed st; m_strings := m_strings st;
     m_strmap := m_strmap st; m_buffer := m_buffer st;
     m_bufferSize := m_bufferSize st;
     m_bufferRealSize := m_bufferRealSize st; m_bufferPos := m_bufferPos st;
     m_bufferShift := m_bufferShift st |}.
Definition set_m_bpp (v : Z) (st : StringTable) : StringTable :=
  {| m_done := m_done st; m_minCodeSize := m_minCodeSize st;
     m_clearCode := m_clearCode st; m_endCode := m_endCode st;
     m_nextCode := m_nextCode st; m_bpp := v; m_slack := m_slack st;
     m_prefix := m_prefix st; m_codeSize := m_codeSize st;
     m_codeMask := m_codeMask st; m_oldCode := m_oldCode st;
     m_partial := m_partial st; m_partialSize := m_partialSize st;
     firstPixelPassed := firstPixelPassed st; m_strings := m_strings st;
     m_strmap := m_strmap st; m_buffer := m_buffer st;
     m_bufferSize := m_bufferSize st;
     m_bufferRealSize := m_bufferRealSize st; m_bufferPos := m_bufferPos st;
     m_bufferShift := m_bufferShift st |}.
Definition set_m_slack (v : Z) (st : StringTable) : StringTable :=
  {| m_done := m_done st; m_minCodeSize := m_minCodeSize st;
     m_clearCode := m_clearCode st; m_endCode := m_endCode st;
     m_nextCode := m_nextCode st; m_bpp := m_bpp st; m_slack := v;
     m_prefix := m_prefix st; m_codeSize := m_codeSize st;
     m_codeMask := m_codeMask st; m_oldCode := m_oldCode st;
     m_partial := m_partial st; m_partialSize := m_partialSize st;
     firstPixelPassed := firstPixelPassed st; m_strings := m_strings st;
     m_strmap := m_strmap st; m_buffer := m_buffer st;
     m_bufferSize := m_bufferSize st;
     m_bufferRealSize := m_bufferRealSize st; m_bufferPos := m_bufferPos st;
     m_bufferShift := m_bufferShift st |}.
Definition set_m_prefix (v : Z) (st : StringTable) : StringTable :=
  {| m_done := m_done st; m_minCodeSize := m_minCodeSize st;
     m_clearCode := m_clearCode st; m_endCode := m_endCode st;
     m_nextCode := m_nextCode st; m_bpp := m_bpp st; m_slack := m_slack st;
     m_prefix := v; m_codeSize := m_codeSize st; m_codeMask := m_codeMask st;
     m_oldCode := m_oldCode st; m_partial := m_partial st;
     m_partialSize := m_partialSize st;
     firstPixelPassed := firstPixelPassed st; m_strings := m_strings st;
     m_strmap := m_strmap st; m_buffer := m_buffer st;
     m_bufferSize := m_bufferSize st;
     m_bufferRealSize := m_bufferRealSize st; m_bufferPos := m_bufferPos st;
     m_bufferShift := m_bufferShift st |}.
Definition set_m_codeSize (v : Z) (st : StringTable) : StringTable :=
  {| m_done := m_done st; m_minCodeSize := m_minCodeSize st;
     m_clearCode := m_clearCode st; m_endCode := m_endCode st;
     m_nextCode := m_nextCode st; m_bpp := m_bpp st; m_slack := m_slack st;
     m_prefix := m_prefix st; m_codeSize := v; m_codeMask := m_codeMask st;
     m_oldCode := m_oldCode st; m_partial := m_partial st;
     m_partialSize := m_partialSize st;
     firstPixelPassed := firstPixelPassed st; m_strings := m_strings st;
     m_strmap := m_strmap st; m_buffer := m_buffer st;
     m_bufferSize := m_bufferSize st;
     m_bufferRealSize := m_bufferRealSize st; m_bufferPos := m_bufferPos st;
     m_bufferShift := m_bufferShift st |}.
Definition set_m_codeMask (v : Z) (st : StringTable) : StringTable :=
  {| m_done := m_done st; m_minCodeSize := m_minCodeSize st;
     m_clearCode := m_clearCode st; m_endCode := m_endCode st;
     m_nextCode := m_nextCode st; m_bpp := m_bpp st; m_slack := m_slack st;
     m_prefix := m_prefix st; m_codeSize := m_codeSize st; m_codeMask := v;
     m_oldCode := m_oldCode st; m_partial := m_partial st;
     m_partialSize := m_partialSize st;
     firstPixelPassed := firstPixelPassed st; m_strings := m_strings st;
     m_strmap := m_strmap st; m_buffer := m_buffer st;
     m_bufferSize := m_bufferSize st;
     m_bufferRealSize := m_bufferRealSize st; m_bufferPos := m_bufferPos st;
     m_bufferShift := m_bufferShift st |}.
Definition set_m_oldCode (v : Z) (st : StringTable) : StringTable :=
  {| m_done := m_done st; m_minCodeSize := m_minCodeSize st;
     m_clearCode := m_clearCode st; m_endCode := m_endCode st;
     m_nextCode := m_nextCode st; m_bpp := m_bpp st; m_slack := m_slack st;
     m_prefix := m_prefix st; m_codeSize := m_codeSize st;
     m_codeMask := m_codeMask st; m_oldCode := v; m_partial := m_partial st;
     m_partialSize := m_partialSize st;
     firstPixelPassed := firstPixelPassed st; m_strings := m_strings st;
     m_strmap := m_strmap st; m_buffer := m_buffer st;
     m_bufferSize := m_bufferSize st;
     m_bufferRealSize := m_bufferRealSize st; m_bufferPos := m_bufferPos st;
     m_bufferShift := m_bufferShift st |}.
Definition set_m_partial (v : Z) (st : StringTable) : StringTable :=
  {| m_done := m_done st; m_minCodeSize := m_minCodeSize st;
     m_clearCode := m_clearCode st; m_endCode := m_endCode st;
     m_nextCode := m_nextCode st; m_bpp := m_bpp st; m_slack := m_slack st;
     m_prefix := m_prefix st; m_codeSize := m_codeSize st;
     m_codeMask := m_codeMask st; m_oldCode := m_oldCode st; m_partial := v;
     m_partialSize := m_partialSize st;
     firstPixelPassed := firstPixelPassed st; m_strings := m_strings st;
     m_strmap := m_strmap st; m_buffer := m_buffer st;
     m_bufferSize := m_bufferSize st;
     m_bufferRealSize := m_bufferRealSize st; m_bufferPos := m_bufferPos st;
     m_bufferShift := m_bufferShift st |}.
Definition set_m_partialSize (v : Z) (st : StringTable) : StringTable :=
  {| m_done := m_done st; m_minCodeSize := m_minCodeSize st;
     m_clearCode := m_clearCode st; m_endCode := m_endCode st;
     m_nextCode := m_nextCode st; m_bpp := m_bpp st; m_slack := m_slack st;
     m_prefix := m_prefix st; m_codeSize := m_codeSize st;
     m_codeMask := m_codeMask st; m_oldCode := m_oldCode st;
     m_partial := m_partial st; m_partialSize := v;
     firstPixelPassed := firstPixelPassed st; m_strings := m_strings st;
     m_strmap := m_strmap st; m_buffer := m_buffer st;
     m_bufferSize := m_bufferSize st;
     m_bufferRealSize := m_bufferRealSize st; m_bufferPos := m_bufferPos st;
     m_bufferShift := m_bufferShift st |}.
Definition set_firstPixelPassed (v : Z) (st : StringTable) : StringTable :=
  {| m_done := m_done st; m_minCodeSize := m_minCodeSize st;
     m_clearCode := m_clearCode st; m_endCode := m_endCode st;
     m_nextCode := m_nextCode st; m_bpp := m_bpp st; m_slack := m_slack st;
     m_prefix := m_prefix st; m_codeSize := m_codeSize st;
     m_codeMask := m_codeMask st; m_oldCode := m_oldCode st;
     m_partial := m_partial st; m_partialSize := m_partialSize st;
     firstPixelPassed := v; m_strings := m_strings st;
     m_strmap := m_strmap st; m_buffer := m_buffer st;
     m_bufferSize := m_bufferSize st;
     m_bufferRealSize := m_bufferRealSize st; m_bufferPos := m_bufferPos st;
     m_bufferShift := m_bufferShift st |}.
Definition set_m_strings (v : gmap Z (list Z)) (st : StringTable) : StringTable :=
  {| m_done := m_done st; m_minCodeSize := m_minCodeSize st;
     m_clearCode := m_clearCode st; m_endCode := m_endCode st;
     m_nextCode := m_nextCode st; m_bpp := m_bpp st; m_slack := m_slack st;
     m_prefix := m_prefix st; m_codeSize := m_codeSize st;
     m_codeMask := m_codeMask st; m_oldCode := m_oldCode st;
     m_partial := m_partial st; m_partialSize := m_partialSize st;
     firstPixelPassed := firstPixelPassed st; m_strings := v;
     m_strmap := m_strmap st; m_buffer := m_buffer st;
     m_bufferSize := m_bufferSize st;
     m_bufferRealSize := m_bufferRealSize st; m_bufferPos := m_bufferPos st;
     m_bufferShift := m_bufferShift st |}.
Definition set_m_strmap (v : gmap Z Z) (st : StringTable) : StringTable :=
  {| m_done := m_done st; m_minCodeSize := m_minCodeSize st;
     m_clearCode := m_clearCode st; m_endCode := m_endCode st;
     m_nextCode := m_nextCode st; m_bpp := m_bpp st; m_slack := m_slack st;
     m_prefix := m_prefix st; m_codeSize := m_codeSize st;
     m_codeMask := m_codeMask st; m_oldCode := m_oldCode st;
     m_partial := m_partial st; m_partialSize := m_partialSize st;
     firstPixelPassed := firstPixelPassed st; m_strings := m_strings st;
     m_strmap := v; m_buffer := m_buffer st; m_bufferSize := m_bufferSize st;
     m_bufferRealSize := m_bufferRealSize st; m_bufferPos := m_bufferPos st;
     m_bufferShift := m_bufferShift st |}.
Definition set_m_buffer (v : option (list Z)) (st : StringTable) : StringTable :=
  {| m_done := m_done st; m_minCodeSize := m_minCodeSize st;
     m_clearCode := m_clearCode st; m_endCode := m_endCode st;
     m_nextCode := m_nextCode st; m_bpp := m_bpp st; m_slack := m_slack st;
     m_prefix := m_prefix st; m_codeSize := m_codeSize st;
     m_codeMask := m_codeMask st; m_oldCode := m_oldCode st;
     m_partial := m_partial st; m_partialSize := m_partialSize st;
     firstPixelPassed := firstPixelPassed st; m_strings := m_strings st;
     m_strmap := m_strmap st; m_buffer := v; m_bufferSize := m_bufferSize st;
     m_bufferRealSize := m_bufferRealSize st; m_bufferPos := m_bufferPos st;
     m_bufferShift := m_bufferShift st |}.
Definition set_m_bufferSize (v : Z) (st : StringTable) : StringTable :=
  {| m_done := m_done st; m_minCodeSize := m_minCodeSize st;
     m_clearCode := m_clearCode st; m_endCode := m_endCode st;
     m_nextCode := m_nextCode st; m_bpp := m_bpp st; m_slack := m_slack st;
     m_prefix := m_prefix st; m_codeSize := m_codeSize st;
     m_codeMask := m_codeMask st; m_oldCode := m_oldCode st;
     m_partial := m_partial st; m_partialSize := m_partialSize st;
     firstPixelPassed := firstPixelPassed st; m_strings := m_strings st;
     m_strmap := m_strmap st; m_buffer := m_buffer st; m_bufferSize := v;
     m_bufferRealSize := m_bufferRealSize st; m_bufferPos := m_bufferPos st;
     m_bufferShift := m_bufferShift st |}.
Definition set_m_bufferRealSize (v : Z) (st : StringTable) : StringTable :=
  {| m_done := m_done st; m_minCodeSize := m_minCodeSize st;
     m_clearCode := m_clearCode st; m_endCode := m_endCode st;
     m_nextCode := m_nextCode st; m_bpp := m_bpp st; m_slack := m_slack st;
     m_prefix := m_prefix st; m_codeSize := m_codeSize st;
     m_codeMask := m_codeMask st; m_oldCode := m_oldCode st;
     m_partial := m_partial st; m_partialSize := m_partialSize st;
     firstPixelPassed := firstPixelPassed st; m_strings := m_strings st;
     m_strmap := m_strmap st; m_buffer := m_buffer st;
     m_bufferSize := m_bufferSize st; m_bufferRealSize := v;
     m_bufferPos := m_bufferPos st; m_bufferShift := m_bufferShift st |}.
Definition set_m_bufferPos (v : Z) (st : StringTable) : StringTable :=
  {| m_done := m_done st; m_minCodeSize := m_minCodeSize st;
     m_clearCode := m_clearCode st; m_endCode := m_endCode st;
     m_nextCode := m_nextCode st; m_bpp := m_bpp st; m_slack := m_slack st;
     m_prefix := m_prefix st; m_codeSize := m_codeSize st;
     m_codeMask := m_codeMask st; m_oldCode := m_oldCode st;
     m_partial := m_partial st; m_partialSize := m_partialSize st;
     firstPixelPassed := firstPixelPassed st; m_strings := m_strings st;
     m_strmap := m_strmap st; m_buffer := m_buffer st;
     m_bufferSize := m_bufferSize st;
     m_bufferRealSize := m_bufferRealSize st; m_bufferPos := v;
     m_bufferShift := m_bufferShift st |}.
Definition set_m_bufferShift (v : Z) (st : StringTable) : StringTable :=
  {| m_done := m_done st; m_minCodeSize := m_minCodeSize st;
     m_clearCode := m_clearCode st; m_endCode := m_endCode st;
     m_nextCode := m_nextCode st; m_bpp := m_bpp st; m_slack := m_slack st;
     m_prefix := m_prefix st; m_codeSize := m_codeSize st;
     m_codeMask := m_codeMask st; m_oldCode := m_oldCode st;
     m_partial := m_partial st; m_partialSize := m_partialSize st;
     firstPixelPassed := firstPixelPassed st; m_strings := m_strings st;
     m_strmap := m_strmap st; m_buffer := m_buffer st;
     m_bufferSize := m_bufferSize st;
     m_bufferRealSize := m_bufferRealSize st; m_bufferPos := m_bufferPos st;
     m_bufferShift := v |}.

(** [m_strings[code]], [m_strmap[key]] and [m_buffer[pos]]. *)
Definition string_at (st : StringTable) (code : Z) : list Z :=
  default [] (m_strings st !! code).

Definition strmap_at (st : StringTable) (key : Z) : Z :=
  default (-1) (m_strmap st !! key).

Definition buffer_at (st : StringTable) (pos : Z) : Z :=
  nth (Z.to_nat pos) (default [] (m_buffer st)) 0.

(** [StringTable::StringTable()]: the members that the constructor leaves
    uninitialised hold [u]; the strings are empty. *)
Definition new_StringTable (u : Z) : StringTable :=
  {| m_done := false; m_minCodeSize := u; m_clearCode := u; m_endCode := u;
     m_nextCode := u; m_bpp := u; m_slack := u; m_prefix := u;
     m_codeSize := u; m_codeMask := u; m_oldCode := u; m_partial := u;
     m_partialSize := u; firstPixelPassed := 0; m_strings := ∅;
     m_strmap := ∅; m_buffer := None; m_bufferSize := u;
     m_bufferRealSize := u; m_bufferPos := u; m_bufferShift := u |}.

Definition ClearCompressorTable (st : StringTable) : StringTable :=
  let st := set_m_strmap ∅ st in
  let st := set_m_nextCode (m_endCode st + 1) st in
  let st := set_m_prefix 0 st in
  set_m_codeSize (m_minCodeSize st + 1) st.

(** [m_strings[i].resize(1); m_strings[i][0] = (char)i] for [i] below
    [m_clearCode]. *)
Definition single_strings (clearCode : Z) (strings : gmap Z (list Z)) :
    gmap Z (list Z) :=
  foldr (fun i m => <[Z.of_nat i := [Z.of_nat i mod 256]]> m) strings
        (seq 0 (Z.to_nat clearCode)).

Definition ClearDecompressorTable (st : StringTable) : StringTable :=
  let st := set_m_strings (single_strings (m_clearCode st) (m_strings st)) st in
  let st := set_m_nextCode (m_endCode st + 1) st in
  let st := set_m_codeSize (m_minCodeSize st + 1) st in
  let st := set_m_codeMask (shl 1 (m_codeSize st) - 1) st in
  set_m_oldCode MAX_LZW_CODE st.

Definition Initialize (minCodeSize : Z) (st : StringTable) : StringTable :=
  let st := set_m_done false st in
  let st := set_m_bpp 8 st in
  let st := set_m_minCodeSize minCodeSize st in
  let st := set_m_clearCode (shl 1 (m_minCodeSize st)) st in
  let st := if MAX_LZW_CODE <? m_clearCode st
            then set_m_clearCode MAX_LZW_CODE st else st in
  let st := set_m_endCode (m_clearCode st + 1) st in
  let st := set_m_partial 0 st in
  let st := set_m_partialSize 0 st in
  let st := set_m_bufferSize 0 st in
  ClearDecompressorTable (ClearCompressorTable st).

(** [FillInputBuffer(len)] hands out the input buffer; a buffer that is
    allocated here holds zeros until the caller fills it. *)
Definition FillInputBuffer (len : Z) (st : StringTable) : StringTable :=
  let st :=
    match m_buffer st with
    | None =>
        set_m_bufferRealSize len (set_m_buffer (Some (replicate (Z.to_nat len) 0)) st)
    | Some _ =>
        if m_bufferRealSize st <? len
        then set_m_bufferRealSize len
               (set_m_buffer (Some (replicate (Z.to_nat len) 0)) st)
        else st
    end in
  let st := set_m_bufferSize len st in
  let st := set_m_bufferPos 0 st in
  set_m_bufferShift (8 - m_bpp st) st.

(** What both callers do with the pointer: copy [data] to the front of the
    buffer ([read_proc(FillInputBuffer(b), b, 1, handle)] in [Load],
    [memcpy(FillInputBuffer(line), ..., line)] in [Save]). *)
Definition fill_input (data : list Z) (st : StringTable) : StringTable :=
  let st := FillInputBuffer (Z.of_nat (length data)) st in
  set_m_buffer
    (Some (data ++ drop (length data) (default [] (m_buffer st)))) st.

(** [m_partial |= code << m_partialSize; m_partialSize += m_codeSize]. *)
Definition put_code (code : Z) (st : StringTable) : StringTable :=
  let st := set_m_partial (Z.lor (m_partial st) (shl code (m_partialSize st))) st in
  set_m_partialSize (m_partialSize st + m_codeSize st) st.

(** [while (cond) { *buf++ = (uint8_t)m_partial; m_partial >>= 8;
    m_partialSize -= 8; }] where [out] is what has been stored from [buf] on.
    Each of the three conditions of the source fails once [m_partialSize] is
    not positive, which bounds the number of iterations. *)
Fixpoint put_bytes (fuel : nat) (cond : StringTable -> list Z -> bool)
    (st : StringTable) (out : list Z) : StringTable * list Z :=
  match fuel with
  | O => (st, out)
  | S fuel =>
      if cond st out then
        let out := out ++ [m_partial st mod 256] in
        let st := set_m_partial (Z.shiftr (m_partial st) 8) st in
        let st := set_m_partialSize (m_partialSize st - 8) st in
        put_bytes fuel cond st out
      else (st, out)
  end.

Definition CompressStart (bpp width : Z) (st : StringTable) : StringTable :=
  let st := set_m_bpp bpp st in
  let st := set_m_slack (Z.rem (8 - Z.rem (as_int (width * bpp)) 8) 8) st in
  let st := put_code (m_clearCode st) st in
  ClearCompressorTable st.

(** [CompressEnd(buf)]: the bytes stored in [buf] (the returned [len] is
    their number) and the state. *)
Definition CompressEnd (st : StringTable) : list Z * StringTable :=
  (* output code for remaining prefix *)
  let st := put_code (m_prefix st) st in
  let '(st, out) :=
    put_bytes (Z.to_nat (m_partialSize st))
              (fun st _ => 8 <=? m_partialSize st) st [] in
  (* add the end of information code and flush the entire buffer out *)
  let st := put_code (m_endCode st) st in
  let '(st, out) :=
    put_bytes (Z.to_nat (m_partialSize st))
              (fun st _ => 0 <? m_partialSize st) st out in
  (out, st).

(** "increment to the next pixel" *)
Definition next_pixel (st : StringTable) : StringTable :=
  if (0 <? m_bufferShift st)
     && negb ((m_bufferPos st + 1 =? m_bufferSize st)
              && (m_bufferShift st <=? m_slack st))
  then set_m_bufferShift (m_bufferShift st - m_bpp st) st
  else set_m_bufferShift (8 - m_bpp st)
         (set_m_bufferPos (m_bufferPos st + 1) st).

(** The body of the loop of [Compress] up to the test "jump out here if the
    output buffer is full", which ends both of its branches.  [ch] is the
    pixel as an [int]; the source keeps it in a [char] and only ever uses
    [ch & 0xFF], which the conversion to [char] does not change. *)
Definition compress_pixel (len : Z) (st : StringTable) (out : list Z) :
    StringTable * list Z :=
  let mask := shl 1 (m_bpp st) - 1 in
  let ch :=
    Z.land (Z.shiftr (buffer_at st (m_bufferPos st)) (m_bufferShift st)) mask in
  let nextprefix := Z.land (shl (m_prefix st) 8) 0xFFF00 + Z.land ch 0xFF in
  if negb (firstPixelPassed st =? 0) then
    let '(st, out) :=
      if 0 <? strmap_at st nextprefix then
        (set_m_prefix (strmap_at st nextprefix) st, out)
      else
        let st := put_code (m_prefix st) st in
        (* grab full bytes for the output buffer *)
        let '(st, out) :=
          put_bytes (Z.to_nat (m_partialSize st))
                    (fun st out => (8 <=? m_partialSize st)
                                   && (Z.of_nat (length out) <? len))
                    st out in
        (* add the code to the "table map" *)
        let st := set_m_strmap (<[nextprefix := m_nextCode st]> (m_strmap st)) st in
        (* increment the next highest valid code, increase the code size *)
        let st := if m_nextCode st =? shl 1 (m_codeSize st)
                  then set_m_codeSize (m_codeSize st + 1) st else st in
        let st := set_m_nextCode (m_nextCode st + 1) st in
        (* if we're out of codes, restart the string table *)
        let st := if m_nextCode st =? MAX_LZW_CODE
                  then ClearCompressorTable (put_code (m_clearCode st) st)
                  else st in
        (set_m_prefix (Z.land ch 0xFF) st, out) in
    (next_pixel st, out)
  else
    (* Specific behavior for the first pixel of the whole image *)
    let st := set_firstPixelPassed 1 st in
    let st := set_m_prefix (Z.land ch 0xFF) st in
    (next_pixel st, out).

(** The loop of [Compress]; [None] when [fuel] iterations do not end it.  The
    result is the returned [bool], the bytes stored in [buf], [*len] on
    return, and the state. *)
Fixpoint compress_loop (fuel : nat) (len : Z) (st : StringTable)
    (out : list Z) : option (bool * list Z * Z * StringTable) :=
  if m_bufferPos st <? m_bufferSize st then
    match fuel with
    | O => None
    | S fuel =>
        let '(st, out) := compress_pixel len st out in
        (* jump out here if the output buffer is full *)
        if Z.of_nat (length out) =? len then Some (true, out, len, st)
        else compress_loop fuel len st out
    end
  else Some (true, out, Z.of_nat (length out), set_m_bufferSize 0 st).

(** [Compress(buf, &len)] with [*len = len] on entry.  Every iteration either
    lowers [m_bufferShift], which stays below 8, or moves to the next byte. *)
Definition Compress (len : Z) (st : StringTable) :
    option (bool * list Z * Z * StringTable) :=
  if (m_bufferSize st =? 0) || m_done st then Some (false, [], len, st)
  else compress_loop (Z.to_nat (8 * m_bufferSize st)) len st [].

(** "add new string to string table, if not the first pass since a clear
    code" *)
Definition add_string (code : Z) (st : StringTable) : StringTable :=
  if negb (m_oldCode st =? MAX_LZW_CODE) && (m_nextCode st <? MAX_LZW_CODE) then
    set_m_strings
      (<[m_nextCode st :=
           string_at st (m_oldCode st)
           ++ [hd 0 (string_at st (if code =? m_nextCode st
                                   then m_oldCode st else code))]]>
         (m_strings st)) st
  else st.

(** "increment the next highest valid code, add a bit to the mask if we need
    to increase the code size" *)
Definition increment_code (st : StringTable) : StringTable :=
  if negb (m_oldCode st =? MAX_LZW_CODE) && (m_nextCode st <? MAX_LZW_CODE) then
    let st := set_m_nextCode (m_nextCode st + 1) st in
    if m_nextCode st <? MAX_LZW_CODE then
      if Z.land (m_nextCode st) (m_codeMask st) =? 0 then
        let st := set_m_codeSize (m_codeSize st + 1) st in
        set_m_codeMask (Z.lor (m_codeMask st) (m_nextCode st)) st
      else st
    else st
  else st.

(** How a loop leaves: by a [return] of the function, or by falling out of
    the loop. *)
Inductive exit : Type :=
| Returned (st : StringTable) (out : list Z)
| Finished (st : StringTable) (out : list Z).

(** [while (m_partialSize >= m_codeSize) { ... }] of [Decompress], with
    [*len = len] and [out] the bytes stored from [buf] on. *)
Fixpoint decompress_codes (fuel : nat) (len : Z) (st : StringTable)
    (out : list Z) : option exit :=
  if m_codeSize st <=? m_partialSize st then
    match fuel with
    | O => None
    | S fuel =>
        let code := Z.land (m_partial st) (m_codeMask st) in
        let st := set_m_partial (Z.shiftr (m_partial st) (m_codeSize st)) st in
        let st := set_m_partialSize (m_partialSize st - m_codeSize st) st in
        if (m_nextCode st <? code) || (code =? m_endCode st) then
          Some (Returned (set_m_done true st) out)
        else if code =? m_clearCode st then
          decompress_codes fuel len (ClearDecompressorTable st) out
        else
          let st := add_string code st in
          if len - Z.of_nat (length out) <? Z.of_nat (length (string_at st code))
          then
            (* out of space, stuff the code back in for next time *)
            let st := set_m_partial (shl (m_partial st) (m_codeSize st)) st in
            let st := set_m_partialSize (m_partialSize st + m_codeSize st) st in
            let st := set_m_partial (Z.lor (m_partial st) code) st in
            let st := set_m_bufferPos (m_bufferPos st + 1) st in
            Some (Returned st out)
          else
            (* output the string into the buffer *)
            let out := out ++ string_at st code in
            let st := increment_code st in
            decompress_codes fuel len (set_m_oldCode code st) out
    end
  else Some (Finished st out).

(** [for ( ; m_bufferPos < m_bufferSize; m_bufferPos++ ) { ... }] *)
Fixpoint decompress_bytes (fuel : nat) (len : Z) (st : StringTable)
    (out : list Z) : option exit :=
  if m_bufferPos st <? m_bufferSize st then
    match fuel with
    | O => None
    | S fuel =>
        let st :=
          set_m_partial
            (Z.lor (m_partial st)
                   (shl (buffer_at st (m_bufferPos st)) (m_partialSize st))) st in
        let st := set_m_partialSize (m_partialSize st + 8) st in
        match decompress_codes (Z.to_nat (m_partialSize st)) len st out with
        | Some (Finished st out) =>
            decompress_bytes fuel len (set_m_bufferPos (m_bufferPos st + 1) st) out
        | r => r
        end
    end
  else Some (Finished st out).

(** [Decompress(buf, &len)] with [*len = len] on entry: the returned [bool],
    the bytes stored in [buf] ([*len] on return is their number) and the
    state; [None] when a loop does not end, which takes a code size that is
    not positive. *)
Definition Decompress (len : Z) (st : StringTable) :
    option (bool * list Z * StringTable) :=
  if (m_bufferSize st =? 0) || m_done st then Some (false, [], st)
  else
    match decompress_bytes (Z.to_nat (m_bufferSize st - m_bufferPos st)) len st [] with
    | Some (Returned st out) => Some (true, out, st)
    | Some (Finished st out) => Some (true, out, set_m_bufferSize 0 st)
    | None => None
    end.

Definition Done (st : StringTable) : StringTable := set_m_done true st.

(** *** The codec as the plugin drives it

    [Save] writes the image data as [Initialize], [CompressStart],
    [FillInputBuffer] + [Compress] for the pixels, then [CompressEnd]; [Load]
    reads it with [Initialize], then [FillInputBuffer] and
    [while (Decompress(buf, &size))].  [u] is what the uninitialised members
    hold. *)

(** One [Compress] call on the pixels [pixels] (one byte each: 8 bits per
    pixel) with room for [len] bytes, followed by [CompressEnd]: the bytes
    produced. *)
Definition compress_stream (u minCodeSize width len : Z) (pixels : list Z) :
    option (list Z) :=
  let st := Initialize minCodeSize (new_StringTable u) in
  let st := CompressStart 8 width st in
  let st := fill_input pixels st in
  match Compress len st with
  | Some (_, out, _, st) => Some (out ++ (CompressEnd st).1)
  | None => None
  end.

(** [while (Decompress(buf, &size)) { ...; size = ...; }] where the buffer of
    the k-th call has room for the k-th element of [lens]; the calls end with
    the first that returns [false], or when [lens] is used up. *)
Fixpoint decompress_calls (lens : list Z) (st : StringTable) :
    option (list Z * StringTable) :=
  match lens with
  | [] => Some ([], st)
  | len :: lens =>
      match Decompress len st with
      | Some (true, out, st) =>
          '(rest, st) ← decompress_calls lens st; Some (out ++ rest, st)
      | Some (false, _, st) => Some ([], st)
      | None => None
      end
  end.

(** The pixels decoded from the bytes [input], handed over in one piece, into
    output buffers of the sizes [lens]. *)
Definition decompress_stream (u minCodeSize : Z) (lens : list Z)
    (input : list Z) : option (list Z) :=
  let st := Initialize minCodeSize (new_StringTable u) in
  let st := fill_input input st in
  fst <$> decompress_calls lens st.

End LZW.

Import LZW.

(** ** Properties of the LZW string table *)
Module LZWFacts.

(** The pixels that come back when the stream that [compress_stream] makes of
    [pixels] is decoded by a single [Decompress] call. *)
Definition round_trip (u minCodeSize width clen dlen : Z) (pixels : list Z) :
    option (list Z) :=
  input ← compress_stream u minCodeSize width clen pixels;
  decompress_stream u minCodeSize [dlen] input.


(** C2: [Decompress] does not resume after its output buffer filled on the
    last byte of the input.  The two bytes below are what the compressor
    makes of the pixels 0, 1 (codes clear, 0, 1, end of 3 bits each).  A
    buffer with room for both pixels receives both.  With room for one pixel
    the first call stores the pixel 0 and stops on the code 1, which it puts
    back, stepping over the input byte it came from; this was the last byte,
    so the next call finds no input, stores nothing and marks the input as
    used up, and every later call returns [false]: the pixel 1 never comes
    out, whatever the sizes [lens] of the later buffers. *)
Theorem decompress_resume_loses_pending_code (u : Z) (lens : list Z) :
  compress_stream u 2 2 16 [0; 1] = Some [0x44; 0x0A] /\
  decompress_stream u 2 [2] [0x44; 0x0A] = Some [0; 1] /\
  decompress_stream u 2 (1 :: lens) [0x44; 0x0A] = Some [0].
Proof.
  split; [vm_compute; reflexivity|].
  split; [vm_compute; reflexivity|].
  destruct lens as [|len2 [|len3 lens]]; vm_compute; reflexivity.
Qed.

(** *** The bit stream

    Both directions keep the stream in [m_partial], low bits first.  A list
    of bytes, and a list of codes with their widths, are read as the integer
    whose binary digits are the stream. *)

Fixpoint le_value (bytes : list Z) : Z :=
  match bytes with
  | [] => 0
  | b :: bytes => b + 256 * le_value bytes
  end.

Fixpoint pack (codes : list (Z * Z)) : Z :=
  match codes with
  | [] => 0
  | (code, width) :: codes => code + 2 ^ width * pack codes
  end.

Fixpoint bits (codes : list (Z * Z)) : Z :=
  match codes with
  | [] => 0
  | (_, width) :: codes => width + bits codes
  end.

Definition is_byte (b : Z) : Prop := 0 <= b < 256.

(** A code fits its width. *)
Definition fits (cw : Z * Z) : Prop := 0 < cw.2 /\ 0 <= cw.1 < 2 ^ cw.2.

Lemma as_int_id x : - 2 ^ 31 <= x < 2 ^ 31 -> as_int x = x.
Proof. intros H. unfold as_int. rewrite Z.mod_small; lia. Qed.

Lemma shl_mul a n : 0 <= n -> 0 <= a -> a * 2 ^ n < 2 ^ 31 -> shl a n = a * 2 ^ n.
Proof.
  intros Hn Ha Hlt. unfold shl. rewrite Z.shiftl_mul_pow2 by lia.
  apply as_int_id. split; [|lia].
  pose proof (Z.pow_pos_nonneg 2 n). nia.
Qed.

Lemma lor_add a b n :
  0 <= n -> 0 <= a < 2 ^ n -> 0 <= b -> Z.lor a (b * 2 ^ n) = a + b * 2 ^ n.
Proof.
  intros Hn Ha Hb.
  assert (Hand : Z.land a (b * 2 ^ n) = 0).
  { apply Z.bits_inj'. intros i Hi. rewrite Z.land_spec, Z.bits_0.
    destruct (Z.lt_ge_cases i n).
    - rewrite Z.mul_pow2_bits_low by lia. apply andb_false_r.
    - destruct (Z.eq_dec a 0) as [->|]; [now rewrite Z.bits_0|].
      rewrite (Z.bits_above_log2 a i); [reflexivity|lia|].
      apply Z.lt_le_trans with n; [|lia]. apply Z.log2_lt_pow2; lia. }
  rewrite <- Z.lxor_lor by exact Hand.
  symmetry. apply Z.add_nocarry_lxor. exact Hand.
Qed.

Lemma land_mask a n : 0 <= n -> Z.land a (2 ^ n - 1) = a mod 2 ^ n.
Proof.
  intros Hn. rewrite <- Z.land_ones by lia. f_equal.
  rewrite Z.ones_equiv. lia.
Qed.

Lemma le_value_app a b :
  le_value (a ++ b) = le_value a + 2 ^ (8 * Z.of_nat (length a)) * le_value b.
Proof.
  induction a as [|x a IH]; cbn [le_value app length].
  - cbn. lia.
  - rewrite IH, Nat2Z.inj_succ.
    replace (8 * Z.succ (Z.of_nat (length a))) with (8 + 8 * Z.of_nat (length a)) by lia.
    rewrite Z.pow_add_r by lia. change (2 ^ 8) with 256. ring.
Qed.

Lemma le_value_bounds bytes :
  Forall is_byte bytes ->
  0 <= le_value bytes < 2 ^ (8 * Z.of_nat (length bytes)).
Proof.
  induction 1 as [|b bytes Hb _ IH]; cbn [le_value length].
  - cbn. lia.
  - rewrite Nat2Z.inj_succ.
    replace (8 * Z.succ (Z.of_nat (length bytes)))
      with (8 + 8 * Z.of_nat (length bytes)) by lia.
    rewrite Z.pow_add_r by lia. change (2 ^ 8) with 256.
    unfold is_byte in Hb. nia.
Qed.

Lemma bits_nonneg codes : Forall fits codes -> 0 <= bits codes.
Proof.
  induction 1 as [|[c w] codes [Hw _] _ IH]; cbn [bits]; cbn in *; lia.
Qed.

Lemma bits_app a b : bits (a ++ b) = bits a + bits b.
Proof. induction a as [|[c w] a IH]; cbn [bits app]; lia. Qed.

Lemma pack_app a b :
  Forall fits a -> pack (a ++ b) = pack a + 2 ^ bits a * pack b.
Proof.
  induction 1 as [|[c w] a [Hw _] Ha IH]; cbn [pack bits app].
  - cbn. lia.
  - cbn in Hw. rewrite IH, Z.pow_add_r by (auto using bits_nonneg; lia). ring.
Qed.

(** The stream that the compressor has produced: the bytes [out] it has
    stored followed by the bits it still holds. *)
Definition written (st : StringTable) (out : list Z) : Z :=
  le_value out + 2 ^ (8 * Z.of_nat (length out)) * m_partial st.

Definition nbits (st : StringTable) (out : list Z) : Z :=
  8 * Z.of_nat (length out) + m_partialSize st.

Lemma set_partial_same st :
  set_m_partialSize (m_partialSize st) (set_m_partial (m_partial st) st) = st.
Proof. destruct st; reflexivity. Qed.

Lemma put_code_eq code st :
  0 <= m_partialSize st -> 0 <= m_partial st < 2 ^ m_partialSize st ->
  0 <= code < 2 ^ m_codeSize st -> 0 <= m_codeSize st ->
  m_partialSize st + m_codeSize st <= 31 ->
  put_code code st =
  set_m_partialSize (m_partialSize st + m_codeSize st)
    (set_m_partial (m_partial st + code * 2 ^ m_partialSize st) st).
Proof.
  intros Hs Hp Hc Hw Hsum. unfold put_code. cbn.
  assert (code * 2 ^ m_partialSize st < 2 ^ 31).
  { apply Z.lt_le_trans with (2 ^ m_codeSize st * 2 ^ m_partialSize st).
    - apply Z.mul_lt_mono_pos_r; lia.
    - rewrite <- Z.pow_add_r by lia. apply Z.pow_le_mono_r; lia. }
  rewrite shl_mul, lor_add by lia. reflexivity.
Qed.

(** The loops that move bytes out of [m_partial] stop with fewer than [t]
    bits left, where [t] is 8 or 1; they keep the stream. *)
Lemma put_bytes_flush t cond fuel st out :
  1 <= t <= 8 ->
  (forall st' out', nbits st' out' = nbits st out ->
                    cond st' out' = (t <=? m_partialSize st')) ->
  t - 8 <= m_partialSize st -> m_partialSize st <= Z.of_nat fuel ->
  0 <= m_partial st < 2 ^ Z.max 0 (m_partialSize st) ->
  Forall is_byte out ->
  exists p s out',
    put_bytes fuel cond st out = (set_m_partialSize s (set_m_partial p st), out') /\
    le_value out' + 2 ^ (8 * Z.of_nat (length out')) * p = written st out /\
    8 * Z.of_nat (length out') + s = nbits st out /\
    t - 8 <= s < t /\ 0 <= p < 2 ^ Z.max 0 s /\ Forall is_byte out' /\
    (length out <= length out')%nat.
Proof.
  intros Ht. revert st out.
  induction fuel as [|fuel IH]; intros st out Hcond Hlo Hfuel Hp Hout.
  - exists (m_partial st), (m_partialSize st), out.
    rewrite set_partial_same. cbn [put_bytes]. unfold written, nbits.
    repeat split; try lia; auto.
  - cbn [put_bytes]. rewrite Hcond by reflexivity.
    destruct (Z.leb_spec t (m_partialSize st)) as [Hge|Hlt].
    + set (out1 := out ++ [m_partial st mod 256]).
      set (st1 := set_m_partialSize _ _).
      assert (Hn : nbits st1 out1 = nbits st out).
      { unfold nbits, out1, st1. cbn. rewrite length_app. cbn. lia. }
      assert (Hw : written st1 out1 = written st out).
      { unfold written, out1, st1. cbn.
        rewrite le_value_app, length_app, Z.shiftr_div_pow2 by lia. cbn [le_value length].
        replace (8 * Z.of_nat (length out + 1)) with (8 * Z.of_nat (length out) + 8) by lia.
        rewrite Z.pow_add_r by lia. change (2 ^ 8) with 256.
        pose proof (Z.div_mod (m_partial st) 256 ltac:(lia)). nia. }
      destruct (IH st1 out1) as (p & s & out' & Heq & Hval & Hlen & Hs & Hp' & Hb & Hle).
      * intros st' out' H. apply Hcond. lia.
      * unfold st1. cbn. lia.
      * unfold st1. cbn. lia.
      * unfold st1. cbn. rewrite Z.shiftr_div_pow2 by lia. change (2 ^ 8) with 256.
        split; [apply Z.div_pos; lia|].
        apply Z.div_lt_upper_bound; [lia|].
        destruct (Z.le_gt_cases 8 (m_partialSize st)).
        -- rewrite Z.max_r by lia. rewrite Z.max_r in Hp by lia.
           replace (m_partialSize st) with (8 + (m_partialSize st - 8)) in Hp by lia.
           rewrite Z.pow_add_r in Hp by lia. change (2 ^ 8) with 256 in Hp. lia.
        -- rewrite Z.max_l by lia. rewrite Z.max_r in Hp by lia.
           assert (2 ^ m_partialSize st <= 2 ^ 8) by (apply Z.pow_le_mono_r; lia).
           change (2 ^ 8) with 256 in *. lia.
      * apply Forall_app. split; [exact Hout|].
        constructor; [|constructor]. unfold is_byte. apply Z.mod_pos_bound. lia.
      * exists p, s, out'. rewrite Heq, Hval, Hlen, Hw, Hn.
        repeat split; try lia; auto.
        unfold out1 in Hle. rewrite length_app in Hle. cbn in Hle. lia.
    + exists (m_partial st), (m_partialSize st), out.
      rewrite set_partial_same. unfold written, nbits.
      repeat split; try lia; auto.
Qed.

(** *** The decompressor, code by code

    What [Decompress] does with one code, apart from taking it out of the
    bit buffer: the state it moves to and the pixels it stores. *)

Definition step_code (code : Z) (st : StringTable) : StringTable :=
  if code =? m_clearCode st then ClearDecompressorTable st
  else set_m_oldCode code (increment_code (add_string code st)).

Definition out_code (code : Z) (st : StringTable) : list Z :=
  if code =? m_clearCode st then [] else string_at (add_string code st) code.

(** The members that [step_code] and [out_code] depend on. *)
Definition table_of (st : StringTable) :=
  (m_minCodeSize st, m_clearCode st, m_endCode st, m_nextCode st,
   m_codeSize st, m_codeMask st, m_oldCode st, m_strings st).

(** A code of the width that the decompressor reads next, which does not end
    the decoding. *)
Definition accepts (st : StringTable) (cw : Z * Z) : Prop :=
  cw.2 = m_codeSize st /\ 1 <= m_codeSize st <= 12 /\
  m_codeMask st = 2 ^ m_codeSize st - 1 /\
  0 <= cw.1 < 2 ^ cw.2 /\ cw.1 <= m_nextCode st /\ cw.1 <> m_endCode st.

Fixpoint decodes (st : StringTable) (codes : list (Z * Z)) : Prop :=
  match codes with
  | [] => True
  | cw :: codes => accepts st cw /\ decodes (step_code cw.1 st) codes
  end.

Fixpoint decoded (st : StringTable) (codes : list (Z * Z)) : list Z :=
  match codes with
  | [] => []
  | cw :: codes => out_code cw.1 st ++ decoded (step_code cw.1 st) codes
  end.

Fixpoint after (st : StringTable) (codes : list (Z * Z)) : StringTable :=
  match codes with
  | [] => st
  | cw :: codes => after (step_code cw.1 st) codes
  end.

Ltac table_eqs H :=
  unfold table_of in H;
  injection H as ? ? ? ? ? ? ? ?.

Lemma add_string_table code st D :
  table_of st = table_of D ->
  table_of (add_string code st) = table_of (add_string code D).
Proof.
  intros H. table_eqs H. unfold add_string, string_at, table_of.
  repeat match goal with E : _ st = _ D |- _ => rewrite E end.
  destruct (_ && _); cbn; congruence.
Qed.

Lemma increment_code_table st D :
  table_of st = table_of D ->
  table_of (increment_code st) = table_of (increment_code D).
Proof.
  intros H. table_eqs H. unfold increment_code, table_of. cbn.
  repeat match goal with E : _ st = _ D |- _ => rewrite E end.
  repeat (destruct (_ : bool); cbn); congruence.
Qed.

Lemma step_code_table code st D :
  table_of st = table_of D ->
  table_of (step_code code st) = table_of (step_code code D).
Proof.
  intros H. unfold step_code.
  pose proof (increment_code_table _ _ (add_string_table code _ _ H)) as Hi.
  table_eqs H.
  replace (m_clearCode D) with (m_clearCode st) by assumption.
  destruct (code =? m_clearCode st).
  - unfold ClearDecompressorTable, table_of. cbn. congruence.
  - table_eqs Hi. unfold table_of. cbn. congruence.
Qed.

Lemma out_code_table code st D :
  table_of st = table_of D -> out_code code st = out_code code D.
Proof.
  intros H. unfold out_code, string_at.
  pose proof (add_string_table code _ _ H) as Ha.
  table_eqs H. table_eqs Ha.
  replace (m_clearCode D) with (m_clearCode st) by congruence.
  replace (m_strings (add_string code D))
    with (m_strings (add_string code st)) by congruence.
  reflexivity.
Qed.

Lemma accepts_table cw st D :
  table_of st = table_of D -> accepts D cw -> accepts st cw.
Proof. intros H. table_eqs H. unfold accepts. congruence. Qed.

(** [step_code] leaves the bit buffer and the input buffer alone. *)
Lemma step_code_frame code st :
  m_partial (step_code code st) = m_partial st /\
  m_partialSize (step_code code st) = m_partialSize st /\
  m_buffer (step_code code st) = m_buffer st /\
  m_bufferSize (step_code code st) = m_bufferSize st /\
  m_bufferPos (step_code code st) = m_bufferPos st.
Proof.
  unfold step_code, ClearDecompressorTable, increment_code, add_string.
  repeat (destruct (_ : bool); cbn); repeat split; reflexivity.
Qed.

Lemma decodes_codes_app st a b :
  decodes st (a ++ b) <-> decodes st a /\ decodes (after st a) b.
Proof.
  revert st. induction a as [|cw a IH]; intros st; cbn [decodes after app].
  - tauto.
  - rewrite IH. tauto.
Qed.

Lemma decoded_app st a b :
  decoded st (a ++ b) = decoded st a ++ decoded (after st a) b.
Proof.
  revert st. induction a as [|cw a IH]; intros st; cbn [decoded after app].
  - reflexivity.
  - rewrite IH, app_assoc. reflexivity.
Qed.

Lemma after_app st a b : after st (a ++ b) = after (after st a) b.
Proof.
  revert st. induction a as [|cw a IH]; intros st; cbn [after app]; auto.
Qed.

Lemma decodes_fits st codes : decodes st codes -> Forall fits codes.
Proof.
  revert st. induction codes as [|cw codes IH]; intros st; cbn [decodes].
  - constructor.
  - intros [(Hw & Hcs & _ & Hc & _) H]. constructor; [|eauto].
    unfold fits. rewrite Hw in *. split; [lia|exact Hc].
Qed.

(** *** [Decompress] on a stream of codes *)

(** Where the loop over the input bytes goes on when the loop over the codes
    of the current byte is left. *)
Definition resume (fuel : nat) (len : Z) (r : option exit) : option exit :=
  match r with
  | Some (Finished st out) =>
      decompress_bytes fuel len (set_m_bufferPos (m_bufferPos st + 1) st) out
  | Some (Returned st out) => Some (Returned st out)
  | None => None
  end.

Lemma pow2_split s w : 0 <= w <= s -> 2 ^ s = 2 ^ w * 2 ^ (s - w).
Proof. intros H. rewrite <- Z.pow_add_r by lia. f_equal. lia. Qed.

(** Taking [w] bits off the front of a stream that starts with the code [c]
    of width [w]. *)
Lemma take_code p s L c w X :
  0 <= w <= s -> 0 <= c < 2 ^ w ->
  p + 2 ^ s * L = c + 2 ^ w * X ->
  p mod 2 ^ w = c /\ p / 2 ^ w + 2 ^ (s - w) * L = X.
Proof.
  intros Hw Hc H. rewrite (pow2_split s w) in H by lia.
  assert (Hpos : 0 < 2 ^ w) by (apply Z.pow_pos_nonneg; lia).
  assert (Hp : p = c + (X - 2 ^ (s - w) * L) * 2 ^ w) by lia.
  rewrite Hp. rewrite Z.mod_add, Z.div_add by lia.
  rewrite Z.mod_small, Z.div_small by lia. lia.
Qed.

Section Decompressor.

Variable buf : list Z.
Variable len : Z.
Hypothesis Hbuf : Forall is_byte buf.

(** The input bytes after the one that the loop is at. *)
Definition unread (st : StringTable) : list Z :=
  drop (S (Z.to_nat (m_bufferPos st))) buf.

(** The rest of the stream: the bits held and the bytes not yet read. *)
Definition pending (st : StringTable) : Z :=
  m_partial st + 2 ^ m_partialSize st * le_value (unread st).

Definition avail (st : StringTable) : Z :=
  m_partialSize st + 8 * Z.of_nat (length (unread st)).

Record reading (st : StringTable) : Prop := {
  rd_buffer : m_buffer st = Some buf;
  rd_size : m_bufferSize st = Z.of_nat (length buf);
  rd_pos : 0 <= m_bufferPos st;
  rd_partialSize : 0 <= m_partialSize st <= 19;
  rd_partial : 0 <= m_partial st < 2 ^ m_partialSize st
}.

(** The rest of a [Decompress] call from the head of the loop over the
    codes. *)
Definition run (fuel : nat) (st : StringTable) (out : list Z) : option exit :=
  resume (length (unread st)) len (decompress_codes fuel len st out).

Lemma unread_bytes st : Forall is_byte (unread st).
Proof. unfold unread. apply Forall_drop. exact Hbuf. Qed.

Lemma decompress_codes_short fuel st out :
  m_partialSize st < m_codeSize st ->
  decompress_codes fuel len st out = Some (Finished st out).
Proof.
  intros H. destruct fuel; cbn [decompress_codes];
    rewrite (proj2 (Z.leb_gt _ _)) by lia; reflexivity.
Qed.

Lemma decompress_bytes_load fuel st out :
  m_bufferPos st < m_bufferSize st ->
  decompress_bytes (S fuel) len st out =
  resume fuel len
    (decompress_codes (Z.to_nat (m_partialSize st + 8)) len
       (set_m_partialSize (m_partialSize st + 8)
          (set_m_partial
             (Z.lor (m_partial st)
                    (shl (buffer_at st (m_bufferPos st)) (m_partialSize st))) st))
       out).
Proof.
  intros H. cbn [decompress_bytes].
  rewrite (proj2 (Z.ltb_lt _ _)) by lia. reflexivity.
Qed.

(** With fewer bits than a code, the next byte is read. *)
Lemma run_load fuel st out :
  reading st -> m_partialSize st < m_codeSize st <= 12 -> unread st <> [] ->
  exists st',
    run fuel st out = run (Z.to_nat (m_partialSize st')) st' out /\
    reading st' /\ table_of st' = table_of st /\
    pending st' = pending st /\ avail st' = avail st /\
    m_partialSize st' = m_partialSize st + 8.
Proof.
  intros [Hb Hsz Hpos Hps Hp] Hcs Hne.
  set (n := Z.to_nat (m_bufferPos st)).
  assert (Hlt : (S n < length buf)%nat).
  { destruct (Nat.lt_ge_cases (S n) (length buf)) as [|Hge]; [assumption|].
    exfalso. apply Hne. unfold unread. fold n. apply drop_ge. lia. }
  pose proof (IOFacts.drop_nth_cons buf (S n) 0 Hlt) as Hdrop.
  set (b := nth (S n) buf 0) in *.
  assert (Hbyte : is_byte b).
  { pose proof (unread_bytes st) as Hu. unfold unread in Hu. fold n in Hu.
    rewrite Hdrop in Hu. now inversion Hu. }
  set (st0 := set_m_bufferPos (m_bufferPos st + 1) st).
  set (st' := set_m_partialSize (m_partialSize st + 8)
                (set_m_partial (m_partial st + b * 2 ^ m_partialSize st) st0)).
  assert (Hn' : Z.to_nat (m_bufferPos st + 1) = S n) by (unfold n; lia).
  assert (Hun : unread st = b :: unread st').
  { unfold unread. fold n. cbn. rewrite Hn'. exact Hdrop. }
  exists st'. unfold is_byte in Hbyte.
  assert (Hpow : 2 ^ m_partialSize st <= 2 ^ 19) by (apply Z.pow_le_mono_r; lia).
  assert (Hb31 : b * 2 ^ m_partialSize st < 2 ^ 31).
  { change (2 ^ 31) with (4096 * 2 ^ 19). nia. }
  split; [|split; [|split; [|split; [|split]]]].
  - unfold run. rewrite decompress_codes_short by lia.
    rewrite Hun. cbn [length resume decompress_bytes].
    replace (m_bufferPos (set_m_bufferPos (m_bufferPos st + 1) st)
             <? m_bufferSize (set_m_bufferPos (m_bufferPos st + 1) st))
      with true by (cbn; symmetry; apply Z.ltb_lt; lia).
    unfold buffer_at. cbn. rewrite Hb, Hn'.
    change (default [] (Some buf)) with buf. fold b.
    rewrite shl_mul, lor_add by lia. reflexivity.
  - constructor; cbn; try assumption; try lia.
    split; [nia|]. rewrite Z.pow_add_r by lia. change (2 ^ 8) with 256. nia.
  - reflexivity.
  - unfold pending. rewrite Hun. cbn [le_value]. cbn.
    rewrite Z.pow_add_r by lia. change (2 ^ 8) with 256. ring.
  - unfold avail. rewrite Hun. cbn [length]. cbn. lia.
  - reflexivity.
Qed.

(** The state once the next code is taken out of the bit buffer. *)
Definition extract (st : StringTable) : StringTable :=
  set_m_partialSize (m_partialSize st - m_codeSize st)
    (set_m_partial (Z.shiftr (m_partial st) (m_codeSize st)) st).

(** One turn of the loop over the codes, for a code that does not end the
    decoding and whose pixels the output buffer has room for. *)
Lemma decompress_codes_step fuel st out :
  let code := Z.land (m_partial st) (m_codeMask st) in
  m_codeSize st <= m_partialSize st ->
  code <= m_nextCode st -> code <> m_endCode st ->
  Z.of_nat (length out) + Z.of_nat (length (out_code code (extract st))) <= len ->
  decompress_codes (S fuel) len st out =
  decompress_codes fuel len (step_code code (extract st))
                   (out ++ out_code code (extract st)).
Proof.
  intros code Hcs Hnext Hend Hroom. cbn [decompress_codes].
  rewrite (proj2 (Z.leb_le _ _)) by lia. fold code.
  match goal with
  | |- context [set_m_partialSize ?a ?b] =>
      change (set_m_partialSize a b) with (extract st)
  end.
  change (m_nextCode (extract st)) with (m_nextCode st).
  change (m_endCode (extract st)) with (m_endCode st).
  rewrite (proj2 (Z.ltb_ge _ _)) by lia.
  rewrite (proj2 (Z.eqb_neq _ _)) by lia. cbn [orb].
  unfold step_code, out_code in *.
  destruct (code =? m_clearCode (extract st)).
  - rewrite app_nil_r. reflexivity.
  - rewrite (proj2 (Z.ltb_ge _ _)) by lia. reflexivity.
Qed.

Lemma run_code fuel st out c w X :
  reading st -> accepts st (c, w) ->
  m_codeSize st <= m_partialSize st -> m_partialSize st <= Z.of_nat fuel ->
  pending st = c + 2 ^ w * X ->
  Z.of_nat (length out) + Z.of_nat (length (out_code c st)) <= len ->
  exists st' fuel',
    run fuel st out = run fuel' st' (out ++ out_code c st) /\
    reading st' /\ table_of st' = table_of (step_code c st) /\
    pending st' = X /\ avail st' = avail st - w /\
    m_partialSize st' <= Z.of_nat fuel'.
Proof.
  intros [Hb Hsz Hpos Hps Hp] (Hw & Hcs & Hmask & Hc & Hnext & Hend) Hge Hfuel Hpend Hroom.
  cbn [fst snd] in *. subst w.
  unfold pending in Hpend.
  destruct (take_code (m_partial st) (m_partialSize st) (le_value (unread st))
              c (m_codeSize st) X ltac:(lia) Hc Hpend) as [Hcode HX].
  assert (Hland : Z.land (m_partial st) (m_codeMask st) = c).
  { rewrite Hmask, land_mask by lia. exact Hcode. }
  assert (Htab : table_of (extract st) = table_of st) by reflexivity.
  destruct fuel as [|fuel]; [lia|].
  destruct (step_code_frame c (extract st)) as (F1 & F2 & F3 & F4 & F5).
  exists (step_code c (extract st)), fuel.
  assert (Hun : unread (step_code c (extract st)) = unread st).
  { unfold unread. rewrite F5. reflexivity. }
  split; [|split; [|split; [|split; [|split]]]].
  - unfold run. rewrite decompress_codes_step; rewrite ?Hland; try lia.
    + rewrite Hun, (out_code_table c _ _ Htab). reflexivity.
    + rewrite (out_code_table c _ _ Htab). exact Hroom.
  - constructor; rewrite ?F1, ?F2, ?F3, ?F4, ?F5; cbn; try assumption; try lia.
    rewrite Z.shiftr_div_pow2 by lia. split; [apply Z.div_pos; lia|].
    apply Z.div_lt_upper_bound; [lia|].
    rewrite <- Z.pow_add_r by lia.
    replace (m_codeSize st + (m_partialSize st - m_codeSize st))
      with (m_partialSize st) by lia. lia.
  - apply step_code_table. exact Htab.
  - unfold pending. rewrite Hun, F1, F2. cbn.
    rewrite Z.shiftr_div_pow2 by lia. exact HX.
  - unfold avail. rewrite Hun, F2. cbn. lia.
  - rewrite F2. cbn. lia.
Qed.

(** Bytes are read until a whole code is there. *)
Lemma run_ready fuel st out :
  reading st -> 1 <= m_codeSize st <= 12 -> m_codeSize st <= avail st ->
  m_partialSize st <= Z.of_nat fuel ->
  exists st' fuel',
    run fuel st out = run fuel' st' out /\
    reading st' /\ table_of st' = table_of st /\
    pending st' = pending st /\ avail st' = avail st /\
    m_codeSize st <= m_partialSize st' <= Z.of_nat fuel'.
Proof.
  remember (length (unread st)) as n eqn:Hn. revert fuel st Hn.
  induction n as [|n IH]; intros fuel st Hn Hrd Hcs Hav Hfuel.
  - exists st, fuel. unfold avail in Hav. rewrite <- Hn in Hav.
    repeat apply conj; try lia; auto.
  - destruct (Z.le_gt_cases (m_codeSize st) (m_partialSize st)) as [Hge|Hlt].
    + exists st, fuel. repeat apply conj; try lia; auto.
    + destruct (run_load fuel st out Hrd) as (st1 & Hrun & Hrd1 & Htab & Hpend & Hav1 & Hps);
        [lia|intros E; rewrite E in Hn; discriminate|].
      assert (Hcs1 : m_codeSize st1 = m_codeSize st) by (table_eqs Htab; assumption).
      destruct (IH (Z.to_nat (m_partialSize st1)) st1) as (st' & fuel' & Hrun' & Hrd' & Htab' & Hpend' & Hav' & Hps');
        try assumption; try lia.
      * unfold avail in Hav1. lia.
      * exists st', fuel'. rewrite Hrun, Hrun', Htab', Hpend', Hav'.
        repeat apply conj; try lia; auto.
Qed.

(** [Decompress] follows a stream of codes that it accepts, as long as the
    output buffer has room. *)
Lemma run_codes codes :
  forall st D fuel out X,
    reading st -> table_of st = table_of D -> decodes D codes ->
    pending st = pack codes + 2 ^ bits codes * X ->
    bits codes <= avail st -> m_partialSize st <= Z.of_nat fuel ->
    Z.of_nat (length out) + Z.of_nat (length (decoded D codes)) <= len ->
    exists st' fuel',
      run fuel st out = run fuel' st' (out ++ decoded D codes) /\
      reading st' /\ table_of st' = table_of (after D codes) /\
      pending st' = X /\ avail st' = avail st - bits codes /\
      m_partialSize st' <= Z.of_nat fuel'.
Proof.
  induction codes as [|[c w] codes IH];
    intros st D fuel out X Hrd Htab Hdec Hpend Hav Hfuel Hroom.
  - exists st, fuel. cbn [decoded after bits pack] in *. rewrite app_nil_r.
    repeat apply conj; try lia; auto.
  - cbn [decodes decoded after bits pack fst snd] in *.
    destruct Hdec as [Hacc Hdec].
    pose proof (decodes_fits _ _ Hdec) as Hfits.
    pose proof (bits_nonneg _ Hfits) as Hbits.
    pose proof (accepts_table _ _ _ Htab Hacc) as Hacc'.
    destruct Hacc' as (Hw & Hcs & Hmask & Hc & Hnext & Hend). cbn [fst snd] in *.
    rewrite length_app in Hroom.
    destruct (run_ready fuel st out Hrd Hcs) as (st1 & fuel1 & Hrun1 & Hrd1 & Htab1 & Hpend1 & Hav1 & Hps1);
      [lia|lia|].
    assert (Htab1' : table_of st1 = table_of D) by congruence.
    assert (Hcs1 : m_codeSize st1 = m_codeSize st) by (table_eqs Htab1; assumption).
    destruct (run_code fuel1 st1 out c w (pack codes + 2 ^ bits codes * X))
      as (st2 & fuel2 & Hrun2 & Hrd2 & Htab2 & Hpend2 & Hav2 & Hps2); try assumption; try lia.
    + apply (accepts_table _ _ _ Htab1' Hacc).
    + rewrite Hpend1, Hpend. rewrite Z.pow_add_r by lia. ring.
    + rewrite (out_code_table c _ _ Htab1'). lia.
    + rewrite (out_code_table c _ _ Htab1') in Hrun2.
      destruct (IH st2 (step_code c D) fuel2 (out ++ out_code c D) X)
        as (st' & fuel' & Hrun' & Hrd' & Htab' & Hpend' & Hav' & Hps'); try assumption; try lia.
      * rewrite Htab2. apply step_code_table. exact Htab1'.
      * rewrite length_app. lia.
      * exists st', fuel'. rewrite Hrun1, Hrun2, Hrun', app_assoc.
        repeat apply conj; try lia; auto.
Qed.

(** Once the rest of the stream is the end code, nothing more is stored,
    whether the code is read (it ends the decoding) or, for want of bits,
    never is. *)
Lemma run_end fuel st out :
  reading st -> pending st = m_endCode st ->
  1 <= m_codeSize st <= 12 -> 0 <= m_endCode st < 2 ^ m_codeSize st ->
  m_codeMask st = 2 ^ m_codeSize st - 1 ->
  m_partialSize st <= Z.of_nat fuel ->
  exists st',
    run fuel st out = Some (Returned st' out) \/
    run fuel st out = Some (Finished st' out).
Proof.
  remember (length (unread st)) as n eqn:Hn. revert fuel st Hn.
  induction n as [|n IH]; intros fuel st Hn Hrd Hpend Hcs Hend Hmask Hfuel;
    (destruct (Z.le_gt_cases (m_codeSize st) (m_partialSize st)) as [Hge|Hlt];
     [destruct fuel as [|fuel]; [lia|];
      destruct Hrd as [_ _ _ Hps Hp];
      pose proof (le_value_bounds _ (unread_bytes st)) as [Hle _];
      unfold pending in Hpend;
      assert (Hpow : 2 ^ m_codeSize st <= 2 ^ m_partialSize st)
        by (apply Z.pow_le_mono_r; lia);
      assert (Hz : le_value (unread st) = 0) by nia;
      assert (Hcode : Z.land (m_partial st) (m_codeMask st) = m_endCode st)
        by (rewrite Hmask, land_mask, Z.mod_small by lia; lia);
      eexists; left; unfold run; cbn [decompress_codes];
      rewrite (proj2 (Z.leb_le _ _)) by lia; rewrite Hcode; cbn;
      rewrite Z.eqb_refl, orb_true_r; reflexivity|]).
  - eexists. right. unfold run. rewrite decompress_codes_short by lia.
    rewrite <- Hn. cbn [resume decompress_bytes].
    destruct Hrd as [_ Hsz Hpos _ _]. cbn.
    assert (Hlen : (length buf <= S (Z.to_nat (m_bufferPos st)))%nat).
    { unfold unread in Hn. rewrite length_drop in Hn. lia. }
    rewrite (proj2 (Z.ltb_ge _ _)) by lia. reflexivity.
  - destruct (run_load fuel st out Hrd) as (st1 & Hrun & Hrd1 & Htab & Hpend1 & Hav1 & Hps);
      [lia|intros E; rewrite E in Hn; discriminate|].
    pose proof Htab as Htab'. table_eqs Htab'.
    destruct (IH (Z.to_nat (m_partialSize st1)) st1) as [st' Hres];
      try assumption; try lia; try congruence.
    + unfold avail in Hav1. lia.
    + exists st'. rewrite Hrun. exact Hres.
Qed.

(** A single [Decompress] call on a stream of accepted codes followed by the
    end code stores the pixels of the codes. *)
Lemma Decompress_stream st D codes :
  m_buffer st = Some buf -> m_bufferSize st = Z.of_nat (length buf) ->
  m_bufferPos st = 0 -> m_partial st = 0 -> m_partialSize st = 0 ->
  m_done st = false -> buf <> [] ->
  table_of st = table_of D -> decodes D codes ->
  le_value buf = pack codes + 2 ^ bits codes * m_endCode D ->
  bits codes <= 8 * Z.of_nat (length buf) ->
  Z.of_nat (length (decoded D codes)) <= len ->
  1 <= m_codeSize (after D codes) <= 12 ->
  0 <= m_endCode D < 2 ^ m_codeSize (after D codes) ->
  m_endCode (after D codes) = m_endCode D ->
  m_codeMask (after D codes) = 2 ^ m_codeSize (after D codes) - 1 ->
  exists st', Decompress len st = Some (true, decoded D codes, st').
Proof.
  intros Hb Hsz Hpos Hp Hps Hdone Hne Htab Hdec Hval Hbits Hroom Hcs Hend Hend' Hmask.
  assert (Hex : exists b rest, buf = b :: rest).
  { clear - Hne. destruct buf; [congruence|eauto]. }
  destruct Hex as (b & rest & Ebuf).
  assert (Hbyte : is_byte b).
  { pose proof Hbuf as Hall. rewrite Ebuf in Hall. now inversion Hall. }
  unfold is_byte in Hbyte.
  set (st1 := set_m_partialSize 8 (set_m_partial b st)).
  assert (Hun : unread st1 = rest).
  { unfold unread, st1. cbn. rewrite Hpos, Ebuf. reflexivity. }
  assert (Hlen : Z.of_nat (length buf) = Z.of_nat (length rest) + 1).
  { rewrite Ebuf. cbn [length]. lia. }
  assert (Hrun : decompress_bytes (Z.to_nat (m_bufferSize st - m_bufferPos st)) len st []
                 = run 8 st1 []).
  { rewrite Hsz, Hpos, Hlen.
    replace (Z.to_nat (Z.of_nat (length rest) + 1 - 0)) with (S (length rest)) by lia.
    rewrite decompress_bytes_load by lia.
    assert (Hload : Z.lor (m_partial st)
                      (shl (buffer_at st (m_bufferPos st)) (m_partialSize st)) = b).
    { unfold buffer_at. rewrite Hb, Hpos, Hp, Hps, Ebuf.
      change (Z.to_nat 0) with 0%nat. cbn [default from_option id nth].
      rewrite shl_mul by lia. rewrite Z.lor_0_l. lia. }
    rewrite Hload, Hps. unfold run. rewrite Hun. reflexivity. }
  assert (Hrd : reading st1).
  { constructor; cbn; try assumption; lia. }
  assert (Hpend : pending st1 = le_value buf).
  { unfold pending. rewrite Hun. cbn. rewrite Ebuf. cbn [le_value]. lia. }
  assert (Hav : avail st1 = 8 * Z.of_nat (length buf)).
  { unfold avail. rewrite Hun. cbn. lia. }
  destruct (run_codes codes st1 D 8%nat [] (m_endCode D))
    as (st2 & fuel2 & Hrun2 & Hrd2 & Htab2 & Hpend2 & Hav2 & Hps2);
    try assumption; try (cbn; lia); try congruence.
  pose proof Htab2 as Htab2'. table_eqs Htab2'.
  destruct (run_end fuel2 st2 (decoded D codes) Hrd2) as [st3 Hrun3];
    try congruence; try lia.
  cbn [app] in Hrun2.
  unfold Decompress. rewrite Hsz, Hlen, Hdone.
  rewrite (proj2 (Z.eqb_neq _ _)) by lia. cbn [orb].
  rewrite <- Hlen, <- Hsz, Hrun, Hrun2.
  destruct Hrun3 as [-> | ->]; eexists; reflexivity.
Qed.

End Decompressor.

(** *** The compressor against the decompressor *)

Lemma single_strings_lookup n strings c :
  single_strings n strings !! c =
  if (0 <=? c) && (c <? n) then Some [c mod 256] else strings !! c.
Proof.
  unfold single_strings.
  assert (H : forall k a,
    foldr (fun i m => <[Z.of_nat i := [Z.of_nat i mod 256]]> m) strings (seq a k) !! c =
    if (Z.of_nat a <=? c) && (c <? Z.of_nat (a + k)) then Some [c mod 256]
    else strings !! c).
  { induction k as [|k IH]; intros a; cbn [seq foldr].
    - destruct (Z.leb_spec (Z.of_nat a) c), (Z.ltb_spec c (Z.of_nat (a + 0)));
        cbn; try reflexivity; lia.
    - destruct (Z.eq_dec (Z.of_nat a) c) as [<-|Hne].
      + rewrite lookup_insert_eq.
        rewrite (proj2 (Z.leb_le _ _)), (proj2 (Z.ltb_lt _ _)) by lia. reflexivity.
      + rewrite lookup_insert_ne, IH by exact Hne.
        destruct (Z.leb_spec (Z.of_nat (S a)) c), (Z.ltb_spec c (Z.of_nat (S a + k))),
                 (Z.leb_spec (Z.of_nat a) c), (Z.ltb_spec c (Z.of_nat (a + S k)));
          cbn; try reflexivity; lia. }
  rewrite (H (Z.to_nat n) 0%nat). change (Z.of_nat 0) with 0.
  destruct (Z.leb_spec 0 c); cbn [andb]; [|reflexivity].
  destruct (Z.ltb_spec c (Z.of_nat (0 + Z.to_nat n))), (Z.ltb_spec c n);
    try reflexivity; lia.
Qed.

Lemma land_prefix p : 0 <= p < 4096 -> Z.land (p * 256) 0xFFF00 = p * 256.
Proof.
  intros H. change 0xFFF00 with (Z.shiftl (2 ^ 12 - 1) 8).
  change 256 with (2 ^ 8). rewrite <- Z.shiftl_mul_pow2 by lia.
  rewrite <- Z.shiftl_land, land_mask by lia.
  rewrite Z.mod_small by (change (2 ^ 12) with 4096; lia). reflexivity.
Qed.

Lemma land_byte b : 0 <= b < 256 -> Z.land b 255 = b.
Proof.
  intros H. change 255 with (2 ^ 8 - 1). rewrite land_mask by lia.
  apply Z.mod_small. change (2 ^ 8) with 256. lia.
Qed.

Lemma pow2_min_bounds m : 2 <= m <= 8 -> 4 <= 2 ^ m <= 256.
Proof.
  intros H. change 4 with (2 ^ 2). change 256 with (2 ^ 8).
  split; apply Z.pow_le_mono_r; lia.
Qed.

(** The minimum code size is one that GIF allows for the codes of pixels, and
    [u] is what the uninitialised members of both string tables hold. *)
Section Compressor.

Variable minCodeSize : Z.
Hypothesis Hmin : 2 <= minCodeSize <= 8.
Variable u : Z.

Local Abbreviation clear := (2 ^ minCodeSize).
Local Abbreviation first := (2 ^ minCodeSize + 2).

(** The decompressor before the first code. *)
Definition decoder0 : StringTable := Initialize minCodeSize (new_StringTable u).

(** A code that stands for pixels: a pixel, or an entry of the table below
    [next]. *)
Definition is_code (next c : Z) : Prop := 0 <= c < clear \/ first <= c < next.

(** The decompressor [D] has read every code that the compressor [st] has
    put out, and [P] are the pixels that the compressor has read since, for
    which it holds the code [m_prefix].  After a clear code both tables are
    empty; from the next code on the decompressor is one entry behind: the
    entry [m_nextCode D], which the compressor has made of the last code and
    the first pixel after it, is added with the code that follows. *)
Definition fresh (st D : StringTable) (P : list Z) : Prop :=
  m_oldCode D = MAX_LZW_CODE /\ m_nextCode st = first /\ m_nextCode D = first /\
  m_codeSize st = minCodeSize + 1 /\ m_strmap st = ∅ /\
  0 <= m_prefix st < clear /\ P = [m_prefix st].

Definition running (st D : StringTable) (P : list Z) : Prop :=
  m_nextCode st = m_nextCode D + 1 /\ first <= m_nextCode D /\
  is_code (m_nextCode D) (m_oldCode D) /\ string_at D (m_oldCode D) <> [] /\
  P <> [] /\
  (is_code (m_nextCode D) (m_prefix st) /\ P = string_at D (m_prefix st) \/
   m_prefix st = m_nextCode D /\ P = string_at D (m_oldCode D) ++ [hd 0 P]) /\
  (forall key v, m_strmap st !! key = Some v ->
     exists q ch, key = q * 256 + ch /\ 0 <= ch < 256 /\ is_code v q /\
       first <= v <= m_nextCode D /\
       (v < m_nextCode D -> string_at D v = string_at D q ++ [ch]) /\
       (v = m_nextCode D -> q = m_oldCode D /\ ch = hd 0 P)).

Record sim (st D : StringTable) (P : list Z) : Prop := {
  s_min : m_minCodeSize D = minCodeSize;
  s_clear : m_clearCode D = clear;
  s_end : m_endCode D = clear + 1;
  s_codeSize : m_codeSize D = m_codeSize st;
  s_range : minCodeSize + 1 <= m_codeSize st <= 12;
  s_mask : m_codeMask D = 2 ^ m_codeSize st - 1;
  s_next : 2 ^ (m_codeSize st - 1) < m_nextCode st <= 2 ^ m_codeSize st;
  s_max : m_nextCode st < MAX_LZW_CODE;
  s_pixels : forall c, 0 <= c < clear -> string_at D c = [c];
  s_mode : fresh st D P \/ running st D P
}.

Lemma step_code_first c D :
  m_oldCode D = MAX_LZW_CODE -> c <> m_clearCode D ->
  step_code c D = set_m_oldCode c D /\ out_code c D = string_at D c.
Proof.
  intros Hold Hc. unfold step_code, out_code, add_string, increment_code.
  rewrite (proj2 (Z.eqb_neq _ _)) by exact Hc.
  rewrite Hold, Z.eqb_refl. cbn. rewrite Hold, Z.eqb_refl. cbn. split; reflexivity.
Qed.

Lemma step_code_next c D :
  m_oldCode D <> MAX_LZW_CODE -> m_nextCode D + 1 < MAX_LZW_CODE ->
  c <> m_clearCode D ->
  let entry := string_at D (m_oldCode D)
               ++ [hd 0 (string_at D (if c =? m_nextCode D then m_oldCode D else c))] in
  let D1 := set_m_nextCode (m_nextCode D + 1)
              (set_m_strings (<[m_nextCode D := entry]> (m_strings D)) D) in
  step_code c D =
    set_m_oldCode c
      (if Z.land (m_nextCode D + 1) (m_codeMask D) =? 0
       then set_m_codeMask (Z.lor (m_codeMask D) (m_nextCode D + 1))
              (set_m_codeSize (m_codeSize D + 1) D1)
       else D1) /\
  out_code c D = default [] (<[m_nextCode D := entry]> (m_strings D) !! c).
Proof.
  intros Hold Hnext Hc entry D1.
  unfold step_code, out_code, add_string, increment_code.
  rewrite (proj2 (Z.eqb_neq _ _)) by exact Hc.
  rewrite (proj2 (Z.eqb_neq (m_oldCode D) _)) by exact Hold.
  rewrite (proj2 (Z.ltb_lt (m_nextCode D) _)) by lia. cbn.
  rewrite (proj2 (Z.eqb_neq (m_oldCode D) _)) by exact Hold.
  rewrite (proj2 (Z.ltb_lt (m_nextCode D) _)) by lia. cbn.
  rewrite (proj2 (Z.ltb_lt (m_nextCode D + 1) _)) by lia.
  split; [|reflexivity].
  destruct (Z.land (m_nextCode D + 1) (m_codeMask D) =? 0); reflexivity.
Qed.

(** The decompressor widens its codes when the compressor does. *)
Lemma widen_test next cs :
  1 <= cs -> 2 ^ (cs - 1) < next <= 2 ^ cs ->
  (Z.land next (2 ^ cs - 1) =? 0) = (next =? 2 ^ cs).
Proof.
  intros Hcs Hnext. rewrite land_mask by lia.
  assert (0 < 2 ^ (cs - 1)) by (apply Z.pow_pos_nonneg; lia).
  destruct (Z.eqb_spec next (2 ^ cs)) as [->|Hne].
  - rewrite Z.mod_same by lia. reflexivity.
  - rewrite Z.mod_small by lia. apply Z.eqb_neq. lia.
Qed.

Lemma widen_mask cs : 0 <= cs -> Z.lor (2 ^ cs - 1) (2 ^ cs) = 2 ^ (cs + 1) - 1.
Proof.
  intros Hcs. pose proof (lor_add (2 ^ cs - 1) 1 cs Hcs) as H.
  assert (0 < 2 ^ cs) by (apply Z.pow_pos_nonneg; lia).
  rewrite Z.mul_1_l in H. rewrite H, Z.pow_add_r by lia. lia.
Qed.

Lemma hd_app_nonempty (a b : list Z) : a <> [] -> hd 0 (a ++ b) = hd 0 a.
Proof. destruct a; [congruence|reflexivity]. Qed.

(** The decompressor takes the code that the compressor holds: it stores the
    pixels [P], and then has the table that the compressor had. *)
Lemma emit st D P :
  sim st D P ->
  let c := m_prefix st in
  let D' := step_code c D in
  accepts D (c, m_codeSize st) /\ out_code c D = P /\
  m_minCodeSize D' = minCodeSize /\ m_clearCode D' = clear /\
  m_endCode D' = clear + 1 /\
  m_oldCode D' = c /\ m_nextCode D' = m_nextCode st /\
  m_codeSize D' = (if m_nextCode st =? 2 ^ m_codeSize st
                   then m_codeSize st + 1 else m_codeSize st) /\
  m_codeMask D' = 2 ^ m_codeSize D' - 1 /\
  is_code (m_nextCode st) c /\ P <> [] /\ string_at D' c = P /\
  (forall x, fresh st D P \/ x <> m_nextCode D -> string_at D' x = string_at D x) /\
  (running st D P ->
   string_at D' (m_nextCode D) = string_at D (m_oldCode D) ++ [hd 0 P]).
Proof.
  intros [Hmin' Hclear Hend Hcs Hrange Hmask Hnext Hmax Hpix Hmode] c D'.
  subst c D'.
  pose proof (pow2_min_bounds _ Hmin) as Hpow.
  assert (Hpow1 : 2 ^ (minCodeSize + 1) = 2 * clear).
  { rewrite Z.pow_add_r by lia. lia. }
  assert (Hpow2 : 2 ^ (minCodeSize + 1) <= 2 ^ m_codeSize st).
  { apply Z.pow_le_mono_r; lia. }
  unfold MAX_LZW_CODE in *.
  destruct Hmode as [Hf | Hr].
  - pose proof Hf as (Hold & Hne & Hnd & Hcs0 & Hmap & Hpre & HP).
    destruct (step_code_first (m_prefix st) D Hold) as [Hstep Hout]; [lia|].
    rewrite Hstep, Hout. cbn.
    rewrite (Hpix _ Hpre).
    assert (Hno : (m_nextCode st =? 2 ^ m_codeSize st) = false).
    { apply Z.eqb_neq. rewrite Hne, Hcs0, Hpow1. lia. }
    rewrite Hno. unfold accepts, is_code. cbn [fst snd].
    repeat apply conj; try assumption; try lia; try congruence; try reflexivity.
    + rewrite HP. exact (Hpix _ Hpre).
    + intros (Hx & _). lia.
  - pose proof Hr as (Hne & Hnd & Hold & Holds & HP & Hphrase & Hdict).
    assert (Hc : is_code (m_nextCode st) (m_prefix st) /\
                 hd 0 (string_at D (if m_prefix st =? m_nextCode D
                                    then m_oldCode D else m_prefix st)) = hd 0 P /\
                 (m_prefix st = m_nextCode D \/
                  m_prefix st <> m_nextCode D /\ string_at D (m_prefix st) = P)).
    { destruct Hphrase as [[Hcode HPc] | [Hcn HPo]].
      - assert (m_prefix st <> m_nextCode D) by (unfold is_code in Hcode; lia).
        rewrite (proj2 (Z.eqb_neq _ _)) by assumption.
        split; [unfold is_code in *; lia|].
        split; [rewrite HPc; reflexivity|].
        right. split; [assumption|symmetry; exact HPc].
      - rewrite Hcn, Z.eqb_refl.
        split; [unfold is_code; lia|].
        split; [|left; reflexivity].
        rewrite HPo, hd_app_nonempty by exact Holds. reflexivity. }
    destruct Hc as (Hcode & Hhd & Hcase).
    assert (Hold' : m_oldCode D <> 4096) by (unfold is_code in Hold; lia).
    destruct (step_code_next (m_prefix st) D) as [Hstep Hout];
      [exact Hold'|unfold MAX_LZW_CODE; lia|unfold is_code in Hcode; lia|].
    rewrite Hhd in Hstep, Hout.
    replace (m_nextCode D + 1) with (m_nextCode st) in Hstep by lia.
    rewrite Hmask, widen_test in Hstep by lia.
    assert (Hout' : out_code (m_prefix st) D = P).
    { rewrite Hout. destruct Hcase as [Hcn | [Hcn HPc]].
      - rewrite Hcn, lookup_insert_eq. cbn.
        destruct Hphrase as [[Hcode' _] | [_ HPo]]; [|congruence].
        unfold is_code in Hcode'. lia.
      - rewrite lookup_insert_ne by congruence. exact HPc. }
    rewrite Hstep, Hout'. clear Hstep.
    set (entry := string_at D (m_oldCode D) ++ [hd 0 P]) in *.
    set (D1 := set_m_nextCode (m_nextCode st)
                 (set_m_strings (<[m_nextCode D := entry]> (m_strings D)) D)).
    set (Dn := set_m_oldCode _ _).
    assert (Hstr : m_strings Dn = <[m_nextCode D := entry]> (m_strings D)).
    { unfold Dn. destruct (m_nextCode st =? 2 ^ m_codeSize st); reflexivity. }
    assert (Hcs' : m_codeSize Dn = if m_nextCode st =? 2 ^ m_codeSize st
                                   then m_codeSize st + 1 else m_codeSize st).
    { unfold Dn. destruct (m_nextCode st =? 2 ^ m_codeSize st); cbn; lia. }
    assert (Hmask' : m_codeMask Dn = 2 ^ m_codeSize Dn - 1).
    { rewrite Hcs'. unfold Dn.
      destruct (Z.eqb_spec (m_nextCode st) (2 ^ m_codeSize st)) as [Heq|Hneq]; cbn.
      - rewrite Heq, widen_mask by lia. reflexivity.
      - exact Hmask. }
    assert (Hframe : m_minCodeSize Dn = m_minCodeSize D /\
                     m_clearCode Dn = m_clearCode D /\ m_endCode Dn = m_endCode D /\
                     m_oldCode Dn = m_prefix st /\ m_nextCode Dn = m_nextCode st).
    { unfold Dn. destruct (m_nextCode st =? 2 ^ m_codeSize st);
        repeat apply conj; reflexivity. }
    destruct Hframe as (F1 & F2 & F3 & F4 & F5).
    unfold string_at at 1 2 3. rewrite Hstr.
    split.
    { unfold accepts, is_code in *. cbn [fst snd].
      repeat apply conj; try lia; try congruence. }
    repeat apply conj; try assumption; try congruence.
    + intros x [(Hx & _) | Hx]; [unfold MAX_LZW_CODE in Hx; lia|].
      rewrite lookup_insert_ne by congruence. reflexivity.
    + intros _. unfold string_at. rewrite Hstr, lookup_insert_eq. reflexivity.
Qed.

(** The pixel [s] after the pixels [P] is in the table: the compressor moves
    on to the code of [P ++ [s]]. *)
Lemma sim_extend st st' D P s v :
  sim st D P -> 0 <= s < clear ->
  m_strmap st !! (m_prefix st * 256 + s) = Some v ->
  m_prefix st' = v -> m_codeSize st' = m_codeSize st ->
  m_nextCode st' = m_nextCode st -> m_strmap st' = m_strmap st ->
  sim st' D (P ++ [s]).
Proof.
  intros [Hmin' Hclear Hend Hcs Hrange Hmask Hnext Hmax Hpix Hmode] Hs Hv E1 E2 E3 E4.
  pose proof (pow2_min_bounds _ Hmin) as Hpow.
  constructor; rewrite ?E2, ?E3; try assumption.
  right. destruct Hmode as [Hf | Hr].
  { destruct Hf as (_ & _ & _ & _ & Hmap & _). rewrite Hmap in Hv. discriminate. }
  destruct Hr as (Hne & Hnd & Hold & Holds & HP & Hphrase & Hdict).
  destruct (Hdict _ _ Hv) as (q & ch & Hkey & Hch & Hq & Hvr & Hlt & Heq).
  assert (q = m_prefix st /\ ch = s) as [-> ->] by lia.
  assert (Hpre : is_code (m_nextCode D) (m_prefix st) /\ P = string_at D (m_prefix st)).
  { destruct Hphrase as [H | [H _]]; [exact H|]. unfold is_code in Hq. lia. }
  destruct Hpre as [Hpre HPs].
  assert (Hhd : hd 0 (P ++ [s]) = hd 0 P) by (apply hd_app_nonempty; exact HP).
  unfold running. rewrite E1, E3, E4, Hhd.
  repeat apply conj; try assumption.
  - destruct P; discriminate.
  - destruct (Z.eq_dec v (m_nextCode D)) as [Hvn | Hvn].
    + right. destruct (Heq Hvn) as [Hqo Hso].
      split; [exact Hvn|]. rewrite <- Hso, HPs, Hqo. reflexivity.
    + left. split; [unfold is_code; lia|].
      rewrite Hlt by lia. rewrite HPs. reflexivity.
Qed.

Lemma sim_first st D P : sim st D P -> first <= m_nextCode st.
Proof.
  intros [_ _ _ _ _ _ _ _ _ [Hf | Hr]].
  - destruct Hf as (_ & -> & _). lia.
  - destruct Hr as (-> & ? & _). lia.
Qed.

Lemma widen_range next cs :
  1 <= cs <= 12 -> 2 ^ (cs - 1) < next <= 2 ^ cs -> next < 4096 ->
  let cs' := if next =? 2 ^ cs then cs + 1 else cs in
  cs <= cs' <= 12 /\ 2 ^ (cs' - 1) < next + 1 <= 2 ^ cs'.
Proof.
  intros Hcs Hnext Hmax cs'. subst cs'.
  destruct (Z.eqb_spec next (2 ^ cs)) as [Heq | Hneq].
  - assert (cs < 12).
    { apply (Z.pow_lt_mono_r_iff 2); [lia|lia|]. change (2 ^ 12) with 4096. lia. }
    replace (cs + 1 - 1) with cs by lia.
    rewrite Z.pow_add_r by lia. lia.
  - lia.
Qed.

(** The pixel [s] after the pixels [P] is not in the table: the compressor
    puts out the code of [P], enters [P ++ [s]] in the table and goes on from
    [s]; the decompressor takes the code. *)
Lemma sim_emit st st' D P s :
  sim st D P -> 0 <= s < clear -> m_nextCode st + 1 <> MAX_LZW_CODE ->
  m_prefix st' = s ->
  m_codeSize st' = (if m_nextCode st =? 2 ^ m_codeSize st
                    then m_codeSize st + 1 else m_codeSize st) ->
  m_nextCode st' = m_nextCode st + 1 ->
  m_strmap st' = <[m_prefix st * 256 + s := m_nextCode st]> (m_strmap st) ->
  sim st' (step_code (m_prefix st) D) [s].
Proof.
  intros Hsim Hs Hfull E1 E2 E3 E4.
  pose proof (emit st D P Hsim) as
    (Hacc & Hout & Dmin & Dclear & Dend & Dold & Dnext & Dcs & Dmask & Hcode & HP & HPs & Hsame & Hnew).
  pose proof (sim_first _ _ _ Hsim) as Hfirst.
  destruct Hsim as [Hmin' Hclear Hend Hcs Hrange Hmask Hnext Hmax Hpix Hmode].
  pose proof (pow2_min_bounds _ Hmin) as Hpow.
  unfold MAX_LZW_CODE in *.
  destruct (widen_range (m_nextCode st) (m_codeSize st)) as [Hr1 Hr2]; try lia.
  rewrite <- E2 in Hr1, Hr2, Dcs.
  assert (Hlit : forall c, 0 <= c < clear ->
                           string_at (step_code (m_prefix st) D) c = [c]).
  { intros c Hc. rewrite Hsame; [apply Hpix; exact Hc|].
    destruct Hmode as [Hf | Hr]; [left; exact Hf|right].
    destruct Hr as (? & ? & _). lia. }
  constructor; unfold MAX_LZW_CODE; rewrite ?E3; try assumption; try lia; try congruence.
  right. unfold running. rewrite E1, E3, E4, Dnext, Dold, HPs.
  repeat apply conj; try assumption; try lia; try discriminate.
  - left. split; [unfold is_code; lia|]. symmetry. apply Hlit. exact Hs.
  - intros key v Hv.
    destruct (Z.eq_dec (m_prefix st * 256 + s) key) as [<- | Hkey].
    + rewrite lookup_insert_eq in Hv. injection Hv as <-.
      exists (m_prefix st), s.
      repeat apply conj; try assumption; try lia; auto.
    + rewrite lookup_insert_ne in Hv by exact Hkey.
      destruct Hmode as [Hf | Hr].
      { destruct Hf as (_ & _ & _ & _ & Hmap & _). rewrite Hmap in Hv. discriminate. }
      destruct Hr as (Hne & Hnd & Hold & Holds & _ & Hphrase & Hdict).
      destruct (Hdict _ _ Hv) as (q & ch & Hk & Hch & Hq & Hvr & Hlt & Heq).
      exists q, ch. unfold is_code in *.
      repeat apply conj; try assumption; try lia.
      intros _. destruct (Z.eq_dec v (m_nextCode D)) as [Hvn | Hvn].
      * destruct (Heq Hvn) as [-> ->].
        rewrite Hvn, (Hnew ltac:(unfold running; auto 10)).
        rewrite (Hsame (m_oldCode D)) by (right; lia). reflexivity.
      * rewrite !Hsame by (right; lia). apply Hlt. lia.
Qed.

(** The table is full: the compressor also puts out a clear code and starts
    again from [s]; so does the decompressor. *)
Lemma sim_clear st st' D P s :
  sim st D P -> 0 <= s < clear -> m_nextCode st + 1 = MAX_LZW_CODE ->
  m_prefix st' = s -> m_codeSize st' = minCodeSize + 1 ->
  m_nextCode st' = first -> m_strmap st' = ∅ ->
  let D' := step_code (m_prefix st) D in
  (m_nextCode st =? 2 ^ m_codeSize st) = false /\
  accepts D' (clear, m_codeSize st) /\ out_code clear D' = [] /\
  sim st' (step_code clear D') [s].
Proof.
  intros Hsim Hs Hfull E1 E2 E3 E4 D'.
  pose proof (emit st D P Hsim) as
    (Hacc & Hout & Dmin & Dclear & Dend & Dold & Dnext & Dcs & Dmask & Hcode & HP & HPs & Hsame & Hnew).
  fold D' in Dmin, Dclear, Dend, Dold, Dnext, Dcs, Dmask.
  destruct Hsim as [Hmin' Hclear Hend Hcs Hrange Hmask Hnext Hmax Hpix Hmode].
  pose proof (pow2_min_bounds _ Hmin) as Hpow.
  unfold MAX_LZW_CODE in *.
  assert (Hcs12 : m_codeSize st = 12).
  { destruct (Z.eq_dec (m_codeSize st) 12) as [|Hne]; [assumption|exfalso].
    assert (2 ^ m_codeSize st <= 2 ^ 11) by (apply Z.pow_le_mono_r; lia).
    change (2 ^ 11) with 2048 in *. lia. }
  assert (Hno : (m_nextCode st =? 2 ^ m_codeSize st) = false).
  { apply Z.eqb_neq. rewrite Hcs12. change (2 ^ 12) with 4096. lia. }
  rewrite Hno in Dcs.
  assert (Hpow1 : 2 ^ (minCodeSize + 1) = 2 * clear).
  { rewrite Z.pow_add_r by lia. lia. }
  assert (Hs2 : shl 1 (minCodeSize + 1) = 2 ^ (minCodeSize + 1)).
  { rewrite shl_mul; lia. }
  assert (Hstep : step_code clear D' = ClearDecompressorTable D').
  { unfold step_code. rewrite Dclear, Z.eqb_refl. reflexivity. }
  split; [exact Hno|]. split; [|split].
  - unfold accepts. cbn [fst snd]. rewrite ?Dcs, ?Dmask, ?Dcs, ?Dnext, ?Dend, ?Hcs12.
    change (2 ^ 12) with 4096. repeat apply conj; lia.
  - unfold out_code. rewrite Dclear, Z.eqb_refl. reflexivity.
  - rewrite Hstep. unfold ClearDecompressorTable.
    constructor; cbn; rewrite ?E2, ?E3, ?Dmin, ?Dend, ?Dclear, ?Hs2;
      unfold MAX_LZW_CODE; try reflexivity; try lia.
    + replace (minCodeSize + 1 - 1) with minCodeSize by lia. lia.
    + intros c Hc. unfold string_at. cbn. rewrite single_strings_lookup.
      rewrite (proj2 (Z.leb_le _ _)), (proj2 (Z.ltb_lt _ _)) by lia. cbn.
      rewrite Z.mod_small by lia. reflexivity.
    + left. unfold fresh. cbn. rewrite ?E1, ?E2, ?E3, ?E4, ?Dend.
      unfold MAX_LZW_CODE. repeat apply conj; try reflexivity; lia.
Qed.

Lemma sim_prefix st D P : sim st D P -> 0 <= m_prefix st < m_nextCode st.
Proof.
  intros Hsim.
  pose proof (emit st D P Hsim) as (_ & _ & _ & _ & _ & _ & _ & _ & _ & Hcode & _).
  pose proof (sim_first _ _ _ Hsim).
  pose proof (pow2_min_bounds _ Hmin). unfold is_code in Hcode. lia.
Qed.

(** Putting out a code appends it to the stream. *)
Lemma written_put_code code st out :
  0 <= m_partialSize st -> 0 <= m_partial st < 2 ^ m_partialSize st ->
  0 <= code < 2 ^ m_codeSize st -> 0 <= m_codeSize st ->
  m_partialSize st + m_codeSize st <= 31 ->
  written (put_code code st) out = written st out + 2 ^ nbits st out * code /\
  nbits (put_code code st) out = nbits st out + m_codeSize st /\
  m_partialSize (put_code code st) = m_partialSize st + m_codeSize st /\
  0 <= m_partial (put_code code st) < 2 ^ m_partialSize (put_code code st).
Proof.
  intros Hs Hp Hc Hw Hsum. rewrite put_code_eq by assumption.
  unfold written, nbits. cbn.
  assert (0 < 2 ^ m_partialSize st) by (apply Z.pow_pos_nonneg; lia).
  rewrite !Z.pow_add_r by lia.
  repeat apply conj; try lia; try nia.
Qed.

Variable len : Z.

(** The compressor has read the pixels [pre] of its input [pre ++ rest] and
    produced the codes [codes], of which the bytes [out] are stored; the
    decompressor accepts the codes, and their pixels and those that the
    compressor holds a code for are [pre]. *)
Record encoding (pre rest : list Z) (st : StringTable) (out : list Z)
    (codes : list (Z * Z)) : Prop := {
  en_min : m_minCodeSize st = minCodeSize;
  en_clear : m_clearCode st = clear;
  en_end : m_endCode st = clear + 1;
  en_bpp : m_bpp st = 8;
  en_shift : m_bufferShift st = 0;
  en_passed : firstPixelPassed st = 1;
  en_done : m_done st = false;
  en_buffer : m_buffer st = Some (pre ++ rest);
  en_pos : m_bufferPos st = Z.of_nat (length pre);
  en_size : m_bufferSize st = Z.of_nat (length (pre ++ rest));
  en_partialSize : 0 <= m_partialSize st;
  en_partial : 0 <= m_partial st < 2 ^ m_partialSize st;
  en_sum : m_partialSize st + m_codeSize st <= 28;
  en_written : written st out = pack codes;
  en_nbits : nbits st out = bits codes;
  en_bytes : Forall is_byte out;
  en_bound : bits codes <= 24 * Z.of_nat (length pre) - 15;
  en_decodes : decodes decoder0 codes;
  en_sim : exists P, sim st (after decoder0 codes) P /\
                     decoded decoder0 codes ++ P = pre
}.

Lemma next_pixel_byte st :
  m_bufferShift st = 0 -> m_bpp st = 8 ->
  next_pixel st = set_m_bufferShift 0 (set_m_bufferPos (m_bufferPos st + 1) st).
Proof. intros Hs Hb. unfold next_pixel. rewrite Hs, Hb. reflexivity. Qed.

Lemma encoding_next pre s rest st st' out codes :
  encoding pre (s :: rest) st out codes ->
  m_minCodeSize st' = m_minCodeSize st -> m_clearCode st' = m_clearCode st ->
  m_endCode st' = m_endCode st -> m_bpp st' = m_bpp st ->
  m_bufferShift st' = m_bufferShift st -> firstPixelPassed st' = 1 ->
  m_done st' = m_done st -> m_buffer st' = m_buffer st ->
  m_bufferPos st' = m_bufferPos st -> m_bufferSize st' = m_bufferSize st ->
  m_minCodeSize (next_pixel st') = minCodeSize /\
  m_clearCode (next_pixel st') = clear /\
  m_endCode (next_pixel st') = clear + 1 /\
  m_bpp (next_pixel st') = 8 /\ m_bufferShift (next_pixel st') = 0 /\
  firstPixelPassed (next_pixel st') = 1 /\ m_done (next_pixel st') = false /\
  m_buffer (next_pixel st') = Some ((pre ++ [s]) ++ rest) /\
  m_bufferPos (next_pixel st') = Z.of_nat (length (pre ++ [s])) /\
  m_bufferSize (next_pixel st') = Z.of_nat (length ((pre ++ [s]) ++ rest)) /\
  m_partialSize (next_pixel st') = m_partialSize st' /\
  m_partial (next_pixel st') = m_partial st' /\
  m_codeSize (next_pixel st') = m_codeSize st' /\
  m_nextCode (next_pixel st') = m_nextCode st' /\
  m_prefix (next_pixel st') = m_prefix st' /\
  m_strmap (next_pixel st') = m_strmap st'.
Proof.
  intros [] E1 E2 E3 E4 E5 E6 E7 E8 E9 E10.
  rewrite next_pixel_byte by congruence. cbn.
  rewrite <- !app_assoc, length_app. cbn [app length].
  repeat apply conj; try congruence; try reflexivity. lia.
Qed.
Lemma sim_same st st' D P :
  sim st D P -> m_prefix st' = m_prefix st -> m_codeSize st' = m_codeSize st ->
  m_nextCode st' = m_nextCode st -> m_strmap st' = m_strmap st ->
  sim st' D P.
Proof.
  intros [] E1 E2 E3 E4.
  constructor; unfold fresh, running in *; rewrite ?E1, ?E2, ?E3, ?E4; assumption.
Qed.

Lemma encoding_step pre s rest st st' out out' codes codes' :
  encoding pre (s :: rest) st out codes ->
  m_minCodeSize st' = m_minCodeSize st -> m_clearCode st' = m_clearCode st ->
  m_endCode st' = m_endCode st -> m_bpp st' = m_bpp st ->
  m_bufferShift st' = m_bufferShift st -> firstPixelPassed st' = 1 ->
  m_done st' = m_done st -> m_buffer st' = m_buffer st ->
  m_bufferPos st' = m_bufferPos st -> m_bufferSize st' = m_bufferSize st ->
  0 <= m_partialSize st' -> 0 <= m_partial st' < 2 ^ m_partialSize st' ->
  m_partialSize st' + m_codeSize st' <= 28 ->
  written st' out' = pack codes' -> nbits st' out' = bits codes' ->
  Forall is_byte out' -> bits codes' <= bits codes + 24 ->
  decodes decoder0 codes' ->
  (exists P, sim st' (after decoder0 codes') P /\
             decoded decoder0 codes' ++ P = pre ++ [s]) ->
  encoding (pre ++ [s]) rest (next_pixel st') out' codes'.
Proof.
  intros Henc E1 E2 E3 E4 E5 E6 E7 E8 E9 E10 Hps Hp Hsum Hwr Hnb Hby Hbd Hdec [P [Hsim HP]].
  destruct (encoding_next _ _ _ _ st' _ _ Henc)
    as (F1 & F2 & F3 & F4 & F5 & F6 & F7 & F8 & F9 & F10 & F11 & F12 & F13 & F14 & F15 & F16);
    try assumption.
  destruct Henc.
  constructor; try assumption; unfold written, nbits in *; rewrite ?F11, ?F12, ?F13;
    try assumption.
  - rewrite length_app. cbn [length]. lia.
  - exists P. split; [|exact HP]. apply (sim_same st'); assumption.
Qed.

Lemma compress_pixel_step pre s rest st out codes :
  encoding pre (s :: rest) st out codes -> 0 <= s < clear ->
  3 * Z.of_nat (length (pre ++ s :: rest)) <= len ->
  exists st' out' codes',
    compress_pixel len st out = (st', out') /\
    encoding (pre ++ [s]) rest st' out' codes' /\
    Z.of_nat (length out') < len.
Proof.
  intros Henc Hs Hlen.
  pose proof Henc as [Hmin' Hclear Hend Hbpp Hshift Hpassed Hdone Hbuf Hpos Hsize Hps Hp Hsum
                      Hwr Hnb Hby Hbd Hdec [P [Hsim HP]]].
  pose proof (pow2_min_bounds _ Hmin) as Hpow.
  pose proof (sim_prefix _ _ _ Hsim) as Hpre.
  pose proof (s_max _ _ _ Hsim) as Hmax. unfold MAX_LZW_CODE in Hmax.
  assert (Hch : buffer_at st (m_bufferPos st) = s).
  { unfold buffer_at. rewrite Hbuf, Hpos, Nat2Z.id. cbn [default from_option id].
    rewrite app_nth2, Nat.sub_diag by lia. reflexivity. }
  unfold compress_pixel. rewrite Hch, Hbpp, Hshift, Hpassed.
  change (shl 1 8 - 1) with 255. rewrite Z.shiftr_0_r.
  rewrite !(land_byte s) by lia.
  rewrite shl_mul by lia. change (2 ^ 8) with 256. rewrite land_prefix by lia.
  change (negb (1 =? 0)) with true. cbv iota.
  pose proof (emit _ _ _ Hsim) as (Hacc & _).
  destruct Hacc as (_ & _ & _ & Hfit & _). cbn [fst snd] in Hfit.
  pose proof (s_range _ _ _ Hsim) as Hrange.
  set (key := m_prefix st * 256 + s).
  pose proof (decodes_fits _ _ Hdec) as Hfits.
  pose proof (bits_nonneg _ Hfits) as Hbits.
  rewrite length_app in Hlen. cbn [length] in Hlen.
  destruct (Z.ltb_spec 0 (strmap_at st key)) as [Hfound | Hmiss].
  - (* the table has an entry *)
    unfold strmap_at in Hfound |- *.
    destruct (m_strmap st !! key) as [v|] eqn:Hv; cbn in Hfound; [|lia]. cbn [default from_option id].
    exists (next_pixel (set_m_prefix v st)), out, codes.
    split; [reflexivity|]. split.
    + apply (encoding_step pre s rest st _ out out codes codes Henc);
        try reflexivity; try assumption; try lia.
      exists (P ++ [s]). split; [|rewrite app_assoc, HP; reflexivity].
      apply (sim_extend st _ _ P s v Hsim Hs Hv); reflexivity.
    + unfold nbits in Hnb. lia.
  - (* no entry *)
    destruct (written_put_code (m_prefix st) st out) as (W1 & N1 & S1 & P1); try lia.
    destruct (put_bytes_flush 8
                (fun st0 out0 => (8 <=? m_partialSize st0) && (Z.of_nat (length out0) <? len))
                (Z.to_nat (m_partialSize (put_code (m_prefix st) st)))
                (put_code (m_prefix st) st) out)
      as (p & s' & out' & Heq & Hval & Hlen' & Hs' & Hp' & Hby' & Hle); try lia; try assumption.
    { intros st' out0 Hn. rewrite N1, Hnb in Hn. unfold nbits in Hn.
      destruct (Z.leb_spec 8 (m_partialSize st')); [|reflexivity].
      rewrite (proj2 (Z.ltb_lt _ _)) by lia. reflexivity. }
    { rewrite Z.max_r by lia. exact P1. }
    rewrite Heq. rewrite (put_code_eq (m_prefix st) st) by lia. cbn.
    rewrite Z.max_r in Hp' by lia. rewrite W1, Hwr, Hnb in Hval. rewrite N1, Hnb in Hlen'.
    assert (Hcs2 : 2 ^ m_codeSize st <= 4096).
    { change 4096 with (2 ^ 12). apply Z.pow_le_mono_r; lia. }
    rewrite (shl_mul 1 (m_codeSize st)), Z.mul_1_l by lia.
    pose proof (s_next _ _ _ Hsim) as Hnx.
    destruct (widen_range (m_nextCode st) (m_codeSize st)) as [Hr1 Hr2]; try lia.
    set (cs' := if m_nextCode st =? 2 ^ m_codeSize st
                then m_codeSize st + 1 else m_codeSize st) in *.
    match goal with
    | |- context [if m_nextCode st =? 2 ^ m_codeSize st
                  then set_m_codeSize _ ?Y else _] =>
        replace (if m_nextCode st =? 2 ^ m_codeSize st
                 then set_m_codeSize (m_codeSize st + 1) Y else Y)
          with (set_m_codeSize cs' Y)
          by (unfold cs'; destruct (m_nextCode st =? 2 ^ m_codeSize st); reflexivity)
    end.
    cbn.
    pose proof (emit _ _ _ Hsim) as (Hacc & Hout & _).
    assert (Hdec' : decodes decoder0 (codes ++ [(m_prefix st, m_codeSize st)])).
    { apply decodes_codes_app. split; [exact Hdec|]. cbn. split; [exact Hacc|exact I]. }
    assert (Hpack : pack (codes ++ [(m_prefix st, m_codeSize st)])
                    = pack codes + 2 ^ bits codes * m_prefix st).
    { rewrite pack_app by exact Hfits. cbn. f_equal. f_equal. lia. }
    assert (Hbits' : bits (codes ++ [(m_prefix st, m_codeSize st)])
                     = bits codes + m_codeSize st).
    { rewrite bits_app. cbn. lia. }
    assert (Hpix : decoded decoder0 (codes ++ [(m_prefix st, m_codeSize st)]) = pre).
    { rewrite decoded_app. cbn. rewrite Hout, app_nil_r. exact HP. }
    destruct (Z.eqb_spec (m_nextCode st + 1) MAX_LZW_CODE) as [Hfull | Hroom].
    + (* the table is full *)
      match goal with
      | |- context [set_m_prefix s ?X] =>
          destruct (sim_clear st (set_m_prefix s X) _ P s Hsim Hs Hfull)
            as (Hno & Hacc2 & Hout2 & Hsim2); try reflexivity
      end.
      { cbn. lia. }
      { cbn. lia. }
      unfold cs' in *. rewrite Hno in *. clear cs'.
      pose proof Hacc2 as (_ & _ & _ & Hfit2 & _). cbn [fst snd] in Hfit2.
      match goal with
      | |- context [put_code (m_clearCode st) ?X] =>
          rewrite (put_code_eq (m_clearCode st) X) in * by (cbn; lia)
      end.
      cbn in Hsim2 |- *.
      set (codes' := codes ++ [(m_prefix st, m_codeSize st); (clear, m_codeSize st)]).
      assert (Hc' : codes' = (codes ++ [(m_prefix st, m_codeSize st)])
                             ++ [(clear, m_codeSize st)]).
      { unfold codes'. rewrite <- app_assoc. reflexivity. }
      assert (Hpw : 2 ^ (8 * Z.of_nat (length out')) * 2 ^ s'
                    = 2 ^ bits codes * 2 ^ m_codeSize st).
      { rewrite <- !Z.pow_add_r by lia. f_equal. lia. }
      eexists _, out', codes'.
      split; [reflexivity|]. split.
      * apply (encoding_step pre s rest st _ out out' codes codes' Henc);
          try reflexivity; try assumption; cbn; try lia.
        -- split; [nia|]. rewrite Z.pow_add_r by lia. nia.
        -- unfold written. cbn. unfold codes'. rewrite pack_app by exact Hfits.
           cbn. rewrite Hclear. nia.
        -- unfold nbits. cbn. unfold codes'. rewrite bits_app. cbn. lia.
        -- unfold codes'. rewrite bits_app. cbn. lia.
        -- rewrite Hc'. apply decodes_codes_app. split; [exact Hdec'|].
           rewrite after_app. cbn. split; [exact Hacc2|exact I].
        -- exists [s]. rewrite Hc', after_app, decoded_app, after_app. cbn.
           rewrite Hout2, !app_nil_r, Hpix. split; [exact Hsim2|reflexivity].
      * unfold nbits in *. lia.
    + (* the table has room *)
      match goal with
      | |- context [set_m_prefix s ?X] =>
          pose proof (sim_emit st (set_m_prefix s X) _ P s Hsim Hs Hroom) as Hsim2
      end.
      cbn in Hsim2. specialize (Hsim2 eq_refl eq_refl eq_refl eq_refl).
      set (codes' := codes ++ [(m_prefix st, m_codeSize st)]) in *.
      eexists _, out', codes'.
      split; [reflexivity|]. split.
      * apply (encoding_step pre s rest st _ out out' codes codes' Henc);
          try reflexivity; try assumption; cbn; try lia.
        -- unfold written. cbn. lia.
        -- unfold nbits. cbn. lia.
        -- exists [s]. rewrite Hpix. split; [|reflexivity].
           unfold codes'. rewrite after_app. exact Hsim2.
      * unfold nbits in *. lia.
Qed.

(** The loop of [Compress] reads the rest of the input, given room for the
    bytes. *)
Lemma compress_loop_encoding rest :
  forall pre st out codes fuel,
    encoding pre rest st out codes ->
    Forall (fun s => 0 <= s < clear) rest ->
    3 * Z.of_nat (length (pre ++ rest)) <= len ->
    (length rest <= fuel)%nat ->
    exists st' out' codes',
      compress_loop fuel len st out
      = Some (true, out', Z.of_nat (length out'), set_m_bufferSize 0 st') /\
      encoding (pre ++ rest) [] st' out' codes'.
Proof.
  induction rest as [|s rest IH]; intros pre st out codes fuel Henc Hall Hlen Hfuel.
  - exists st, out, codes. rewrite app_nil_r in *. split; [|exact Henc].
    destruct Henc. rewrite app_nil_r in *.
    destruct fuel; cbn [compress_loop];
      rewrite (proj2 (Z.ltb_ge _ _)) by lia; reflexivity.
  - inversion Hall as [|? ? Hs Hall']; subst.
    destruct fuel as [|fuel]; [cbn in Hfuel; lia|].
    destruct (compress_pixel_step pre s rest st out codes Henc Hs Hlen)
      as (st1 & out1 & codes1 & Heq & Henc1 & Hroom).
    destruct (IH (pre ++ [s]) st1 out1 codes1 fuel Henc1 Hall')
      as (st' & out' & codes' & Hloop & Henc').
    + rewrite <- app_assoc. exact Hlen.
    + cbn in Hfuel. lia.
    + exists st', out', codes'. rewrite <- app_assoc in Henc'. split; [|exact Henc'].
      cbn [compress_loop]. destruct Henc. rewrite length_app in *. cbn [length] in *.
      rewrite (proj2 (Z.ltb_lt _ _)) by lia.
      rewrite Heq. rewrite (proj2 (Z.eqb_neq _ _)) by lia. exact Hloop.
Qed.

Lemma Initialize_eq :
  Initialize minCodeSize (new_StringTable u) =
  {| m_done := false; m_minCodeSize := minCodeSize; m_clearCode := clear;
     m_endCode := clear + 1; m_nextCode := clear + 1 + 1; m_bpp := 8;
     m_slack := u; m_prefix := 0; m_codeSize := minCodeSize + 1;
     m_codeMask := 2 ^ (minCodeSize + 1) - 1; m_oldCode := MAX_LZW_CODE;
     m_partial := 0; m_partialSize := 0; firstPixelPassed := 0;
     m_strings := single_strings clear ∅; m_strmap := ∅; m_buffer := None;
     m_bufferSize := 0; m_bufferRealSize := u; m_bufferPos := u;
     m_bufferShift := u |}.
Proof.
  pose proof (pow2_min_bounds _ Hmin).
  assert (Hs1 : shl 1 minCodeSize = 2 ^ minCodeSize).
  { rewrite shl_mul; lia. }
  assert (Hs2 : shl 1 (minCodeSize + 1) = 2 ^ (minCodeSize + 1)).
  { rewrite shl_mul; try lia. rewrite Z.pow_add_r by lia. lia. }
  unfold Initialize. cbn. rewrite Hs1. unfold MAX_LZW_CODE.
  rewrite (proj2 (Z.ltb_ge _ _)) by lia.
  unfold ClearDecompressorTable, ClearCompressorTable. cbn. rewrite Hs2.
  reflexivity.
Qed.

Lemma fill_input_new data st :
  m_buffer st = None ->
  fill_input data st =
  set_m_buffer (Some data)
    (set_m_bufferShift (8 - m_bpp st)
       (set_m_bufferPos 0
          (set_m_bufferSize (Z.of_nat (length data))
             (set_m_bufferRealSize (Z.of_nat (length data)) st)))).
Proof.
  intros H. unfold fill_input, FillInputBuffer. rewrite H. cbn.
  rewrite Nat2Z.id, drop_replicate, Nat.sub_diag. cbn [replicate].
  rewrite app_nil_r. reflexivity.
Qed.

(** The first pixel: [CompressStart] has put out a clear code, and the pixel
    becomes the prefix. *)
Lemma Compress_first width s rest :
  0 <= s < clear -> 3 * Z.of_nat (length (s :: rest)) <= len ->
  exists st fuel,
    Compress len (fill_input (s :: rest)
                    (CompressStart 8 width
                       (Initialize minCodeSize (new_StringTable u))))
    = compress_loop fuel len st [] /\
    (length rest <= fuel)%nat /\
    encoding [s] rest st [] [(clear, minCodeSize + 1)].
Proof.
  intros Hs Hlen.
  pose proof (pow2_min_bounds _ Hmin) as Hpow.
  assert (Hpow1 : 2 ^ (minCodeSize + 1) = 2 * clear).
  { rewrite Z.pow_add_r by lia. lia. }
  rewrite Initialize_eq. rewrite fill_input_new by reflexivity.
  unfold CompressStart, put_code, ClearCompressorTable. cbn.
  rewrite shl_mul by lia. rewrite Z.lor_0_l, Z.mul_1_r.
  match goal with
  | |- context [Compress len ?X] => set (st0 := X)
  end.
  assert (Hch : Z.land (Z.land (Z.shiftr (buffer_at st0 (m_bufferPos st0))
                                         (m_bufferShift st0))
                               (shl 1 (m_bpp st0) - 1)) 255 = s).
  { unfold buffer_at. cbn. change (shl 1 8 - 1) with 255.
    change (Z.to_nat 0) with 0%nat. change (8 - 8) with 0. cbv iota.
    rewrite Z.shiftr_0_r, (land_byte s), (land_byte s) by lia. reflexivity. }
  set (st1 := next_pixel (set_m_prefix s (set_firstPixelPassed 1 st0))).
  exists st1, (7 + 8 * length rest)%nat.
  split; [|split; [lia|]].
  - unfold Compress.
    change (m_done st0) with false. change (m_bufferSize st0) with (Z.of_nat (S (length rest))).
    rewrite (proj2 (Z.eqb_neq _ _)) by lia. cbn [orb].
    replace (Z.to_nat (8 * Z.of_nat (S (length rest))))
      with (S (7 + 8 * length rest))%nat by lia.
    cbn [compress_loop].
    change (m_bufferPos st0) with 0. change (m_bufferSize st0) with (Z.of_nat (S (length rest))).
    rewrite (proj2 (Z.ltb_lt _ _)) by lia.
    unfold compress_pixel. rewrite Hch.
    change (firstPixelPassed st0) with 0. cbn [Z.eqb negb length Z.of_nat].
    change (Z.of_nat 0) with 0.
    rewrite (proj2 (Z.eqb_neq 0 len)) by (cbn [length] in Hlen; lia).
    reflexivity.
  - assert (Hacc : accepts decoder0 (clear, minCodeSize + 1)).
    { unfold decoder0. rewrite Initialize_eq. unfold accepts. cbn.
      repeat apply conj; lia. }
    assert (Hstep : step_code clear decoder0 = ClearDecompressorTable decoder0).
    { unfold step_code, decoder0. rewrite Initialize_eq. cbn.
      rewrite Z.eqb_refl. reflexivity. }
    assert (Hs2 : shl 1 (minCodeSize + 1) = 2 ^ (minCodeSize + 1)).
    { rewrite shl_mul; lia. }
    constructor; unfold written, nbits, st1; rewrite ?next_pixel_byte by reflexivity;
      unfold st0; try reflexivity; cbn; try lia.
    + rewrite Z.add_0_l. lia.
    + constructor.
    + split; [exact Hacc|exact I].
    + exists [s]. split; [|unfold out_code, decoder0; rewrite Initialize_eq; cbn;
                           rewrite Z.eqb_refl; reflexivity].
      rewrite Hstep. unfold decoder0. rewrite Initialize_eq.
      unfold ClearDecompressorTable. cbn. rewrite Hs2.
      constructor; unfold st1; rewrite ?next_pixel_byte by reflexivity;
        unfold st0; cbn; unfold MAX_LZW_CODE; try reflexivity; try lia.
      * replace (minCodeSize + 1 - 1) with minCodeSize by lia. lia.
      * intros c Hc. unfold string_at. cbn. rewrite single_strings_lookup.
        rewrite (proj2 (Z.leb_le _ _)), (proj2 (Z.ltb_lt _ _)) by lia. cbn.
        rewrite Z.mod_small by lia. reflexivity.
      * left. unfold fresh, st1. rewrite ?next_pixel_byte by reflexivity.
        unfold st0. cbn. unfold MAX_LZW_CODE.
        repeat apply conj; try reflexivity; lia.
Qed.

(** [CompressEnd] appends the code that the compressor holds and the end
    code, and fills the last byte with zero bits. *)
Lemma CompressEnd_bits st out codes :
  m_endCode st = clear + 1 ->
  0 <= m_partialSize st -> 0 <= m_partial st < 2 ^ m_partialSize st ->
  m_partialSize st + m_codeSize st <= 28 ->
  minCodeSize + 1 <= m_codeSize st <= 12 ->
  0 <= m_prefix st < 2 ^ m_codeSize st ->
  written st out = pack codes -> nbits st out = bits codes ->
  Forall is_byte out -> Forall fits codes ->
  let codes' := codes ++ [(m_prefix st, m_codeSize st)] in
  let bytes := out ++ (CompressEnd st).1 in
  le_value bytes = pack codes' + 2 ^ bits codes' * (clear + 1) /\
  bits codes' <= 8 * Z.of_nat (length bytes) /\ Forall is_byte bytes.
Proof.
  intros Hend Hps Hp Hsum Hrange Hfit Hwr Hnb Hby Hfits codes' bytes.
  pose proof (pow2_min_bounds _ Hmin) as Hpow.
  pose proof (bits_nonneg _ Hfits) as Hbits.
  assert (Hpow2 : 2 * clear <= 2 ^ m_codeSize st).
  { replace (2 * clear) with (2 ^ (minCodeSize + 1)) by (rewrite Z.pow_add_r; lia).
    apply Z.pow_le_mono_r; lia. }
  destruct (written_put_code (m_prefix st) st []) as (W1 & N1 & S1 & P1); try lia.
  set (st1 := put_code (m_prefix st) st) in *.
  assert (Hcs1 : m_codeSize st1 = m_codeSize st) by reflexivity.
  destruct (put_bytes_flush 8 (fun st _ => 8 <=? m_partialSize st)
              (Z.to_nat (m_partialSize st1)) st1 [])
    as (p1 & s1 & o1 & Heq1 & Hval1 & Hlen1 & Hs1 & Hp1 & Hby1 & Hle1);
    [lia|reflexivity|lia|lia| |apply Forall_nil_2|].
  { rewrite Z.max_r by lia. exact P1. }
  rewrite Z.max_r in Hp1 by lia.
  set (st2 := set_m_partialSize s1 (set_m_partial p1 st1)) in *.
  assert (Hf2 : m_codeSize st2 = m_codeSize st /\ m_partialSize st2 = s1 /\
                m_partial st2 = p1 /\ m_endCode st2 = m_endCode st).
  { repeat apply conj; reflexivity. }
  destruct Hf2 as (F1 & F2 & F3 & F4).
  destruct (written_put_code (m_endCode st2) st2 o1) as (W2 & N2 & S2 & P2);
    rewrite ?F1, ?F2, ?F3, ?F4; try lia.
  set (st3 := put_code (m_endCode st2) st2) in *.
  destruct (put_bytes_flush 1 (fun st _ => 0 <? m_partialSize st)
              (Z.to_nat (m_partialSize st3)) st3 o1)
    as (p2 & s2 & o2 & Heq2 & Hval2 & Hlen2 & Hs2 & Hp2 & Hby2 & Hle2);
    [lia| |lia|lia| |assumption|].
  { intros st' out' _. destruct (Z.ltb_spec 0 (m_partialSize st')),
                                (Z.leb_spec 1 (m_partialSize st')); try reflexivity; lia. }
  { rewrite Z.max_r by lia. exact P2. }
  assert (Hend2 : (CompressEnd st).1 = o2).
  { unfold CompressEnd. fold st1. rewrite Heq1. fold st2. fold st3.
    rewrite Heq2. reflexivity. }
  subst bytes. rewrite Hend2. clear Heq1 Heq2 Hend2.
  assert (Hp2' : p2 = 0).
  { rewrite Z.max_l in Hp2 by lia. change (2 ^ 0) with 1 in Hp2. lia. }
  subst p2.
  unfold written, nbits in *. cbn [length le_value] in *.
  rewrite ?F1, ?F2, ?F3, ?F4, ?Hend in *.
  change (8 * Z.of_nat 0) with 0 in *. change (2 ^ 0) with 1 in *.
  rewrite ?Hcs1 in *.
  assert (Hlen1' : 8 * Z.of_nat (length o1) + s1 = m_partialSize st + m_codeSize st) by lia.
  rewrite Hlen1' in W2.
  assert (E1 : le_value o2 = m_partial st + 2 ^ m_partialSize st * m_prefix st
                             + 2 ^ (m_partialSize st + m_codeSize st) * (clear + 1)).
  { replace (0 + m_partialSize st) with (m_partialSize st) in W1 by lia. lia. }
  assert (Hpack : pack codes' = pack codes + 2 ^ bits codes * m_prefix st).
  { unfold codes'. rewrite pack_app by exact Hfits. cbn. f_equal. f_equal. lia. }
  assert (Hbits' : bits codes' = bits codes + m_codeSize st).
  { unfold codes'. rewrite bits_app. cbn. lia. }
  split; [|split].
  - rewrite le_value_app, E1, Hpack, Hbits', <- Hwr, <- Hnb.
    rewrite !Z.pow_add_r by lia. ring.
  - rewrite Hbits', length_app. lia.
  - apply Forall_app. split; assumption.
Qed.

Lemma CompressEnd_stream pre st out codes :
  encoding pre [] st out codes ->
  let codes' := codes ++ [(m_prefix st, m_codeSize st)] in
  let bytes := out ++ (CompressEnd (set_m_bufferSize 0 st)).1 in
  le_value bytes = pack codes' + 2 ^ bits codes' * (clear + 1) /\
  bits codes' <= 8 * Z.of_nat (length bytes) /\ Forall is_byte bytes /\
  decodes decoder0 codes' /\ decoded decoder0 codes' = pre /\
  1 <= m_codeSize (after decoder0 codes') <= 12 /\
  clear + 1 < 2 ^ m_codeSize (after decoder0 codes') /\
  m_endCode (after decoder0 codes') = clear + 1 /\
  m_codeMask (after decoder0 codes') = 2 ^ m_codeSize (after decoder0 codes') - 1.
Proof.
  intros Henc codes' bytes.
  pose proof Henc as [Hmin' Hclear Hend Hbpp Hshift Hpassed Hdone Hbuf Hpos Hsize Hps Hp Hsum
                      Hwr Hnb Hby Hbd Hdec [P [Hsim HP]]].
  pose proof (pow2_min_bounds _ Hmin) as Hpow.
  pose proof (emit _ _ _ Hsim) as
    (Hacc & Hout & Dmin & Dclear & Dend & Dold & Dnext & Dcs & Dmask & _).
  pose proof Hacc as (_ & _ & _ & Hfit & _). cbn [fst snd] in Hfit.
  pose proof (s_range _ _ _ Hsim) as Hrange.
  pose proof (s_next _ _ _ Hsim) as Hnext.
  pose proof (s_max _ _ _ Hsim) as Hmax. unfold MAX_LZW_CODE in Hmax.
  pose proof (decodes_fits _ _ Hdec) as Hfits.
  destruct (widen_range (m_nextCode st) (m_codeSize st)) as [Hr1 Hr2]; try lia.
  rewrite <- Dcs in Hr1.
  assert (Hpow2 : 2 * clear <= 2 ^ m_codeSize (step_code (m_prefix st) (after decoder0 codes))).
  { replace (2 * clear) with (2 ^ (minCodeSize + 1)) by (rewrite Z.pow_add_r; lia).
    apply Z.pow_le_mono_r; lia. }
  destruct (CompressEnd_bits (set_m_bufferSize 0 st) out codes) as (B1 & B2 & B3);
    try assumption.
  unfold codes'. rewrite after_app, decoded_app. cbn [after decoded fst].
  rewrite Hout, app_nil_r.
  repeat apply conj; try assumption; try lia.
  apply decodes_codes_app. split; [exact Hdec|]. cbn. split; [exact Hacc|exact I].
Qed.

(** The stream that the compressor makes of pixels is one of codes that the
    decompressor accepts, followed by the end code. *)
Lemma compress_stream_codes width s rest :
  Forall (fun s => 0 <= s < clear) (s :: rest) ->
  3 * Z.of_nat (length (s :: rest)) <= len ->
  exists bytes codes,
    compress_stream u minCodeSize width len (s :: rest) = Some bytes /\
    le_value bytes = pack codes + 2 ^ bits codes * (clear + 1) /\
    bits codes <= 8 * Z.of_nat (length bytes) /\ Forall is_byte bytes /\
    0 < bits codes /\
    decodes decoder0 codes /\ decoded decoder0 codes = s :: rest /\
    1 <= m_codeSize (after decoder0 codes) <= 12 /\
    clear + 1 < 2 ^ m_codeSize (after decoder0 codes) /\
    m_endCode (after decoder0 codes) = clear + 1 /\
    m_codeMask (after decoder0 codes) = 2 ^ m_codeSize (after decoder0 codes) - 1.
Proof.
  intros Hall Hlen.
  inversion Hall as [|? ? Hs Hall']; subst.
  destruct (Compress_first width s rest Hs Hlen) as (st1 & fuel & HC & Hfuel & Henc1).
  destruct (compress_loop_encoding rest [s] st1 [] _ fuel Henc1 Hall' Hlen Hfuel)
    as (st' & out' & codes & Hloop & Henc').
  destruct (CompressEnd_stream _ _ _ _ Henc')
    as (Hval & Hbits & Hbytes & Hdec & Hpix & Hcs & Hend & Hend' & Hmask).
  exists (out' ++ (CompressEnd (set_m_bufferSize 0 st')).1),
         (codes ++ [(m_prefix st', m_codeSize st')]).
  assert (Hpos : 0 < bits (codes ++ [(m_prefix st', m_codeSize st')])).
  { pose proof (decodes_fits _ _ Hdec) as Hfits.
    rewrite bits_app. cbn.
    rewrite Forall_app in Hfits. destruct Hfits as [Hf1 Hf2].
    pose proof (bits_nonneg _ Hf1). inversion Hf2 as [|? ? [Hw _] _]; subst.
    cbn in Hw. lia. }
  split.
  { unfold compress_stream. rewrite HC, Hloop. reflexivity. }
  repeat apply conj; try assumption; lia.
Qed.

Lemma fill_input_fields data st :
  m_buffer st = None ->
  m_buffer (fill_input data st) = Some data /\
  m_bufferSize (fill_input data st) = Z.of_nat (length data) /\
  m_bufferPos (fill_input data st) = 0 /\
  m_partial (fill_input data st) = m_partial st /\
  m_partialSize (fill_input data st) = m_partialSize st /\
  m_done (fill_input data st) = m_done st /\
  table_of (fill_input data st) = table_of st.
Proof.
  intros H. rewrite fill_input_new by exact H.
  repeat apply conj; reflexivity.
Qed.

(** One [Decompress] call, with room for the pixels, on such a stream stores
    the pixels of the codes. *)
Lemma decompress_stream_codes dlen bytes codes :
  le_value bytes = pack codes + 2 ^ bits codes * (clear + 1) ->
  bits codes <= 8 * Z.of_nat (length bytes) -> Forall is_byte bytes ->
  0 < bits codes -> decodes decoder0 codes ->
  Z.of_nat (length (decoded decoder0 codes)) <= dlen ->
  1 <= m_codeSize (after decoder0 codes) <= 12 ->
  clear + 1 < 2 ^ m_codeSize (after decoder0 codes) ->
  m_endCode (after decoder0 codes) = clear + 1 ->
  m_codeMask (after decoder0 codes) = 2 ^ m_codeSize (after decoder0 codes) - 1 ->
  decompress_stream u minCodeSize [dlen] bytes = Some (decoded decoder0 codes).
Proof.
  intros Hval Hbits Hbytes Hpos Hdec Hdlen Hcs Hend Hend' Hmask.
  pose proof (pow2_min_bounds _ Hmin) as Hpow.
  assert (Hfields : m_buffer decoder0 = None /\ m_partial decoder0 = 0 /\
                    m_partialSize decoder0 = 0 /\ m_done decoder0 = false /\
                    m_endCode decoder0 = clear + 1).
  { unfold decoder0. rewrite Initialize_eq. repeat apply conj; reflexivity. }
  destruct Hfields as (Fbuf & Fp & Fps & Fdone & Fend).
  destruct (fill_input_fields bytes decoder0 Fbuf)
    as (G1 & G2 & G3 & G4 & G5 & G6 & G7).
  rewrite Fp in G4. rewrite Fps in G5. rewrite Fdone in G6.
  rewrite <- Fend in Hval, Hend, Hend'.
  assert (Hne : bytes <> []).
  { intros E. rewrite E in Hbits. cbn in Hbits. lia. }
  destruct (Decompress_stream bytes dlen Hbytes (fill_input bytes decoder0) decoder0 codes
              G1 G2 G3 G4 G5 G6 Hne G7 Hdec Hval Hbits Hdlen Hcs ltac:(lia) Hend' Hmask)
    as [st' HD].
  unfold decompress_stream. fold decoder0.
  change (decompress_calls [dlen] (fill_input bytes decoder0))
    with (match Decompress dlen (fill_input bytes decoder0) with
          | Some (true, out, st) =>
              '(rest, st) ← decompress_calls [] st; Some (out ++ rest, st)
          | Some (false, _, st) => Some ([], st)
          | None => None
          end).
  rewrite HD. cbn [decompress_calls mbind option_bind fmap option_fmap option_map fst].
  rewrite app_nil_r. reflexivity.
Qed.

(** Compressing and decompressing gives the pixels back. *)
Lemma round_trip_pixels width dlen pixels :
  pixels <> [] -> Forall (fun s => 0 <= s < clear) pixels ->
  3 * Z.of_nat (length pixels) <= len -> Z.of_nat (length pixels) <= dlen ->
  round_trip u minCodeSize width len dlen pixels = Some pixels.
Proof.
  intros Hne Hall Hlen Hdlen.
  destruct pixels as [|s rest]; [congruence|].
  destruct (compress_stream_codes width s rest Hall Hlen)
    as (bytes & codes & HC & Hval & Hbits & Hbytes & Hpos & Hdec & Hpix &
        Hcs & Hend & Hend' & Hmask).
  unfold round_trip. rewrite HC. cbn [mbind option_bind].
  rewrite <- Hpix in Hdlen |- *.
  apply decompress_stream_codes; assumption.
Qed.

End Compressor.



End LZWFacts.

(** *** The output buffers of the LZW codec are never overrun *)
Module LZWBounds.
Import LZW.

(** What a loop of [Decompress] has stored when it leaves. *)
Definition stored (r : exit) : list Z :=
  match r with Returned _ out | Finished _ out => out end.

Lemma decompress_codes_stored fuel len st out r :
  Z.of_nat (length out) <= len ->
  decompress_codes fuel len st out = Some r ->
  Z.of_nat (length (stored r)) <= len.
Proof.
  revert st out. induction fuel as [|fuel IH]; intros st out Hout; cbn [decompress_codes].
  - destruct (m_codeSize st <=? m_partialSize st); [discriminate|].
    intros [= <-]. exact Hout.
  - destruct (m_codeSize st <=? m_partialSize st); [|intros [= <-]; exact Hout].
    cbv zeta.
    destruct (_ || _); [intros [= <-]; exact Hout|].
    destruct (_ =? m_clearCode _); [apply IH; exact Hout|].
    destruct (_ <? Z.of_nat (length _)) eqn:Hroom; [intros [= <-]; exact Hout|].
    apply IH. apply Z.ltb_ge in Hroom. rewrite length_app. lia.
Qed.

Lemma decompress_bytes_stored fuel len st out r :
  Z.of_nat (length out) <= len ->
  decompress_bytes fuel len st out = Some r ->
  Z.of_nat (length (stored r)) <= len.
Proof.
  revert st out. induction fuel as [|fuel IH]; intros st out Hout; cbn [decompress_bytes].
  - destruct (m_bufferPos st <? m_bufferSize st); [discriminate|].
    intros [= <-]. exact Hout.
  - destruct (m_bufferPos st <? m_bufferSize st); [|intros [= <-]; exact Hout].
    cbv zeta.
    destruct (decompress_codes _ _ _ _) as [[st1 out1|st1 out1]|] eqn:Hcodes;
      [intros [= <-]| |discriminate].
    + apply (decompress_codes_stored _ _ _ _ _ Hout Hcodes).
    + apply IH. apply (decompress_codes_stored _ _ _ _ _ Hout Hcodes).
Qed.



Lemma put_bytes_room fuel len (test : StringTable -> bool) st out :
  Z.of_nat (length out) <= len ->
  Z.of_nat (length (put_bytes fuel
     (fun st out => test st && (Z.of_nat (length out) <? len)) st out).2) <= len.
Proof.
  revert st out. induction fuel as [|fuel IH]; intros st out Hout; cbn [put_bytes].
  - exact Hout.
  - destruct (test st); cbn [andb]; [|exact Hout].
    destruct (Z.of_nat (length out) <? len) eqn:Hroom; [|exact Hout].
    cbv zeta. apply IH. apply Z.ltb_lt in Hroom. rewrite length_app. cbn. lia.
Qed.

Lemma compress_pixel_room len st out :
  Z.of_nat (length out) <= len ->
  Z.of_nat (length (compress_pixel len st out).2) <= len.
Proof.
  intros Hout. unfold compress_pixel. cbv zeta.
  destruct (negb _); [|exact Hout].
  destruct (0 <? strmap_at st _); [exact Hout|].
  pose proof (put_bytes_room (Z.to_nat (m_partialSize (put_code (m_prefix st) st)))
                len (fun st => 8 <=? m_partialSize st)
                (put_code (m_prefix st) st) out Hout) as Hput.
  destruct (put_bytes _ _ _ _) as [st1 out1]. exact Hput.
Qed.

Lemma compress_loop_room fuel len st out more out' len' st' :
  Z.of_nat (length out) <= len ->
  compress_loop fuel len st out = Some (more, out', len', st') ->
  len' = Z.of_nat (length out') /\ len' <= len.
Proof.
  revert st out. induction fuel as [|fuel IH]; intros st out Hout; cbn [compress_loop].
  - destruct (m_bufferPos st <? m_bufferSize st); [discriminate|].
    intros [= <- <- <- <-]. split; [reflexivity|exact Hout].
  - destruct (m_bufferPos st <? m_bufferSize st);
      [|intros [= <- <- <- <-]; split; [reflexivity|exact Hout]].
    pose proof (compress_pixel_room len st out Hout) as Hpix.
    destruct (compress_pixel len st out) as [st1 out1]. cbn [snd] in Hpix.
    destruct (Z.of_nat (length out1) =? len) eqn:Hfull.
    + intros [= <- <- <- <-]. apply Z.eqb_eq in Hfull. lia.
    + apply IH. exact Hpix.
Qed.

(** [Compress(buf, &len)] never stores more than the [len] bytes the caller
    has room for, and when it returns [true] the [*len] it hands back is the
    number of bytes it has stored. *)
Theorem Compress_within_len (len : Z) (st st' : StringTable)
    (more : bool) (out : list Z) (len' : Z) :
  0 <= len ->
  Compress len st = Some (more, out, len', st') ->
  Z.of_nat (length out) <= len /\ (more = true -> len' = Z.of_nat (length out)).
Proof.
  intros Hlen. unfold Compress.
  destruct (_ || _).
  - intros [= <- <- <- <-]. split; [cbn; lia|discriminate].
  - intros Hloop.
    destruct (compress_loop_room _ len _ [] _ _ _ _ ltac:(cbn; lia) Hloop) as [-> Hle].
    split; [exact Hle|reflexivity].
Qed.

(** The theorem at work: four pixels and room for one byte. *)
Lemma Compress_within_len_witness :
  Z.of_nat (length [0]) <= 1 /\ (true = true -> 1 = Z.of_nat (length [0])).
Proof.
  eapply (Compress_within_len 1
            (fill_input [7; 7; 7; 200]
               (CompressStart 8 4 (Initialize 8 (new_StringTable 0))))
            _ true [0] 1).
  - lia.
  - vm_compute. reflexivity.
Defined.

(** **** [Decompress] returns *)

(** What the loops of [Decompress] need to end, and keep: a code size that is
    positive.  [same_input] says that the loop over the codes has left the
    place in the input buffer alone. *)
Definition live (st : StringTable) : Prop :=
  1 <= m_codeSize st /\ 0 <= m_minCodeSize st.

Definition same_input (st st' : StringTable) : Prop :=
  m_bufferPos st' = m_bufferPos st /\ m_bufferSize st' = m_bufferSize st.

Lemma add_string_keeps code st :
  m_codeSize (add_string code st) = m_codeSize st
  /\ m_minCodeSize (add_string code st) = m_minCodeSize st
  /\ m_partialSize (add_string code st) = m_partialSize st
  /\ same_input st (add_string code st).
Proof. unfold add_string, same_input. destruct (_ && _); cbn; auto. Qed.

Lemma increment_code_keeps st :
  m_codeSize st <= m_codeSize (increment_code st)
  /\ m_minCodeSize (increment_code st) = m_minCodeSize st
  /\ m_partialSize (increment_code st) = m_partialSize st
  /\ same_input st (increment_code st).
Proof.
  unfold increment_code, same_input. destruct (_ && _); cbn; [|lia].
  destruct (_ <? _); cbn; [|lia]. destruct (_ =? _); cbn; lia.
Qed.

Lemma decompress_codes_returns fuel len st out :
  live st -> m_partialSize st <= Z.of_nat fuel ->
  exists r, decompress_codes fuel len st out = Some r
            /\ forall st' out', r = Finished st' out' ->
                 live st' /\ same_input st st'.
Proof.
  revert st out. induction fuel as [|fuel IH]; intros st out [Hcs Hmin] Hfuel;
    cbn [decompress_codes].
  - destruct (Z.leb_spec (m_codeSize st) (m_partialSize st)); [lia|].
    eexists. split; [reflexivity|]. intros st' out' [= <- <-].
    split; [split; assumption|split; reflexivity].
  - destruct (Z.leb_spec (m_codeSize st) (m_partialSize st)).
    2:{ eexists. split; [reflexivity|]. intros st' out' [= <- <-].
        split; [split; assumption|split; reflexivity]. }
    cbv zeta.
    set (code := Z.land (m_partial st) (m_codeMask st)).
    set (st1 := set_m_partialSize _ (set_m_partial _ st)).
    assert (H1 : m_codeSize st1 = m_codeSize st /\ m_minCodeSize st1 = m_minCodeSize st
                 /\ m_partialSize st1 = m_partialSize st - m_codeSize st
                 /\ same_input st st1)
      by (unfold same_input; cbn; auto).
    destruct H1 as (E1 & E2 & E3 & E4 & E5).
    destruct (_ || _).
    { eexists. split; [reflexivity|]. intros st' out' [=]. }
    destruct (code =? m_clearCode st1).
    { destruct (IH (ClearDecompressorTable st1) out) as (r & -> & Hr).
      - unfold live. cbn. lia.
      - cbn. lia.
      - exists r. split; [reflexivity|]. intros st' out' Hfin.
        destruct (Hr st' out' Hfin) as [Hl [Hs1 Hs2]].
        split; [exact Hl|]. cbn in Hs1, Hs2. split; congruence. }
    destruct (add_string_keeps code st1) as (A1 & A2 & A3 & A4 & A5).
    destruct (_ <? Z.of_nat (length _)).
    { eexists. split; [reflexivity|]. intros st' out' [=]. }
    destruct (increment_code_keeps (add_string code st1)) as (I1 & I2 & I3 & I4 & I5).
    destruct (IH (set_m_oldCode code (increment_code (add_string code st1)))
                 (out ++ string_at (add_string code st1) code))
      as (r & -> & Hr).
    + unfold live. cbn. lia.
    + cbn. lia.
    + exists r. split; [reflexivity|]. intros st' out' Hfin.
      destruct (Hr st' out' Hfin) as [Hl [Hs1 Hs2]].
      split; [exact Hl|]. cbn in Hs1, Hs2. split; congruence.
Qed.

Lemma decompress_bytes_returns fuel len st out :
  live st -> m_bufferSize st - m_bufferPos st <= Z.of_nat fuel ->
  is_Some (decompress_bytes fuel len st out).
Proof.
  revert st out. induction fuel as [|fuel IH]; intros st out Hlive Hfuel;
    cbn [decompress_bytes].
  - destruct (Z.ltb_spec (m_bufferPos st) (m_bufferSize st)); [lia|].
    eexists. reflexivity.
  - destruct (Z.ltb_spec (m_bufferPos st) (m_bufferSize st));
      [|eexists; reflexivity].
    cbv zeta.
    set (st1 := set_m_partialSize _ (set_m_partial _ st)).
    destruct (decompress_codes_returns (Z.to_nat (m_partialSize st1)) len st1 out)
      as (r & Hr & Hfin).
    + destruct Hlive. split; cbn; assumption.
    + pose proof (Z2Nat.id (m_partialSize st1)).
      destruct (Z.le_gt_cases 0 (m_partialSize st1)); lia.
    + rewrite Hr. destruct r as [st2 out2|st2 out2]; [eexists; reflexivity|].
      destruct (Hfin st2 out2 eq_refl) as [Hl [Hs1 Hs2]].
      apply IH.
      * destruct Hl. split; cbn; assumption.
      * cbn in Hs1, Hs2 |- *. lia.
Qed.




End LZWBounds.

(** ** PluginGIF.cpp: the plugin procedures *)
Module GIF.

Definition GIF_DISPOSAL_UNSPECIFIED : Z := 0.
Definition GIF_DISPOSAL_LEAVE : Z := 1.
Definition GIF_DISPOSAL_BACKGROUND : Z := 2.
Definition GIF_DISPOSAL_PREVIOUS : Z := 3.

Definition GIF_PACKED_GCE_DISPOSAL : Z := 0x1C.
Definition GIF_PACKED_GCE_HAVETRANS : Z := 0x01.

(** [Validate]: six bytes are asked for; the buffer starts zeroed, so a short
    read compares the zero tail. *)
Definition Validate : io_prog bool :=
  let GIF89a := [0x47; 0x49; 0x46; 0x38; 0x39; 0x61] in
  let GIF87a := [0x47; 0x49; 0x46; 0x38; 0x37; 0x61] in
  let signature0 := [0; 0; 0; 0; 0; 0] in
  '(got, _) ← read_proc 1 6;
  let signature := store signature0 got in
  if bytes_eqb GIF89a signature then Ret true
  else if bytes_eqb GIF87a signature then Ret true
  else Ret false.


(** What [Open] leaves in [GIFinfo] for a stream opened for reading. *)
Record GIFinfo : Type := {
  read : bool;
  global_color_table_offset : Z;
  global_color_table_size : Z;
  background_color : Z;
  application_extension_offsets : list Z;
  comment_extension_offsets : list Z;
  graphic_control_extension_offsets : list Z;
  image_descriptor_offsets : list Z
}.

Record PageInfo : Type := {
  disposal_method : Z;
  left : Z; top : Z; width : Z; height : Z
}.

(** Modelled from the spec: the load flags "render composited playback
    frame" and its companion, which FreeImage.h (not under src/) declares as
    the bits [GIF_LOAD256 = 1] and [GIF_PLAYBACK = 2]. *)
Definition GIF_LOAD256 : Z := 1.
Definition GIF_PLAYBACK : Z := 2.

(** Element [i] of a [std::vector]; the loader only indexes the two offset
    vectors below their common size ([Open] pushes to both together). *)
Definition at_index (v : list Z) (i : Z) : Z := nth (Z.to_nat i) v 0.

(** [io->read_proc(&b, 1, 1, handle)] into a [uint8_t] that held [old]. *)
Definition read_u8 (old : Z) : io_prog Z :=
  '(got, _) ← read_proc 1 1;
  Ret (match store [old] got with b :: _ => b | [] => old end).

(** [io->read_proc(&w, 2, 1, handle)] into a little-endian [uint16_t] that
    held [old]. *)
Definition read_u16 (old : Z) : io_prog Z :=
  '(got, _) ← read_proc 2 1;
  Ret (match store [old mod 256; old / 256] got with
       | [b0; b1] => b0 + 256 * b1
       | _ => old
       end).

(** The local variables of [Load] that are read before they are assigned
    only when a stream read comes back short: their indeterminate first
    values are an input. *)
Record locals : Type := {
  packed : Z;
  v_left : Z; v_top : Z; v_width : Z; v_height : Z;
  logicalwidth : Z; logicalheight : Z;
  bg_red : Z; bg_green : Z; bg_blue : Z
}.

(** What the loader hands back: a decoded frame, or the logical canvas with
    the drawing steps the playback applied to it, oldest first. *)
Inductive render_step : Type :=
| FillBackground (page : Z) (info : PageInfo)
| DrawPage (page : Z) (info : PageInfo).

Inductive FIBITMAP : Type :=
| FramePage (page : Z)
| Canvas (logicalwidth logicalheight : Z) (background : Z * Z * Z)
    (steps : list render_step).

(** The [while (start >= 0)] loop of the playback; [n] is [start + 1].  The
    result is [start] as the loop leaves it, and [pageinfo]. *)
Fixpoint scan_pages (info : GIFinfo) (lw lh end_ : Z) (n : nat)
    (packed0 left0 top0 width0 height0 : Z) (pageinfo : list PageInfo)
  : io_prog (Z * list PageInfo) :=
  match n with
  | O => Ret (-1, pageinfo)
  | S n' =>
      let start := Z.of_nat n' in
      (* Graphic Control Extension *)
      _ ← seek_proc (at_index (graphic_control_extension_offsets info) start + 1)
            SEEK_SET;
      packed ← read_u8 packed0;
      let have_transparent := negb (Z.land packed GIF_PACKED_GCE_HAVETRANS =? 0) in
      let disposal_method := Z.shiftr (Z.land packed GIF_PACKED_GCE_DISPOSAL) 2 in
      (* Image Descriptor *)
      _ ← seek_proc (at_index (image_descriptor_offsets info) start) SEEK_SET;
      left ← read_u16 left0;
      top ← read_u16 top0;
      width ← read_u16 width0;
      height ← read_u16 height0;
      let pageinfo1 :=
        pageinfo ++ [Build_PageInfo disposal_method left top width height] in
      let continue := scan_pages info lw lh end_ n' packed left top width height in
      if negb (start =? end_) then
        if (left =? 0) && (top =? 0) && (width =? lw) && (height =? lh) then
          if disposal_method =? GIF_DISPOSAL_BACKGROUND then
            Ret (start + 1, removelast pageinfo1)
          else if negb (disposal_method =? GIF_DISPOSAL_PREVIOUS) then
            if negb have_transparent then Ret (start, pageinfo1)
            else continue pageinfo1
          else continue pageinfo1
        else continue pageinfo1
      else continue pageinfo1
  end.

(** The [for (page = start; page <= end; page++)] loop of the playback;
    [count] is [end - page + 1].  [load] is the recursive call
    [Load(io, handle, page, GIF_LOAD256, data)]. *)
Fixpoint draw_pages (load : Z -> io_prog (option FIBITMAP))
    (pageinfo : list PageInfo) (end_ : Z) (count : nat) (page : Z)
    (steps : list render_step) : io_prog (list render_step) :=
  match count with
  | O => Ret steps
  | S count' =>
      let info := nth (Z.to_nat (end_ - page)) pageinfo
                    (Build_PageInfo 0 0 0 0 0) in
      let next := draw_pages load pageinfo end_ count' (page + 1) in
      if negb (page =? end_) && (disposal_method info =? GIF_DISPOSAL_PREVIOUS)
      then next steps
      else if negb (page =? end_)
              && (disposal_method info =? GIF_DISPOSAL_BACKGROUND)
      then next (steps ++ [FillBackground page info])
      else
        (* decode page *)
        load page ≫= fun pagedib : option FIBITMAP =>
        match pagedib with
        | Some _ => next (steps ++ [DrawPage page info])
        | None => next steps
        end
  end.

(** [Load(io, handle, page, flags, data)].  [self] is [Load] itself, for the
    one place where it calls itself; [FreeImage_Allocate] answers whether the
    logical canvas could be allocated.  The part "get the actual frame image
    data for a single frame" is the stream procedure [LoadFrame]. *)
Definition Load_body (self : Z -> Z -> option GIFinfo -> io_prog (option FIBITMAP))
    (FreeImage_Allocate : Z -> Z -> Z -> bool) (vars : locals)
    (page flags : Z) (data : option GIFinfo) : io_prog (option FIBITMAP) :=
  match data with
  | None => Ret None
  | Some info =>
      let page := if page =? -1 then 0 else page in
      if (page <? 0) || (page >=? Z.of_nat (length (image_descriptor_offsets info)))
      then Ret None
      else if Z.land flags GIF_PLAYBACK =? GIF_PLAYBACK then
        (* Logical Screen Descriptor *)
        _ ← seek_proc 6 SEEK_SET;
        lw ← read_u16 (logicalwidth vars);
        lh ← read_u16 (logicalheight vars);
        (* set the background color with 0 alpha *)
        (if negb (global_color_table_offset info =? 0)
            && (background_color info <? global_color_table_size info)
         then
           _ ← seek_proc (global_color_table_offset info
                          + background_color info * 3) SEEK_SET;
           r ← read_u8 (bg_red vars);
           g ← read_u8 (bg_green vars);
           b ← read_u8 (bg_blue vars);
           Ret (r, g, b)
         else Ret (0, 0, 0))
        ≫= fun background : Z * Z * Z =>
        (* allocate entire logical area *)
        if negb (FreeImage_Allocate lw lh 32) then Ret None
        else
          let start := page in
          let end_ := page in
          scan_pages info lw lh end_ (Z.to_nat (start + 1))
            (packed vars) (v_left vars) (v_top vars) (v_width vars)
            (v_height vars) []
          ≫= fun scanned : Z * list PageInfo =>
          let start := if scanned.1 <? 0 then 0 else scanned.1 in
          (* draw each page into the logical area *)
          draw_pages (fun page => self page GIF_LOAD256 data) scanned.2 end_
            (Z.to_nat (end_ - start + 1)) start []
          ≫= fun steps : list render_step =>
          Ret (Some (Canvas lw lh background steps))
      else
        (* get the actual frame image data for a single frame *)
        LoadFrame page (fun ok => Ret (if ok then Some (FramePage page) else None))
  end.

(** The loader calls itself only with [GIF_LOAD256], which has no playback
    bit, so the call nests once. *)
Definition Load (FreeImage_Allocate : Z -> Z -> Z -> bool) (vars : locals)
    (page flags : Z) (data : option GIFinfo) : io_prog (option FIBITMAP) :=
  Load_body
    (Load_body (fun _ _ _ => Ret None) FreeImage_Allocate vars)
    FreeImage_Allocate vars page flags data.

(** [PageCount]. *)
Definition PageCount (data : option GIFinfo) : Z :=
  match data with
  | None => 0
  | Some info => Z.of_nat (length (image_descriptor_offsets info))
  end.

End GIF.

(** *** Properties of the GIF loader *)
Module GIFFacts.
Import GIF.

Definition is_load_frame (e : io_event) : bool :=
  match e with EvLoadFrame _ => true | _ => false end.

(** The pages for which a run reached the single-frame decoder. *)
Definition decoded_pages (tr : list io_event) : list Z :=
  omap (fun e => match e with EvLoadFrame p => Some p | _ => None end) tr.

Lemma decoded_pages_app tr1 tr2 :
  decoded_pages (tr1 ++ tr2) = decoded_pages tr1 ++ decoded_pages tr2.
Proof. apply omap_app. Qed.

(** C9.  With an open context, page -1 is loaded as page 0; and when the
    page (after that convention) is negative or not below the number of image
    descriptors that [Open] found, [Load] hands back null at once: the run
    makes no call on the stream at all and leaves the handle as it was. *)
Theorem Load_page_out_of_range (frames : Z -> bool)
    (FreeImage_Allocate : Z -> Z -> Z -> bool) (vars : locals)
    (page flags : Z) (info : GIFinfo) (h : fi_handle) :
  Load FreeImage_Allocate vars (-1) flags (Some info)
    = Load FreeImage_Allocate vars 0 flags (Some info)
  /\ (let page' := if page =? -1 then 0 else page in
      page' < 0 \/ PageCount (Some info) <= page' ->
      run frames (Load FreeImage_Allocate vars page flags (Some info)) h
        = (None, h, [])).
Proof.
  split; [reflexivity|].
  cbn zeta. unfold PageCount, Load, Load_body.
  set (p := if page =? -1 then 0 else page). intros Hp.
  assert ((p <? 0) || (p >=? Z.of_nat (length (image_descriptor_offsets info)))
          = true) as ->.
  { apply orb_true_iff. destruct Hp; [left|right]; lia. }
  reflexivity.
Qed.

(** The theorem at work: a context with two image descriptors, asked for
    pages 2 and -7. *)
Lemma Load_page_out_of_range_witness :
  let info := Build_GIFinfo true 13 4 0 [] [] [27; 60] [35; 68] in
  let vars := Build_locals 0 0 0 0 0 0 0 0 0 0 in
  run (fun _ => true) (Load (fun _ _ _ => true) vars 2 GIF_PLAYBACK (Some info))
      (Handle [] 0) = (None, Handle [] 0, [])
  /\ run (fun _ => true) (Load (fun _ _ _ => true) vars (-7) 0 (Some info))
      (Handle [] 0) = (None, Handle [] 0, []).
Proof.
  cbv zeta. split.
  - apply (proj2 (Load_page_out_of_range (fun _ => true) (fun _ _ _ => true)
             (Build_locals 0 0 0 0 0 0 0 0 0 0) 2 GIF_PLAYBACK
             (Build_GIFinfo true 13 4 0 [] [] [27; 60] [35; 68]) (Handle [] 0))).
    right. cbn. lia.
  - apply (proj2 (Load_page_out_of_range (fun _ => true) (fun _ _ _ => true)
             (Build_locals 0 0 0 0 0 0 0 0 0 0) (-7) 0
             (Build_GIFinfo true 13 4 0 [] [] [27; 60] [35; 68]) (Handle [] 0))).
    left. cbn. lia.
Defined.


(** **** The playback scan *)

Section Playback.
Variable frames : Z -> bool.
Variable bytes : list Z.
Variable info : GIFinfo.

Definition gce_offset (i : Z) : Z := at_index (graphic_control_extension_offsets info) i.
Definition id_offset (i : Z) : Z := at_index (image_descriptor_offsets info) i.

Definition frame_packed (i : Z) : Z := byte_at bytes (gce_offset i + 1).
Definition frame_transparent (i : Z) : bool :=
  negb (Z.land (frame_packed i) GIF_PACKED_GCE_HAVETRANS =? 0).
Definition frame_disposal (i : Z) : Z :=
  Z.shiftr (Z.land (frame_packed i) GIF_PACKED_GCE_DISPOSAL) 2.
Definition frame_left (i : Z) : Z := u16_at bytes (id_offset i).
Definition frame_top (i : Z) : Z := u16_at bytes (id_offset i + 2).
Definition frame_width (i : Z) : Z := u16_at bytes (id_offset i + 4).
Definition frame_height (i : Z) : Z := u16_at bytes (id_offset i + 6).
Definition canvas_width : Z := u16_at bytes 6.
Definition canvas_height : Z := u16_at bytes 8.

(** Frame [i] covers the whole logical canvas. *)
Definition covers_canvas (i : Z) : bool :=
  (frame_left i =? 0) && (frame_top i =? 0)
  && (frame_width i =? canvas_width) && (frame_height i =? canvas_height).

(** A keyframe: it covers the canvas and either is disposed to background,
    or is opaque and not disposed to previous.  Nothing drawn before it can
    show through. *)
Definition keyframe (i : Z) : bool :=
  covers_canvas i
  && ((frame_disposal i =? GIF_DISPOSAL_BACKGROUND)
      || (negb (frame_disposal i =? GIF_DISPOSAL_PREVIOUS)
          && negb (frame_transparent i))).

(** The headers of frames [0 .. K] and the logical screen descriptor lie
    inside the stream. *)
Definition headers_in_stream (K : Z) : Prop :=
  (10 <= length bytes)%nat
  /\ forall i, 0 <= i <= K ->
       0 <= gce_offset i /\ gce_offset i + 2 <= Z.of_nat (length bytes)
       /\ 0 <= id_offset i /\ id_offset i + 8 <= Z.of_nat (length bytes).

(** Where the backward scan from [n - 1] leaves [start]. *)
Fixpoint scan_start (K : Z) (n : nat) : Z :=
  match n with
  | O => -1
  | S n' =>
      let s := Z.of_nat n' in
      if negb (s =? K) && keyframe s then
        if frame_disposal s =? GIF_DISPOSAL_BACKGROUND then s + 1 else s
      else scan_start K n'
  end.

Lemma run_seek_set off h :
  0 <= off ->
  run frames (seek_proc off SEEK_SET) h
    = (0, Handle (content h) (Z.to_nat off), [EvSeek off SEEK_SET]).
Proof.
  intros H. rewrite IOFacts.run_seek_proc. unfold do_seek.
  rewrite (proj2 (Z.ltb_ge _ _)) by lia. reflexivity.
Qed.

Lemma run_read_u8 old off :
  0 <= off -> off + 1 <= Z.of_nat (length bytes) ->
  run frames (read_u8 old) (Handle bytes (Z.to_nat off))
    = (byte_at bytes off, Handle bytes (Z.to_nat (off + 1)), [EvRead 1 1]).
Proof.
  intros H0 H1. unfold read_u8.
  rewrite IOFacts.run_bind, IOFacts.run_read_proc. cbn zeta.
  autorewrite with io_run. unfold do_read. cbn [content position fst snd].
  change (Z.to_nat (1 * 1)) with 1%nat.
  rewrite (IOFacts.drop_nth_cons bytes (Z.to_nat off) 0) by lia.
  cbn [take length app]. rewrite take_0. cbn.
  unfold byte_at. repeat f_equal. lia.
Qed.

Lemma run_read_u16 old off :
  0 <= off -> off + 2 <= Z.of_nat (length bytes) ->
  run frames (read_u16 old) (Handle bytes (Z.to_nat off))
    = (u16_at bytes off, Handle bytes (Z.to_nat (off + 2)), [EvRead 2 1]).
Proof.
  intros H0 H1. unfold read_u16.
  rewrite IOFacts.run_bind, IOFacts.run_read_proc. cbn zeta.
  autorewrite with io_run. unfold do_read. cbn [content position fst snd].
  change (Z.to_nat (2 * 1)) with 2%nat.
  rewrite (IOFacts.drop_nth_cons bytes (Z.to_nat off) 0) by lia.
  rewrite (IOFacts.drop_nth_cons bytes (S (Z.to_nat off)) 0) by lia.
  cbn [take length app]. rewrite take_0. cbn.
  unfold u16_at, byte_at.
  replace (Z.to_nat (off + 1)) with (S (Z.to_nat off)) by lia.
  repeat f_equal. lia.
Qed.


Ltac io_step lem :=
  rewrite IOFacts.run_bind; rewrite lem by lia;
  cbn [result handle_after calls fst snd content].

Lemma scan_pages_run K n h packed0 left0 top0 width0 height0 pageinfo :
  headers_in_stream K -> Z.of_nat n <= K + 1 -> content h = bytes ->
  let r := run frames
             (scan_pages info canvas_width canvas_height K n
                packed0 left0 top0 width0 height0 pageinfo) h in
  (result r).1 = scan_start K n /\ decoded_pages (calls r) = [].
Proof.
  intros [Hlen Hwf] Hn. revert h packed0 left0 top0 width0 height0 pageinfo.
  induction n as [|n IH]; intros h packed0 left0 top0 width0 height0 pageinfo Hc.
  - split; reflexivity.
  - cbn [scan_pages scan_start]. cbn zeta.
    destruct (Hwf (Z.of_nat n)) as (G0 & G1 & I0 & I1); [lia|].
    fold (gce_offset (Z.of_nat n)). fold (id_offset (Z.of_nat n)).
    io_step run_seek_set. rewrite Hc.
    io_step run_read_u8.
    io_step run_seek_set.
    io_step run_read_u16.
    io_step run_read_u16.
    io_step run_read_u16.
    io_step run_read_u16.
    replace (id_offset (Z.of_nat n) + 2 + 2 + 2) with (id_offset (Z.of_nat n) + 6) by lia.
    replace (id_offset (Z.of_nat n) + 2 + 2) with (id_offset (Z.of_nat n) + 4) by lia.
    unfold keyframe, covers_canvas, frame_left, frame_top, frame_width,
      frame_height, frame_transparent, frame_disposal, frame_packed.
    rewrite !decoded_pages_app. cbn [decoded_pages omap app].
    match goal with
    | |- context [scan_pages info _ _ K n ?a ?b ?c ?d ?e ?f] =>
        specialize (IH ltac:(lia) (Handle bytes (Z.to_nat (id_offset (Z.of_nat n) + 6 + 2)))
                      a b c d e f eq_refl); cbn zeta in IH
    end.
    destruct (negb (Z.of_nat n =? K)); cbn [andb]; [|exact IH].
    match goal with |- context [if ?c then _ else _] => destruct c end;
      cbn [andb]; [|exact IH].
    match goal with |- context [if ?c then _ else _] => destruct c end;
      cbn [orb]; [split; reflexivity|].
    match goal with |- context [if ?c then _ else _] => destruct c end;
      cbn [andb]; [|exact IH].
    match goal with |- context [if ?c then _ else _] => destruct c end;
      cbn [andb]; [split; reflexivity|exact IH].
Qed.


Lemma scan_start_bounds K n j :
  0 <= j < K -> (Z.of_nat n <= K + 1) -> j < Z.of_nat n ->
  keyframe j = true ->
  j <= scan_start K n <= K
  /\ (frame_disposal j = GIF_DISPOSAL_BACKGROUND -> j < scan_start K n).
Proof.
  intros Hj Hn Hjn Hk. induction n as [|n IH]; [lia|].
  cbn [scan_start]. cbn zeta.
  destruct (Z.eqb_spec (Z.of_nat n) K) as [HK|HK]; cbn [negb andb].
  - apply IH; lia.
  - destruct (keyframe (Z.of_nat n)) eqn:Hkn.
    + destruct (Z.eqb_spec (frame_disposal (Z.of_nat n)) GIF_DISPOSAL_BACKGROUND)
        as [Hd|Hd].
      * split; [lia|]. lia.
      * split; [lia|]. intros Hb.
        destruct (Z.eq_dec j (Z.of_nat n)) as [->|]; [contradiction|lia].
    + destruct (Z.eq_dec j (Z.of_nat n)) as [->|]; [congruence|].
      apply IH; lia.
Qed.

Lemma calls_read_u8 old h : calls (run frames (read_u8 old) h) = [EvRead 1 1].
Proof. unfold read_u8. autorewrite with io_run. reflexivity. Qed.

Lemma calls_read_u16 old h : calls (run frames (read_u16 old) h) = [EvRead 2 1].
Proof. unfold read_u16. autorewrite with io_run. reflexivity. Qed.

(** The nested call [Load(io, handle, page, GIF_LOAD256, data)] reaches the
    frame decoder for [page] and nothing else. *)
Lemma nested_Load_calls self alloc vars p h :
  0 <= p ->
  decoded_pages
    (calls (run frames (Load_body self alloc vars p GIF_LOAD256 (Some info)) h))
  = if p <? Z.of_nat (length (image_descriptor_offsets info)) then [p] else [].
Proof.
  intros Hp. unfold Load_body.
  rewrite (proj2 (Z.eqb_neq p (-1))) by lia.
  rewrite (proj2 (Z.ltb_ge p 0)) by lia. cbn [orb].
  destruct (Z.ltb_spec p (Z.of_nat (length (image_descriptor_offsets info)))).
  - rewrite Z.geb_leb, (proj2 (Z.leb_gt _ _)) by lia.
    change (Z.land GIF_LOAD256 GIF_PLAYBACK =? GIF_PLAYBACK) with false.
    cbv iota. rewrite IOFacts.run_LoadFrame. reflexivity.
  - rewrite Z.geb_leb, (proj2 (Z.leb_le _ _)) by lia.
    reflexivity.
Qed.

Lemma draw_pages_decoded self alloc vars pageinfo end_ count page steps h p :
  0 <= page ->
  p ∈ decoded_pages
        (calls (run frames
                  (draw_pages
                     (fun page => Load_body self alloc vars page GIF_LOAD256 (Some info))
                     pageinfo end_ count page steps) h)) ->
  page <= p < page + Z.of_nat count.
Proof.
  revert page steps h. induction count as [|count IH]; intros page steps h Hp.
  - cbn. intros H. inversion H.
  - cbn [draw_pages]. cbn zeta.
    assert (forall steps' h',
      p ∈ decoded_pages
            (calls (run frames
               (draw_pages
                  (fun page => Load_body self alloc vars page GIF_LOAD256 (Some info))
                  pageinfo end_ count (page + 1) steps') h')) ->
      page <= p < page + Z.of_nat (S count)) as Hnext.
    { intros steps' h' H. apply IH in H; lia. }
    match goal with |- context [if ?c then _ else _] => destruct c end;
      [apply Hnext|].
    match goal with |- context [if ?c then _ else _] => destruct c end;
      [apply Hnext|].
    rewrite IOFacts.calls_bind, decoded_pages_app, nested_Load_calls by lia.
    intros [H|H]%elem_of_app.
    + case_match; [|inversion H]. apply list_elem_of_singleton in H. lia.
    + revert H. case_match; apply Hnext.
Qed.


Lemma draw_pages_draws_end self alloc vars pageinfo end_ count page steps h :
  0 <= page -> page + Z.of_nat count = end_ + 1 -> (0 < count)%nat ->
  end_ < Z.of_nat (length (image_descriptor_offsets info)) ->
  end_ ∈ decoded_pages
           (calls (run frames
                     (draw_pages
                        (fun page => Load_body self alloc vars page GIF_LOAD256 (Some info))
                        pageinfo end_ count page steps) h)).
Proof.
  revert page steps h. induction count as [|count IH]; intros page steps h Hp He Hc Hn;
    [lia|].
  cbn [draw_pages]. cbn zeta.
  destruct (Z.eqb_spec page end_) as [->|Hne]; cbn [negb andb].
  - rewrite IOFacts.calls_bind, decoded_pages_app, nested_Load_calls by lia.
    rewrite (proj2 (Z.ltb_lt _ _)) by lia. apply elem_of_app. left.
    apply list_elem_of_singleton. reflexivity.
  - assert (forall steps' h',
      end_ ∈ decoded_pages
            (calls (run frames
               (draw_pages
                  (fun page => Load_body self alloc vars page GIF_LOAD256 (Some info))
                  pageinfo end_ count (page + 1) steps') h'))) as Hnext.
    { intros steps' h'. apply IH; lia. }
    match goal with |- context [if ?c then _ else _] => destruct c end;
      [apply Hnext|].
    match goal with |- context [if ?c then _ else _] => destruct c end;
      [apply Hnext|].
    rewrite IOFacts.calls_bind, decoded_pages_app. apply elem_of_app. right.
    case_match; apply Hnext.
Qed.

(** The stream calls of the playback before the drawing loop: none of them
    decodes a frame, and the loop starts where the scan stopped. *)
Lemma Load_playback_calls alloc vars K flags pos :
  headers_in_stream K ->
  0 <= K < Z.of_nat (length (image_descriptor_offsets info)) ->
  Z.land flags GIF_PLAYBACK = GIF_PLAYBACK ->
  let start := if scan_start K (Z.to_nat (K + 1)) <? 0 then 0
               else scan_start K (Z.to_nat (K + 1)) in
  exists pageinfo hd,
    decoded_pages
      (calls (run frames (Load alloc vars K flags (Some info)) (Handle bytes pos)))
    = if alloc canvas_width canvas_height 32 then
        decoded_pages
          (calls (run frames
             (draw_pages
                (fun page =>
                   Load_body (fun _ _ _ => Ret None) alloc vars page GIF_LOAD256
                     (Some info))
                pageinfo K (Z.to_nat (K - start + 1)) start []) hd))
      else [].
Proof.
  intros Hwf HK Hflags. pose proof Hwf as [Hlen _]. cbn zeta.
  unfold Load. unfold Load_body at 1.
  rewrite (proj2 (Z.eqb_neq K (-1))) by lia.
  rewrite (proj2 (Z.ltb_ge K 0)) by lia.
  rewrite Z.geb_leb, (proj2 (Z.leb_gt _ _)) by lia. cbn [orb].
  rewrite Hflags, Z.eqb_refl.
  io_step run_seek_set.
  io_step run_read_u16.
  io_step run_read_u16.
  fold canvas_width. change (u16_at bytes (6 + 2)) with canvas_height.
  rewrite IOFacts.run_bind. cbn zeta.
  match goal with
  | |- context [run frames ?blk (Handle bytes (Z.to_nat (6 + 2 + 2)))] =>
      set (bg := run frames blk (Handle bytes (Z.to_nat (6 + 2 + 2))));
      assert (decoded_pages (calls bg) = [] /\ content (handle_after bg) = bytes)
        as [Hbg1 Hbg2]
  end.
  { split; [|apply IOFacts.content_run].
    subst bg. case_match; [|reflexivity].
    autorewrite with io_run. rewrite !calls_read_u8. reflexivity. }
  cbn [result handle_after calls fst snd].
  rewrite !decoded_pages_app, Hbg1. cbn [decoded_pages omap app].
  destruct (alloc canvas_width canvas_height 32) eqn:Ha; cbn [negb].
  2:{ exists [], (Handle bytes pos). reflexivity. }
  rewrite IOFacts.run_bind. cbn zeta.
  match goal with
  | |- context [run frames (scan_pages ?i ?a ?b ?c ?n ?d ?e ?f ?g ?hh ?pi) ?hd] =>
      destruct (scan_pages_run c n hd d e f g hh pi Hwf ltac:(lia) Hbg2)
        as [Hs1 Hs2]
  end.
  cbn [result handle_after calls fst snd].
  rewrite !decoded_pages_app, Hs2. cbn [app].
  rewrite IOFacts.run_bind. cbn zeta. cbn [result handle_after calls fst snd].
  rewrite !decoded_pages_app. cbn [decoded_pages omap app]. rewrite app_nil_r.
  rewrite Hs1. eexists _, _. reflexivity.
Qed.

End Playback.



(** A stream with three frames on a 2 x 2 canvas: frame 0 is left in place,
    frame 1 covers the canvas and is disposed to background, frame 2 is a
    1 x 1 patch. *)
Definition three_frames : list Z :=
  [ 0x47; 0x49; 0x46; 0x38; 0x39; 0x61;          (* GIF89a *)
    2; 0; 2; 0; 0x80; 0; 0;                        (* logical screen 2 x 2 *)
    0; 0; 0; 255; 255; 255;                        (* global colour table *)
    0x21; 0xF9; 4; 0x04; 10; 0; 0; 0;              (* GCE: leave in place *)
    0x2C; 0; 0; 0; 0; 2; 0; 2; 0; 0; 2; 2; 0x84; 0x51; 0;
    0x21; 0xF9; 4; 0x08; 10; 0; 0; 0;              (* GCE: restore to background *)
    0x2C; 0; 0; 0; 0; 2; 0; 2; 0; 0; 2; 2; 0x84; 0x51; 0;
    0x21; 0xF9; 4; 0x04; 10; 0; 0; 0;              (* GCE: leave in place *)
    0x2C; 1; 0; 1; 0; 1; 0; 1; 0; 0; 2; 2; 0x44; 0x01; 0;
    0x3B ].

Definition three_frames_info : GIFinfo :=
  {| read := true;
     global_color_table_offset := 13;
     global_color_table_size := 2;
     background_color := 0;
     application_extension_offsets := [];
     comment_extension_offsets := [];
     graphic_control_extension_offsets := [21; 44; 67];
     image_descriptor_offsets := [28; 51; 74] |}.

Lemma three_frames_headers : headers_in_stream three_frames three_frames_info 2.
Proof.
  split; [cbn; lia|]. intros i Hi.
  assert (i = 0 \/ i = 1 \/ i = 2) as [->|[->| ->]] by lia;
    repeat split; vm_compute; discriminate.
Defined.


Example playback_three_frames_calls :
  decoded_pages
    (calls (run (fun _ => true)
              (Load (fun _ _ _ => true) (Build_locals 0 0 0 0 0 0 0 0 0 0)
                 2 GIF_PLAYBACK (Some three_frames_info))
              (Handle three_frames 0))) = [2].
Proof. vm_compute. reflexivity. Qed.

End GIFFacts.

(** ** PluginGIF.cpp: the order of the rows in [Load] and [Save] *)
Module GIFRows.
Import GIF.

Definition GIF_INTERLACE_PASSES : Z := 4.
Definition g_GifInterlaceOffset : list Z := [0; 4; 2; 1].
Definition g_GifInterlaceIncrement : list Z := [8; 8; 4; 2].

(** The step to the next row, which [Load] takes when a row is complete and
    [Save] when a row has been compressed:
    [if (interlaced) { y += g_GifInterlaceIncrement[interlacepass];
       if (y >= height && ++interlacepass < GIF_INTERLACE_PASSES)
         y = g_GifInterlaceOffset[interlacepass]; } else y++;]
    The result is [y] and [interlacepass]. *)
Definition next_row (interlaced : bool) (height y interlacepass : Z) : Z * Z :=
  if interlaced then
    let y := y + at_index g_GifInterlaceIncrement interlacepass in
    if height <=? y then
      let interlacepass := interlacepass + 1 in
      if interlacepass <? GIF_INTERLACE_PASSES
      then (at_index g_GifInterlaceOffset interlacepass, interlacepass)
      else (y, interlacepass)
    else (y, interlacepass)
  else (y + 1, interlacepass).

(** [while (y < output_height) { ... }] of [Save], which compresses the scan
    line [output_height - y - 1] and steps to the next row: the values of [y]
    in the order the loop takes them; [None] when [fuel] iterations do not
    end the loop.  [Load] stores the rows it decodes in the same order: it
    starts with [y = 0], takes the same step at the end of a row and stops
    ([Done]) at the first [y >= height]. *)
Fixpoint rows_from (fuel : nat) (interlaced : bool) (height y interlacepass : Z)
  : option (list Z) :=
  if y <? height then
    match fuel with
    | O => None
    | S fuel =>
        let '(y1, interlacepass1) := next_row interlaced height y interlacepass in
        rows ← rows_from fuel interlaced height y1 interlacepass1;
        Some (y :: rows)
    end
  else Some [].

(** [int y = 0, interlacepass = 0]; a pass moves [y] up, and there are four
    passes. *)
Definition rows (interlaced : bool) (height : Z) : option (list Z) :=
  rows_from (Z.to_nat (4 * height)) interlaced height 0 0.

(** *** Properties *)

(** The pass a row belongs to: rows 0, 8, ... are taken in the first pass,
    rows 4, 12, ... in the second, rows 2, 6, ... in the third and the odd
    rows in the last. *)
Definition pass_of (r : Z) : Z :=
  if r mod 8 =? 0 then 0
  else if r mod 8 =? 4 then 1
  else if r mod 4 =? 2 then 2
  else 3.

(** The rows that are still to come when the loop is at [y] in [pass]. *)
Definition to_come (height y pass r : Z) : Prop :=
  0 <= r < height /\ (pass < pass_of r \/ (pass_of r = pass /\ y <= r)).

Lemma next_row_interlaced height y :
  next_row true height y 0 = (if height <=? y + 8 then (4, 1) else (y + 8, 0)) /\
  next_row true height y 1 = (if height <=? y + 8 then (2, 2) else (y + 8, 1)) /\
  next_row true height y 2 = (if height <=? y + 4 then (1, 3) else (y + 4, 2)) /\
  next_row true height y 3 = (if height <=? y + 2 then (y + 2, 4) else (y + 2, 3)).
Proof. repeat split; reflexivity. Qed.

Lemma rows_from_done fuel interlaced height y pass :
  height <= y -> rows_from fuel interlaced height y pass = Some [].
Proof.
  intros H. apply Z.ltb_ge in H. destruct fuel; cbn [rows_from]; rewrite H; reflexivity.
Qed.

Ltac pass_cases :=
  unfold to_come, pass_of in *;
  repeat match goal with
         | H : context [?a =? ?b] |- _ => destruct (Z.eqb_spec a b)
         | |- context [?a =? ?b] => destruct (Z.eqb_spec a b)
         end;
  Z.to_euclidean_division_equations; lia.

Lemma rows_from_returns fuel height y pass :
  0 <= y -> 0 <= pass <= 4 -> (pass = 4 -> height <= y) ->
  4 * height - (pass * height + y) <= Z.of_nat fuel ->
  is_Some (rows_from fuel true height y pass).
Proof.
  revert y pass. induction fuel as [|fuel IH]; intros y pass Hy Hp H4 Hfuel;
    cbn [rows_from]; destruct (y <? height) eqn:Hlt; try (eexists; reflexivity).
  - apply Z.ltb_lt in Hlt. exfalso. nia.
  - apply Z.ltb_lt in Hlt.
    destruct (next_row_interlaced height y) as (E0 & E1 & E2 & E3).
    assert (Hnext : is_Some (rows_from fuel true height
                      (next_row true height y pass).1 (next_row true height y pass).2)).
    { assert (Hp3 : pass = 0 \/ pass = 1 \/ pass = 2 \/ pass = 3) by lia.
      destruct Hp3 as [-> | [-> | [-> | ->]]];
        rewrite ?E0, ?E1, ?E2, ?E3;
        match goal with
        | |- context [height <=? ?a] => destruct (Z.leb_spec height a)
        end; cbn [fst snd]; apply IH; lia. }
    destruct (next_row true height y pass) as [y1 p1]. cbn [fst snd] in Hnext.
    destruct Hnext as [l ->]. eexists. reflexivity.
Qed.

Lemma rows_from_to_come fuel height y pass l :
  5 <= height -> 0 <= y < height -> pass_of y = pass ->
  rows_from fuel true height y pass = Some l ->
  NoDup l /\ forall r, r ∈ l <-> to_come height y pass r.
Proof.
  intros Hh. revert y pass l.
  induction fuel as [|fuel IH]; intros y pass l Hy Hin; cbn [rows_from];
    destruct (y <? height) eqn:Hlt; try discriminate;
    try (apply Z.ltb_ge in Hlt; lia).
  destruct (next_row_interlaced height y) as (E0 & E1 & E2 & E3).
  assert (Hp3 : pass = 0 \/ pass = 1 \/ pass = 2 \/ pass = 3)
    by (clear - Hin; pass_cases).
  destruct Hp3 as [-> | [-> | [-> | ->]]];
    rewrite ?E0, ?E1, ?E2, ?E3; clear E0 E1 E2 E3;
    match goal with
    | |- context [height <=? ?a] => destruct (Z.leb_spec height a) as [Hge|Hge]
    end;
    try (rewrite rows_from_done by lia; cbn; intros [= <-];
         split; [repeat constructor; apply not_elem_of_nil|];
         intros r; rewrite elem_of_cons, elem_of_nil; clear - Hin Hy Hge Hh;
         pass_cases).
  all: match goal with
       | IH : _, Hin : _ = _ |- context [rows_from ?f true ?h ?y1 ?p1] =>
           destruct (rows_from f true h y1 p1) as [l'|] eqn:Hrec;
             [|discriminate];
           cbn; intros [= <-];
           destruct (IH y1 p1 l' ltac:(lia) ltac:(clear - Hin; pass_cases) Hrec)
             as [Hnd Hl']
       end.
  all: split;
    [ constructor; [|exact Hnd]; rewrite Hl'; clear - Hin Hy Hge Hh; pass_cases
    | intros r; rewrite elem_of_cons, Hl'; clear - Hin Hy Hge Hh; pass_cases ].
Qed.

(** With five rows or more an interlaced image is walked completely: the loop
    ends, and it takes every row from 0 to [height - 1], each once. *)
Theorem interlaced_rows_complete (height : Z) :
  5 <= height ->
  exists l, rows true height = Some l /\ NoDup l /\
            forall r, r ∈ l <-> 0 <= r < height.
Proof.
  intros Hh. unfold rows.
  destruct (rows_from_returns (Z.to_nat (4 * height)) height 0 0) as [l Hl];
    try lia.
  exists l. split; [exact Hl|].
  destruct (rows_from_to_come _ height 0 0 l Hh ltac:(lia) eq_refl Hl) as [Hnd Hin].
  split; [exact Hnd|]. intros r. rewrite Hin. clear. pass_cases.
Qed.

Lemma interlaced_rows_complete_witness :
  exists l, rows true 5 = Some l /\ NoDup l /\ forall r, r ∈ l <-> 0 <= r < 5.
Proof. apply (interlaced_rows_complete 5). lia. Defined.

(** With two, three or four rows an interlaced image is cut short: the step
    after row 0 leaves the first pass for row 4, which the image does not
    have, and the loop ends there.  [Save] writes row 0 only, and [Load]
    declares the image done after its first row. *)
Theorem interlaced_rows_cut_short (height : Z) :
  2 <= height <= 4 -> rows true height = Some [0].
Proof.
  intros Hh.
  assert (H : height = 2 \/ height = 3 \/ height = 4) by lia.
  destruct H as [-> | [-> | ->]]; reflexivity.
Qed.

Lemma interlaced_rows_cut_short_witness : rows true 3 = Some [0].
Proof. apply (interlaced_rows_cut_short 3). lia. Defined.

End GIFRows.

(** ** PluginGIF.cpp: [Open] *)
Module GIFOpen.
Import GIF.

Definition GIF_PACKED_LSD_HAVEGCT : Z := 0x80.
Definition GIF_PACKED_LSD_GCTSIZE : Z := 0x07.
Definition GIF_PACKED_ID_HAVELCT : Z := 0x80.
Definition GIF_PACKED_ID_LCTSIZE : Z := 0x07.

Definition GIF_BLOCK_IMAGE_DESCRIPTOR : Z := 0x2C.
Definition GIF_BLOCK_EXTENSION : Z := 0x21.
Definition GIF_BLOCK_TRAILER : Z := 0x3B.

Definition GIF_EXT_GRAPHIC_CONTROL : Z := 0xF9.
Definition GIF_EXT_COMMENT : Z := 0xFE.
Definition GIF_EXT_APPLICATION : Z := 0xFF.

(** The messages that [Open] throws. *)
Inductive message : Type :=
| FI_MSG_ERROR_MAGIC_NUMBER
| EOF_reading_Logical_Screen_Descriptor
| EOF_reading_blocks
| EOF_reading_Image_Descriptor
| EOF_reading_extension
| Invalid_GIF_block_found
| EOF_reading_sub_block.

(** How a part of [Open] ends: a loop has used up its fuel, a message is
    thrown (and [Open] returns [nullptr]), or the part is done. *)
Inductive outcome (A : Type) : Type :=
| OutOfFuel
| Thrown (text : message)
| Normal (a : A).
Arguments OutOfFuel {A}.
Arguments Thrown {A} text.
Arguments Normal {A} a.

(** [io->read_proc(&b, 1, 1, handle)] and the test [< 1] that follows every
    such read in [Open]: the byte, or [None] for a read that fails ([Open]
    throws then, so that what [b] held before does not matter). *)
Definition read_byte : io_prog (option Z) :=
  '(got, count) ← read_proc 1 1;
  Ret (if count <? 1 then None else head got).

(** "Data Sub-blocks": [while (len != 0) { seek(len); read(&len); }] *)
Fixpoint skip_sub_blocks (fuel : nat) (len : Z) : io_prog (outcome unit) :=
  if len =? 0 then Ret (Normal ())
  else
    match fuel with
    | O => Ret OutOfFuel
    | S fuel =>
        _ ← seek_proc len SEEK_CUR;
        next ← read_byte;
        match next with
        | None => Ret (Thrown EOF_reading_sub_block)
        | Some len => skip_sub_blocks fuel len
        end
    end.

(** The sub-blocks that end every block but the trailer. *)
Definition data_sub_blocks (fuel : nat) : io_prog (outcome unit) :=
  first ← read_byte;
  match first with
  | None => Ret (Thrown EOF_reading_sub_block)
  | Some len => skip_sub_blocks fuel len
  end.

Definition push_image (tell gce_offset : Z) (info : GIFinfo) : GIFinfo :=
  {| read := read info;
     global_color_table_offset := global_color_table_offset info;
     global_color_table_size := global_color_table_size info;
     background_color := background_color info;
     application_extension_offsets := application_extension_offsets info;
     comment_extension_offsets := comment_extension_offsets info;
     graphic_control_extension_offsets :=
       graphic_control_extension_offsets info ++ [gce_offset];
     image_descriptor_offsets := image_descriptor_offsets info ++ [tell] |}.

Definition push_comment (tell : Z) (info : GIFinfo) : GIFinfo :=
  {| read := read info;
     global_color_table_offset := global_color_table_offset info;
     global_color_table_size := global_color_table_size info;
     background_color := background_color info;
     application_extension_offsets := application_extension_offsets info;
     comment_extension_offsets := comment_extension_offsets info ++ [tell];
     graphic_control_extension_offsets := graphic_control_extension_offsets info;
     image_descriptor_offsets := image_descriptor_offsets info |}.

Definition push_application (tell : Z) (info : GIFinfo) : GIFinfo :=
  {| read := read info;
     global_color_table_offset := global_color_table_offset info;
     global_color_table_size := global_color_table_size info;
     background_color := background_color info;
     application_extension_offsets := application_extension_offsets info ++ [tell];
     comment_extension_offsets := comment_extension_offsets info;
     graphic_control_extension_offsets := graphic_control_extension_offsets info;
     image_descriptor_offsets := image_descriptor_offsets info |}.

(** The [if] chain on [block] in the loop of [Open]: the result is
    [gce_offset] and [info] when the sub-blocks of the block are to be
    skipped next, and [None] for the [continue] at the trailer. *)
Definition block_head (block gce_offset : Z) (info : GIFinfo)
  : io_prog (outcome (option (Z * GIFinfo))) :=
  if block =? GIF_BLOCK_IMAGE_DESCRIPTOR then
    tell ← tell_proc;
    (* GCE may be 0, meaning no GCE preceded this ID *)
    let info := push_image tell gce_offset info in
    let gce_offset := 0 in
    _ ← seek_proc 8 SEEK_CUR;
    packed ← read_byte;
    match packed with
    | None => Ret (Thrown EOF_reading_Image_Descriptor)
    | Some packed =>
        (* Local Color Table *)
        _ ← (if negb (Z.land packed GIF_PACKED_ID_HAVELCT =? 0)
             then seek_proc
                    (3 * Z.shiftl 2 (Z.land packed GIF_PACKED_ID_LCTSIZE))
                    SEEK_CUR
             else Ret 0);
        (* LZW Minimum Code Size *)
        _ ← seek_proc 1 SEEK_CUR;
        Ret (Normal (Some (gce_offset, info)))
    end
  else if block =? GIF_BLOCK_EXTENSION then
    ext ← read_byte;
    match ext with
    | None => Ret (Thrown EOF_reading_extension)
    | Some ext =>
        if ext =? GIF_EXT_GRAPHIC_CONTROL then
          (* overwrite previous offset if more than one GCE found before
             an ID *)
          tell ← tell_proc;
          Ret (Normal (Some (tell, info)))
        else if ext =? GIF_EXT_COMMENT then
          tell ← tell_proc;
          Ret (Normal (Some (gce_offset, push_comment tell info)))
        else if ext =? GIF_EXT_APPLICATION then
          tell ← tell_proc;
          Ret (Normal (Some (gce_offset, push_application tell info)))
        else Ret (Normal (Some (gce_offset, info)))
    end
  else if block =? GIF_BLOCK_TRAILER then Ret (Normal None)
  else Ret (Thrown Invalid_GIF_block_found).

(** "Scan through all the rest of the blocks, saving offsets":
    [while (block != GIF_BLOCK_TRAILER) { ... }].  [fuel] bounds the turns of
    this loop and [sub_fuel] those of each loop over sub-blocks. *)
Fixpoint scan_blocks (fuel sub_fuel : nat) (block gce_offset : Z)
    (info : GIFinfo) : io_prog (outcome GIFinfo) :=
  if block =? GIF_BLOCK_TRAILER then Ret (Normal info)
  else
    match fuel with
    | O => Ret OutOfFuel
    | S fuel =>
        next ← read_byte;
        match next with
        | None => Ret (Thrown EOF_reading_blocks)
        | Some block =>
            head ← block_head block gce_offset info;
            match head with
            | Normal (Some (gce_offset, info)) =>
                skipped ← data_sub_blocks sub_fuel;
                match skipped with
                | Normal _ => scan_blocks fuel sub_fuel block gce_offset info
                | Thrown text => Ret (Thrown text)
                | OutOfFuel => Ret OutOfFuel
                end
            | Normal None => scan_blocks fuel sub_fuel block gce_offset info
            | Thrown text => Ret (Thrown text)
            | OutOfFuel => Ret OutOfFuel
            end
        end
    end.

(** [GIFinfo()], with [read] set. *)
Definition new_GIFinfo (read : bool) : GIFinfo :=
  {| GIF.read := read;
     global_color_table_offset := 0;
     global_color_table_size := 0;
     background_color := 0;
     application_extension_offsets := [];
     comment_extension_offsets := [];
     graphic_control_extension_offsets := [];
     image_descriptor_offsets := [] |}.

Definition set_global_color_table (offset size : Z) (info : GIFinfo) : GIFinfo :=
  {| read := read info;
     global_color_table_offset := offset;
     global_color_table_size := size;
     background_color := background_color info;
     application_extension_offsets := application_extension_offsets info;
     comment_extension_offsets := comment_extension_offsets info;
     graphic_control_extension_offsets := graphic_control_extension_offsets info;
     image_descriptor_offsets := image_descriptor_offsets info |}.

Definition set_background_color (color : Z) (info : GIFinfo) : GIFinfo :=
  {| read := read info;
     global_color_table_offset := global_color_table_offset info;
     global_color_table_size := global_color_table_size info;
     background_color := color;
     application_extension_offsets := application_extension_offsets info;
     comment_extension_offsets := comment_extension_offsets info;
     graphic_control_extension_offsets := graphic_control_extension_offsets info;
     image_descriptor_offsets := image_descriptor_offsets info |}.

(** [Open(io, handle, read)] for a stream that is opened for reading
    ([read = TRUE]): the [GIFinfo] that is returned, or the message that is
    thrown, in which case [Open] returns [nullptr]. *)
Definition Open (fuel sub_fuel : nat) : io_prog (outcome GIFinfo) :=
  let info := new_GIFinfo true in
  (* read Header (6 bytes) *)
  validated ← Validate;
  if negb validated then Ret (Thrown FI_MSG_ERROR_MAGIC_NUMBER)
  else
    (* Logical Screen Descriptor *)
    _ ← seek_proc 4 SEEK_CUR;
    packed ← read_byte;
    match packed with
    | None => Ret (Thrown EOF_reading_Logical_Screen_Descriptor)
    | Some packed =>
        color ← read_byte;
        match color with
        | None => Ret (Thrown EOF_reading_Logical_Screen_Descriptor)
        | Some color =>
            let info := set_background_color color info in
            _ ← seek_proc 1 SEEK_CUR;
            (* Global Color Table *)
            info ← (if negb (Z.land packed GIF_PACKED_LSD_HAVEGCT =? 0) then
                      tell ← tell_proc;
                      let size := Z.shiftl 2 (Z.land packed GIF_PACKED_LSD_GCTSIZE) in
                      _ ← seek_proc (3 * size) SEEK_CUR;
                      Ret (set_global_color_table tell size info)
                    else Ret info);
            scan_blocks fuel sub_fuel 0 0 info
        end
    end.

(** [PageCount] on what [Open] has returned. *)
Definition pages (opened : outcome GIFinfo) : Z :=
  match opened with
  | Normal info => PageCount (Some info)
  | _ => PageCount None
  end.

End GIFOpen.

(** *** Properties of [Open] *)
Module GIFOpenFacts.
Import GIF GIFOpen IOFacts.

(** The bytes of the stream from the read position on. *)
Definition rest_of (h : fi_handle) : list Z := drop (position h) (content h).

Lemma run_read_byte frames h :
  run frames read_byte h
  = (match rest_of h with b :: _ => Some b | [] => None end,
     Handle (content h) (position h + length (take 1 (rest_of h))),
     [EvRead 1 1]).
Proof.
  unfold read_byte.
  change (read_proc 1 1 ≫= ?f) with (ReadProc 1 1 (fun r => bind (Ret r) f)).
  rewrite run_ReadProc. cbv zeta. unfold do_read, rest_of. cbn [fst snd bind].
  change (Z.to_nat (1 * 1)) with 1%nat. change (1 <=? 0) with false. cbv iota.
  rewrite Z.div_1_r.
  destruct (drop (position h) (content h)) as [|b t]; reflexivity.
Qed.

Lemma run_seek_cur frames off h :
  0 <= off ->
  run frames (seek_proc off SEEK_CUR) h
  = (0, Handle (content h) (position h + Z.to_nat off), [EvSeek off SEEK_CUR]).
Proof.
  intros Hoff. rewrite run_seek_proc. unfold do_seek.
  destruct (Z.ltb_spec (Z.of_nat (position h) + off) 0); [lia|].
  cbn [fst snd]. repeat f_equal. lia.
Qed.

Lemma rest_of_moved h (n : nat) :
  rest_of (Handle (content h) (position h + n)) = drop n (rest_of h).
Proof. unfold rest_of. cbn [content position]. rewrite drop_drop. reflexivity. Qed.

(** **** The two offset vectors stay in step *)

Definition in_step (info : GIFinfo) : Prop :=
  length (graphic_control_extension_offsets info)
  = length (image_descriptor_offsets info).

Lemma block_head_in_step frames block gce_offset info h gce_offset' info' :
  in_step info ->
  result (run frames (block_head block gce_offset info) h)
    = Normal (Some (gce_offset', info')) ->
  in_step info'.
Proof.
  intros Hin. unfold block_head.
  destruct (block =? GIF_BLOCK_IMAGE_DESCRIPTOR).
  - rewrite result_bind, run_tell_proc, result_pair, handle_after_pair.
    rewrite result_bind, result_bind.
    destruct (result (run frames read_byte _)) as [packed|].
    + rewrite result_bind, result_bind, run_Ret, result_pair.
      intros [= <- <-]. unfold in_step in *. cbn. rewrite !length_app. cbn. lia.
    + rewrite run_Ret, result_pair. discriminate.
  - destruct (block =? GIF_BLOCK_EXTENSION).
    + rewrite result_bind.
      destruct (result (run frames read_byte h)) as [ext|];
        [|rewrite run_Ret, result_pair; discriminate].
      destruct (ext =? GIF_EXT_GRAPHIC_CONTROL);
        [|destruct (ext =? GIF_EXT_COMMENT);
          [|destruct (ext =? GIF_EXT_APPLICATION)]];
        rewrite ?result_bind, ?run_tell_proc, ?result_pair, ?handle_after_pair;
        rewrite run_Ret, result_pair; intros [= <- <-]; exact Hin.
    + destruct (block =? GIF_BLOCK_TRAILER);
        rewrite run_Ret, result_pair; discriminate.
Qed.

Lemma scan_blocks_in_step frames fuel sub_fuel block gce_offset info h info' :
  in_step info ->
  result (run frames (scan_blocks fuel sub_fuel block gce_offset info) h)
    = Normal info' ->
  in_step info'.
Proof.
  revert block gce_offset info h.
  induction fuel as [|fuel IH]; intros block gce_offset info h Hin;
    cbn [scan_blocks]; destruct (block =? GIF_BLOCK_TRAILER);
    try (rewrite run_Ret, result_pair; intros [= <-]; exact Hin);
    try (rewrite run_Ret, result_pair; discriminate).
  rewrite result_bind.
  destruct (result (run frames read_byte h)) as [block'|];
    [|rewrite run_Ret, result_pair; discriminate].
  rewrite result_bind.
  destruct (result (run frames (block_head block' gce_offset info) _))
    as [|text|[[gce1 info1]|]] eqn:Hhead;
    try (rewrite run_Ret, result_pair; discriminate).
  - rewrite result_bind.
    destruct (result (run frames (data_sub_blocks sub_fuel) _)) as [|text|[]];
      try (rewrite run_Ret, result_pair; discriminate).
    apply IH. eapply block_head_in_step; [exact Hin|exact Hhead].
  - apply IH. exact Hin.
Qed.

(** Whatever the stream, the [GIFinfo] that [Open] returns has as many
    offsets of graphic control extensions as of image descriptors: [Load]
    can index the two vectors with the same page number. *)
Theorem Open_offsets_in_step (frames : Z -> bool) (fuel sub_fuel : nat)
    (h : fi_handle) (info : GIFinfo) :
  result (run frames (Open fuel sub_fuel) h) = Normal info ->
  length (graphic_control_extension_offsets info)
  = length (image_descriptor_offsets info).
Proof.
  unfold Open. rewrite result_bind.
  destruct (result (run frames Validate h)); cbn [negb];
    [|rewrite run_Ret, result_pair; discriminate].
  rewrite result_bind, result_bind.
  destruct (result (run frames read_byte _)) as [packed|];
    [|rewrite run_Ret, result_pair; discriminate].
  rewrite result_bind.
  destruct (result (run frames read_byte _)) as [color|];
    [|rewrite run_Ret, result_pair; discriminate].
  rewrite result_bind, result_bind.
  intros Hscan. apply (scan_blocks_in_step _ _ _ _ _ _ _ _ ) in Hscan;
    [exact Hscan|].
  destruct (negb _).
  - rewrite result_bind, result_bind, run_Ret, result_pair. reflexivity.
  - rewrite run_Ret, result_pair. reflexivity.
Qed.

(** **** [Open] returns *)

(** The number of bytes that are left to read. *)
Definition left_in (h : fi_handle) : nat := length (content h) - position h.

Definition is_byte (b : Z) : Prop := 0 <= b < 256.

(** A part of [Open] that ends without running out of fuel and does not
    move the read position back. *)
Definition returns {A} (frames : Z -> bool) (m : io_prog (outcome A))
    (h : fi_handle) : Prop :=
  result (run frames m h) <> OutOfFuel
  /\ (left_in (handle_after (run frames m h)) <= left_in h)%nat.

Lemma read_byte_moves frames h :
  content (handle_after (run frames read_byte h)) = content h
  /\ match result (run frames read_byte h) with
     | Some b => (left_in (handle_after (run frames read_byte h)) < left_in h)%nat
                 /\ (Forall is_byte (content h) -> is_byte b)
     | None => handle_after (run frames read_byte h) = h
     end.
Proof.
  rewrite run_read_byte, result_pair, handle_after_pair. split; [reflexivity|].
  unfold rest_of, left_in.
  destruct (drop (position h) (content h)) as [|b t] eqn:Hd; cbn [content position].
  - cbn. rewrite Nat.add_0_r. destruct h. reflexivity.
  - apply (f_equal length) in Hd as Hlen. rewrite length_drop in Hlen.
    cbn [length take] in *. split; [lia|].
    intros Hall. rewrite <- (take_drop (position h) (content h)), Hd in Hall.
    apply Forall_app in Hall as [_ Hall]. apply Forall_cons in Hall as [Hb _].
    exact Hb.
Qed.

Lemma seek_cur_moves frames off h :
  0 <= off ->
  content (handle_after (run frames (seek_proc off SEEK_CUR) h)) = content h
  /\ (left_in (handle_after (run frames (seek_proc off SEEK_CUR) h)) <= left_in h)%nat.
Proof.
  intros Hoff. rewrite run_seek_cur by exact Hoff. rewrite handle_after_pair.
  unfold left_in. cbn [content position]. split; [reflexivity|lia].
Qed.

Lemma skip_sub_blocks_returns frames fuel len h :
  Forall is_byte (content h) -> 0 <= len -> (left_in h < fuel)%nat ->
  returns frames (skip_sub_blocks fuel len) h.
Proof.
  revert len h. induction fuel as [|fuel IH]; intros len h Hall Hlen Hfuel; [lia|].
  unfold returns. cbn [skip_sub_blocks].
  destruct (len =? 0).
  { rewrite run_Ret, result_pair, handle_after_pair. split; [discriminate|lia]. }
  rewrite result_bind, handle_after_bind.
  destruct (seek_cur_moves frames len h Hlen) as [Hc1 Hl1].
  set (h1 := handle_after (run frames (seek_proc len SEEK_CUR) h)) in *.
  rewrite result_bind, handle_after_bind.
  destruct (read_byte_moves frames h1) as [Hc2 Hr].
  set (h2 := handle_after (run frames read_byte h1)) in *.
  destruct (result (run frames read_byte h1)) as [len'|].
  - destruct Hr as [Hl2 Hb]. rewrite Hc1 in Hb. specialize (Hb Hall).
    destruct (IH len' h2) as [Hres Hleft].
    + rewrite Hc2, Hc1. exact Hall.
    + unfold is_byte in Hb. lia.
    + lia.
    + split; [exact Hres|lia].
  - rewrite run_Ret, result_pair, handle_after_pair. split; [discriminate|].
    rewrite Hr. exact Hl1.
Qed.

Lemma data_sub_blocks_returns frames fuel h :
  Forall is_byte (content h) -> (left_in h < fuel)%nat ->
  returns frames (data_sub_blocks fuel) h.
Proof.
  intros Hall Hfuel. unfold returns, data_sub_blocks.
  rewrite result_bind, handle_after_bind.
  destruct (read_byte_moves frames h) as [Hc Hr].
  set (h1 := handle_after (run frames read_byte h)) in *.
  destruct (result (run frames read_byte h)) as [len|].
  - destruct Hr as [Hl Hb]. specialize (Hb Hall).
    destruct (skip_sub_blocks_returns frames fuel len h1) as [Hres Hleft].
    + rewrite Hc. exact Hall.
    + unfold is_byte in Hb. lia.
    + lia.
    + split; [exact Hres|lia].
  - rewrite run_Ret, result_pair, handle_after_pair. split; [discriminate|].
    rewrite Hr. lia.
Qed.

Lemma color_table_size_nonneg packed mask : 0 <= mask -> 0 <= 3 * Z.shiftl 2 (Z.land packed mask).
Proof.
  intros Hm. assert (0 <= Z.land packed mask) by (apply Z.land_nonneg; lia).
  rewrite Z.shiftl_mul_pow2 by lia.
  pose proof (Z.pow_pos_nonneg 2 (Z.land packed mask) ltac:(lia) ltac:(lia)). lia.
Qed.

Lemma block_head_returns frames block gce_offset info h :
  result (run frames (block_head block gce_offset info) h) <> OutOfFuel
  /\ content (handle_after (run frames (block_head block gce_offset info) h))
     = content h
  /\ (left_in (handle_after (run frames (block_head block gce_offset info) h))
      <= left_in h)%nat.
Proof.
  split; [|split; [apply content_run|]].
  - unfold block_head.
    destruct (block =? GIF_BLOCK_IMAGE_DESCRIPTOR).
    + rewrite result_bind, result_bind, result_bind.
      destruct (result (run frames read_byte _)) as [packed|].
      * rewrite result_bind, result_bind, run_Ret, result_pair. discriminate.
      * rewrite run_Ret, result_pair. discriminate.
    + destruct (block =? GIF_BLOCK_EXTENSION).
      * rewrite result_bind.
        destruct (result (run frames read_byte h)) as [ext|];
          [|rewrite run_Ret, result_pair; discriminate].
        destruct (ext =? GIF_EXT_GRAPHIC_CONTROL);
          [|destruct (ext =? GIF_EXT_COMMENT);
            [|destruct (ext =? GIF_EXT_APPLICATION)]];
          rewrite ?result_bind, ?run_tell_proc, ?result_pair, ?handle_after_pair;
          rewrite run_Ret, result_pair; discriminate.
      * destruct (block =? GIF_BLOCK_TRAILER);
          rewrite run_Ret, result_pair; discriminate.
  - unfold block_head.
    destruct (block =? GIF_BLOCK_IMAGE_DESCRIPTOR).
    + rewrite handle_after_bind, run_tell_proc, result_pair, handle_after_pair.
      rewrite handle_after_bind.
      destruct (seek_cur_moves frames 8 h ltac:(lia)) as [Hc1 Hl1].
      set (h1 := handle_after (run frames (seek_proc 8 SEEK_CUR) h)) in *.
      rewrite handle_after_bind.
      destruct (read_byte_moves frames h1) as [Hc2 Hr].
      set (h2 := handle_after (run frames read_byte h1)) in *.
      destruct (result (run frames read_byte h1)) as [packed|].
      * destruct Hr as [Hl2 _].
        rewrite handle_after_bind.
        set (h3 := handle_after (run frames _ h2)).
        assert (Hl3 : (left_in h3 <= left_in h2)%nat).
        { unfold h3. destruct (negb _).
          - apply seek_cur_moves. apply color_table_size_nonneg.
            unfold GIF_PACKED_ID_LCTSIZE. lia.
          - rewrite run_Ret, handle_after_pair. lia. }
        rewrite handle_after_bind, run_Ret, handle_after_pair.
        destruct (seek_cur_moves frames 1 h3 ltac:(lia)) as [_ Hl4]. lia.
      * rewrite run_Ret, handle_after_pair. rewrite Hr. exact Hl1.
    + destruct (block =? GIF_BLOCK_EXTENSION).
      * rewrite handle_after_bind.
        destruct (read_byte_moves frames h) as [Hc Hr].
        set (h1 := handle_after (run frames read_byte h)) in *.
        destruct (result (run frames read_byte h)) as [ext|];
          [|rewrite run_Ret, handle_after_pair, Hr; lia].
        destruct Hr as [Hl _].
        destruct (ext =? GIF_EXT_GRAPHIC_CONTROL);
          [|destruct (ext =? GIF_EXT_COMMENT);
            [|destruct (ext =? GIF_EXT_APPLICATION)]];
          rewrite ?handle_after_bind, ?run_tell_proc, ?result_pair, ?handle_after_pair;
          rewrite run_Ret, handle_after_pair; lia.
      * destruct (block =? GIF_BLOCK_TRAILER);
          rewrite run_Ret, handle_after_pair; lia.
Qed.

Lemma scan_blocks_returns frames fuel sub_fuel block gce_offset info h :
  Forall is_byte (content h) -> (left_in h < fuel)%nat -> (left_in h < sub_fuel)%nat ->
  result (run frames (scan_blocks fuel sub_fuel block gce_offset info) h) <> OutOfFuel.
Proof.
  revert block gce_offset info h.
  induction fuel as [|fuel IH]; intros block gce_offset info h Hall Hfuel Hsub; [lia|].
  cbn [scan_blocks].
  destruct (block =? GIF_BLOCK_TRAILER);
    [rewrite run_Ret, result_pair; discriminate|].
  rewrite result_bind.
  destruct (read_byte_moves frames h) as [Hc Hr].
  set (h1 := handle_after (run frames read_byte h)) in *.
  destruct (result (run frames read_byte h)) as [block'|];
    [|rewrite run_Ret, result_pair; discriminate].
  destruct Hr as [Hl _].
  rewrite result_bind.
  destruct (block_head_returns frames block' gce_offset info h1) as (Hres & Hc2 & Hl2).
  set (h2 := handle_after (run frames (block_head block' gce_offset info) h1)) in *.
  destruct (result (run frames (block_head block' gce_offset info) h1))
    as [|text|[[gce1 info1]|]]; try congruence;
    try (rewrite run_Ret, result_pair; discriminate).
  - rewrite result_bind.
    destruct (data_sub_blocks_returns frames sub_fuel h2) as [Hres3 Hl3].
    + rewrite Hc2, Hc. exact Hall.
    + lia.
    + set (h3 := handle_after (run frames (data_sub_blocks sub_fuel) h2)) in *.
      destruct (result (run frames (data_sub_blocks sub_fuel) h2)) as [|text|[]];
        try congruence; try (rewrite run_Ret, result_pair; discriminate).
      apply IH; try lia.
      unfold h3. rewrite content_run, Hc2, Hc. exact Hall.
  - apply IH; try lia. rewrite Hc2, Hc. exact Hall.
Qed.

Lemma Validate_moves frames h :
  (left_in (handle_after (run frames Validate h)) <= left_in h)%nat.
Proof.
  unfold Validate.
  change (read_proc 1 6 ≫= ?f) with (ReadProc 1 6 (fun r => bind (Ret r) f)).
  rewrite run_ReadProc. cbv zeta. unfold do_read. cbn [fst snd bind].
  unfold left_in, handle_after.
  repeat case_match; cbn [run fst snd content position]; lia.
Qed.

(** [Open] returns on every stream of bytes, whatever it holds: every turn
    of its loops reads a byte that it has not read before, so a number of
    turns above the length of the stream is never used up. *)
Theorem Open_returns (frames : Z -> bool) (fuel sub_fuel : nat) (h : fi_handle) :
  Forall is_byte (content h) ->
  (length (content h) < fuel)%nat -> (length (content h) < sub_fuel)%nat ->
  result (run frames (Open fuel sub_fuel) h) <> OutOfFuel.
Proof.
  intros Hall Hfuel Hsub. unfold Open. rewrite result_bind.
  pose proof (Validate_moves frames h) as Hl0.
  pose proof (content_run frames Validate h) as Hc0.
  set (h0 := handle_after (run frames Validate h)) in *.
  destruct (result (run frames Validate h)); cbn [negb];
    [|rewrite run_Ret, result_pair; discriminate].
  rewrite result_bind.
  destruct (seek_cur_moves frames 4 h0 ltac:(lia)) as [Hc1 Hl1].
  set (h1 := handle_after (run frames (seek_proc 4 SEEK_CUR) h0)) in *.
  rewrite result_bind.
  destruct (read_byte_moves frames h1) as [Hc2 Hr2].
  set (h2 := handle_after (run frames read_byte h1)) in *.
  destruct (result (run frames read_byte h1)) as [packed|];
    [|rewrite run_Ret, result_pair; discriminate].
  destruct Hr2 as [Hl2 _].
  rewrite result_bind.
  destruct (read_byte_moves frames h2) as [Hc3 Hr3].
  set (h3 := handle_after (run frames read_byte h2)) in *.
  destruct (result (run frames read_byte h2)) as [color|];
    [|rewrite run_Ret, result_pair; discriminate].
  destruct Hr3 as [Hl3 _].
  rewrite result_bind.
  destruct (seek_cur_moves frames 1 h3 ltac:(lia)) as [Hc4 Hl4].
  set (h4 := handle_after (run frames (seek_proc 1 SEEK_CUR) h3)) in *.
  rewrite result_bind.
  match goal with
  | |- context [handle_after (run frames ?m h4)] => set (table := m)
  end.
  assert (H5 : content (handle_after (run frames table h4)) = content h
               /\ (left_in (handle_after (run frames table h4)) <= left_in h4)%nat).
  { split; [rewrite content_run; congruence|].
    unfold table. destruct (negb _).
    - rewrite handle_after_bind, run_tell_proc, result_pair, handle_after_pair.
      rewrite handle_after_bind, run_Ret, handle_after_pair.
      apply seek_cur_moves. apply color_table_size_nonneg.
      unfold GIF_PACKED_LSD_GCTSIZE. lia.
    - rewrite run_Ret, handle_after_pair. lia. }
  destruct H5 as [Hc5 Hl5].
  assert (Hleft : (left_in h <= length (content h))%nat) by (unfold left_in; lia).
  apply scan_blocks_returns.
  - rewrite Hc5. exact Hall.
  - lia.
  - lia.
Qed.


(** **** [Open] on a stream of blocks *)

(** The blocks between the logical screen and the trailer: an image (the
    eight bytes of its descriptor that precede [packed], an optional local
    colour table, the minimum code size and the image data in sub-blocks) or
    an extension (a label and sub-blocks). *)
Inductive block : Type :=
| Image (descriptor : list Z) (packed : Z) (color_table : list Z)
        (min_code_size : Z) (data : list (list Z))
| Extension (label : Z) (data : list (list Z)).

(** Sub-blocks in the stream: each with its length in front, and a zero at
    the end. *)
Definition sub_blocks (data : list (list Z)) : list Z :=
  concat (map (fun d => Z.of_nat (length d) :: d) data) ++ [0].

Definition encode (b : block) : list Z :=
  match b with
  | Image descriptor packed color_table min_code_size data =>
      [GIF_BLOCK_IMAGE_DESCRIPTOR] ++ descriptor ++ [packed] ++ color_table
      ++ [min_code_size] ++ sub_blocks data
  | Extension label data => [GIF_BLOCK_EXTENSION; label] ++ sub_blocks data
  end.

(** The size in bytes of the colour table that [packed] announces. *)
Definition table_bytes (packed : Z) : Z :=
  if Z.land packed 0x80 =? 0 then 0 else 3 * Z.shiftl 2 (Z.land packed 0x07).

Definition data_of (b : block) : list (list Z) :=
  match b with Image _ _ _ _ data | Extension _ data => data end.

Definition well_formed (b : block) : Prop :=
  Forall (fun d => d <> []) (data_of b) /\
  match b with
  | Image descriptor packed color_table _ _ =>
      length descriptor = 8%nat /\ Z.of_nat (length color_table) = table_bytes packed
  | Extension _ _ => True
  end.

(** The descriptors of the images, in the order of the stream. *)
Definition descriptors (bs : list block) : list (list Z) :=
  flat_map (fun b => match b with
                     | Image descriptor _ _ _ _ => [descriptor]
                     | Extension _ _ => []
                     end) bs.

(** What the loop of [Open] has collected after the blocks [bs], which start
    at [pos]. *)
Fixpoint scanned (pos : nat) (gce_offset : Z) (info : GIFinfo) (bs : list block)
  : GIFinfo :=
  match bs with
  | [] => info
  | b :: bs =>
      let next := (pos + length (encode b))%nat in
      match b with
      | Image _ _ _ _ _ =>
          scanned next 0 (push_image (Z.of_nat (pos + 1)) gce_offset info) bs
      | Extension label _ =>
          if label =? GIF_EXT_GRAPHIC_CONTROL then
            scanned next (Z.of_nat (pos + 2)) info bs
          else if label =? GIF_EXT_COMMENT then
            scanned next gce_offset (push_comment (Z.of_nat (pos + 2)) info) bs
          else if label =? GIF_EXT_APPLICATION then
            scanned next gce_offset (push_application (Z.of_nat (pos + 2)) info) bs
          else scanned next gce_offset info bs
      end
  end.

(** Reading one byte that is there, and moving on, said with [rest_of]. *)
Lemma read_byte_next frames h b t :
  rest_of h = b :: t ->
  result (run frames read_byte h) = Some b
  /\ handle_after (run frames read_byte h) = Handle (content h) (position h + 1)
  /\ rest_of (Handle (content h) (position h + 1)) = t.
Proof.
  intros Hr. rewrite run_read_byte, result_pair, handle_after_pair, Hr.
  split; [reflexivity|]. split; [reflexivity|].
  rewrite rest_of_moved, Hr. reflexivity.
Qed.

Lemma seek_cur_next frames (n : nat) h :
  handle_after (run frames (seek_proc (Z.of_nat n) SEEK_CUR) h)
  = Handle (content h) (position h + n).
Proof.
  rewrite run_seek_cur by lia. rewrite handle_after_pair, Nat2Z.id. reflexivity.
Qed.

Lemma data_sub_blocks_skips frames data : forall fuel h rest,
  rest_of h = sub_blocks data ++ rest ->
  Forall (fun d => d <> []) data -> (length data <= fuel)%nat ->
  result (run frames (data_sub_blocks fuel) h) = Normal ()
  /\ handle_after (run frames (data_sub_blocks fuel) h)
     = Handle (content h) (position h + length (sub_blocks data)).
Proof.
  unfold data_sub_blocks.
  induction data as [|d data IH]; intros fuel h rest Hrest Hwf Hfuel.
  - cbn in Hrest.
    destruct (read_byte_next frames h 0 rest Hrest) as (Hr & Hh & _).
    rewrite result_bind, handle_after_bind, Hr, Hh.
    destruct fuel; cbn [skip_sub_blocks]; change (0 =? 0) with true; cbv iota;
      rewrite run_Ret, result_pair, handle_after_pair; split; reflexivity.
  - unfold sub_blocks in Hrest. cbn [map concat] in Hrest.
    rewrite <- !app_assoc in Hrest. cbn [app] in Hrest.
    destruct (read_byte_next frames h _ _ Hrest) as (Hr & Hh & Hrest1).
    rewrite result_bind, handle_after_bind, Hr, Hh.
    apply Forall_cons in Hwf as [Hd Hwf].
    destruct fuel as [|fuel]; [cbn in Hfuel; lia|].
    cbn [skip_sub_blocks].
    destruct (Z.eqb_spec (Z.of_nat (length d)) 0) as [E|_].
    { destruct d; [congruence|cbn in E; lia]. }
    rewrite result_bind, handle_after_bind, seek_cur_next.
    cbn [content position].
    set (h2 := Handle (content h) (position h + 1 + length d)).
    assert (Hrest2 : rest_of h2 = sub_blocks data ++ rest).
    { unfold h2. change (Handle (content h) (position h + 1 + length d))
        with (Handle (content (Handle (content h) (position h + 1)))
                (position (Handle (content h) (position h + 1)) + length d)).
      rewrite rest_of_moved, Hrest1, drop_app_length.
      unfold sub_blocks. rewrite <- app_assoc. reflexivity. }
    destruct (IH fuel h2 rest Hrest2 Hwf ltac:(cbn in Hfuel; lia)) as [Hres Hha].
    rewrite Hres, Hha. split; [reflexivity|].
    unfold h2. cbn [content position]. f_equal.
    unfold sub_blocks. cbn [map concat].
    rewrite ?length_app; cbn [length]; rewrite ?length_app; cbn [length]. lia.
Qed.


Lemma rest_of_at h (n : nat) (pre t : list Z) :
  rest_of h = pre ++ t -> length pre = n ->
  rest_of (Handle (content h) (position h + n)) = t.
Proof.
  intros Hr <-. rewrite rest_of_moved, Hr, drop_app_length. reflexivity.
Qed.

Lemma block_head_image frames gce_offset info h descriptor packed color_table t :
  rest_of h = descriptor ++ [packed] ++ color_table ++ t ->
  length descriptor = 8%nat -> Z.of_nat (length color_table) = table_bytes packed ->
  result (run frames (block_head GIF_BLOCK_IMAGE_DESCRIPTOR gce_offset info) h)
  = Normal (Some (0, push_image (Z.of_nat (position h)) gce_offset info))
  /\ handle_after (run frames (block_head GIF_BLOCK_IMAGE_DESCRIPTOR gce_offset info) h)
     = Handle (content h) (position h + 8 + 1 + length color_table + 1).
Proof.
  intros Hrest Hd Hct. unfold block_head.
  change (GIF_BLOCK_IMAGE_DESCRIPTOR =? GIF_BLOCK_IMAGE_DESCRIPTOR) with true.
  cbv iota.
  rewrite result_bind, handle_after_bind, run_tell_proc, result_pair, handle_after_pair.
  rewrite result_bind, handle_after_bind.
  rewrite (run_seek_cur frames 8 h) by lia. rewrite handle_after_pair.
  change (Z.to_nat 8) with 8%nat.
  set (h1 := Handle (content h) (position h + 8)).
  assert (Hr1 : rest_of h1 = packed :: color_table ++ t)
    by (apply (rest_of_at h 8 descriptor _ Hrest Hd)).
  destruct (read_byte_next frames h1 _ _ Hr1) as (Hres & Hh & Hr2).
  rewrite result_bind, handle_after_bind, Hres, Hh.
  set (h2 := Handle (content h1) (position h1 + 1)) in *.
  rewrite result_bind, handle_after_bind.
  assert (Hh3 : handle_after
                  (run frames
                     (if negb (Z.land packed GIF_PACKED_ID_HAVELCT =? 0)
                      then seek_proc
                             (3 * Z.shiftl 2 (Z.land packed GIF_PACKED_ID_LCTSIZE))
                             SEEK_CUR
                      else Ret 0) h2)
                = Handle (content h) (position h + 8 + 1 + length color_table)).
  { unfold table_bytes in Hct.
    change GIF_PACKED_ID_HAVELCT with 128. change GIF_PACKED_ID_LCTSIZE with 7.
    destruct (Z.land packed 128 =? 0); cbn [negb].
    - rewrite run_Ret, handle_after_pair. unfold h2, h1. cbn [content position].
      f_equal. lia.
    - rewrite <- Hct, seek_cur_next. reflexivity. }
  rewrite Hh3.
  rewrite result_bind, handle_after_bind.
  rewrite (run_seek_cur frames 1) by lia. rewrite handle_after_pair.
  rewrite run_Ret, result_pair, handle_after_pair.
  split; reflexivity.
Qed.

Lemma block_head_extension frames gce_offset info h label t :
  rest_of h = label :: t ->
  result (run frames (block_head GIF_BLOCK_EXTENSION gce_offset info) h)
  = Normal (Some
      (if label =? GIF_EXT_GRAPHIC_CONTROL then (Z.of_nat (position h + 1), info)
       else if label =? GIF_EXT_COMMENT
            then (gce_offset, push_comment (Z.of_nat (position h + 1)) info)
       else if label =? GIF_EXT_APPLICATION
            then (gce_offset, push_application (Z.of_nat (position h + 1)) info)
       else (gce_offset, info)))
  /\ handle_after (run frames (block_head GIF_BLOCK_EXTENSION gce_offset info) h)
     = Handle (content h) (position h + 1).
Proof.
  intros Hrest. unfold block_head.
  change (GIF_BLOCK_EXTENSION =? GIF_BLOCK_IMAGE_DESCRIPTOR) with false.
  change (GIF_BLOCK_EXTENSION =? GIF_BLOCK_EXTENSION) with true. cbv iota.
  destruct (read_byte_next frames h _ _ Hrest) as (Hres & Hh & _).
  rewrite result_bind, handle_after_bind, Hres, Hh.
  destruct (label =? GIF_EXT_GRAPHIC_CONTROL);
    [|destruct (label =? GIF_EXT_COMMENT);
      [|destruct (label =? GIF_EXT_APPLICATION)]];
    rewrite ?result_bind, ?handle_after_bind, ?run_tell_proc,
      ?result_pair, ?handle_after_pair;
    rewrite run_Ret, result_pair, handle_after_pair; split; reflexivity.
Qed.

Lemma scan_blocks_parses frames sub_fuel bs :
  forall fuel block gce_offset info h rest,
  rest_of h = concat (map encode bs) ++ GIF_BLOCK_TRAILER :: rest ->
  Forall well_formed bs -> (length bs < fuel)%nat ->
  Forall (fun b => (length (data_of b) <= sub_fuel)%nat) bs ->
  block <> GIF_BLOCK_TRAILER ->
  result (run frames (scan_blocks fuel sub_fuel block gce_offset info) h)
  = Normal (scanned (position h) gce_offset info bs).
Proof.
  induction bs as [|b bs IH]; intros fuel block gce_offset info h rest
    Hrest Hwf Hfuel Hsub Hblock;
    (destruct fuel as [|fuel]; [cbn in Hfuel; lia|]);
    cbn [scan_blocks];
    (destruct (Z.eqb_spec block GIF_BLOCK_TRAILER); [congruence|]).
  - cbn in Hrest.
    destruct (read_byte_next frames h _ _ Hrest) as (Hres & Hh & _).
    rewrite result_bind, Hres, Hh. rewrite result_bind.
    unfold block_head.
    change (GIF_BLOCK_TRAILER =? GIF_BLOCK_IMAGE_DESCRIPTOR) with false.
    change (GIF_BLOCK_TRAILER =? GIF_BLOCK_EXTENSION) with false.
    change (GIF_BLOCK_TRAILER =? GIF_BLOCK_TRAILER) with true. cbv iota.
    rewrite !run_Ret, result_pair, handle_after_pair.
    destruct fuel; cbn [scan_blocks];
      change (GIF_BLOCK_TRAILER =? GIF_BLOCK_TRAILER) with true; cbv iota;
      rewrite run_Ret, result_pair; reflexivity.
  - cbn [length] in Hfuel.
    apply Forall_cons in Hwf as [[Hdata Hb] Hwf].
    apply Forall_cons in Hsub as [Hsb Hsub].
    cbn [map concat] in Hrest. rewrite <- app_assoc in Hrest.
    destruct b as [descriptor packed color_table min_code_size data|label data];
      cbn [encode data_of] in *.
    + destruct Hb as [Hd Hct].
      rewrite <- !app_assoc in Hrest. cbn [app] in Hrest.
      destruct (read_byte_next frames h _ _ Hrest) as (Hres & Hh & Hr1).
      rewrite result_bind, Hres, Hh. rewrite result_bind.
      pose (h1 := Handle (content h) (position h + 1)).
      assert (Hr1' : rest_of h1 = descriptor ++ [packed] ++ color_table
                       ++ (min_code_size :: sub_blocks data
                             ++ concat (map encode bs) ++ GIF_BLOCK_TRAILER :: rest)).
      { unfold h1. rewrite Hr1. reflexivity. }
      destruct (block_head_image frames gce_offset info h1 _ _ _ _ Hr1' Hd Hct)
        as [Hhead Hh2].
      unfold h1 in Hhead, Hh2. rewrite Hhead, Hh2. cbn [content position]. clear h1 Hr1' Hhead Hh2.
      set (h2 := Handle (content h) (position h + 1 + 8 + 1 + length color_table + 1)).
      assert (Hr2 : rest_of h2 = sub_blocks data
                      ++ (concat (map encode bs) ++ GIF_BLOCK_TRAILER :: rest)).
      { unfold h2.
        replace (position h + 1 + 8 + 1 + length color_table + 1)%nat
          with (position h + length ([GIF_BLOCK_IMAGE_DESCRIPTOR] ++ descriptor
                  ++ [packed] ++ color_table ++ [min_code_size]))%nat
          by (rewrite ?length_app; cbn [length]; rewrite ?length_app; cbn [length]; lia).
        eapply rest_of_at; [|reflexivity].
        rewrite Hrest. rewrite <- !app_assoc. reflexivity. }
      destruct (data_sub_blocks_skips frames data sub_fuel h2 _ Hr2 Hdata Hsb)
        as [Hskip Hh3].
      rewrite result_bind, Hskip, Hh3. unfold h2 at 1 2. cbn [content position].
      rewrite (IH fuel _ 0 _ _ rest); try assumption; try lia;
        try (unfold GIF_BLOCK_IMAGE_DESCRIPTOR, GIF_BLOCK_TRAILER; lia).
      * cbn [position scanned encode].
        replace (position h + 1 + 8 + 1 + length color_table + 1
                 + length (sub_blocks data))%nat
          with (position h + length ([GIF_BLOCK_IMAGE_DESCRIPTOR] ++ descriptor
                  ++ [packed] ++ color_table ++ [min_code_size] ++ sub_blocks data))%nat
          by (rewrite ?length_app; cbn [length]; rewrite ?length_app; cbn [length];
              rewrite ?length_app; cbn [length]; lia).
        replace (Z.of_nat (position h + 1)) with (Z.of_nat (position h + 1)%nat)
          by reflexivity.
        reflexivity.
      * apply (rest_of_at h2 (length (sub_blocks data)) (sub_blocks data) _ Hr2 eq_refl).
    + cbn [app] in Hrest.
      destruct (read_byte_next frames h _ _ Hrest) as (Hres & Hh & Hr1).
      rewrite result_bind, Hres, Hh. rewrite result_bind.
      destruct (block_head_extension frames gce_offset info
                  (Handle (content h) (position h + 1)) _ _ Hr1)
        as [Hhead Hh2].
      rewrite Hhead, Hh2. cbn [content position].
      set (h2 := Handle (content h) (position h + 1 + 1)).
      assert (Hr2 : rest_of h2 = sub_blocks data
                      ++ (concat (map encode bs) ++ GIF_BLOCK_TRAILER :: rest)).
      { unfold h2.
        change (Handle (content h) (position h + 1 + 1))
          with (Handle (content (Handle (content h) (position h + 1)))
                  (position (Handle (content h) (position h + 1)) + length [label])).
        eapply rest_of_at; [|reflexivity]. rewrite Hr1. reflexivity. }
      destruct (data_sub_blocks_skips frames data sub_fuel h2 _ Hr2 Hdata Hsb)
        as [Hskip Hh3].
      assert (Hnext : forall g i,
        result (run frames (scan_blocks fuel sub_fuel GIF_BLOCK_EXTENSION g i)
                  (handle_after (run frames (data_sub_blocks sub_fuel) h2)))
        = Normal (scanned (position h + length ([GIF_BLOCK_EXTENSION; label]
                                                 ++ sub_blocks data)) g i bs)).
      { intros g i. rewrite Hh3. unfold h2 at 1 2. cbn [content position].
        rewrite (IH fuel _ g i _ rest); try assumption; try lia;
          try (unfold GIF_BLOCK_EXTENSION, GIF_BLOCK_TRAILER; lia).
        - cbn [position]. rewrite length_app. cbn [length].
          replace (position h + 1 + 1 + length (sub_blocks data))%nat
            with (position h + (2 + length (sub_blocks data)))%nat by lia.
          reflexivity.
        - apply (rest_of_at h2 (length (sub_blocks data)) (sub_blocks data) _ Hr2 eq_refl). }
      cbn [scanned encode]. cbn [position].
      replace (Z.of_nat (position h + 1 + 1)) with (Z.of_nat (position h + 2)) by lia.
      destruct (label =? GIF_EXT_GRAPHIC_CONTROL);
        [|destruct (label =? GIF_EXT_COMMENT);
          [|destruct (label =? GIF_EXT_APPLICATION)]];
        rewrite result_bind, Hskip; apply Hnext.
Qed.


(** The offsets of the image descriptors among blocks that start at [pos]. *)
Fixpoint image_offsets (pos : nat) (bs : list block) : list Z :=
  match bs with
  | [] => []
  | b :: bs =>
      match b with
      | Image _ _ _ _ _ => [Z.of_nat (pos + 1)]
      | Extension _ _ => []
      end ++ image_offsets (pos + length (encode b)) bs
  end.

Lemma scanned_offsets bs : forall pos gce_offset info,
  image_descriptor_offsets (scanned pos gce_offset info bs)
  = image_descriptor_offsets info ++ image_offsets pos bs
  /\ background_color (scanned pos gce_offset info bs) = background_color info
  /\ global_color_table_offset (scanned pos gce_offset info bs)
     = global_color_table_offset info
  /\ global_color_table_size (scanned pos gce_offset info bs)
     = global_color_table_size info.
Proof.
  induction bs as [|b bs IH]; intros pos gce_offset info; cbn [scanned image_offsets].
  - rewrite app_nil_r. auto.
  - destruct b as [descriptor packed color_table min_code_size data|label data].
    + destruct (IH (pos + length (encode (Image descriptor packed color_table
                                            min_code_size data)))%nat
                   0 (push_image (Z.of_nat (pos + 1)) gce_offset info))
        as (-> & -> & -> & ->).
      cbn. rewrite <- app_assoc. auto.
    + destruct (label =? GIF_EXT_GRAPHIC_CONTROL);
        [|destruct (label =? GIF_EXT_COMMENT);
          [|destruct (label =? GIF_EXT_APPLICATION)]];
        match goal with
        | |- context [scanned ?p ?g ?i bs] =>
            destruct (IH p g i) as (-> & -> & -> & ->)
        end; cbn; auto.
Qed.

Lemma image_offsets_point bs : forall pre post,
  Forall well_formed bs ->
  map (fun off => take 8 (drop (Z.to_nat off)
                            (pre ++ concat (map encode bs) ++ post)))
      (image_offsets (length pre) bs)
  = descriptors bs.
Proof.
  induction bs as [|b bs IH]; intros pre post Hwf; [reflexivity|].
  apply Forall_cons in Hwf as [[_ Hb] Hwf].
  cbn [image_offsets descriptors flat_map map concat].
  rewrite map_app.
  assert (Hrest : map (fun off => take 8 (drop (Z.to_nat off)
                          (pre ++ (encode b ++ concat (map encode bs)) ++ post)))
                      (image_offsets (length pre + length (encode b)) bs)
                  = descriptors bs).
  { rewrite <- length_app.
    replace (pre ++ (encode b ++ concat (map encode bs)) ++ post)
      with ((pre ++ encode b) ++ concat (map encode bs) ++ post)
      by (rewrite <- !app_assoc; reflexivity).
    apply IH, Hwf. }
  rewrite Hrest. f_equal.
  destruct b as [descriptor packed color_table min_code_size data|label data];
    [|reflexivity].
  destruct Hb as [Hd _]. cbn [map encode]. f_equal.
  rewrite Nat2Z.id.
  replace (pre ++ (([GIF_BLOCK_IMAGE_DESCRIPTOR] ++ descriptor ++ [packed]
                     ++ color_table ++ [min_code_size] ++ sub_blocks data)
                   ++ concat (map encode bs)) ++ post)
    with ((pre ++ [GIF_BLOCK_IMAGE_DESCRIPTOR])
          ++ descriptor ++ ([packed] ++ color_table ++ [min_code_size]
                            ++ sub_blocks data ++ concat (map encode bs) ++ post))
    by (rewrite <- !app_assoc; reflexivity).
  replace (length pre + 1)%nat with (length (pre ++ [GIF_BLOCK_IMAGE_DESCRIPTOR]))
    by (rewrite length_app; reflexivity).
  rewrite drop_app_length. rewrite <- Hd. apply take_app_length.
Qed.

Lemma length_descriptors bs :
  length (image_offsets 0 bs) = length (descriptors bs)
  /\ forall pos, length (image_offsets pos bs) = length (image_offsets 0 bs).
Proof.
  assert (H : forall pos, length (image_offsets pos bs) = length (descriptors bs)).
  { induction bs as [|b bs IH]; intros pos; [reflexivity|].
    cbn [image_offsets descriptors flat_map]. rewrite !length_app, IH.
    destruct b; reflexivity. }
  split; [apply H|]. intros pos. rewrite !H. reflexivity.
Qed.

(** [Open] on a stream that is made of a signature, a logical screen (with
    its optional colour table), blocks and a trailer: it returns a
    [GIFinfo]; the number of pages that [PageCount] then reports is the
    number of images among the blocks, and the offset that [Open] has kept
    for a page is where the descriptor of that image is in the stream, which
    is where [Load] will seek to.  The background colour is the one of the
    logical screen. *)
Theorem Open_pages (frames : Z -> bool) (fuel sub_fuel : nat)
    (version : Z) (screen : list Z) (packed color aspect : Z)
    (table : list Z) (blocks : list block) (rest : list Z) :
  version = 0x39 \/ version = 0x37 ->
  length screen = 4%nat -> Z.of_nat (length table) = table_bytes packed ->
  Forall well_formed blocks -> (length blocks < fuel)%nat ->
  Forall (fun b => (length (data_of b) <= sub_fuel)%nat) blocks ->
  let stream := [0x47; 0x49; 0x46; 0x38; version; 0x61] ++ screen
                ++ [packed; color; aspect] ++ table
                ++ concat (map encode blocks) ++ GIF_BLOCK_TRAILER :: rest in
  exists info,
    result (run frames (Open fuel sub_fuel) (Handle stream 0)) = Normal info
    /\ PageCount (Some info) = Z.of_nat (length (descriptors blocks))
    /\ map (fun off => take 8 (drop (Z.to_nat off) stream))
           (image_descriptor_offsets info)
       = descriptors blocks
    /\ background_color info = color.
Proof.
  intros Hv Hscreen Htable Hwf Hfuel Hsub stream.
  destruct screen as [|s0 [|s1 [|s2 [|s3 [|s4 screen]]]]]; try discriminate.
  set (pre := [0x47; 0x49; 0x46; 0x38; version; 0x61; s0; s1; s2; s3;
               packed; color; aspect] ++ table).
  assert (Hstream : stream = pre ++ concat (map encode blocks)
                                 ++ GIF_BLOCK_TRAILER :: rest).
  { unfold stream, pre. rewrite <- app_assoc. reflexivity. }
  set (h := Handle stream (length pre)).
  assert (Hrest : rest_of h = concat (map encode blocks) ++ GIF_BLOCK_TRAILER :: rest).
  { unfold rest_of, h. cbn [content position]. rewrite Hstream.
    apply drop_app_length. }
  set (info0 := if Z.land packed 0x80 =? 0
                then set_background_color color (new_GIFinfo true)
                else set_global_color_table 13 (Z.shiftl 2 (Z.land packed 0x07))
                       (set_background_color color (new_GIFinfo true))).
  assert (Hopen : result (run frames (Open fuel sub_fuel) (Handle stream 0))
                  = result (run frames (scan_blocks fuel sub_fuel 0 0 info0) h)).
  { unfold Open. rewrite result_bind.
    assert (HV : run frames Validate (Handle stream 0)
                 = (true, Handle stream 6, [EvRead 1 6])).
    { unfold stream. destruct Hv as [-> | ->]; reflexivity. }
    rewrite HV, result_pair, handle_after_pair. cbn [negb].
    rewrite result_bind, (run_seek_cur frames 4) by lia.
    rewrite handle_after_pair. cbn [content position].
    change (6 + Z.to_nat 4)%nat with 10%nat.
    assert (Hr10 : rest_of (Handle stream 10)
                   = packed :: color :: aspect :: table
                     ++ concat (map encode blocks) ++ GIF_BLOCK_TRAILER :: rest)
      by reflexivity.
    destruct (read_byte_next frames _ _ _ Hr10) as (Hres & Hh & Hr11).
    rewrite result_bind, Hres, Hh. cbn [content position] in *.
    destruct (read_byte_next frames _ _ _ Hr11) as (Hres2 & Hh2 & Hr12).
    rewrite result_bind, Hres2, Hh2. cbn [content position] in *.
    rewrite result_bind, (run_seek_cur frames 1) by lia.
    rewrite handle_after_pair. cbn [content position].
    change (10 + 1 + 1 + Z.to_nat 1)%nat with 13%nat.
    rewrite result_bind.
    unfold table_bytes in Htable. unfold info0, h.
    change GIF_PACKED_LSD_HAVEGCT with 128. change GIF_PACKED_LSD_GCTSIZE with 7.
    destruct (Z.land packed 128 =? 0); cbn [negb].
    - rewrite run_Ret, result_pair, handle_after_pair.
      replace (length pre) with 13%nat; [reflexivity|].
      unfold pre. rewrite length_app. cbn [length]. lia.
    - rewrite result_bind, handle_after_bind, run_tell_proc,
        result_pair, handle_after_pair.
      rewrite result_bind, handle_after_bind, <- Htable, seek_cur_next,
        run_Ret, result_pair, handle_after_pair.
      cbn [content position].
      replace (length pre) with (13 + length table)%nat; [reflexivity|].
      unfold pre. rewrite length_app. cbn [length]. lia. }
  rewrite Hopen.
  rewrite (scan_blocks_parses frames sub_fuel blocks fuel 0 0 info0 h rest
             Hrest Hwf Hfuel Hsub) by (unfold GIF_BLOCK_TRAILER; lia).
  eexists. split; [reflexivity|].
  destruct (scanned_offsets blocks (position h) 0 info0) as (Hoff & Hbg & _).
  assert (Hinfo0 : image_descriptor_offsets info0 = [] /\ background_color info0 = color).
  { unfold info0. destruct (_ =? _); split; reflexivity. }
  destruct Hinfo0 as [Hi0 Hb0].
  rewrite Hoff, Hbg, Hi0, Hb0. cbn [app].
  split; [|split; [|reflexivity]].
  - unfold PageCount. rewrite Hoff, Hi0. cbn [app].
    destruct (length_descriptors blocks) as [H0 Hpos].
    rewrite Hpos, H0. reflexivity.
  - unfold h. cbn [position]. rewrite Hstream.
    apply image_offsets_point, Hwf.
Qed.


(** **** The theorems at work *)

(** A stream of one image of 1 x 1 pixels that follows a graphic control
    extension, after a logical screen with a colour table of two entries. *)
Definition one_image : list block :=
  [Extension GIF_EXT_GRAPHIC_CONTROL [[4; 0; 0; 0]];
   Image [0; 0; 0; 0; 1; 0; 1; 0] 0 [] 2 [[0x44; 0x01]]].

Definition one_image_stream : list Z :=
  [0x47; 0x49; 0x46; 0x38; 0x39; 0x61] ++ [1; 0; 1; 0] ++ [0x80; 0; 0]
  ++ [0; 0; 0; 255; 255; 255]
  ++ concat (map encode one_image) ++ GIF_BLOCK_TRAILER :: [].

Lemma Open_pages_witness :
  exists info,
    result (run (fun _ => true) (Open 3 1) (Handle one_image_stream 0)) = Normal info
    /\ PageCount (Some info) = Z.of_nat (length (descriptors one_image))
    /\ map (fun off => take 8 (drop (Z.to_nat off) one_image_stream))
           (image_descriptor_offsets info)
       = descriptors one_image
    /\ background_color info = 0.
Proof.
  apply (Open_pages (fun _ => true) 3 1 0x39 [1; 0; 1; 0] 0x80 0 0
           [0; 0; 0; 255; 255; 255] one_image []).
  - left. reflexivity.
  - reflexivity.
  - reflexivity.
  - repeat constructor; discriminate.
  - cbn. lia.
  - repeat constructor.
Defined.

Lemma Open_offsets_in_step_witness :
  exists info,
    result (run (fun _ => true) (Open 3 1) (Handle one_image_stream 0)) = Normal info
    /\ length (graphic_control_extension_offsets info)
       = length (image_descriptor_offsets info).
Proof.
  eexists. split.
  - vm_compute. reflexivity.
  - apply (Open_offsets_in_step (fun _ => true) 3 1 (Handle one_image_stream 0)).
    vm_compute. reflexivity.
Defined.

Lemma Open_returns_witness :
  result (run (fun _ => true) (Open 50 50) (Handle one_image_stream 0)) <> OutOfFuel.
Proof.
  apply Open_returns.
  - vm_compute. repeat constructor; discriminate.
  - vm_compute. lia.
  - vm_compute. lia.
Defined.


End GIFOpenFacts.

(** ** GetType.cpp: format detection *)
Module Registry.

(** The format identifiers the detection code and the plugins of this
    development name ([FREE_IMAGE_FORMAT] of FreeImage.h); [FIF_OTHER] stands
    for the remaining ones. *)
Inductive FREE_IMAGE_FORMAT : Type :=
| FIF_UNKNOWN
| FIF_BMP
| FIF_PCX
| FIF_TIFF
| FIF_GIF
| FIF_RAW
| FIF_OTHER (id : Z).

#[global] Instance FREE_IMAGE_FORMAT_eq_dec : EqDecision FREE_IMAGE_FORMAT.
Proof. solve_decision. Defined.

(** A registered plugin: whether it is enabled and its [validate_proc]
    (a plugin may register none). *)
Record PluginNode : Type := Node {
  m_enabled : bool;
  validate_proc : option (io_prog bool)
}.

(** The registry as [NodesCRange] walks it: identifiers paired with their
    nodes, in registration order; a slot may hold no node. *)
Definition PluginsRegistry : Type := list (FREE_IMAGE_FORMAT * option PluginNode).

Definition IsEnabled (node : PluginNode) : bool := m_enabled node.

(** Modelled from the spec: [PluginNode::Validate] (Plugin.h and Plugin.cpp
    are not under src/).  "The engine restores the original offset around
    each probe": the offset is taken, the plugin's [validate_proc] runs, and
    the offset is put back.  PluginPCX.cpp says the same of its [Validate]:
    "the entry point is stored prior to calling this function and restored
    after". *)
Definition PluginNode_Validate (node : PluginNode) : io_prog bool :=
  tell ← tell_proc;
  validated ← match validate_proc node with
              | Some validate => validate
              | None => Ret false
              end;
  _ ← seek_proc tell SEEK_SET;
  Ret validated.

Definition FindNodeFromFIF (registry : PluginsRegistry) (fif : FREE_IMAGE_FORMAT)
  : option PluginNode :=
  match list_find (fun e : FREE_IMAGE_FORMAT * option PluginNode => e.1 = fif) registry with
  | Some (_, (_, node)) => node
  | None => None
  end.

(** Modelled from the spec: [FreeImage_ValidateFIF] (Plugin.cpp is not under
    src/).  The codec is probed "if registered", with the same restoring
    probe. *)
Definition FreeImage_ValidateFIF (registry : PluginsRegistry)
    (fif : FREE_IMAGE_FORMAT) : io_prog bool :=
  match FindNodeFromFIF registry fif with
  | Some node => PluginNode_Validate node
  | None => Ret false
  end.

(** The [for] loop of [FreeImage_GetFileTypeFromHandle] over the nodes that
    are left; leaving the list without a match leaves [deducedFif] as it was
    initialised. *)
Fixpoint probe_nodes (nodes : PluginsRegistry) : io_prog FREE_IMAGE_FORMAT :=
  match nodes with
  | [] => Ret FIF_UNKNOWN
  | (fif, node) :: rest =>
      match node with
      | Some n =>
          if IsEnabled n then
            PluginNode_Validate n ≫= fun validated : bool =>
            if validated then Ret fif else probe_nodes rest
          else probe_nodes rest
      | None => probe_nodes rest
      end
  end.

(** [FreeImage_GetFileTypeFromHandle(io, handle, size)].  [handle] says
    whether the handle is non-null; the procedure is then run on it. *)
Definition FreeImage_GetFileTypeFromHandle (registry : PluginsRegistry)
    (handle : bool) (size : Z) : io_prog FREE_IMAGE_FORMAT :=
  (if handle then probe_nodes registry else Ret FIF_UNKNOWN)
    ≫= fun deducedFif : FREE_IMAGE_FORMAT =>
  if bool_decide (deducedFif = FIF_TIFF) then
    FreeImage_ValidateFIF registry FIF_RAW ≫= fun validated : bool =>
    if validated then Ret FIF_RAW else Ret deducedFif
  else Ret deducedFif.

(** The plugins of this development, as their [Init] procedures register
    them. *)
Definition BMP_Validate : io_prog bool :=
  let bmp_signature1 := [0x42; 0x4D] in
  let bmp_signature2 := [0x42; 0x41] in
  let signature0 := [0; 0] in
  '(got, _) ← read_proc 1 2;
  let signature := store signature0 got in
  if bytes_eqb bmp_signature1 signature then Ret true
  else if bytes_eqb bmp_signature2 signature then Ret true
  else Ret false.

Definition builtin_registry : PluginsRegistry :=
  [ (FIF_BMP, Some (Node true (Some BMP_Validate)));
    (FIF_PCX, Some (Node true (Some PCX.Validate)));
    (FIF_GIF, Some (Node true (Some GIF.Validate))) ].

End Registry.

(** *** Properties of format detection *)
Module RegistryFacts.
Import Registry.

Section Detection.
Variable frames : Z -> bool.

(** The answer of a node's plugin on a handle: what its [validate_proc]
    returns when run at the handle's position. *)
Definition validates (node : PluginNode) (h : fi_handle) : bool :=
  match validate_proc node with
  | Some validate => result (run frames validate h)
  | None => false
  end.

(** The first slot, in registration order, that holds an enabled node whose
    plugin validates the stream. *)
Definition first_valid (registry : PluginsRegistry) (h : fi_handle)
  : option FREE_IMAGE_FORMAT :=
  (fun r => r.2.1) <$>
    list_find (fun e : FREE_IMAGE_FORMAT * option PluginNode => match e.2 with
                        | Some n => IsEnabled n && validates n h
                        | None => false
                        end = true) registry.

(** Whether the RAW codec is registered and validates the stream. *)
Definition raw_validates (registry : PluginsRegistry) (h : fi_handle) : bool :=
  match FindNodeFromFIF registry FIF_RAW with
  | Some n => validates n h
  | None => false
  end.

Lemma do_seek_back (h h' : fi_handle) :
  content h' = content h ->
  (do_seek (Z.of_nat (position h)) SEEK_SET h').2 = h.
Proof.
  intros Hc. unfold do_seek.
  rewrite (proj2 (Z.ltb_ge _ _)) by lia.
  cbn [snd]. rewrite Hc, Z.add_0_l, Nat2Z.id. destruct h; reflexivity.
Qed.

Lemma run_PluginNode_Validate node h :
  result (run frames (PluginNode_Validate node) h) = validates node h
  /\ handle_after (run frames (PluginNode_Validate node) h) = h.
Proof.
  unfold PluginNode_Validate, validates.
  autorewrite with io_run. cbn [fst snd].
  split.
  - destruct (validate_proc node); reflexivity.
  - apply do_seek_back. apply IOFacts.content_run.
Qed.

Lemma run_FreeImage_ValidateFIF registry fif h :
  result (run frames (FreeImage_ValidateFIF registry fif) h) =
    match FindNodeFromFIF registry fif with
    | Some n => validates n h
    | None => false
    end
  /\ handle_after (run frames (FreeImage_ValidateFIF registry fif) h) = h.
Proof.
  unfold FreeImage_ValidateFIF. destruct (FindNodeFromFIF registry fif).
  - apply run_PluginNode_Validate.
  - split; reflexivity.
Qed.

Lemma run_probe_nodes registry h :
  result (run frames (probe_nodes registry) h) =
    default FIF_UNKNOWN (first_valid registry h)
  /\ handle_after (run frames (probe_nodes registry) h) = h.
Proof.
  unfold first_valid.
  induction registry as [|[fif node] rest IH]; [split; reflexivity|].
  cbn [probe_nodes list_find]. destruct node as [n|]; cbn [snd].
  - destruct (IsEnabled n) eqn:He; cbn [andb].
    + autorewrite with io_run.
      destruct (run_PluginNode_Validate n h) as [-> ->].
      destruct (validates n h) eqn:Hv.
      * rewrite decide_True by reflexivity. split; reflexivity.
      * rewrite decide_False by discriminate.
        destruct IH as [IH1 IH2]. split; [|exact IH2].
        rewrite IH1. destruct (list_find _ rest) as [[i e]|]; reflexivity.
    + rewrite decide_False by discriminate.
      destruct IH as [IH1 IH2]. split; [|exact IH2].
      rewrite IH1. destruct (list_find _ rest) as [[i e]|]; reflexivity.
  - rewrite decide_False by discriminate.
    destruct IH as [IH1 IH2]. split; [|exact IH2].
    rewrite IH1. destruct (list_find _ rest) as [[i e]|]; reflexivity.
Qed.

Lemma run_GetFileType registry size h :
  result (run frames (FreeImage_GetFileTypeFromHandle registry true size) h) =
    match first_valid registry h with
    | None => FIF_UNKNOWN
    | Some fif =>
        if bool_decide (fif = FIF_TIFF) && raw_validates registry h
        then FIF_RAW else fif
    end
  /\ handle_after
       (run frames (FreeImage_GetFileTypeFromHandle registry true size) h) = h.
Proof.
  unfold FreeImage_GetFileTypeFromHandle. autorewrite with io_run.
  destruct (run_probe_nodes registry h) as [-> ->].
  unfold raw_validates.
  destruct (first_valid registry h) as [fif|]; cbn [default from_option id].
  - destruct (bool_decide (fif = FIF_TIFF)) eqn:Ht; cbn [andb].
    + autorewrite with io_run.
      destruct (run_FreeImage_ValidateFIF registry FIF_RAW h) as [-> ->].
      destruct (FindNodeFromFIF registry FIF_RAW) as [n|].
      * destruct (validates n h); split; reflexivity.
      * split; reflexivity.
    + split; reflexivity.
  - split; reflexivity.
Qed.

End Detection.

(** C3.  Every probe the detection makes of a registered codec, the RAW
    re-probe, and [FreeImage_GetFileTypeFromHandle] as a whole leave the
    handle as they found it: the read position after the call is the read
    position before it.  The plugin's own [validate_proc] may move the
    position (any stream procedure is allowed here); the offset is restored
    around it by the engine. *)
Theorem detection_restores_position (frames : Z -> bool)
    (registry : PluginsRegistry) (node : PluginNode) (size : Z)
    (handle : bool) (h : fi_handle) :
  position (handle_after (run frames (PluginNode_Validate node) h)) = position h
  /\ position (handle_after (run frames (FreeImage_ValidateFIF registry FIF_RAW) h))
     = position h
  /\ position (handle_after
       (run frames (FreeImage_GetFileTypeFromHandle registry handle size) h))
     = position h.
Proof.
  split; [|split].
  - rewrite (proj2 (run_PluginNode_Validate frames node h)). reflexivity.
  - rewrite (proj2 (run_FreeImage_ValidateFIF frames registry FIF_RAW h)).
    reflexivity.
  - destruct handle.
    + rewrite (proj2 (run_GetFileType frames registry size h)). reflexivity.
    + reflexivity.
Qed.

(** C4.  With a null handle no stream procedure is called and the answer is
    [FIF_UNKNOWN].  Otherwise the answer is the identifier of the first slot,
    in registration order, whose node is enabled and whose plugin validates
    the stream; when that identifier is [FIF_TIFF] and the RAW codec validates
    the stream too, the answer is [FIF_RAW]; when no slot qualifies the answer
    is [FIF_UNKNOWN].  The answer is always a format identifier: there is no
    failure outcome. *)
Theorem GetFileTypeFromHandle_spec (frames : Z -> bool)
    (registry : PluginsRegistry) (size : Z) (h : fi_handle) :
  FreeImage_GetFileTypeFromHandle registry false size = Ret FIF_UNKNOWN
  /\ result (run frames (FreeImage_GetFileTypeFromHandle registry true size) h) =
       match first_valid frames registry h with
       | None => FIF_UNKNOWN
       | Some fif =>
           if bool_decide (fif = FIF_TIFF) && raw_validates frames registry h
           then FIF_RAW else fif
       end.
Proof.
  split.
  - reflexivity.
  - apply run_GetFileType.
Qed.

(** Detection at work on the registry of this development: a GIF stream read
    from offset 0, the plugin's own probe moving the position by six. *)
Example detect_gif :
  let h := Handle [0x47; 0x49; 0x46; 0x38; 0x39; 0x61; 1; 0; 1; 0] 0 in
  run (fun _ => true) (FreeImage_GetFileTypeFromHandle builtin_registry true 0) h
  = (FIF_GIF, h,
     [EvTell; EvRead 1 2; EvSeek 0 SEEK_SET;
      EvTell; EvRead 1 4; EvSeek 0 SEEK_SET;
      EvTell; EvRead 1 6; EvSeek 0 SEEK_SET])
  /\ position (handle_after (run (fun _ => true) GIF.Validate h)) = 6%nat.
Proof. split; reflexivity. Qed.

End RegistryFacts.

(** *** The signature probes of the GIF and BMP plugins *)
Module ProbeFacts.
Import Registry.

(** The bytes a probe finds at the read position. *)
Definition at_position (h : fi_handle) : list Z :=
  drop (position h) (content h).

Lemma run_signature_probe (n : nat) (k : list Z * Z -> io_prog bool)
    (frames : Z -> bool) (h : fi_handle) :
  run frames (ReadProc 1 (Z.of_nat n) k) h =
    let got := take n (at_position h) in
    let h1 := Handle (content h) (position h + length got) in
    let r := run frames (k (got, Z.of_nat (length got) / 1)) h1 in
    (r.1.1, r.1.2, EvRead 1 (Z.of_nat n) :: r.2).
Proof.
  cbn [run do_read]. rewrite Z.mul_1_l, Nat2Z.id.
  change (1 <=? 0) with false. cbv iota. unfold at_position.
  destruct (run frames _ _) as [[a h2] tr]. reflexivity.
Qed.

(** [GIF.Validate] answers [true] exactly when the six bytes at the read
    position spell GIF89a or GIF87a; a stream with fewer than six bytes left
    is answered with [false], because the bytes that were not read compare as
    zeros.  The probe moves the read position over the bytes it has read and
    leaves it there. *)
Theorem gif_validate_spec (frames : Z -> bool) (h : fi_handle) :
  (result (run frames GIF.Validate h) = true <->
     take 6 (at_position h) = [0x47; 0x49; 0x46; 0x38; 0x39; 0x61] \/
     take 6 (at_position h) = [0x47; 0x49; 0x46; 0x38; 0x37; 0x61])
  /\ position (handle_after (run frames GIF.Validate h))
     = (position h + length (take 6 (at_position h)))%nat.
Proof.
  unfold GIF.Validate, read_proc.
  change (ReadProc 1 6 Ret ≫= ?f) with (ReadProc 1 (Z.of_nat 6) (fun r => bind (Ret r) f)).
  rewrite run_signature_probe. cbv zeta. cbn [bind].
  set (got := take 6 (at_position h)).
  assert (Hlen : (length got <= 6)%nat) by (unfold got; rewrite length_take; lia).
  unfold bytes_eqb, store, result, handle_after.
  split.
  - destruct got as [|b0 [|b1 [|b2 [|b3 [|b4 [|b5 [|b6 rest]]]]]]];
      cbn [length drop app] in *; try lia;
      repeat case_bool_decide; cbn; split;
        try discriminate; try (intros [?|?]; congruence);
        intros _; try (left; congruence); right; congruence.
  - repeat case_bool_decide; reflexivity.
Qed.

(** [BMP_Validate] answers [true] exactly when the two bytes at the read
    position are "BM" or "BA"; a stream with fewer than two bytes left is
    answered with [false].  Whatever the answer, the read position has moved
    over the bytes that were read. *)
Theorem bmp_validate_spec (frames : Z -> bool) (h : fi_handle) :
  (result (run frames BMP_Validate h) = true <->
     take 2 (at_position h) = [0x42; 0x4D] \/
     take 2 (at_position h) = [0x42; 0x41])
  /\ position (handle_after (run frames BMP_Validate h))
     = (position h + length (take 2 (at_position h)))%nat.
Proof.
  unfold BMP_Validate, read_proc.
  change (ReadProc 1 2 Ret ≫= ?f) with (ReadProc 1 (Z.of_nat 2) (fun r => bind (Ret r) f)).
  rewrite run_signature_probe. cbv zeta. cbn [bind].
  set (got := take 2 (at_position h)).
  assert (Hlen : (length got <= 2)%nat) by (unfold got; rewrite length_take; lia).
  unfold bytes_eqb, store, result, handle_after.
  split.
  - destruct got as [|b0 [|b1 [|b2 rest]]];
      cbn [length drop app] in *; try lia;
      repeat case_bool_decide; cbn; split;
        try discriminate; try (intros [?|?]; congruence);
        intros _; try (left; congruence); right; congruence.
  - repeat case_bool_decide; reflexivity.
Qed.

End ProbeFacts.

(** ** PluginBMP.cpp *)
Module BMP.

Definition RLE_COMMAND : Z := 0.
Definition RLE_ENDOFLINE : Z := 0.
Definition RLE_ENDOFBITMAP : Z := 1.
Definition RLE_DELTA : Z := 2.

(** Conversions of C: to [int], to [unsigned] and to [size_t]. *)
Definition to_int (x : Z) : Z := (x + 2^31) mod 2^32 - 2^31.
Definition to_unsigned (x : Z) : Z := x mod 2^32.
Definition to_size_t (x : Z) : Z := x mod 2^64.
Definition MIN (a b : Z) : Z := if a <? b then a else b.

(** The pixel decoders only read forward, so the handle is the list of the
    bytes that are left.  [read_proc size 1]: the bytes stored (all that are
    left when fewer than [size] are), whether the item was complete, and the
    stream after the call. *)
Definition read_item (size : Z) (stream : list Z) : list Z * bool * list Z :=
  let n := Z.to_nat (Z.min size (Z.of_nat (length stream))) in
  let got := take n stream in
  (got, (0 <? size) && (Z.of_nat (length got) =? size), drop n stream).

(** One store into pixel memory: the byte offset from the start of the
    buffer, and the value. *)
Definition store_log : Type := list (Z * Z).

(** The offsets [base, base + 1, ...] paired with the values. *)
Fixpoint stores_at (base : Z) (values : list Z) : store_log :=
  match values with
  | [] => []
  | v :: rest => (base, v) :: stores_at (base + 1) rest
  end.

(** Pixel memory after the stores of a log, oldest first. *)
Definition apply_stores (log : store_log) (mem : Z -> Z) : Z -> Z :=
  fold_left (fun m s a => if a =? s.1 then s.2 else m a) log mem.

(** *** [LoadPixelDataRLE8] *)

Record rle8_vars : Type := {
  stream8 : list Z;
  scanline8 : Z;
  bits8 : Z;
  stores8 : store_log
}.

Inductive step (S : Type) : Type :=
| Continue (st : S)
| Return (ret : bool) (st : S).
Arguments Continue {S} st.
Arguments Return {S} ret st.

(** One turn of the [for (;;)] loop.  [pitch] places a scanline:
    [FreeImage_GetScanLine(dib, scanline)] is [pitch * scanline] bytes into
    the pixel memory. *)
Definition rle8_step (width height pitch : Z) (st : rle8_vars) : step rle8_vars :=
  let fail s := Return false (Build_rle8_vars s (scanline8 st) (bits8 st) (stores8 st)) in
  match stream8 st with
  | [] => fail []
  | status_byte :: s1 =>
      if status_byte =? RLE_COMMAND then
        match s1 with
        | [] => fail []
        | status_byte :: s2 =>
            if status_byte =? RLE_ENDOFLINE then
              Continue (Build_rle8_vars s2 (to_int (scanline8 st + 1)) 0 (stores8 st))
            else if status_byte =? RLE_ENDOFBITMAP then
              Return true (Build_rle8_vars s2 (scanline8 st) (bits8 st) (stores8 st))
            else if status_byte =? RLE_DELTA then
              (* read the delta values *)
              match s2 with
              | [] => fail []
              | [_] => fail []
              | delta_x :: delta_y :: s4 =>
                  Continue (Build_rle8_vars s4
                              (to_int (scanline8 st + delta_y))
                              (to_int (bits8 st + delta_x)) (stores8 st))
              end
            else
              if scanline8 st >=? Z.abs height then
                Return true (Build_rle8_vars s2 (scanline8 st) (bits8 st) (stores8 st))
              else
                let count := MIN status_byte (to_int (width - bits8 st)) in
                let sline := pitch * scanline8 st in
                let '(got, ok, s3) := read_item (to_unsigned count) s2 in
                let stores := stores8 st ++ stores_at (sline + bits8 st) got in
                if negb ok then
                  Return false (Build_rle8_vars s3 (scanline8 st) (bits8 st) stores)
                else
                  (* align run length to even number of bytes *)
                  if Z.land status_byte 1 =? 1 then
                    match s3 with
                    | [] => Return false (Build_rle8_vars [] (scanline8 st) (bits8 st) stores)
                    | _ :: s4 =>
                        Continue (Build_rle8_vars s4 (scanline8 st)
                                    (to_int (bits8 st + status_byte)) stores)
                    end
                  else
                    Continue (Build_rle8_vars s3 (scanline8 st)
                                (to_int (bits8 st + status_byte)) stores)
        end
      else
        if scanline8 st >=? Z.abs height then
          Return true (Build_rle8_vars s1 (scanline8 st) (bits8 st) (stores8 st))
        else
          let count := MIN status_byte (to_int (width - bits8 st)) in
          let sline := pitch * scanline8 st in
          match s1 with
          | [] => fail []
          | second_byte :: s2 =>
              let n := Z.to_nat count in
              Continue (Build_rle8_vars s2 (scanline8 st)
                          (to_int (bits8 st + Z.of_nat n))
                          (stores8 st
                           ++ stores_at (sline + bits8 st) (replicate n second_byte)))
          end
  end.

(** The loop, for as many turns as [fuel] allows. *)
Fixpoint rle8_loop (width height pitch : Z) (fuel : nat) (st : rle8_vars)
  : option (bool * rle8_vars) :=
  match fuel with
  | O => None
  | S fuel' =>
      match rle8_step width height pitch st with
      | Continue st' => rle8_loop width height pitch fuel' st'
      | Return ret st' => Some (ret, st')
      end
  end.

(** [LoadPixelDataRLE8(io, handle, width, height, dib)].  Every turn that
    continues takes at least two bytes off the stream, so the fuel given
    here is never used up (see [BMPFacts.LoadPixelDataRLE8_returns]). *)
Definition LoadPixelDataRLE8 (stream : list Z) (width height pitch : Z)
  : option (bool * rle8_vars) :=
  rle8_loop width height pitch (S (length stream))
    (Build_rle8_vars stream 0 0 []).


(** *** [LoadPixelDataRLE4] *)

Record rle4_vars : Type := {
  stream4 : list Z;
  status_byte4 : Z;
  second_byte4 : Z;
  bits4 : Z;
  scanline4 : Z;
  q4 : Z;                 (* [q - pixels] *)
  stores4 : store_log     (* stores into [pixels] *)
}.

(** [io->read_proc(&status_byte, sizeof(uint8_t), 1, handle)] into the [int]
    [status_byte]: the low byte is replaced. *)
Definition low_byte_set (old byte : Z) : Z := Z.lor (Z.land old (-256)) byte.

Definition nibble (i second_byte : Z) : Z :=
  if Z.land i 1 =? 0 then Z.land (Z.shiftr second_byte 4) 0x0f
  else Z.land second_byte 0x0f.

(** The stores of encoded mode: [count] nibbles of [second_byte] from [q]. *)
Fixpoint encoded_run (count : nat) (i q second_byte : Z) : store_log :=
  match count with
  | O => []
  | S count' =>
      (q, nibble i second_byte) :: encoded_run count' (i + 1) (q + 1) second_byte
  end.

(** The [for] loop of absolute mode: a byte is read before each even
    nibble.  The result is the stream and [second_byte] after the loop, the
    stores, and whether a read failed. *)
Fixpoint absolute_run (count : nat) (i q second_byte : Z) (stream : list Z)
  : list Z * Z * store_log * bool :=
  match count with
  | O => (stream, second_byte, [], true)
  | S count' =>
      if Z.land i 1 =? 0 then
        match stream with
        | [] => ([], second_byte, [], false)
        | b :: stream' =>
            let '(s, sb, log, ok) := absolute_run count' (i + 1) (q + 1) b stream' in
            (s, sb, (q, nibble i b) :: log, ok)
        end
      else
        let '(s, sb, log, ok) :=
          absolute_run count' (i + 1) (q + 1) second_byte stream in
        (s, sb, (q, nibble i second_byte) :: log, ok)
  end.

(** One turn of the decoding loop; [height] is already [abs(height)].
    [Return true] leaves the loop for the conversion to 4-bit, [Return false]
    is the [throw]. *)
Definition rle4_step (width height : Z) (st : rle4_vars) : step rle4_vars :=
  let end_ := height * width in
  let upd stream status second bits scanline q stores :=
    Build_rle4_vars stream status second bits scanline q stores in
  if negb (scanline4 st <? height) then Return true st
  else if (q4 st <? 0) || (q4 st >=? end_) then Return true st
  else
    match stream4 st with
    | [] => Return false st
    | b :: s1 =>
        let status_byte := low_byte_set (status_byte4 st) b in
        if negb (status_byte =? 0) then
          let status_byte :=
            to_int (MIN (to_size_t status_byte) (to_size_t (end_ - q4 st))) in
          (* Encoded mode *)
          match s1 with
          | [] => Return false (upd [] status_byte (second_byte4 st) (bits4 st)
                                  (scanline4 st) (q4 st) (stores4 st))
          | second_byte :: s2 =>
              let n := Z.to_nat status_byte in
              Continue (upd s2 status_byte second_byte
                          (to_int (bits4 st + status_byte)) (scanline4 st)
                          (q4 st + Z.of_nat n)
                          (stores4 st ++ encoded_run n 0 (q4 st) second_byte))
          end
        else
          (* Escape mode *)
          match s1 with
          | [] => Return false (upd [] status_byte (second_byte4 st) (bits4 st)
                                  (scanline4 st) (q4 st) (stores4 st))
          | b' :: s2 =>
              let status_byte := low_byte_set status_byte b' in
              if status_byte =? RLE_ENDOFLINE then
                Continue (upd s2 status_byte (second_byte4 st) 0
                            (scanline4 st + 1) ((scanline4 st + 1) * width)
                            (stores4 st))
              else if status_byte =? RLE_ENDOFBITMAP then
                Continue (upd s2 status_byte (second_byte4 st) (bits4 st)
                            (scanline4 st) end_ (stores4 st))
              else if status_byte =? RLE_DELTA then
                match s2 with
                | [] | [_] =>
                    Return false (upd [] status_byte (second_byte4 st) (bits4 st)
                                    (scanline4 st) (q4 st) (stores4 st))
                | delta_x :: delta_y :: s4 =>
                    let bits := to_int (bits4 st + delta_x) in
                    let scanline := scanline4 st + delta_y in
                    Continue (upd s4 status_byte (second_byte4 st) bits scanline
                                (scanline * width + bits) (stores4 st))
                end
              else
                (* Absolute mode *)
                let status_byte :=
                  to_int (MIN (to_size_t status_byte) (to_size_t (end_ - q4 st))) in
                let n := Z.to_nat status_byte in
                let '(s3, second_byte, log, ok) :=
                  absolute_run n 0 (q4 st) (second_byte4 st) s2 in
                let st' := upd s3 status_byte second_byte
                             (to_int (bits4 st + status_byte)) (scanline4 st)
                             (q4 st + Z.of_nat (length log)) (stores4 st ++ log) in
                if negb ok then Return false st'
                else
                  (* Read pad byte *)
                  if (Z.land status_byte 0x03 =? 1) || (Z.land status_byte 0x03 =? 2)
                  then
                    match s3 with
                    | [] => Return false st'
                    | _ :: s4 =>
                        Continue (upd s4 status_byte second_byte
                                    (to_int (bits4 st + status_byte)) (scanline4 st)
                                    (q4 st + Z.of_nat (length log)) (stores4 st ++ log))
                    end
                  else Continue st'
          end
    end.

Fixpoint rle4_loop (width height : Z) (fuel : nat) (st : rle4_vars)
  : option (bool * rle4_vars) :=
  match fuel with
  | O => None
  | S fuel' =>
      match rle4_step width height st with
      | Continue st' => rle4_loop width height fuel' st'
      | Return ret st' => Some (ret, st')
      end
  end.

(** "Convert to 4-bit": the stores into the rows of the dib, two pixels to a
    byte, from the pixel array [src]. *)
Definition convert_row (pitch width y : Z) (src : Z -> Z) : store_log :=
  map (fun c : nat =>
         let cols := Z.of_nat c in
         let dst := pitch * y + Z.shiftr cols 1 in
         if Z.land cols 1 =? 0
         then (dst, (src (y * width + cols) * 16) mod 256)
         else (dst, Z.lor ((src (y * width + cols - 1) * 16) mod 256)
                          (src (y * width + cols))))
      (seq 0 (Z.to_nat width)).

Definition convert_to_4bit (pitch width height : Z) (src : Z -> Z) : store_log :=
  flat_map (fun y : nat => convert_row pitch width (Z.of_nat y) src)
           (seq 0 (Z.to_nat height)).

(** [LoadPixelDataRLE4(io, handle, width, height, dib)]: the return value,
    the stores into the [calloc]ed pixel array and the stores into the dib
    (none when the decoding threw). *)
Definition LoadPixelDataRLE4 (stream : list Z) (width height pitch : Z)
  : option (bool * store_log * store_log) :=
  let height := Z.abs height in
  match rle4_loop width height (S (length stream))
          (Build_rle4_vars stream 0 0 0 0 0 []) with
  | None => None
  | Some (false, st) => Some (false, stores4 st, [])
  | Some (true, st) =>
      let pixels := apply_stores (stores4 st) (fun _ => 0) in
      Some (true, stores4 st, convert_to_4bit pitch width height pixels)
  end.


(** *** [RLEEncodeLine] *)

(** [source[i]]. *)
Definition src (source : list Z) (i : Z) : Z := nth (Z.to_nat i) source 0.

(** The literal pool [buffer[0 .. buffer_size)] is a list; the target is the
    list [target[0 .. target_pos)].  A position the encoder steps over
    without storing keeps what the target array held: [stale] is the array
    before the call. *)
Definition write_pool (stale : Z -> Z) (buffer target : list Z) : list Z :=
  match buffer with
  | [] => target                                        (* case 0 *)
  | [b0; b1] => target ++ [1; b0; 1; b1]                (* case RLE_DELTA *)
  | [b0] => target ++ [Z.of_nat (length buffer); b0]    (* case RLE_ENDOFBITMAP *)
  | _ =>
      let target1 := target ++ [RLE_COMMAND; Z.of_nat (length buffer)] ++ buffer in
      if Z.land (Z.of_nat (length buffer)) 1 =? 1
      then target1 ++ [stale (Z.of_nat (length target1))]
      else target1
  end.

(** "write the buffer if it's full". *)
Definition write_full (buffer target : list Z) : list Z * list Z :=
  if Z.of_nat (length buffer) =? 254
  then ([], target ++ [RLE_COMMAND; Z.of_nat (length buffer)] ++ buffer)
  else (buffer, target).

(** [while ((j < size - 1) && (j < jmax) && (source[j] == source[j + 1])) ++j;] *)
Fixpoint find_block (fuel : nat) (source : list Z) (size j jmax : Z) : Z :=
  match fuel with
  | O => j
  | S fuel' =>
      if (j <? size - 1) && (j <? jmax) && (src source j =? src source (j + 1))
      then find_block fuel' source size (j + 1) jmax
      else j
  end.

(** [for (k = 0; k < (j - i) + 1; ++k)]: the short block goes to the pool. *)
Fixpoint pool_block (count : nat) (source : list Z) (i k : Z)
    (buffer target : list Z) : list Z * list Z :=
  match count with
  | O => (buffer, target)
  | S count' =>
      let '(buffer1, target1) := write_full (buffer ++ [src source (i + k)]) target in
      pool_block count' source i (k + 1) buffer1 target1
  end.

(** The [for (i = 0; i < size; ++i)] loop. *)
Fixpoint encode_from (fuel : nat) (stale : Z -> Z) (source : list Z) (size i : Z)
    (buffer target : list Z) : list Z * list Z :=
  match fuel with
  | O => (buffer, target)
  | S fuel' =>
      if i <? size then
        let '(i1, buffer1, target1) :=
          if (i <? size - 1) && (src source i =? src source (i + 1)) then
            (* find a solid block of same bytes *)
            let j := find_block (Z.to_nat size) source size (i + 1) (254 + i) in
            if (j - i) + 1 >? 3 then
              (j, [], write_pool stale buffer target ++ [(j - i) + 1; src source i])
            else
              let '(b, t) := pool_block (Z.to_nat ((j - i) + 1)) source i 0
                               buffer target in
              (j, b, t)
          else (i, buffer ++ [src source i], target) in
        let '(buffer2, target2) := write_full buffer1 target1 in
        encode_from fuel' stale source size (i1 + 1) buffer2 target2
      else (buffer, target)
  end.

(** [RLEEncodeLine(target, source, size)]: the bytes [target[0 .. result)]. *)
Definition RLEEncodeLine (stale : Z -> Z) (source : list Z) (size : Z) : list Z :=
  let '(buffer, target) := encode_from (Z.to_nat size) stale source size 0 [] [] in
  (* write the last bytes, then the END_OF_LINE marker *)
  write_pool stale buffer target ++ [RLE_COMMAND; RLE_ENDOFLINE].

(** The array after [target[0 .. length written)] was written. *)
Definition overwrite (stale : Z -> Z) (written : list Z) : Z -> Z :=
  fun p => if (0 <=? p) && (p <? Z.of_nat (length written))
           then nth (Z.to_nat p) written 0 else stale p.

(** Modelled from the spec: the row geometry of the raster buffer, "row
    stride (pitch), rounded up to a fixed byte alignment"; [CalculateLine]
    and [CalculatePitch] are declared in Utilities.h, which is not under
    src/. *)
Definition CalculateLine (width bitdepth : Z) : Z := (width * bitdepth + 7) / 8.
Definition CalculatePitch (line : Z) : Z := Z.land (line + 3) (-4).

(** The RLE branch of [Save]: the rows as [FreeImage_GetScanLine(dib, i)]
    gives them, each a list of [FreeImage_GetLine(dib)] bytes, are encoded
    one after the other through the same (zero-initialised) buffer, and the
    end-of-bitmap marker follows. *)
Fixpoint save_rle_rows (buffer : Z -> Z) (rows : list (list Z)) : list Z :=
  match rows with
  | [] => [RLE_COMMAND; RLE_ENDOFBITMAP]
  | row :: rest =>
      let written := RLEEncodeLine buffer row (Z.of_nat (length row)) in
      written ++ save_rle_rows (overwrite buffer written) rest
  end.

(** [Save] reaches that branch only under
    [(dst_bpp == 8) && ((flags & BMP_SAVE_RLE) == BMP_SAVE_RLE)]; [None] is
    every other branch, where the pixels are written as they are. *)
Definition Save_rle (dst_bpp : Z) (rle_flag : bool) (rows : list (list Z))
  : option (list Z) :=
  if (dst_bpp =? 8) && rle_flag then Some (save_rle_rows (fun _ => 0) rows)
  else None.

(** *** The palette of [LoadOS22XBMP] *)

(** Modelled from the spec: "optional indexed-color palette (ordered sequence
    of RGB[A] entries, size <= 2^bpp)"; [CalculateUsedPaletteEntries] is
    declared in Utilities.h, which is not under src/. *)
Definition CalculateUsedPaletteEntries (bit_count : Z) : Z :=
  if (1 <=? bit_count) && (bit_count <=? 8) then Z.shiftl 1 bit_count else 0.

(** A palette entry of the dib ([FIRGBA8]). *)
Record FIRGBA8 : Type := {
  red : Z; green : Z; blue : Z; alpha : Z
}.

(** [sizeof(BITMAPFILEHEADER)], packed. *)
Definition sizeof_BITMAPFILEHEADER : Z := 14.

(** The fields of [FILE_BGRA] and [FILE_BGR] (Utilities.h, not under src/)
    lie in the order their names spell: b, g, r and, for [FILE_BGRA], a. *)
Definition pal_store (entry : list Z) (old : FIRGBA8) : FIRGBA8 :=
  {| red := nth 2 entry 0; green := nth 1 entry 0; blue := nth 0 entry 0;
     alpha := alpha old |}.

(** The two palette loops: [used_colors - count] entries of [entry_size]
    bytes are read; [uninit count] is what the local [bgra] / [bgr] holds
    before the read of entry [count] (it shows through after a short
    read). *)
Fixpoint read_palette (n : nat) (entry_size count : Z) (uninit : Z -> list Z)
    (pal : list FIRGBA8) : io_prog (list FIRGBA8) :=
  match n with
  | O => Ret pal
  | S n' =>
      '(got, _) ← read_proc entry_size 1;
      let entry := store (uninit count) got in
      read_palette n' entry_size (count + 1) uninit
        (alter (pal_store entry) (Z.to_nat count) pal)
  end.

(** The part of [LoadOS22XBMP] between the allocation of a 1-, 4- or 8-bit
    dib and the [header_only] test: "load the palette; note that it may
    contain RGB or RGBA values : we will calculate this".  [pal] is the
    palette of the freshly allocated dib. *)
Definition LoadOS22XBMP_palette (biSize biClrUsed bit_count bitmap_bits_offset : Z)
    (uninit : Z -> list Z) (pal : list FIRGBA8) : io_prog (list FIRGBA8) :=
  let used_colors :=
    if (biClrUsed =? 0) || (biClrUsed >? CalculateUsedPaletteEntries bit_count)
    then CalculateUsedPaletteEntries bit_count else biClrUsed in
  let pal_size :=
    to_unsigned
      (to_size_t (bitmap_bits_offset - sizeof_BITMAPFILEHEADER - biSize)
       / used_colors) in
  _ ← seek_proc (sizeof_BITMAPFILEHEADER + biSize) SEEK_SET;
  if pal_size =? 4 then
    read_palette (Z.to_nat used_colors) 4 0 uninit pal
  else if pal_size =? 3 then
    read_palette (Z.to_nat used_colors) 3 0 uninit pal
  else Ret pal.

End BMP.

(** *** Properties of the BMP plugin *)
Module BMPFacts.
Import BMP.

(** **** The OS/2 2.x palette *)

Section OS22Palette.
Variable frames : Z -> bool.
Variable bytes : list Z.
Variable uninit : Z -> list Z.

(** The dib palette entry made from the file entry at [off]: the bytes are
    blue, green, red, in that order; the alpha of the dib entry stays. *)
Definition entry_at (off : Z) (old : FIRGBA8) : FIRGBA8 :=
  {| red := byte_at bytes (off + 2);
     green := byte_at bytes (off + 1);
     blue := byte_at bytes off;
     alpha := alpha old |}.

Lemma run_read_entry entry_size off count old :
  entry_size = 3 \/ entry_size = 4 ->
  0 <= off -> off + entry_size <= Z.of_nat (length bytes) ->
  (do_read entry_size 1 (Handle bytes (Z.to_nat off))).2
    = Handle bytes (Z.to_nat (off + entry_size))
  /\ pal_store (store (uninit count)
                  (do_read entry_size 1 (Handle bytes (Z.to_nat off))).1.1) old
     = entry_at off old.
Proof.
  intros Hes H0 H1. unfold do_read. cbn [content position fst snd].
  unfold entry_at, pal_store, byte_at.
  replace (Z.to_nat (off + 2)) with (S (S (Z.to_nat off))) by lia.
  replace (Z.to_nat (off + 1)) with (S (Z.to_nat off)) by lia.
  rewrite (IOFacts.drop_nth_cons bytes (Z.to_nat off) 0) by lia.
  rewrite (IOFacts.drop_nth_cons bytes (S (Z.to_nat off)) 0) by lia.
  rewrite (IOFacts.drop_nth_cons bytes (S (S (Z.to_nat off))) 0) by lia.
  destruct Hes as [-> | ->].
  - change (Z.to_nat (3 * 1)) with 3%nat. cbn [take length]. rewrite take_0.
    split; [f_equal; cbn; lia|]. reflexivity.
  - rewrite (IOFacts.drop_nth_cons bytes (S (S (S (Z.to_nat off)))) 0) by lia.
    change (Z.to_nat (4 * 1)) with 4%nat. cbn [take length]. rewrite take_0.
    split; [f_equal; cbn; lia|]. reflexivity.
Qed.

Lemma read_palette_run entry_size n count pal off :
  entry_size = 3 \/ entry_size = 4 ->
  0 <= off -> off + entry_size * Z.of_nat n <= Z.of_nat (length bytes) ->
  0 <= count ->
  forall i : nat,
    result (run frames (read_palette n entry_size count uninit pal)
              (Handle bytes (Z.to_nat off))) !! i
    = if decide (count <= Z.of_nat i < count + Z.of_nat n)
      then entry_at (off + entry_size * (Z.of_nat i - count)) <$> (pal !! i)
      else pal !! i.
Proof.
  intros Hes. revert count pal off.
  induction n as [|n IH]; intros count pal off H0 H1 Hc i.
  - cbn. rewrite decide_False by lia. reflexivity.
  - cbn [read_palette]. rewrite IOFacts.run_bind, IOFacts.run_read_proc.
    cbn zeta. cbn [result handle_after fst snd].
    destruct (run_read_entry entry_size off count) with (old := {| red := 0; green := 0; blue := 0; alpha := 0 |})
      as [Hh _]; [exact Hes|lia|lia|].
    destruct (do_read entry_size 1 (Handle bytes (Z.to_nat off))) as [[got items] h'] eqn:Hr.
    cbn [fst snd] in *. subst h'.
    rewrite IH by lia.
    destruct (decide (Z.of_nat i = count)) as [Hi|Hi].
    + rewrite decide_False by lia. rewrite decide_True by lia.
      replace (Z.to_nat count) with i by lia.
      rewrite list_lookup_alter_eq.
      destruct (pal !! i) as [old|]; [|reflexivity]. cbn [fmap option_fmap option_map].
      f_equal.
      destruct (run_read_entry entry_size off count old) as [_ He];
        [exact Hes|lia|lia|].
      rewrite Hr in He. cbn [fst snd] in He. rewrite He.
      rewrite Hi, Z.sub_diag, Z.mul_0_r, Z.add_0_r. reflexivity.
    + rewrite list_lookup_alter_ne by lia.
      destruct (decide (count + 1 <= Z.of_nat i < count + 1 + Z.of_nat n)).
      * rewrite decide_True by lia. do 2 f_equal. ring.
      * rewrite decide_False by lia. reflexivity.
Qed.


(** [used_colors] as [LoadOS22XBMP] settles it. *)
Definition used_colors (biClrUsed bit_count : Z) : Z :=
  if (biClrUsed =? 0) || (biClrUsed >? CalculateUsedPaletteEntries bit_count)
  then CalculateUsedPaletteEntries bit_count else biClrUsed.

Lemma used_colors_pos biClrUsed bit_count :
  bit_count = 1 \/ bit_count = 4 \/ bit_count = 8 -> 0 <= biClrUsed ->
  1 <= used_colors biClrUsed bit_count <= 256.
Proof.
  intros Hb Hc. unfold used_colors.
  assert (CalculateUsedPaletteEntries bit_count = 2
          \/ CalculateUsedPaletteEntries bit_count = 16
          \/ CalculateUsedPaletteEntries bit_count = 256) as Hcupe
    by (destruct Hb as [->|[->| ->]]; cbn; tauto).
  destruct (Z.eqb_spec biClrUsed 0); cbn [orb]; [lia|].
  destruct (Z.gtb_spec biClrUsed (CalculateUsedPaletteEntries bit_count)); lia.
Qed.

Lemma LoadOS22XBMP_palette_run biSize biClrUsed bit_count entry_size pal pos :
  bit_count = 1 \/ bit_count = 4 \/ bit_count = 8 -> 0 <= biClrUsed ->
  entry_size = 3 \/ entry_size = 4 -> 0 <= biSize ->
  let N := used_colors biClrUsed bit_count in
  let base := sizeof_BITMAPFILEHEADER + biSize in
  base + entry_size * N <= Z.of_nat (length bytes) ->
  base + entry_size * N < 2^32 ->
  forall i : nat, Z.of_nat i < N ->
    result (run frames
              (LoadOS22XBMP_palette biSize biClrUsed bit_count
                 (base + entry_size * N) uninit pal) (Handle bytes pos)) !! i
    = entry_at (base + entry_size * Z.of_nat i) <$> (pal !! i).
Proof.
  intros Hb Hc Hes Hs N base Hlen Hoff i Hi.
  pose proof (used_colors_pos biClrUsed bit_count Hb Hc) as HN. fold N in HN.
  unfold LoadOS22XBMP_palette. fold (used_colors biClrUsed bit_count). fold N.
  replace (base + entry_size * N - sizeof_BITMAPFILEHEADER - biSize)
    with (entry_size * N) by (unfold base; ring).
  assert (to_unsigned (to_size_t (entry_size * N) / N) = entry_size) as ->.
  { unfold to_unsigned, to_size_t.
    rewrite (Z.mod_small (entry_size * N)) by (unfold base, sizeof_BITMAPFILEHEADER in Hoff; lia).
    rewrite Z.div_mul by lia. apply Z.mod_small. lia. }
  rewrite IOFacts.run_bind. unfold seek_proc. rewrite IOFacts.run_SeekProc.
  cbn zeta. cbn [run result handle_after calls fst snd].
  unfold do_seek. fold base.
  rewrite (proj2 (Z.ltb_ge (0 + base) 0)) by (unfold base, sizeof_BITMAPFILEHEADER; lia).
  cbn [fst snd content]. rewrite Z.add_0_l.
  assert (forall es, es = entry_size ->
    result (run frames (read_palette (Z.to_nat N) es 0 uninit pal)
              (Handle bytes (Z.to_nat base))) !! i
    = entry_at (base + entry_size * Z.of_nat i) <$> pal !! i) as Hrun.
  { intros es ->. rewrite read_palette_run; try lia.
    - rewrite decide_True by lia. rewrite Z.sub_0_r. reflexivity.
    - unfold base, sizeof_BITMAPFILEHEADER. lia. }
  destruct Hes as [-> | ->]; cbn [Z.eqb Pos.eqb]; apply Hrun; reflexivity.
Qed.

End OS22Palette.

(** C8 (amended).  For a palettized OS/2 2.x bitmap the entry layout follows
    from the size of the palette region divided by the entry count [N]: a
    region of exactly [N * 3] bytes is read as [N] entries of three bytes and
    a region of exactly [N * 4] bytes as [N] entries of four bytes; in both
    layouts entry [i] of the dib palette receives the blue, green and red
    bytes of entry [i] of the file.  The fourth byte of a four-byte entry is
    read and not stored: the alpha of the dib entry is what it was. *)
Theorem os22_palette_entry_size (frames : Z -> bool) (bytes : list Z)
    (uninit : Z -> list Z) (biSize biClrUsed bit_count entry_size : Z)
    (pal : list FIRGBA8) (pos : nat) :
  bit_count = 1 \/ bit_count = 4 \/ bit_count = 8 -> 0 <= biClrUsed ->
  entry_size = 3 \/ entry_size = 4 -> 0 <= biSize ->
  let N := used_colors biClrUsed bit_count in
  let base := sizeof_BITMAPFILEHEADER + biSize in
  base + entry_size * N <= Z.of_nat (length bytes) ->
  base + entry_size * N < 2^32 ->
  forall i : nat, Z.of_nat i < N ->
    result (run frames
              (LoadOS22XBMP_palette biSize biClrUsed bit_count
                 (base + entry_size * N) uninit pal) (Handle bytes pos)) !! i
    = (fun old =>
         {| red := byte_at bytes (base + entry_size * Z.of_nat i + 2);
            green := byte_at bytes (base + entry_size * Z.of_nat i + 1);
            blue := byte_at bytes (base + entry_size * Z.of_nat i);
            alpha := alpha old |}) <$> (pal !! i).
Proof.
  intros Hb Hc Hes Hs N base Hlen Hoff i Hi.
  apply LoadOS22XBMP_palette_run; assumption.
Qed.

(** A 1-bit OS/2 2.x bitmap whose two palette entries take [entry_size]
    bytes each: the file header, the 64 bytes of the info header, then the
    palette region. *)
Definition os22_prefix : list Z :=
  [0x42; 0x4D] ++ replicate 12 0 ++ [64; 0; 0; 0] ++ replicate 60 0.

Definition os22_rgb : list Z := os22_prefix ++ [10; 20; 30; 40; 50; 60].
Definition os22_rgba : list Z := os22_prefix ++ [10; 20; 30; 255; 40; 50; 60; 255].

Definition black : FIRGBA8 := {| red := 0; green := 0; blue := 0; alpha := 0 |}.

(** The theorem at work on the three-byte layout. *)
Lemma os22_palette_entry_size_witness :
  result (run (fun _ => true)
            (LoadOS22XBMP_palette 64 0 1 (14 + 64 + 3 * 2) (fun _ => [])
               [black; black]) (Handle os22_rgb 54)) !! 1%nat
  = Some {| red := 60; green := 50; blue := 40; alpha := 0 |}.
Proof.
  exact (os22_palette_entry_size (fun _ => true) os22_rgb (fun _ => []) 64 0 1 3
           [black; black] 54
           (or_introl eq_refl) ltac:(lia) (or_introl eq_refl) ltac:(lia)
           ltac:(vm_compute; discriminate) ltac:(vm_compute; reflexivity)
           1%nat ltac:(vm_compute; reflexivity)).
Defined.

(** C8 as stated fails on the four-byte layout: the alpha byte of the file
    entry (255 here) is not what the decoded palette entry carries. *)
Lemma os22_palette_drops_alpha :
  alpha <$> (result (run (fun _ => true)
                       (LoadOS22XBMP_palette 64 0 1 (14 + 64 + 4 * 2) (fun _ => [])
                          [black; black]) (Handle os22_rgba 54)) !! 0%nat)
  <> Some (byte_at os22_rgba (14 + 64 + 3)).
Proof. vm_compute. discriminate. Qed.


(** **** The RLE decoders and the destination *)

(** An offset into the dib that lies in the pixel area: in a row below
    [abs(height)], at a byte below [width]. *)
Definition in_pixel_area (width height pitch a : Z) : Prop :=
  exists y x, 0 <= y < Z.abs height /\ 0 <= x < width /\ a = pitch * y + x.

(** C5 fails for the 8-bit decoder.  On a 2 x 1 dib (pitch 4) the stream
    below first declares an absolute run of 4: two bytes are stored (the
    count is clamped to the row) but [bits] advances by 4.  The next absolute
    run of 3 then computes [count = MIN(3, 2 - 4) = -2], asks [read_proc] for
    [(unsigned)-2] bytes at [sline + 4], and the three bytes that are left in
    the stream are stored at offsets 4, 5 and 6: past the row, and past the
    four bytes of the whole pixel buffer. *)
Theorem rle8_absolute_run_overruns :
  let stream := [0; 4; 10; 11; 0; 3; 20; 21; 22] in
  let width := 2 in let height := 1 in let pitch := 4 in
  exists st,
    LoadPixelDataRLE8 stream width height pitch = Some (false, st)
    /\ stores8 st = [(0, 10); (1, 11); (4, 20); (5, 21); (6, 22)]
    /\ ~ in_pixel_area width height pitch 4
    /\ pitch * Z.abs height <= 4.
Proof.
  cbv zeta. eexists. split; [vm_compute; reflexivity|].
  split; [reflexivity|]. split; [|vm_compute; discriminate].
  intros (y & x & Hy & Hx & Ha). cbn in Hy. lia.
Qed.


Lemma rle8_step_consumes width height pitch st st' :
  rle8_step width height pitch st = Continue st' ->
  (length (stream8 st') < length (stream8 st))%nat.
Proof.
  unfold rle8_step, read_item.
  repeat (case_match; try discriminate); intros [= <-]; simplify_eq;
    cbn [stream8 length]; rewrite ?length_drop;
    try match goal with
        | H : drop _ _ = _ |- _ =>
            apply (f_equal length) in H; rewrite length_drop in H; cbn in H
        end; lia.
Qed.

Lemma rle8_loop_returns width height pitch fuel st :
  (length (stream8 st) < fuel)%nat ->
  is_Some (rle8_loop width height pitch fuel st).
Proof.
  revert st. induction fuel as [|fuel IH]; intros st Hf; [lia|].
  cbn [rle8_loop]. destruct (rle8_step width height pitch st) as [st'|ret st'] eqn:Hs.
  - apply IH. apply rle8_step_consumes in Hs. lia.
  - eexists. reflexivity.
Qed.

(** The 8-bit decoder always returns. *)
Lemma LoadPixelDataRLE8_returns stream width height pitch :
  is_Some (LoadPixelDataRLE8 stream width height pitch).
Proof. apply rle8_loop_returns. cbn. lia. Qed.


Lemma to_int_le x : 0 <= x -> to_int x <= x.
Proof.
  intros H. unfold to_int.
  destruct (Z.lt_ge_cases x (2^31)).
  - rewrite Z.mod_small by lia. lia.
  - pose proof (Z.mod_pos_bound (x + 2^31) (2^32) ltac:(lia)). lia.
Qed.

Lemma clamp_le status room :
  0 < room -> to_int (MIN (to_size_t status) (to_size_t room)) <= room.
Proof.
  intros H. unfold MIN, to_size_t.
  pose proof (Z.mod_pos_bound status (2^64) ltac:(lia)).
  pose proof (Z.mod_pos_bound room (2^64) ltac:(lia)).
  pose proof (Z.mod_le room (2^64) ltac:(lia) ltac:(lia)).
  case_match.
  - etransitivity; [apply to_int_le; lia|]. lia.
  - etransitivity; [apply to_int_le; lia|]. lia.
Qed.

Lemma encoded_run_stores count i q second_byte a v :
  (a, v) ∈ encoded_run count i q second_byte -> q <= a < q + Z.of_nat count.
Proof.
  revert i q. induction count as [|count IH]; intros i q H; cbn in H.
  - inversion H.
  - apply elem_of_cons in H as [[= -> _]|H]; [lia|]. apply IH in H. lia.
Qed.

Lemma absolute_run_stores count i q second_byte stream s sb log ok :
  absolute_run count i q second_byte stream = (s, sb, log, ok) ->
  (length s <= length stream)%nat
  /\ (length log <= count)%nat
  /\ forall a v, (a, v) ∈ log -> q <= a < q + Z.of_nat count.
Proof.
  revert i q second_byte stream s sb log ok.
  induction count as [|count IH]; intros i q second_byte stream s sb log ok H;
    cbn in H.
  - injection H as <- <- <- <-. split; [lia|]. split; [cbn; lia|].
    intros a v Hin. inversion Hin.
  - destruct (Z.land i 1 =? 0).
    + destruct stream as [|b stream'].
      * injection H as <- <- <- <-. split; [cbn; lia|]. split; [cbn; lia|].
        intros a v Hin. inversion Hin.
      * destruct (absolute_run count (i + 1) (q + 1) b stream')
          as [[[s1 sb1] log1] ok1] eqn:Hr.
        injection H as <- <- <- <-. apply IH in Hr as (H1 & H2 & H3).
        split; [cbn; lia|]. split; [cbn; lia|].
        intros a v [[= -> _]|Hin]%elem_of_cons; [lia|]. apply H3 in Hin. lia.
    + destruct (absolute_run count (i + 1) (q + 1) second_byte stream)
        as [[[s1 sb1] log1] ok1] eqn:Hr.
      injection H as <- <- <- <-. apply IH in Hr as (H1 & H2 & H3).
      split; [cbn; lia|]. split; [cbn; lia|].
      intros a v [[= -> _]|Hin]%elem_of_cons; [lia|]. apply H3 in Hin. lia.
Qed.

(** Every store of the 4-bit decoding loop lies inside the [width * height]
    pixel array. *)
Definition stores_in_array (width height : Z) (log : store_log) : Prop :=
  forall a v, (a, v) ∈ log -> 0 <= a < height * width.

Definition state_of {S} (s : step S) : S :=
  match s with Continue st | Return _ st => st end.

Definition continues {S} (s : step S) : bool :=
  match s with Continue _ => true | Return _ _ => false end.

Lemma rle4_step_stores width height st :
  stores_in_array width height (stores4 st) ->
  let s := rle4_step width height st in
  stores_in_array width height (stores4 (state_of s))
  /\ (continues s = true ->
      (length (stream4 (state_of s)) < length (stream4 st))%nat).
Proof.
  intros Hinv. cbn zeta. unfold rle4_step.
  destruct (scanline4 st <? height); cbn [negb];
    [|split; [exact Hinv|discriminate]].
  destruct (Z.ltb_spec (q4 st) 0); cbn [orb]; [split; [exact Hinv|discriminate]|].
  destruct (Z.geb_spec (q4 st) (height * width));
    [split; [exact Hinv|discriminate]|].
  pose proof (fun s => clamp_le s (height * width - q4 st) ltac:(lia)) as Hclamp.
  assert (forall log, (forall a v, (a, v) ∈ log ->
                         q4 st <= a < height * width) ->
            stores_in_array width height (stores4 st ++ log)) as Happ.
  { intros log Hlog a v [Hin|Hin]%elem_of_app; [apply (Hinv a v Hin)|].
    apply Hlog in Hin. lia. }
  destruct (stream4 st) as [|b s1] eqn:Hs; [split; [exact Hinv|discriminate]|].
  destruct (negb (low_byte_set (status_byte4 st) b =? 0)).
  - destruct s1 as [|second_byte s2]; cbn [state_of continues stream4 stores4 length].
    + split; [exact Hinv|discriminate].
    + split; [|lia].
      apply Happ. intros a v Hin. apply encoded_run_stores in Hin.
      specialize (Hclamp (low_byte_set (status_byte4 st) b)). lia.
  - destruct s1 as [|b' s2]; cbn [state_of continues stream4 stores4 length].
    + split; [exact Hinv|discriminate].
    + repeat (case_match; cbn [state_of continues stream4 stores4 length]);
        try (split; [exact Hinv|try discriminate; intros _; cbn [length]; lia]).
      all: match goal with
           | H : absolute_run _ _ _ _ _ = _ |- _ =>
               apply absolute_run_stores in H as (Hs' & Hl & Hst)
           end.
      all: specialize (Hclamp (low_byte_set (low_byte_set (status_byte4 st) b) b')).
      all: split; [apply Happ; intros a v Hin; apply Hst in Hin; lia
                  |try discriminate; intros _; cbn [length] in *; lia].
Qed.

Lemma rle4_loop_stores width height fuel st ret st' :
  stores_in_array width height (stores4 st) ->
  rle4_loop width height fuel st = Some (ret, st') ->
  stores_in_array width height (stores4 st').
Proof.
  revert st. induction fuel as [|fuel IH]; intros st Hinv H; [discriminate|].
  cbn [rle4_loop] in H.
  pose proof (rle4_step_stores width height st Hinv) as [Hstep _].
  destruct (rle4_step width height st) as [st1|r st1]; cbn [state_of] in Hstep.
  - apply (IH st1); [apply Hstep|exact H].
  - injection H as <- <-. apply Hstep.
Qed.

Lemma rle4_loop_returns width height fuel st :
  stores_in_array width height (stores4 st) ->
  (length (stream4 st) < fuel)%nat ->
  is_Some (rle4_loop width height fuel st).
Proof.
  revert st. induction fuel as [|fuel IH]; intros st Hinv Hf; [lia|].
  cbn [rle4_loop].
  pose proof (rle4_step_stores width height st Hinv) as [Hstep Hlt].
  destruct (rle4_step width height st) as [st1|r st1];
    cbn [state_of continues] in *.
  - apply IH; [apply Hstep|]. specialize (Hlt eq_refl). lia.
  - eexists. reflexivity.
Qed.

Lemma convert_to_4bit_stores pitch width height pixels a v :
  (a, v) ∈ convert_to_4bit pitch width height pixels ->
  exists y c, 0 <= y < height /\ 0 <= c < (width + 1) / 2 /\ a = pitch * y + c.
Proof.
  unfold convert_to_4bit, convert_row.
  intros (y & Hy & Hin)%list_elem_of_In%in_flat_map.
  apply in_seq in Hy. apply in_map_iff in Hin as (c & Heq & Hc).
  apply in_seq in Hc.
  exists (Z.of_nat y), (Z.shiftr (Z.of_nat c) 1).
  rewrite Z.shiftr_div_pow2 by lia. change (2 ^ 1) with 2.
  split; [lia|]. split.
  - split; [apply Z.div_pos; lia|].
    apply Z.div_lt_upper_bound; [lia|].
    pose proof (Z.mul_div_le (width + 1) 2 ltac:(lia)).
    pose proof (Z.mod_pos_bound (width + 1) 2 ltac:(lia)).
    pose proof (Z.div_mod (width + 1) 2 ltac:(lia)). lia.
  - destruct (Z.land (Z.of_nat c) 1 =? 0); injection Heq as <- _;
      rewrite Z.shiftr_div_pow2 by lia; reflexivity.
Qed.


End BMPFacts.

(** *** The RLE8 round trip *)
Module RLE8RoundTrip.
Import BMP.

(** [k] turns of the decoding loop that all continue. *)
Fixpoint rle8_steps (width height pitch : Z) (k : nat) (st : rle8_vars)
  : option rle8_vars :=
  match k with
  | O => Some st
  | S k' =>
      match rle8_step width height pitch st with
      | Continue st' => rle8_steps width height pitch k' st'
      | Return _ _ => None
      end
  end.

Lemma rle8_steps_app width height pitch k1 k2 st st1 :
  rle8_steps width height pitch k1 st = Some st1 ->
  rle8_steps width height pitch (k1 + k2) st = rle8_steps width height pitch k2 st1.
Proof.
  revert st. induction k1 as [|k1 IH]; intros st H; cbn in *.
  - injection H as ->. reflexivity.
  - destruct (rle8_step width height pitch st); [|discriminate]. apply IH, H.
Qed.

Lemma rle8_loop_steps width height pitch k fuel st st1 :
  rle8_steps width height pitch k st = Some st1 ->
  rle8_loop width height pitch (k + fuel) st = rle8_loop width height pitch fuel st1.
Proof.
  revert st. induction k as [|k IH]; intros st H; cbn in *.
  - injection H as ->. reflexivity.
  - destruct (rle8_step width height pitch st); [|discriminate]. apply IH, H.
Qed.

Section Decoder.
Variables width height pitch : Z.
Hypothesis width_int : 0 <= width < 2^31.

Lemma to_int_small x : -2^31 <= x < 2^31 -> to_int x = x.
Proof. intros H. unfold to_int. rewrite Z.mod_small by lia. lia. Qed.

Lemma MIN_l a b : a <= b -> MIN a b = a.
Proof. intros H. unfold MIN. destruct (Z.ltb_spec a b); lia. Qed.

(** An encoded run [count, value] that fits the row. *)
Lemma step_encoded_run count value rest y bits stores :
  1 <= count <= 255 -> 0 <= y < Z.abs height -> 0 <= bits ->
  bits + count <= width ->
  rle8_step width height pitch
    (Build_rle8_vars (count :: value :: rest) y bits stores)
  = Continue (Build_rle8_vars rest y (bits + count)
                (stores ++ stores_at (pitch * y + bits)
                             (replicate (Z.to_nat count) value))).
Proof.
  intros Hc Hy Hb Hfit. unfold rle8_step. cbn [stream8 scanline8 bits8 stores8].
  unfold RLE_COMMAND. rewrite (proj2 (Z.eqb_neq count 0)) by lia.
  rewrite Z.geb_leb, (proj2 (Z.leb_gt _ _)) by lia.
  rewrite (to_int_small (width - bits)) by lia.
  rewrite MIN_l by lia. rewrite Z2Nat.id by lia.
  rewrite to_int_small by lia. reflexivity.
Qed.

Lemma read_item_exact (data rest : list Z) :
  data <> [] ->
  read_item (Z.of_nat (length data)) (data ++ rest) = (data, true, rest).
Proof.
  intros Hd. unfold read_item.
  assert (0 < length data)%nat by (destruct data; [congruence|cbn; lia]).
  rewrite length_app.
  replace (Z.to_nat (Z.of_nat (length data) `min` Z.of_nat (length data + length rest)))
    with (length data) by lia.
  rewrite take_app_length, drop_app_length.
  rewrite (proj2 (Z.ltb_lt 0 _)) by lia. rewrite Z.eqb_refl. reflexivity.
Qed.

(** An absolute run [0, n, data, pad] that fits the row. *)
Lemma step_absolute_run data pad rest y bits stores :
  3 <= Z.of_nat (length data) <= 255 -> 0 <= y < Z.abs height -> 0 <= bits ->
  bits + Z.of_nat (length data) <= width ->
  length pad = (if Z.land (Z.of_nat (length data)) 1 =? 1 then 1%nat else 0%nat) ->
  rle8_step width height pitch
    (Build_rle8_vars (0 :: Z.of_nat (length data) :: data ++ pad ++ rest)
       y bits stores)
  = Continue (Build_rle8_vars rest y (bits + Z.of_nat (length data))
                (stores ++ stores_at (pitch * y + bits) data)).
Proof.
  intros Hn Hy Hb Hfit Hpad. unfold rle8_step.
  cbn [stream8 scanline8 bits8 stores8].
  unfold RLE_COMMAND, RLE_ENDOFLINE, RLE_ENDOFBITMAP, RLE_DELTA.
  rewrite Z.eqb_refl.
  rewrite !(proj2 (Z.eqb_neq (Z.of_nat (length data)) _)) by lia.
  rewrite Z.geb_leb, (proj2 (Z.leb_gt _ _)) by lia.
  rewrite (to_int_small (width - bits)) by lia.
  rewrite MIN_l by lia.
  unfold to_unsigned. rewrite Z.mod_small by lia.
  rewrite read_item_exact by (destruct data; [cbn in Hn; lia|congruence]).
  cbn [negb]. rewrite to_int_small by lia.
  destruct (Z.land (Z.of_nat (length data)) 1 =? 1).
  - destruct pad as [|x [|? ?]]; try discriminate. reflexivity.
  - destruct pad; [|discriminate]. reflexivity.
Qed.

Lemma step_end_of_line rest y bits stores :
  0 <= y < 2^31 - 1 ->
  rle8_step width height pitch (Build_rle8_vars (0 :: 0 :: rest) y bits stores)
  = Continue (Build_rle8_vars rest (y + 1) 0 stores).
Proof.
  intros Hy. unfold rle8_step. cbn. rewrite to_int_small by lia. reflexivity.
Qed.

(** A piece of an encoded row: wherever it is met at the start of the stream
    with [bits] at [from], the decoder stores [data] from there on in row [y]
    and is left with the rest of the stream, in no more turns than the piece
    has bytes. *)
Definition decodes_from (y from : Z) (piece data : list Z) : Prop :=
  forall rest stores, exists k,
    (k <= length piece)%nat
    /\ rle8_steps width height pitch k
         (Build_rle8_vars (piece ++ rest) y from stores)
       = Some (Build_rle8_vars rest y (from + Z.of_nat (length data))
                 (stores ++ stores_at (pitch * y + from) data)).

Lemma stores_at_app base (l1 l2 : list Z) :
  stores_at base (l1 ++ l2)
  = stores_at base l1 ++ stores_at (base + Z.of_nat (length l1)) l2.
Proof.
  revert base. induction l1 as [|x l1 IH]; intros base; cbn [stores_at app length].
  - rewrite Z.add_0_r. reflexivity.
  - rewrite IH. do 3 f_equal. lia.
Qed.

Lemma decodes_nil y from : decodes_from y from [] [].
Proof.
  intros rest stores. exists 0%nat. split; [lia|]. cbn.
  rewrite Z.add_0_r, app_nil_r. reflexivity.
Qed.

Lemma decodes_app y from piece1 data1 piece2 data2 :
  decodes_from y from piece1 data1 ->
  decodes_from y (from + Z.of_nat (length data1)) piece2 data2 ->
  decodes_from y from (piece1 ++ piece2) (data1 ++ data2).
Proof.
  intros H1 H2 rest stores.
  destruct (H1 (piece2 ++ rest) stores) as (k1 & Hk1 & E1).
  destruct (H2 rest (stores ++ stores_at (pitch * y + from) data1))
    as (k2 & Hk2 & E2).
  exists (k1 + k2)%nat. split; [rewrite length_app; lia|].
  rewrite <- app_assoc. rewrite (rle8_steps_app _ _ _ _ _ _ _ E1), E2.
  rewrite stores_at_app, length_app, Nat2Z.inj_add, <- !app_assoc, !Z.add_assoc.
  reflexivity.
Qed.

Lemma decodes_encoded_run y from count value :
  1 <= count <= 255 -> 0 <= y < Z.abs height -> 0 <= from ->
  from + count <= width ->
  decodes_from y from [count; value] (replicate (Z.to_nat count) value).
Proof.
  intros Hc Hy Hb Hfit rest stores. exists 1%nat. split; [cbn; lia|].
  cbn [rle8_steps app]. rewrite step_encoded_run by lia.
  rewrite length_replicate, Z2Nat.id by lia. reflexivity.
Qed.

Lemma decodes_absolute_run y from data pad :
  3 <= Z.of_nat (length data) <= 255 -> 0 <= y < Z.abs height -> 0 <= from ->
  from + Z.of_nat (length data) <= width ->
  length pad = (if Z.land (Z.of_nat (length data)) 1 =? 1 then 1%nat else 0%nat) ->
  decodes_from y from ([0; Z.of_nat (length data)] ++ data ++ pad) data.
Proof.
  intros Hn Hy Hb Hfit Hpad rest stores. exists 1%nat.
  split; [rewrite !length_app; cbn; lia|].
  cbn [rle8_steps]. rewrite <- !app_assoc. cbn [app].
  rewrite step_absolute_run by assumption. reflexivity.
Qed.

End Decoder.


Section Encoder.
Variables width height pitch : Z.
Variable stale : Z -> Z.
Variable source : list Z.
Variable y : Z.
Hypothesis width_int : 0 <= width < 2^31.
Hypothesis row_fits : Z.of_nat (length source) <= width.
Hypothesis row_in_dib : 0 <= y < Z.abs height.

Abbreviation size := (Z.of_nat (length source)).
Abbreviation decodes := (decodes_from width height pitch y 0).

Lemma write_pool_decodes buffer target d :
  decodes target d -> (length buffer <= 254)%nat ->
  Z.of_nat (length d) + Z.of_nat (length buffer) <= width ->
  decodes (write_pool stale buffer target) (d ++ buffer).
Proof.
  intros Hd Hlen Hfit.
  destruct buffer as [|b0 [|b1 [|b2 buffer]]].
  - cbn. rewrite app_nil_r. exact Hd.
  - cbn [write_pool length]. apply decodes_app; [exact Hd|].
    apply (decodes_encoded_run width height pitch width_int y _ 1 b0);
      cbn in *; lia.
  - cbn [write_pool].
    change [1; b0; 1; b1] with ([1; b0] ++ [1; b1]).
    change [b0; b1] with ([b0] ++ [b1]).
    apply decodes_app; [exact Hd|].
    apply decodes_app.
    + apply (decodes_encoded_run width height pitch width_int y _ 1 b0);
        cbn in *; lia.
    + apply (decodes_encoded_run width height pitch width_int y _ 1 b1);
        cbn in *; lia.
  - set (data := b0 :: b1 :: b2 :: buffer) in *.
    assert (3 <= Z.of_nat (length data) <= 254) as Hn by (subst data; cbn in *; lia).
    change (write_pool stale data target) with
      (let target1 := target ++ [RLE_COMMAND; Z.of_nat (length data)] ++ data in
       if Z.land (Z.of_nat (length data)) 1 =? 1
       then target1 ++ [stale (Z.of_nat (length target1))] else target1).
    cbn zeta. unfold RLE_COMMAND.
    destruct (Z.land (Z.of_nat (length data)) 1 =? 1) eqn:Hodd.
    + rewrite <- !app_assoc. apply decodes_app; [exact Hd|].
      rewrite app_assoc.
      apply (decodes_absolute_run width height pitch width_int y _ data
               [stale _]); try lia. rewrite Hodd. reflexivity.
    + apply decodes_app; [exact Hd|].
      rewrite <- (app_nil_r data) at 2.
      apply (decodes_absolute_run width height pitch width_int y _ data []);
        try lia. rewrite Hodd. reflexivity.
Qed.

(** What the encoder has done when [consumed] bytes of the row are behind
    it: the target decodes to the bytes that are not in the pool. *)
Definition encoded (consumed : Z) (buffer target : list Z) : Prop :=
  exists d, decodes target d
            /\ d ++ buffer = take (Z.to_nat consumed) source
            /\ (length buffer < 254)%nat
            /\ 0 <= consumed <= size.

Lemma encoded_lengths consumed buffer d :
  d ++ buffer = take (Z.to_nat consumed) source -> 0 <= consumed <= size ->
  Z.of_nat (length d) + Z.of_nat (length buffer) = consumed.
Proof.
  intros H Hc. apply (f_equal length) in H.
  rewrite length_app, length_take in H. lia.
Qed.

Lemma src_lookup i :
  0 <= i < size -> source !! Z.to_nat i = Some (src source i).
Proof.
  intros Hi. unfold src.
  destruct (nth_lookup_or_length source (Z.to_nat i) 0) as [H|H]; [exact H|lia].
Qed.

Lemma write_full_small buffer target :
  (length buffer < 254)%nat -> write_full buffer target = (buffer, target).
Proof.
  intros H. unfold write_full. rewrite (proj2 (Z.eqb_neq _ _)) by lia. reflexivity.
Qed.

Lemma push_literal consumed buffer target :
  encoded consumed buffer target -> consumed < size ->
  encoded (consumed + 1)
    (write_full (buffer ++ [src source consumed]) target).1
    (write_full (buffer ++ [src source consumed]) target).2.
Proof.
  intros (d & Hd & Heq & Hlen & Hc) Hlt.
  pose proof (encoded_lengths _ _ _ Heq Hc) as Hl.
  assert (d ++ buffer ++ [src source consumed]
          = take (Z.to_nat (consumed + 1)) source) as Heq'.
  { replace (Z.to_nat (consumed + 1)) with (S (Z.to_nat consumed)) by lia.
    rewrite (take_S_r _ _ (src source consumed)) by (apply src_lookup; lia).
    rewrite app_assoc, Heq. reflexivity. }
  unfold write_full.
  destruct (Z.eqb_spec (Z.of_nat (length (buffer ++ [src source consumed]))) 254)
    as [Hfull|Hfull]; cbn [fst snd].
  - exists (d ++ buffer ++ [src source consumed]).
    rewrite app_nil_r. split; [|split; [exact Heq'|split; [cbn; lia|lia]]].
    apply decodes_app; [exact Hd|].
    set (data := buffer ++ [src source consumed]) in *.
    pose proof (decodes_absolute_run width height pitch width_int y
                  (0 + Z.of_nat (length d)) data []) as Habs.
    rewrite app_nil_r in Habs. apply Habs; try lia.
    + subst data. rewrite length_app in *. cbn [length] in *. lia.
    + rewrite Hfull. reflexivity.
  - exists d. split; [exact Hd|]. split; [exact Heq'|].
    rewrite length_app in *. cbn [length] in *. lia.
Qed.

Lemma pool_block_encoded count i k buffer target :
  encoded (i + k) buffer target -> i + k + Z.of_nat count <= size ->
  encoded (i + k + Z.of_nat count)
    (pool_block count source i k buffer target).1
    (pool_block count source i k buffer target).2.
Proof.
  revert k buffer target. induction count as [|count IH];
    intros k buffer target Henc Hle.
  - cbn. rewrite Z.add_0_r. exact Henc.
  - cbn [pool_block].
    pose proof (push_literal _ _ _ Henc ltac:(lia)) as Hpush.
    destruct (write_full (buffer ++ [src source (i + k)]) target)
      as [buffer1 target1]. cbn [fst snd] in Hpush.
    replace (i + k + Z.of_nat (S count)) with (i + (k + 1) + Z.of_nat count)
      by lia.
    apply IH; [|lia]. replace (i + (k + 1)) with (i + k + 1) by lia.
    exact Hpush.
Qed.

Lemma find_block_spec fuel i j jmax :
  i <= j -> j <= size - 1 -> j <= jmax ->
  (forall t, i <= t <= j -> src source t = src source i) ->
  let j' := find_block fuel source size j jmax in
  j <= j' <= size - 1 /\ j' <= jmax
  /\ forall t, i <= t <= j' -> src source t = src source i.
Proof.
  revert j. induction fuel as [|fuel IH]; intros j Hij Hj Hmax Hsame; cbn.
  - split; [lia|]. split; [lia|]. exact Hsame.
  - destruct (Z.ltb_spec j (size - 1)); cbn [andb];
      [|split; [lia|split; [lia|exact Hsame]]].
    destruct (Z.ltb_spec j jmax); cbn [andb];
      [|split; [lia|split; [lia|exact Hsame]]].
    destruct (Z.eqb_spec (src source j) (src source (j + 1))) as [He|He];
      [|split; [lia|split; [lia|exact Hsame]]].
    destruct (IH (j + 1)) as (H1 & H2 & H3); try lia.
    + intros t Ht. destruct (Z.eq_dec t (j + 1)) as [->|].
      * rewrite <- He. apply Hsame. lia.
      * apply Hsame. lia.
    + split; [lia|]. split; [exact H2|exact H3].
Qed.

Lemma take_block i j :
  0 <= i <= j -> j < size ->
  (forall t, i <= t <= j -> src source t = src source i) ->
  take (Z.to_nat (j + 1)) source
  = take (Z.to_nat i) source
    ++ replicate (Z.to_nat (j - i + 1)) (src source i).
Proof.
  intros Hi Hj Hsame. apply list_eq. intros n.
  destruct (decide (n < Z.to_nat i)%nat).
  - rewrite lookup_app_l by (rewrite length_take; lia).
    rewrite !lookup_take_lt by lia. reflexivity.
  - rewrite lookup_app_r by (rewrite length_take; lia).
    rewrite length_take.
    replace (Z.to_nat i `min` length source)%nat with (Z.to_nat i) by lia.
    destruct (decide (n < Z.to_nat (j + 1))%nat).
    + rewrite lookup_take_lt by lia.
      rewrite lookup_replicate_2 by lia.
      replace n with (Z.to_nat (Z.of_nat n)) at 1 by lia.
      rewrite src_lookup by lia. f_equal. apply Hsame. lia.
    + rewrite lookup_take_ge by lia. symmetry.
      apply (proj1 (lookup_replicate_None _ _ _)). lia.
Qed.

Lemma block_encoded i j buffer target :
  encoded i buffer target -> i <= j -> j < size -> 4 <= j - i + 1 <= 255 ->
  (forall t, i <= t <= j -> src source t = src source i) ->
  encoded (j + 1) []
    (write_pool stale buffer target ++ [j - i + 1; src source i]).
Proof.
  intros (d & Hd & Heq & Hlen & Hc) Hij Hj HL Hsame.
  pose proof (encoded_lengths _ _ _ Heq Hc) as Hl.
  exists ((d ++ buffer) ++ replicate (Z.to_nat (j - i + 1)) (src source i)).
  split; [|split; [|split; [cbn; lia|lia]]].
  - apply decodes_app.
    + apply write_pool_decodes; [exact Hd|lia|lia].
    + apply decodes_encoded_run; try assumption; try lia.
      rewrite length_app. lia.
  - rewrite app_nil_r, Heq. symmetry. apply take_block; [lia|lia|exact Hsame].
Qed.

Lemma encode_from_encoded fuel i buffer target :
  encoded i buffer target -> size - i <= Z.of_nat fuel ->
  encoded size
    (encode_from fuel stale source size i buffer target).1
    (encode_from fuel stale source size i buffer target).2.
Proof.
  revert i buffer target. induction fuel as [|fuel IH];
    intros i buffer target Henc Hfuel.
  - cbn. destruct Henc as (d & Hd & Heq & Hlen & Hc).
    replace size with i by lia. exists d. repeat split; try assumption; lia.
  - cbn [encode_from].
    destruct (Z.ltb_spec i size) as [Hlt|Hge].
    2:{ cbn. destruct Henc as (d & Hd & Heq & Hlen & Hc).
        replace size with i by lia. exists d. repeat split; try assumption; lia. }
    pose proof Henc as (d0 & _ & _ & Hlen0 & Hc0).
    destruct ((i <? size - 1) && (src source i =? src source (i + 1))) eqn:Hrun.
    + apply andb_true_iff in Hrun as [Hi1%Z.ltb_lt Hsame%Z.eqb_eq].
      destruct (find_block_spec (Z.to_nat size) i (i + 1) (254 + i))
        as (Hj1 & Hj2 & Hj3); try lia.
      { intros t Ht. destruct (Z.eq_dec t i) as [->|]; [reflexivity|].
        replace t with (i + 1) by lia. symmetry. exact Hsame. }
      set (j := find_block (Z.to_nat size) source size (i + 1) (254 + i)) in *.
      destruct (Z.gtb_spec (j - i + 1) 3) as [Hlong|Hshort].
      * pose proof (block_encoded i j buffer target Henc ltac:(lia) ltac:(lia)
                      ltac:(lia) Hj3) as Hblk.
        rewrite write_full_small by (cbn; lia).
        apply IH; [exact Hblk|lia].
      * pose proof (pool_block_encoded (Z.to_nat (j - i + 1)) i 0 buffer target)
          as Hpool.
        rewrite Z.add_0_r in Hpool. specialize (Hpool Henc ltac:(lia)).
        destruct (pool_block (Z.to_nat (j - i + 1)) source i 0 buffer target)
          as [b t]. cbn [fst snd] in Hpool.
        replace (i + Z.of_nat (Z.to_nat (j - i + 1))) with (j + 1) in Hpool by lia.
        pose proof Hpool as (d1 & _ & _ & Hlen1 & _).
        rewrite write_full_small by exact Hlen1.
        apply IH; [exact Hpool|lia].
    + pose proof (push_literal i buffer target Henc Hlt) as Hpush.
      destruct (write_full (buffer ++ [src source i]) target) as [b t].
      cbn [fst snd] in Hpush. apply IH; [exact Hpush|lia].
Qed.

(** One encoded row, met at the start of the stream in row [y]: the decoder
    stores the row there and moves to the start of the next row. *)
Lemma RLEEncodeLine_decodes rest stores :
  y < 2^31 - 1 ->
  exists k,
    (k <= length (RLEEncodeLine stale source size))%nat
    /\ rle8_steps width height pitch k
         (Build_rle8_vars (RLEEncodeLine stale source size ++ rest) y 0 stores)
       = Some (Build_rle8_vars rest (y + 1) 0
                 (stores ++ stores_at (pitch * y) source)).
Proof.
  intros Hy. unfold RLEEncodeLine.
  assert (encoded 0 [] []) as H0.
  { exists []. split; [apply decodes_nil|]. split; [reflexivity|]. cbn. lia. }
  pose proof (encode_from_encoded (Z.to_nat size) 0 [] [] H0 ltac:(lia)) as Henc.
  destruct (encode_from (Z.to_nat size) stale source size 0 [] [])
    as [buffer target]. cbn [fst snd] in Henc.
  destruct Henc as (d & Hd & Heq & Hlen & Hc).
  pose proof (encoded_lengths _ _ _ Heq Hc) as Hl.
  rewrite Nat2Z.id, firstn_all in Heq.
  pose proof (write_pool_decodes buffer target d Hd ltac:(lia) ltac:(lia)) as Hw.
  rewrite Heq in Hw.
  destruct (Hw ([RLE_COMMAND; RLE_ENDOFLINE] ++ rest) stores) as (k & Hk & E).
  exists (k + 1)%nat. split; [rewrite length_app; cbn; lia|].
  rewrite <- app_assoc. rewrite (rle8_steps_app _ _ _ _ _ _ _ E).
  cbn [rle8_steps app]. unfold RLE_COMMAND, RLE_ENDOFLINE.
  rewrite step_end_of_line by lia. rewrite Z.add_0_r. reflexivity.
Qed.

End Encoder.


(** **** From rows to the image *)

(** The stores that copy [rows] into the dib from row [y] upward. *)
Fixpoint rows_stores (pitch y : Z) (rows : list (list Z)) : store_log :=
  match rows with
  | [] => []
  | row :: rest => stores_at (pitch * y) row ++ rows_stores pitch (y + 1) rest
  end.

(** The first [line] bytes of the first [height] rows of pixel memory. *)
Definition read_rows (mem : Z -> Z) (pitch line : Z) (height : nat)
  : list (list Z) :=
  map (fun y : nat =>
         map (fun x : nat => mem (pitch * Z.of_nat y + Z.of_nat x))
             (seq 0 (Z.to_nat line)))
      (seq 0 height).

(** Encoding the rows of a dib of [bpp] bits the way [Save] calls
    [RLEEncodeLine] (each row with its [FreeImage_GetLine] bytes) and decoding
    the stream into a dib of the same geometry the way the loaders call
    [LoadPixelDataRLE8] (with the width in pixels). *)
Definition rle_round_trip (bpp width : Z) (mem : Z -> Z) (rows : list (list Z))
  : option (list (list Z)) :=
  let height := Z.of_nat (length rows) in
  let line := CalculateLine width bpp in
  let pitch := CalculatePitch line in
  match LoadPixelDataRLE8 (save_rle_rows (fun _ => 0) rows) width height pitch with
  | Some (true, st) =>
      Some (read_rows (apply_stores (stores8 st) mem) pitch line (length rows))
  | _ => None
  end.

Section Image.
Variables width height pitch line : Z.
Hypothesis width_int : 0 <= width < 2^31.
Hypothesis height_int : 0 <= height < 2^31.
Hypothesis line_fits : 0 <= line <= width.

Lemma save_rle_rows_decodes rows buffer y stores :
  Forall (fun row => Z.of_nat (length row) = line) rows ->
  0 <= y -> y + Z.of_nat (length rows) <= height ->
  exists k,
    (k + 2 <= length (save_rle_rows buffer rows))%nat
    /\ rle8_steps width height pitch k
         (Build_rle8_vars (save_rle_rows buffer rows) y 0 stores)
       = Some (Build_rle8_vars [RLE_COMMAND; RLE_ENDOFBITMAP]
                 (y + Z.of_nat (length rows)) 0
                 (stores ++ rows_stores pitch y rows)).
Proof.
  intros Hrows. revert buffer y stores.
  induction Hrows as [|row rows Hrow Hrows IH]; intros buffer y stores Hy Hh.
  - exists 0%nat. split; [cbn; lia|]. cbn. rewrite Z.add_0_r, app_nil_r.
    reflexivity.
  - cbn [save_rle_rows rows_stores length] in *.
    destruct (RLEEncodeLine_decodes width height pitch buffer row y
                width_int ltac:(lia) ltac:(lia)
                (save_rle_rows
                   (overwrite buffer (RLEEncodeLine buffer row (Z.of_nat (length row))))
                   rows)
                stores ltac:(lia)) as (k1 & Hk1 & E1).
    destruct (IH (overwrite buffer (RLEEncodeLine buffer row (Z.of_nat (length row))))
                (y + 1) (stores ++ stores_at (pitch * y) row) ltac:(lia) ltac:(lia))
      as (k2 & Hk2 & E2).
    exists (k1 + k2)%nat. split; [rewrite length_app; lia|].
    rewrite (rle8_steps_app _ _ _ _ _ _ _ E1), E2.
    rewrite <- app_assoc.
    replace (y + Z.of_nat (S (length rows))) with (y + 1 + Z.of_nat (length rows))
      by lia.
    reflexivity.
Qed.

Lemma LoadPixelDataRLE8_saved rows :
  Forall (fun row => Z.of_nat (length row) = line) rows ->
  Z.of_nat (length rows) = height ->
  exists st,
    LoadPixelDataRLE8 (save_rle_rows (fun _ => 0) rows) width height pitch
      = Some (true, st)
    /\ stores8 st = rows_stores pitch 0 rows.
Proof.
  intros Hrows Hh.
  destruct (save_rle_rows_decodes rows (fun _ => 0) 0 [] Hrows ltac:(lia) ltac:(lia))
    as (k & Hk & E).
  unfold LoadPixelDataRLE8.
  set (stream := save_rle_rows (fun _ => 0) rows) in *.
  replace (S (length stream)) with (k + (S (length stream) - k))%nat by lia.
  rewrite (rle8_loop_steps _ _ _ _ _ _ _ E).
  destruct (S (length stream) - k)%nat as [|fuel] eqn:Hf; [lia|].
  cbn. eexists. split; reflexivity.
Qed.

End Image.

Lemma apply_stores_app log1 log2 mem :
  apply_stores (log1 ++ log2) mem = apply_stores log2 (apply_stores log1 mem).
Proof. unfold apply_stores. apply fold_left_app. Qed.

Lemma apply_stores_untouched log mem a :
  (forall a' v, (a', v) ∈ log -> a' <> a) -> apply_stores log mem a = mem a.
Proof.
  revert mem. induction log as [|[a' v] log IH]; intros mem H; [reflexivity|].
  change (apply_stores ((a', v) :: log) mem)
    with (apply_stores log (fun x => if x =? a' then v else mem x)).
  rewrite IH by (intros a2 v2 Hin; apply (H a2 v2); right; exact Hin).
  rewrite (proj2 (Z.eqb_neq a a')); [reflexivity|].
  intros ->. apply (H a' v); [left|reflexivity].
Qed.

Lemma stores_at_range base values a v :
  (a, v) ∈ stores_at base values -> base <= a < base + Z.of_nat (length values).
Proof.
  revert base. induction values as [|x values IH]; intros base H; cbn in *.
  - inversion H.
  - apply elem_of_cons in H as [[= -> _]|H]; [lia|]. apply IH in H. lia.
Qed.

Lemma apply_stores_at base values mem (x : nat) :
  (x < length values)%nat ->
  apply_stores (stores_at base values) mem (base + Z.of_nat x) = nth x values 0.
Proof.
  revert base mem x. induction values as [|v values IH]; intros base mem x Hx;
    [cbn in Hx; lia|].
  change (apply_stores (stores_at base (v :: values)) mem)
    with (apply_stores (stores_at (base + 1) values)
            (fun a => if a =? base then v else mem a)).
  destruct x as [|x].
  - rewrite apply_stores_untouched.
    + rewrite Z.add_0_r, Z.eqb_refl. reflexivity.
    + intros a' v' Hin%stores_at_range. lia.
  - replace (base + Z.of_nat (S x)) with (base + 1 + Z.of_nat x) by lia.
    apply IH. cbn in Hx. lia.
Qed.

Lemma rows_stores_range pitch line y rows a v :
  0 <= line <= pitch -> 0 <= y ->
  Forall (fun row => Z.of_nat (length row) = line) rows ->
  (a, v) ∈ rows_stores pitch y rows -> pitch * y <= a.
Proof.
  intros Hp Hy Hrows. revert y Hy. induction Hrows as [|row rows Hrow Hrows IH];
    intros y Hy H; cbn in H.
  - inversion H.
  - apply elem_of_app in H as [H|H].
    + apply stores_at_range in H. lia.
    + apply IH in H; [|lia]. nia.
Qed.

Lemma read_rows_stored pitch line rows mem :
  0 <= line <= pitch ->
  Forall (fun row => Z.of_nat (length row) = line) rows ->
  forall y0 : nat,
    map (fun y : nat =>
           map (fun x : nat =>
                  apply_stores (rows_stores pitch (Z.of_nat y0) rows) mem
                    (pitch * Z.of_nat y + Z.of_nat x))
               (seq 0 (Z.to_nat line)))
        (seq y0 (length rows))
    = rows.
Proof.
  intros Hp Hrows. revert mem.
  induction Hrows as [|row rows Hrow Hrows IH]; intros mem y0; [reflexivity|].
  cbn [rows_stores length seq map]. f_equal.
  - rewrite apply_stores_app.
    apply list_eq. intros x.
    destruct (decide (x < length row)%nat) as [Hx|Hx].
    + rewrite list_lookup_fmap, lookup_seq_lt by lia. cbn.
      rewrite apply_stores_untouched.
      * rewrite apply_stores_at by lia.
        destruct (nth_lookup_or_length row x 0) as [->|]; [reflexivity|lia].
      * intros a' v' Hin.
        apply (rows_stores_range pitch line) in Hin; [|lia|lia|exact Hrows]. nia.
    + rewrite list_lookup_fmap, lookup_seq_ge by lia.
      rewrite lookup_ge_None_2 by lia. reflexivity.
  - etransitivity;
      [|exact (IH (apply_stores (stores_at (pitch * Z.of_nat y0) row) mem) (S y0))].
    apply map_ext_in. intros y Hy. apply map_ext. intros x.
    rewrite apply_stores_app. do 3 f_equal. lia.
Qed.

Lemma CalculatePitch_ge line : 0 <= line -> line <= CalculatePitch line.
Proof.
  intros H. unfold CalculatePitch.
  change (-4) with (Z.lnot (Z.ones 2)).
  rewrite <- Z.ldiff_land, Z.ldiff_ones_r by lia.
  rewrite Z.shiftl_mul_pow2, Z.shiftr_div_pow2 by lia. change (2 ^ 2) with 4.
  pose proof (Z.div_mod (line + 3) 4 ltac:(lia)).
  pose proof (Z.mod_pos_bound (line + 3) 4 ltac:(lia)). lia.
Qed.

Lemma CalculateLine_le width bpp :
  0 <= width -> bpp = 1 \/ bpp = 4 \/ bpp = 8 ->
  0 <= CalculateLine width bpp <= width.
Proof.
  intros Hw Hb. unfold CalculateLine. split.
  - apply Z.div_pos; lia.
  - apply Z.lt_succ_r. apply Z.div_lt_upper_bound; lia.
Qed.




End RLE8RoundTrip.

(** *** The size of an encoded row *)
Module RLE8Size.
Import BMP.

(** The number of bytes that writing out a pool of [k] literals takes. *)
Definition cost (k : Z) : Z :=
  if k =? 0 then 0
  else if k =? 1 then 2
  else if k =? 2 then 4
  else 2 + k + (if Z.land k 1 =? 1 then 1 else 0).

Lemma length_write_pool stale buffer target :
  Z.of_nat (length (write_pool stale buffer target))
  = Z.of_nat (length target) + cost (Z.of_nat (length buffer)).
Proof.
  destruct buffer as [|b0 [|b1 [|b2 buffer]]].
  - change (cost (Z.of_nat (length (@nil Z)))) with 0. cbn [write_pool]. lia.
  - change (cost (Z.of_nat (length [b0]))) with 2.
    cbn [write_pool]. rewrite length_app. cbn [length]. lia.
  - change (cost (Z.of_nat (length [b0; b1]))) with 4.
    cbn [write_pool]. rewrite length_app. cbn [length]. lia.
  - set (data := b0 :: b1 :: b2 :: buffer).
    assert (Hn : 3 <= Z.of_nat (length data)) by (subst data; cbn [length]; lia).
    change (write_pool stale data target) with
      (let target1 := target ++ [RLE_COMMAND; Z.of_nat (length data)] ++ data in
       if Z.land (Z.of_nat (length data)) 1 =? 1
       then target1 ++ [stale (Z.of_nat (length target1))] else target1).
    cbv zeta. unfold cost.
    destruct (Z.eqb_spec (Z.of_nat (length data)) 0); [lia|].
    destruct (Z.eqb_spec (Z.of_nat (length data)) 1); [lia|].
    destruct (Z.eqb_spec (Z.of_nat (length data)) 2); [lia|].
    destruct (Z.land (Z.of_nat (length data)) 1 =? 1);
      rewrite ?length_app; cbn [length]; lia.
Qed.

Lemma cost_bounds k :
  0 <= k -> 0 <= cost k <= 2 * k /\ cost (k + 1) <= cost k + 2
            /\ (4 <= k -> cost k <= k + 3) /\ cost 4 = 6.
Proof.
  intros Hk. unfold cost.
  assert (Hodd : forall n, Z.land n 1 = n mod 2).
  { intros n. change 1 with (Z.ones 1). rewrite Z.land_ones by lia. reflexivity. }
  rewrite !Hodd.
  repeat match goal with
         | |- context [?a =? ?b] => destruct (Z.eqb_spec a b)
         end; Z.to_euclidean_division_equations; lia.
Qed.

(** What the encoder keeps while it walks the row: with [i] bytes consumed,
    either nothing has been written yet and the pool holds them all, or what
    has been written and what the pool will take stay two bytes below
    [2 * i]. *)
Definition within (i : Z) (buffer target : list Z) : Prop :=
  (length buffer < 254)%nat /\ 0 <= i /\
  ((target = [] /\ Z.of_nat (length buffer) = i) \/
   Z.of_nat (length target) + cost (Z.of_nat (length buffer)) + 2 <= 2 * i).

Lemma push_within i buffer target x :
  within i buffer target ->
  within (i + 1) (write_full (buffer ++ [x]) target).1
                 (write_full (buffer ++ [x]) target).2.
Proof.
  intros (Hlen & Hi & H). unfold write_full.
  rewrite length_app. cbn [length].
  pose proof (cost_bounds (Z.of_nat (length buffer)) ltac:(lia)) as (Hc1 & Hc2 & Hc3 & _).
  replace (Z.of_nat (length buffer + 1)) with (Z.of_nat (length buffer) + 1) by lia.
  destruct (Z.eqb_spec (Z.of_nat (length buffer) + 1) 254) as [Hfull|Hfull];
    cbn [fst snd].
  - split; [cbn; lia|]. split; [lia|]. right.
    change (cost (Z.of_nat (length (@nil Z)))) with 0.
    rewrite ?length_app; cbn [length]; rewrite ?length_app; cbn [length].
    destruct H as [[-> Hb] | H]; cbn [length]; [lia|].
    specialize (Hc3 ltac:(lia)).
    assert (Hc253 : cost (Z.of_nat (length buffer)) = 256).
    { replace (Z.of_nat (length buffer)) with 253 by lia. reflexivity. }
    lia.
  - split; [rewrite length_app; cbn; lia|]. split; [lia|].
    rewrite length_app. cbn [length].
    replace (Z.of_nat (length buffer + 1)) with (Z.of_nat (length buffer) + 1) by lia.
    destruct H as [[-> Hb] | H]; [left; split; [reflexivity|lia]|right; lia].
Qed.

Lemma pool_block_within count source i k buffer target :
  within (i + k) buffer target ->
  within (i + k + Z.of_nat count)
    (pool_block count source i k buffer target).1
    (pool_block count source i k buffer target).2.
Proof.
  revert k buffer target. induction count as [|count IH]; intros k buffer target H.
  - cbn. rewrite Z.add_0_r. exact H.
  - cbn [pool_block].
    pose proof (push_within _ _ _ (src source (i + k)) H) as Hpush.
    destruct (write_full (buffer ++ [src source (i + k)]) target)
      as [buffer1 target1]. cbn [fst snd] in Hpush.
    replace (i + k + Z.of_nat (S count)) with (i + (k + 1) + Z.of_nat count) by lia.
    apply IH. replace (i + (k + 1)) with (i + k + 1) by lia. exact Hpush.
Qed.

Lemma find_block_range fuel source size j jmax :
  j <= find_block fuel source size j jmax
  /\ (j <= size - 1 -> find_block fuel source size j jmax <= size - 1).
Proof.
  revert j. induction fuel as [|fuel IH]; intros j; cbn [find_block].
  - lia.
  - destruct (Z.ltb_spec j (size - 1)); cbn [andb]; [|lia].
    destruct (j <? jmax); cbn [andb]; [|lia].
    destruct (src source j =? src source (j + 1)); [|lia].
    destruct (IH (j + 1)). lia.
Qed.

Lemma write_full_below buffer target :
  (length buffer < 254)%nat -> write_full buffer target = (buffer, target).
Proof.
  intros H. unfold write_full. rewrite (proj2 (Z.eqb_neq _ _)) by lia. reflexivity.
Qed.

Lemma encode_from_within fuel stale source size i buffer target :
  within i buffer target -> i <= size ->
  exists i', i' <= size /\
    within i' (encode_from fuel stale source size i buffer target).1
              (encode_from fuel stale source size i buffer target).2.
Proof.
  revert i buffer target. induction fuel as [|fuel IH];
    intros i buffer target H Hi.
  - exists i. split; [exact Hi|exact H].
  - cbn [encode_from].
    destruct (Z.ltb_spec i size) as [Hlt|Hge]; [|exists i; split; [exact Hi|exact H]].
    destruct ((i <? size - 1) && (src source i =? src source (i + 1))) eqn:Hrun.
    + apply andb_true_iff in Hrun as [Hi1%Z.ltb_lt _].
      destruct (find_block_range (Z.to_nat size) source size (i + 1) (254 + i))
        as [Hj1 Hj2]. specialize (Hj2 ltac:(lia)).
      set (j := find_block (Z.to_nat size) source size (i + 1) (254 + i)) in *.
      destruct (Z.gtb_spec (j - i + 1) 3) as [Hlong|Hshort].
      * rewrite write_full_below by (cbn; lia).
        apply IH; [|lia].
        destruct H as (Hlen & Hi0 & H).
        pose proof (cost_bounds (Z.of_nat (length buffer)) ltac:(lia)) as (Hc1 & _).
        split; [cbn; lia|]. split; [lia|]. right.
        change (cost (Z.of_nat (length (@nil Z)))) with 0.
        rewrite length_app, Nat2Z.inj_add, length_write_pool. cbn [length].
        destruct H as [[-> Hb] | H]; cbn [length]; lia.
      * pose proof (pool_block_within (Z.to_nat (j - i + 1)) source i 0 buffer target)
          as Hpool.
        rewrite Z.add_0_r in Hpool. specialize (Hpool H).
        destruct (pool_block (Z.to_nat (j - i + 1)) source i 0 buffer target)
          as [b t]. cbn [fst snd] in Hpool.
        replace (i + Z.of_nat (Z.to_nat (j - i + 1))) with (j + 1) in Hpool by lia.
        rewrite write_full_below by apply Hpool.
        apply IH; [exact Hpool|lia].
    + pose proof (push_within i buffer target (src source i) H) as Hpush.
      destruct (write_full (buffer ++ [src source i]) target) as [b t].
      cbn [fst snd] in Hpush. apply IH; [exact Hpush|lia].
Qed.

(** The encoded row fits the buffer that [Save] allocates for it.  [Save]
    encodes the [FreeImage_GetLine(dib)] bytes of a row into a buffer of
    [dst_pitch * 2] bytes, where the pitch is the length of the row rounded
    up to a multiple of four: whatever the bytes of a row that is not empty,
    [RLEEncodeLine] writes at most that many.  (It can write more than the
    row has bytes: a row of one byte takes four.) *)
Theorem RLEEncodeLine_fits (stale : Z -> Z) (source : list Z) (pitch : Z) :
  source <> [] -> Z.of_nat (length source) <= pitch -> pitch mod 4 = 0 ->
  Z.of_nat (length (RLEEncodeLine stale source (Z.of_nat (length source))))
    <= 2 * pitch.
Proof.
  intros Hne Hpitch Hmod. unfold RLEEncodeLine.
  assert (Hsize : 1 <= Z.of_nat (length source)).
  { destruct source; [congruence|cbn [length]; lia]. }
  assert (H0 : within 0 [] []).
  { split; [cbn; lia|]. split; [lia|]. left. split; reflexivity. }
  destruct (encode_from_within (Z.to_nat (Z.of_nat (length source))) stale source
              (Z.of_nat (length source)) 0 [] [] H0 ltac:(lia))
    as (i & Hi & Hw).
  destruct (encode_from _ stale source _ 0 [] []) as [buffer target].
  cbn [fst snd] in Hw. destruct Hw as (Hlen & Hi0 & Hw).
  rewrite length_app, Nat2Z.inj_add, length_write_pool. cbn [length].
  pose proof (cost_bounds (Z.of_nat (length buffer)) ltac:(lia))
    as (Hc1 & _ & Hc3 & Hc4).
  destruct Hw as [[-> Hb] | Hw]; cbn [length]; [|lia].
  destruct (Z.le_gt_cases (Z.of_nat (length buffer)) 3).
  - Z.to_euclidean_division_equations. lia.
  - destruct (Z.eq_dec (Z.of_nat (length buffer)) 4) as [E|E].
    + rewrite E, Hc4. Z.to_euclidean_division_equations. lia.
    + specialize (Hc3 ltac:(lia)). lia.
Qed.

(** The theorem at work: a row of three different bytes takes the eight
    bytes of the buffer. *)
Lemma RLEEncodeLine_fits_witness :
  Z.of_nat (length (RLEEncodeLine (fun _ => 0) [1; 2; 3] (Z.of_nat (length [1; 2; 3]))))
    <= 2 * 4.
Proof.
  apply (RLEEncodeLine_fits (fun _ => 0) [1; 2; 3] 4).
  - discriminate.
  - cbn. lia.
  - reflexivity.
Defined.

End RLE8Size.

(** ** PluginBMP.cpp: pixels that are not compressed *)
Module BMPPixels.
Import BMP.

(** Storing [got] at the byte [off] of [bits] (a short read leaves the bytes
    after it as they were). *)
Definition store_at (bits : list Z) (off : Z) (got : list Z) : list Z :=
  take (Z.to_nat off) bits ++ store (drop (Z.to_nat off) bits) got.

(** [for (int c = 0; c < positiveHeight; ++c)] with [n] rows to go: the row
    [c] of the file goes to the scan line [positiveHeight - c - 1], which
    starts at that many times [pitch] bytes. *)
Fixpoint load_rows (n : nat) (c positiveHeight pitch : Z) (bits : list Z)
  : io_prog (bool * list Z) :=
  match n with
  | O => Ret (true, bits)
  | S n =>
      '(got, count) ← read_proc pitch 1;
      let bits := store_at bits ((positiveHeight - c - 1) * pitch) got in
      if negb (count =? 1) then Ret (false, bits)
      else load_rows n (c + 1) positiveHeight pitch bits
  end.

(** [LoadPixelData(io, handle, dib, height, pitch, bit_count)]: the returned
    [FIBOOL] and the pixel bytes of the dib, which are [bits] before the
    call.  The byte swaps at the end are compiled for big-endian targets and
    for the RGB colour order only; they are left out. *)
Definition LoadPixelData (bits : list Z) (height pitch bit_count : Z)
  : io_prog (bool * list Z) :=
  if 0 <? height then
    '(got, count) ← read_proc (to_unsigned (height * pitch)) 1;
    let bits := store bits got in
    if negb (count =? 1) then Ret (false, bits) else Ret (true, bits)
  else
    let positiveHeight := Z.abs height in
    load_rows (Z.to_nat positiveHeight) 0 positiveHeight pitch bits.

End BMPPixels.

(** *** Properties of [LoadPixelData] *)
Module BMPPixelsFacts.
Import BMP BMPPixels IOFacts.

(** The bytes of the stream from the read position on. *)
Definition ahead (h : fi_handle) : list Z := drop (position h) (content h).

(** The row [k] of [pitch] bytes in [data]. *)
Definition row (pitch : Z) (data : list Z) (k : Z) : list Z :=
  take (Z.to_nat pitch) (drop (Z.to_nat (k * pitch)) data).

Lemma do_read_one size h :
  0 < size ->
  do_read size 1 h
  = ((take (Z.to_nat size) (ahead h),
      if size <=? Z.of_nat (length (ahead h)) then 1 else 0),
     Handle (content h)
       (position h + length (take (Z.to_nat size) (ahead h)))).
Proof.
  intros Hs. unfold do_read, ahead. cbv zeta. rewrite Z.mul_1_r.
  destruct (Z.leb_spec size 0); [lia|].
  f_equal. f_equal. rewrite length_take.
  destruct (Z.leb_spec size (Z.of_nat (length (drop (position h) (content h))))).
  - replace (Z.of_nat (Z.to_nat size `min` _)) with size by lia.
    apply Z.div_same. lia.
  - apply Z.div_small. lia.
Qed.

Lemma ahead_after_read h (n : nat) :
  ahead (Handle (content h) (position h + n)) = drop n (ahead h).
Proof.
  unfold ahead. cbn [content position]. rewrite drop_drop. reflexivity.
Qed.

Lemma row_after_read pitch h (k : nat) :
  0 <= pitch ->
  row pitch (ahead (Handle (content h) (position h + Z.to_nat pitch))) (Z.of_nat k)
  = row pitch (ahead h) (Z.of_nat (S k)).
Proof.
  intros Hp. unfold row. rewrite ahead_after_read, drop_drop.
  f_equal. f_equal. nia.
Qed.

(** The rows of a top-down file, stored from the last scan line down. *)
Lemma load_rows_stored frames (n : nat) (c positiveHeight pitch : Z) bits h :
  0 < pitch -> c + Z.of_nat n = positiveHeight ->
  Z.of_nat n * pitch <= Z.of_nat (length bits) ->
  Z.of_nat n * pitch <= Z.of_nat (length (ahead h)) ->
  run frames (load_rows n c positiveHeight pitch bits) h
  = ((true,
      concat (map (fun k : nat => row pitch (ahead h) (Z.of_nat k))
                  (reverse (seq 0 n)))
      ++ drop (Z.to_nat (Z.of_nat n * pitch)) bits),
     Handle (content h) (position h + Z.to_nat (Z.of_nat n * pitch)),
     replicate n (EvRead pitch 1)).
Proof.
  intros Hp. revert c bits h.
  induction n as [|n IH]; intros c bits h Hn Hbits Hav; cbn [load_rows].
  - rewrite run_Ret. cbn [seq reverse map concat app replicate].
    change (Z.to_nat (Z.of_nat 0 * pitch)) with 0%nat.
    rewrite drop_0, Nat.add_0_r. destruct h. reflexivity.
  - change (read_proc pitch 1 ≫= ?f) with (ReadProc pitch 1 (fun r => bind (Ret r) f)).
    rewrite run_ReadProc. cbv zeta. rewrite do_read_one by exact Hp.
    cbn [fst snd bind].
    destruct (Z.leb_spec pitch (Z.of_nat (length (ahead h)))) as [Hle|Hgt]; [|nia].
    change (negb (1 =? 1)) with false. cbv iota.
    assert (Hgot : length (take (Z.to_nat pitch) (ahead h)) = Z.to_nat pitch)
      by (rewrite length_take; lia).
    rewrite Hgot.
    replace ((positiveHeight - c - 1) * pitch) with (Z.of_nat n * pitch) by nia.
    set (bits1 := store_at bits _ _).
    assert (Hdrop : drop (Z.to_nat (Z.of_nat n * pitch)) bits1
                    = row pitch (ahead h) 0
                      ++ drop (Z.to_nat (Z.of_nat (S n) * pitch)) bits).
    { unfold bits1, store_at, store.
      rewrite drop_app_length' by (rewrite length_take; lia).
      rewrite Hgot, drop_drop. unfold row. rewrite Z.mul_0_l. cbn [Z.to_nat drop].
      f_equal. f_equal. nia. }
    assert (Hbits1 : Z.of_nat n * pitch <= Z.of_nat (length bits1)).
    { unfold bits1, store_at, store.
      rewrite Hgot, !length_app, !length_take, !length_drop. nia. }
    rewrite (IH (c + 1) bits1) by
      (try exact Hbits1; try lia; rewrite ahead_after_read, length_drop; nia).
    unfold result, handle_after, calls. cbn [fst snd content position replicate].
    assert (Hrows :
      concat (map (fun k : nat =>
                     row pitch (ahead (Handle (content h) (position h + Z.to_nat pitch)))
                         (Z.of_nat k)) (reverse (seq 0 n)))
      ++ drop (Z.to_nat (Z.of_nat n * pitch)) bits1
      = concat (map (fun k : nat => row pitch (ahead h) (Z.of_nat k))
                    (reverse (seq 0 (S n))))
        ++ drop (Z.to_nat (Z.of_nat (S n) * pitch)) bits).
    { rewrite Hdrop.
      cbn [seq]. rewrite reverse_cons, map_app, concat_app.
      cbn [map concat]. rewrite app_nil_r, <- app_assoc. f_equal.
      rewrite <- seq_shift.
      change (map S (seq 0 n)) with (S <$> seq 0 n). rewrite <- fmap_reverse.
      change (S <$> reverse (seq 0 n)) with (map S (reverse (seq 0 n))).
      rewrite map_map. f_equal.
      apply map_ext. intros k. apply row_after_read. lia. }
    rewrite Hrows.
    replace (position h + Z.to_nat pitch + Z.to_nat (Z.of_nat n * pitch))%nat
      with (position h + Z.to_nat (Z.of_nat (S n) * pitch))%nat by nia.
    reflexivity.
Qed.

(** A top-down file that ends early. *)
Lemma load_rows_short frames (n : nat) (c positiveHeight pitch : Z) bits h :
  0 < pitch -> Z.of_nat (length (ahead h)) < Z.of_nat n * pitch ->
  (result (run frames (load_rows n c positiveHeight pitch bits) h)).1 = false.
Proof.
  intros Hp. revert c bits h.
  induction n as [|n IH]; intros c bits h Hav; cbn [load_rows].
  - lia.
  - change (read_proc pitch 1 ≫= ?f) with (ReadProc pitch 1 (fun r => bind (Ret r) f)).
    rewrite run_ReadProc. cbv zeta. rewrite do_read_one by exact Hp.
    cbn [fst snd bind].
    destruct (Z.leb_spec pitch (Z.of_nat (length (ahead h)))) as [Hle|Hgt].
    + change (negb (1 =? 1)) with false. cbv iota.
      unfold result at 1. cbn [fst]. apply IH.
      rewrite ahead_after_read, length_drop, length_take. nia.
    + reflexivity.
Qed.

(** [LoadPixelData] succeeds exactly when the stream still holds the
    [abs(height) * pitch] bytes of the pixels.  A bottom-up file
    ([height > 0]) is stored as it is read.  A top-down file ([height < 0])
    is turned over: its first row becomes the last scan line of the dib, so
    that the dib holds the rows of the file in reverse order. *)
Theorem LoadPixelData_spec (frames : Z -> bool) (bits : list Z)
    (height pitch bit_count : Z) (h : fi_handle) :
  0 < pitch -> Z.abs height * pitch < 2 ^ 32 ->
  Z.of_nat (length bits) = Z.abs height * pitch ->
  (Z.abs height * pitch <= Z.of_nat (length (ahead h)) ->
     result (run frames (LoadPixelData bits height pitch bit_count) h)
     = (true,
        if 0 <? height then take (Z.to_nat (height * pitch)) (ahead h)
        else concat (map (fun k : nat => row pitch (ahead h) (Z.of_nat k))
                         (reverse (seq 0 (Z.to_nat (Z.abs height))))))
     /\ position (handle_after
                    (run frames (LoadPixelData bits height pitch bit_count) h))
        = (position h + Z.to_nat (Z.abs height * pitch))%nat)
  /\ (Z.of_nat (length (ahead h)) < Z.abs height * pitch ->
        (result (run frames (LoadPixelData bits height pitch bit_count) h)).1
        = false).
Proof.
  intros Hp Hsize Hbits. unfold LoadPixelData.
  destruct (Z.ltb_spec 0 height) as [Hpos|Hneg].
  - rewrite Z.abs_eq in * by lia.
    unfold to_unsigned. rewrite Z.mod_small by nia.
    change (read_proc ?s 1 ≫= ?f) with (ReadProc s 1 (fun r => bind (Ret r) f)).
    rewrite run_ReadProc. cbv zeta. rewrite do_read_one by nia.
    cbn [fst snd bind]. split.
    + intros Hav.
      destruct (Z.leb_spec (height * pitch) (Z.of_nat (length (ahead h)))); [|lia].
      change (negb (1 =? 1)) with false. cbv iota.
      unfold result, handle_after. cbn [run fst snd position].
      split.
      * f_equal. unfold store. rewrite drop_ge, app_nil_r; [reflexivity|].
        rewrite length_take. lia.
      * rewrite length_take. lia.
    + intros Hav.
      destruct (Z.leb_spec (height * pitch) (Z.of_nat (length (ahead h)))); [lia|].
      reflexivity.
  - cbv zeta. split.
    + intros Hav.
      rewrite (load_rows_stored frames _ 0 (Z.abs height) pitch bits h Hp)
        by (rewrite ?Z2Nat.id by lia; lia).
      unfold result, handle_after. cbn [fst snd position].
      rewrite Z2Nat.id by lia. split; [|reflexivity].
      f_equal. rewrite drop_ge by lia. apply app_nil_r.
    + intros Hav. apply load_rows_short; [exact Hp|].
      rewrite Z2Nat.id by lia. exact Hav.
Qed.

(** The theorem at work: a top-down file of two rows of two bytes. *)
Lemma LoadPixelData_spec_witness :
  result (run (fun _ => true) (LoadPixelData [0; 0; 0; 0] (-2) 2 8)
            (Handle [1; 2; 3; 4; 5] 0))
  = (true, [3; 4; 1; 2])
  /\ (result (run (fun _ => true) (LoadPixelData [0; 0; 0; 0] (-2) 2 8)
                (Handle [1; 2; 3] 0))).1 = false.
Proof.
  split.
  - apply (proj1 (LoadPixelData_spec (fun _ => true) [0; 0; 0; 0] (-2) 2 8
                    (Handle [1; 2; 3; 4; 5] 0)
                    ltac:(lia) ltac:(reflexivity) ltac:(reflexivity))).
    cbn. lia.
  - apply (proj2 (LoadPixelData_spec (fun _ => true) [0; 0; 0; 0] (-2) 2 8
                    (Handle [1; 2; 3] 0)
                    ltac:(lia) ltac:(reflexivity) ltac:(reflexivity))).
    cbn. lia.
Defined.

End BMPPixelsFacts.
